(** * sfdLib: the SFD parser ([Lib/sfdLib/parser.py]) as a shallow embedding

    The Python class [SFDParser] reads a FontForge SFD source, one record
    per line, and fills a destination font object.  The development models

    - the Python values the parser handles (strings, integers, lists,
      ordered dictionaries, exceptions),
    - the destination font as a store of glyph objects and layers,
    - the parser object ([self]) as a record of its private tables,
    - every method of the class as a state-passing function that may
      raise, in the order and with the names of the source.

    Strings are sequences of code units; the character classes used by
    the parser ([isalpha], [isdigit], [isspace]) are the ASCII ones. *)

From Stdlib Require Import ZArith String Ascii List Bool Lia.
From Stdlib Require Import DecimalString DecimalNat DecimalZ.
From Stdlib Require Import Sorting.Permutation Sorting.Sorted.
From stdpp Require Import base option list gmap strings.

(** ** Python values and exceptions *)

Module Py.

(** The exceptions the parser can end with.  [Diverges] stands for a run
    whose cursor never leaves the input (the loop budget ran out). *)
Inductive exn : Type :=
| AssertionError
| TypeError
| ValueError
| IndexError
| KeyError
| UnboundLocalError
| AttributeError
| Exception (msg : string)
| Diverges.

Inductive result (A : Type) : Type :=
| Ok (a : A)
| Raise (e : exn).
Arguments Ok {A} a.
Arguments Raise {A} e.

Definition rbind {A B} (r : result A) (k : A → result B) : result B :=
  match r with
  | Ok a => k a
  | Raise e => Raise e
  end.

Definition of_option {A} (e : exn) (o : option A) : result A :=
  match o with
  | Some a => Ok a
  | None => Raise e
  end.

Fixpoint rmap {A B} (f : A → result B) (l : list A) : result (list B) :=
  match l with
  | [] => Ok []
  | x :: l' => rbind (f x) (λ y, rbind (rmap f l') (λ ys, Ok (y :: ys)))
  end.

(** *** [str] methods *)

Definition isspace (c : ascii) : bool :=
  let n := nat_of_ascii c in
  ((9 <=? n) && (n <=? 13) || (28 <=? n) && (n <=? 32))%nat.

Definition isdigit (c : ascii) : bool :=
  let n := nat_of_ascii c in ((48 <=? n) && (n <=? 57))%nat.

Definition isalpha (c : ascii) : bool :=
  let n := nat_of_ascii c in
  ((65 <=? n) && (n <=? 90) || (97 <=? n) && (n <=? 122))%nat.

Definition isalnum (c : ascii) : bool := isalpha c || isdigit c.

(** [ord(ch)] *)
Definition ord (c : ascii) : nat := nat_of_ascii c.

Fixpoint lstrip (s : string) : string :=
  match s with
  | String c s' => if isspace c then lstrip s' else s
  | EmptyString => EmptyString
  end.

Definition rstrip (s : string) : string := String.rev (lstrip (String.rev s)).

(** [s.strip()] *)
Definition strip (s : string) : string := rstrip (lstrip s).

(** [s.startswith(p)] *)
Definition startswith (s p : string) : bool := String.prefix p s.

(** [s.endswith(p)] *)
Definition endswith (s p : string) : bool :=
  String.prefix (String.rev p) (String.rev s).

(** [sub in s] *)
Fixpoint contains (sub s : string) : bool :=
  String.prefix sub s ||
  match s with
  | String _ s' => contains sub s'
  | EmptyString => false
  end.

Fixpoint drop_str (n : nat) (s : string) : string :=
  match n, s with
  | S k, String _ s' => drop_str k s'
  | _, _ => s
  end.

(** [s[:n]] *)
Fixpoint take_str (n : nat) (s : string) : string :=
  match n, s with
  | S k, String c s' => String c (take_str k s')
  | _, _ => EmptyString
  end.

(** [s.split(sep)] for a non-empty separator: the pieces between the
    successive, non-overlapping occurrences of [sep], read left to right.
    [skip] counts the characters of a found separator still to pass over,
    [cur] is the current piece, latest character first. *)
Fixpoint split_go (sep : string) (skip : nat) (cur : string) (s : string)
  : list string :=
  match s with
  | EmptyString => [String.rev cur]
  | String c s' =>
      match skip with
      | S k => split_go sep k cur s'
      | O =>
          if String.prefix sep s
          then String.rev cur :: split_go sep (String.length sep - 1) EmptyString s'
          else split_go sep 0 (String c cur) s'
      end
  end.

Definition split (sep s : string) : list string := split_go sep 0 EmptyString s.

(** [s.split(sep, n)]: cut at the first [n] occurrences only. *)
Fixpoint splitn_go (sep : string) (n : nat) (skip : nat) (cur : string) (s : string)
  : list string :=
  match s with
  | EmptyString => [String.rev cur]
  | String c s' =>
      match skip with
      | S k => splitn_go sep n k cur s'
      | O =>
          match n with
          | O => [String.rev cur +:+ s]
          | S n' =>
              if String.prefix sep s
              then String.rev cur ::
                   splitn_go sep n' (String.length sep - 1) EmptyString s'
              else splitn_go sep n 0 (String c cur) s'
          end
      end
  end.

Definition splitn (sep : string) (n : nat) (s : string) : list string :=
  splitn_go sep n 0 EmptyString s.

(** [s.split()]: the maximal runs of non-blank characters. *)
Fixpoint split_ws_go (cur : option string) (s : string) : list string :=
  match s with
  | EmptyString =>
      match cur with Some w => [String.rev w] | None => [] end
  | String c s' =>
      if isspace c
      then match cur with
           | Some w => String.rev w :: split_ws_go None s'
           | None => split_ws_go None s'
           end
      else split_ws_go (Some (String c (default EmptyString cur))) s'
  end.

Definition split_ws (s : string) : list string := split_ws_go None s.

(** [sep.join(l)] *)
Fixpoint join (sep : string) (l : list string) : string :=
  match l with
  | [] => EmptyString
  | [x] => x
  | x :: l' => x +:+ sep +:+ join sep l'
  end.

(** The one-character strings that a literal cannot hold. *)
Definition dquote : string := String (ascii_of_nat 34) EmptyString.
Definition nl : string := String (ascii_of_nat 10) EmptyString.
Definition tab : string := String (ascii_of_nat 9) EmptyString.

(** [str(n)] and ["%d" % n] *)
Definition str_of_Z (z : Z) : string := NilZero.string_of_int (Z.to_int z).
Definition str_of_nat (n : nat) : string := NilEmpty.string_of_uint (Nat.to_uint n).

(** [l[i]] with Python's index rule: a negative index counts from the end. *)
Definition getitem {A} (l : list A) (i : Z) : result A :=
  let n := Z.of_nat (length l) in
  if (0 <=? i)%Z then of_option IndexError (l !! Z.to_nat i)
  else if (0 <=? n + i)%Z then of_option IndexError (l !! Z.to_nat (n + i))
  else Raise IndexError.

(** [_splitList(data, n)] of the source: consecutive chunks of [n] items. *)
Fixpoint splitList_go {A} (fuel : nat) (data : list A) (n : nat) : list (list A) :=
  match fuel with
  | O => []
  | S f =>
      match data with
      | [] => []
      | _ => take n data :: splitList_go f (drop n data) n
      end
  end.

Definition _splitList {A} (data : list A) (n : nat) : list (list A) :=
  splitList_go (length data) data n.

(** *** Ordered dictionaries

    [OrderedDict] (and [dict] under the insertion-order rule) as an
    association list: assignment to a present key keeps its place. *)
Section Dict.
Context {K V : Type} `{EqDecision K}.

Fixpoint dget (d : list (K * V)) (k : K) : option V :=
  match d with
  | [] => None
  | (k', v) :: d' => if decide (k' = k) then Some v else dget d' k
  end.

Fixpoint dset (d : list (K * V)) (k : K) (v : V) : list (K * V) :=
  match d with
  | [] => [(k, v)]
  | (k', v') :: d' =>
      if decide (k' = k) then (k', v) :: d' else (k', v') :: dset d' k v
  end.

Definition dhas (d : list (K * V)) (k : K) : bool := bool_decide (is_Some (dget d k)).

Definition dkeys (d : list (K * V)) : list K := d.*1.
Definition dvalues (d : list (K * V)) : list V := d.*2.
End Dict.

(** [l[a:b]] with Python's slice rule: a negative bound counts from the
    end, and both are clipped to the list. *)
Definition slice {A} (l : list A) (a b : Z) : list A :=
  let n := Z.of_nat (length l) in
  let clip i := Z.to_nat (Z.max 0 (Z.min n (if (i <? 0)%Z then n + i else i))) in
  take (clip b - clip a) (drop (clip a) l).

(** [s.strip(chars)] *)
Fixpoint lstrip_chars (chars : list ascii) (s : string) : string :=
  match s with
  | String c s' => if bool_decide (c ∈ chars) then lstrip_chars chars s' else s
  | EmptyString => EmptyString
  end.

Definition strip_chars (chars : list ascii) (s : string) : string :=
  String.rev (lstrip_chars chars (String.rev (lstrip_chars chars s))).

(** [x in l] for a list *)
Definition inb {A} `{EqDecision A} (x : A) (l : list A) : bool :=
  bool_decide (x ∈ l).

(** [sorted(l, key=f)]: Python's sort is stable, and a stable sort has one
    possible result, the one straight insertion computes: an item is put
    in front of the items already placed whose key is not smaller. *)
Section Sorted.
Context {A K : Type} (ltb : K → K → bool) (key : A → K).

Fixpoint insert_by (x : A) (l : list A) : list A :=
  match l with
  | [] => [x]
  | y :: l' => if ltb (key y) (key x) then y :: insert_by x l' else x :: l
  end.

Definition sorted_by (l : list A) : list A :=
  fold_right insert_by [] l.
End Sorted.

End Py.

Import Py.

(** ** The collaborators of the parser

    Three interfaces stand for code that the parser calls and does not
    define: Python's own scalar readers and formatters, the regular
    expression engine applied to the module's patterns, and the helpers of
    [sfdLib.utils].  Every definition and theorem below holds for all
    their possible behaviours; [None] is a failed match or a [ValueError]. *)

(** Python's [float] values *)
Class Floats : Type := pyfloat : Type.

Class Builtins `{F : Floats} : Type := {
  (** floats are compared with [==] *)
  pyfloat_eq_dec :: EqDecision pyfloat;
  (** [int(s)] *)
  py_int : string → option Z;
  (** [int(s, 16)] *)
  py_int16 : string → option Z;
  (** [float(s)] *)
  py_float : string → option pyfloat;
  (** the literal [3.0] *)
  float_3 : pyfloat;
  (** ["%f" % x] and ["%g" % x] *)
  fmt_f : pyfloat → string;
  fmt_g : pyfloat → string;
  (** the truth value of a float *)
  float_truth : pyfloat → bool;
  (** the angle of a slanted guideline from [p0] to [p1], in degrees of
      [0..360]: [math.degrees(math.atan2(x1 - x0, y1 - y0))], plus [360]
      when negative *)
  guideline_angle : pyfloat → pyfloat → pyfloat → pyfloat → pyfloat;
  (** [codecs.escape_decode(s)[0].decode("utf-8")] *)
  escape_decode : string → option string;
  (** [datetime.utcfromtimestamp(n).strftime("%Y/%m/%d %H:%M:%S")] *)
  utc_strftime : Z → option string;
}.

Class Regex : Type := {
  (** [QUOTED_RE.findall] *)
  quoted_findall : string → list string;
  (** [LAYER_RE.match(..).groups()] *)
  layer_match : string → option (string * string * string * string);
  (** [GLYPH_SEGMENT_RE.split] *)
  glyph_segment_split : string → list string;
  (** [KERNS_RE.findall] *)
  kerns_findall : string → list (string * string * string);
  (** [ANCHOR_RE.match(..).groups()] *)
  anchor_match : string → option (string * string * string * string * string);
  (** [LOOKUP_RE.match(..).groups()] *)
  lookup_match :
    string → option (string * string * string * string * string * string);
  (** [TAG_RE.findall], [FEATURE_RE.findall], [LANGSYS_RE.findall] *)
  tag_findall : string → list string;
  feature_findall : string → list (string * string);
  langsys_findall : string → list (string * string);
  (** [SUBPOS_RE.match(..).groups()] *)
  subpos_match : string → option (string * string);
  (** [KERNS_RE.match(..).groups()] *)
  kerns_match : string → option (string * string * string);
  (** [DEVICETABLE_RE.split] *)
  devicetable_split : string → list string;
}.

(** ** The destination font *)

Section Model.
Context `{F : Floats}.

Set Warnings "-register-all".

(** The values stored in attributes and [lib] dictionaries. *)
Inductive pyval : Type :=
| VNone
| VBool (b : bool)
| VInt (z : Z)
| VFloat (x : pyfloat)
| VStr (s : string)
| VList (l : list pyval)
| VDict (d : list (string * pyval)).

(** A point is the list of its coordinates, as [_splitList(pts, 2)] cuts
    them. *)
Definition point : Type := list pyfloat.

(** What [pen.addPoint(pt, segmentType=.., smooth=..)] receives. *)
Definition penpoint : Type := point * option string * option bool.

(** A glyph object.  Scalar attributes ([width], [height], [unicodes],
    [note], [markColor]) live in [g_attrs], as Python keeps them. *)
Record Glyph : Type := {
  g_name : string;
  g_attrs : gmap string pyval;
  g_lib : gmap string pyval;
  g_anchors : list pyval;
  g_contours : list (list penpoint);
  g_components : list (string * list pyfloat);
}.

Definition newGlyphObject (name : string) : Glyph :=
  {| g_name := name;
     g_attrs := <["width" := VInt 0]> (<["height" := VInt 0]> ∅);
     g_lib := ∅; g_anchors := []; g_contours := []; g_components := [] |}.

Definition g_setattr (a : string) (v : pyval) (g : Glyph) : Glyph :=
  {| g_name := g_name g; g_attrs := <[a := v]> (g_attrs g); g_lib := g_lib g;
     g_anchors := g_anchors g; g_contours := g_contours g;
     g_components := g_components g |}.

Definition g_getattr (a : string) (g : Glyph) : pyval :=
  default VNone (g_attrs g !! a).

Definition g_setlib (k : string) (v : pyval) (g : Glyph) : Glyph :=
  {| g_name := g_name g; g_attrs := g_attrs g; g_lib := <[k := v]> (g_lib g);
     g_anchors := g_anchors g; g_contours := g_contours g;
     g_components := g_components g |}.

Definition g_appendAnchor (a : pyval) (g : Glyph) : Glyph :=
  {| g_name := g_name g; g_attrs := g_attrs g; g_lib := g_lib g;
     g_anchors := g_anchors g ++ [a]; g_contours := g_contours g;
     g_components := g_components g |}.

(** [pen.beginPath(); pen.addPoint(..) ...; pen.endPath()] *)
Definition g_addContour (c : list penpoint) (g : Glyph) : Glyph :=
  {| g_name := g_name g; g_attrs := g_attrs g; g_lib := g_lib g;
     g_anchors := g_anchors g; g_contours := g_contours g ++ [c];
     g_components := g_components g |}.

(** [pen.addComponent(name, matrix)] *)
Definition g_addComponent (n : string) (m : list pyfloat) (g : Glyph) : Glyph :=
  {| g_name := g_name g; g_attrs := g_attrs g; g_lib := g_lib g;
     g_anchors := g_anchors g; g_contours := g_contours g;
     g_components := g_components g ++ [(n, m)] |}.

(** A layer maps glyph names to glyph objects; an object is its index in
    the font's heap, so that two variables can hold the same glyph. *)
Record Layer : Type := {
  l_name : string;
  l_glyphs : list (string * nat);
}.

(** The font: [info] by attribute name, the glyph objects, the layers
    (the default layer is layer 0), the glyph order, the kerning table and
    the feature text ([None] until first written).  [attrs] holds what
    other attributes the font object itself has, by name: the parser
    sets none of them. *)
Record Font : Type := {
  info : gmap string pyval;
  heap : list Glyph;
  layers : list Layer;
  glyphOrder : list string;
  kerning : list (string * string * Z);
  features_text : option string;
  attrs : gmap string pyval;
}.

Definition f_with_info (i : gmap string pyval) (f : Font) : Font :=
  {| info := i; heap := heap f; layers := layers f; glyphOrder := glyphOrder f;
     kerning := kerning f; features_text := features_text f;
     attrs := attrs f |}.

Definition f_with_heap (h : list Glyph) (f : Font) : Font :=
  {| info := info f; heap := h; layers := layers f; glyphOrder := glyphOrder f;
     kerning := kerning f; features_text := features_text f;
     attrs := attrs f |}.

Definition f_with_layers (l : list Layer) (f : Font) : Font :=
  {| info := info f; heap := heap f; layers := l; glyphOrder := glyphOrder f;
     kerning := kerning f; features_text := features_text f;
     attrs := attrs f |}.

Definition f_with_glyphOrder (o : list string) (f : Font) : Font :=
  {| info := info f; heap := heap f; layers := layers f; glyphOrder := o;
     kerning := kerning f; features_text := features_text f;
     attrs := attrs f |}.

Definition f_with_kerning (k : list (string * string * Z)) (f : Font) : Font :=
  {| info := info f; heap := heap f; layers := layers f; glyphOrder := glyphOrder f;
     kerning := k; features_text := features_text f;
     attrs := attrs f |}.

Definition f_with_features (t : option string) (f : Font) : Font :=
  {| info := info f; heap := heap f; layers := layers f; glyphOrder := glyphOrder f;
     kerning := kerning f; features_text := t; attrs := attrs f |}.

(** [getattr(info, a)] and [setattr(info, a, v)] *)
Definition getinfo (a : string) (f : Font) : pyval := default VNone (info f !! a).
Definition setinfo (a : string) (v : pyval) (f : Font) : Font :=
  f_with_info (<[a := v]> (info f)) f.

(** [name in layer] and [layer[name]] *)
Definition layer_get (li : nat) (name : string) (f : Font) : option nat :=
  l ← layers f !! li; dget (l_glyphs l) name.

(** [layer.newGlyph(name)]: a fresh object takes the name in the layer
    (an older glyph of that name is replaced); the default layer also
    keeps the glyph order in step. *)
Definition layer_newGlyph (li : nat) (name : string) (f : Font) : Font * nat :=
  let id := length (heap f) in
  let ls := match layers f !! li with
            | Some l => <[li := {| l_name := l_name l;
                                    l_glyphs := dset (l_glyphs l) name id |}]> (layers f)
            | None => layers f
            end in
  let order := if (li =? 0)%nat && negb (inb name (glyphOrder f))
               then glyphOrder f ++ [name] else glyphOrder f in
  ({| info := info f; heap := heap f ++ [newGlyphObject name]; layers := ls;
      glyphOrder := order; kerning := kerning f;
      features_text := features_text f;
     attrs := attrs f |}, id).

(** [font.newLayer(name)]: a layer of a new name is added behind the
    others; a name that a layer of the font has already raises
    [KeyError]. *)
Definition font_newLayer (name : string) (f : Font) : result (Font * nat) :=
  if inb name (l_name <$> layers f) then Raise KeyError
  else Ok (f_with_layers (layers f ++ [{| l_name := name; l_glyphs := [] |}]) f,
           length (layers f)).

(** In-place change of a glyph object. *)
Definition update_glyph (id : nat) (u : Glyph → Glyph) (f : Font) : Font :=
  f_with_heap (alter u id (heap f)) f.

(** [font.kerning[n1, n2] = v] *)
Definition set_kerning (n1 n2 : string) (v : Z) (f : Font) : Font :=
  f_with_kerning
    (match list_find (λ e, e.1 = (n1, n2)) (kerning f) with
     | Some (i, _) => <[i := (n1, n2, v)]> (kerning f)
     | None => kerning f ++ [(n1, n2, v)]
     end) f.

(** The vertical extent that [getFontBounds(font.bounds)] reports. *)
Record Bounds : Type := { yMin : Z; yMax : Z }.

End Model.

(** ** The parser object *)

Section ParserState.
Context `{F : Floats}.

(** One kerning class: first groups, second groups (each led by the empty
    class [None]) and the flat table of values. *)
Definition KernClass : Type :=
  list (option (list string)) * list (option (list string)) * list Z.

(** The helpers imported from [sfdLib.utils]. *)
Class Utils : Type := {
  SFDReadUTF7 : string → result string;
  parseAltuni : string → list (list Z) → bool → result (list Z);
  parseAnchorPoint : string → string → pyfloat → pyfloat → Z → result pyval;
  parseColor : Z → result pyval;
  parseVersion : option string → result (pyval * pyval);
  getFontBounds : Font → result Bounds;
  processKernClasses : Font → list KernClass → result Font;
  GLYPHCLASS_KEY : string;
  DECOMPOSEREMOVEOVERLAP_KEY : string;
}.

(** An entry of [self._layers]: nothing yet, the name read from a [Layer]
    record, or a layer of the font. *)
Inductive layer_slot : Type :=
| SlotNone
| SlotName (n : string)
| SlotLayer (li : nat).

#[global] Instance layer_slot_eq_dec : EqDecision layer_slot.
Proof. solve_decision. Defined.

(** A token of a rule fragment: a glyph name or an unpacked number. *)
Inductive tok : Type :=
| TStr (s : string)
| TInt (z : Z).

#[global] Instance tok_eq_dec : EqDecision tok.
Proof. solve_decision. Defined.

(** A feature of a lookup: [[tag, (script, [lang, ...]), ...]]. *)
Record Feature : Type := {
  tag : string;
  langsys : list (string * list string);
}.

(** [self._lookupInfo[lookup]]: kind, flag names, features. *)
Definition LookupInfo : Type := string * list string * list Feature.

Record Parser : Type := {
  _ignore_uvs : bool;
  _use_ufo_anchors : bool;
  _layers : list layer_slot;
  _layerType : list (option bool);
  _glyphRefs : list (nat * list (option string));
  _glyphAnchors :
    list (string * list (string * list (string * (pyfloat * pyfloat * Z))));
  _glyphKerns : list (string * list (Z * Z));
  _glyphPosSub : list (string * list (string * list (string * list tok)));
  _anchorClasses : list (string * list string);
  _kernClasses : list (string * KernClass);
  _gsubLookups : list (string * list string);
  _gposLookups : list (string * list string);
  _lookupInfo : list (string * LookupInfo);
  _ligatureCarets : list (string * list Z);
  _sanitizedLookupNames : list (string * string);
}.

(** [SFDParser.__init__] *)
Definition __init__ (ignore_uvs ufo_anchors : bool) : Parser :=
  {| _ignore_uvs := ignore_uvs; _use_ufo_anchors := ufo_anchors;
     _layers := []; _layerType := [];
     _glyphRefs := []; _glyphAnchors := []; _glyphKerns := [];
     _glyphPosSub := []; _anchorClasses := []; _kernClasses := [];
     _gsubLookups := []; _gposLookups := []; _lookupInfo := [];
     _ligatureCarets := []; _sanitizedLookupNames := [] |}.

Definition set_layers v (p : Parser) : Parser :=
  {| _ignore_uvs := _ignore_uvs p; _use_ufo_anchors := _use_ufo_anchors p;
     _layers := v; _layerType := _layerType p;
     _glyphRefs := _glyphRefs p; _glyphAnchors := _glyphAnchors p;
     _glyphKerns := _glyphKerns p; _glyphPosSub := _glyphPosSub p;
     _anchorClasses := _anchorClasses p; _kernClasses := _kernClasses p;
     _gsubLookups := _gsubLookups p; _gposLookups := _gposLookups p;
     _lookupInfo := _lookupInfo p; _ligatureCarets := _ligatureCarets p;
     _sanitizedLookupNames := _sanitizedLookupNames p |}.

Definition set_layerType v (p : Parser) : Parser :=
  {| _ignore_uvs := _ignore_uvs p; _use_ufo_anchors := _use_ufo_anchors p;
     _layers := _layers p; _layerType := v;
     _glyphRefs := _glyphRefs p; _glyphAnchors := _glyphAnchors p;
     _glyphKerns := _glyphKerns p; _glyphPosSub := _glyphPosSub p;
     _anchorClasses := _anchorClasses p; _kernClasses := _kernClasses p;
     _gsubLookups := _gsubLookups p; _gposLookups := _gposLookups p;
     _lookupInfo := _lookupInfo p; _ligatureCarets := _ligatureCarets p;
     _sanitizedLookupNames := _sanitizedLookupNames p |}.

Definition set_glyphRefs v (p : Parser) : Parser :=
  {| _ignore_uvs := _ignore_uvs p; _use_ufo_anchors := _use_ufo_anchors p;
     _layers := _layers p; _layerType := _layerType p;
     _glyphRefs := v; _glyphAnchors := _glyphAnchors p;
     _glyphKerns := _glyphKerns p; _glyphPosSub := _glyphPosSub p;
     _anchorClasses := _anchorClasses p; _kernClasses := _kernClasses p;
     _gsubLookups := _gsubLookups p; _gposLookups := _gposLookups p;
     _lookupInfo := _lookupInfo p; _ligatureCarets := _ligatureCarets p;
     _sanitizedLookupNames := _sanitizedLookupNames p |}.

Definition set_glyphAnchors v (p : Parser) : Parser :=
  {| _ignore_uvs := _ignore_uvs p; _use_ufo_anchors := _use_ufo_anchors p;
     _layers := _layers p; _layerType := _layerType p;
     _glyphRefs := _glyphRefs p; _glyphAnchors := v;
     _glyphKerns := _glyphKerns p; _glyphPosSub := _glyphPosSub p;
     _anchorClasses := _anchorClasses p; _kernClasses := _kernClasses p;
     _gsubLookups := _gsubLookups p; _gposLookups := _gposLookups p;
     _lookupInfo := _lookupInfo p; _ligatureCarets := _ligatureCarets p;
     _sanitizedLookupNames := _sanitizedLookupNames p |}.

Definition set_glyphKerns v (p : Parser) : Parser :=
  {| _ignore_uvs := _ignore_uvs p; _use_ufo_anchors := _use_ufo_anchors p;
     _layers := _layers p; _layerType := _layerType p;
     _glyphRefs := _glyphRefs p; _glyphAnchors := _glyphAnchors p;
     _glyphKerns := v; _glyphPosSub := _glyphPosSub p;
     _anchorClasses := _anchorClasses p; _kernClasses := _kernClasses p;
     _gsubLookups := _gsubLookups p; _gposLookups := _gposLookups p;
     _lookupInfo := _lookupInfo p; _ligatureCarets := _ligatureCarets p;
     _sanitizedLookupNames := _sanitizedLookupNames p |}.

Definition set_glyphPosSub v (p : Parser) : Parser :=
  {| _ignore_uvs := _ignore_uvs p; _use_ufo_anchors := _use_ufo_anchors p;
     _layers := _layers p; _layerType := _layerType p;
     _glyphRefs := _glyphRefs p; _glyphAnchors := _glyphAnchors p;
     _glyphKerns := _glyphKerns p; _glyphPosSub := v;
     _anchorClasses := _anchorClasses p; _kernClasses := _kernClasses p;
     _gsubLookups := _gsubLookups p; _gposLookups := _gposLookups p;
     _lookupInfo := _lookupInfo p; _ligatureCarets := _ligatureCarets p;
     _sanitizedLookupNames := _sanitizedLookupNames p |}.

Definition set_anchorClasses v (p : Parser) : Parser :=
  {| _ignore_uvs := _ignore_uvs p; _use_ufo_anchors := _use_ufo_anchors p;
     _layers := _layers p; _layerType := _layerType p;
     _glyphRefs := _glyphRefs p; _glyphAnchors := _glyphAnchors p;
     _glyphKerns := _glyphKerns p; _glyphPosSub := _glyphPosSub p;
     _anchorClasses := v; _kernClasses := _kernClasses p;
     _gsubLookups := _gsubLookups p; _gposLookups := _gposLookups p;
     _lookupInfo := _lookupInfo p; _ligatureCarets := _ligatureCarets p;
     _sanitizedLookupNames := _sanitizedLookupNames p |}.

Definition set_kernClasses v (p : Parser) : Parser :=
  {| _ignore_uvs := _ignore_uvs p; _use_ufo_anchors := _use_ufo_anchors p;
     _layers := _layers p; _layerType := _layerType p;
     _glyphRefs := _glyphRefs p; _glyphAnchors := _glyphAnchors p;
     _glyphKerns := _glyphKerns p; _glyphPosSub := _glyphPosSub p;
     _anchorClasses := _anchorClasses p; _kernClasses := v;
     _gsubLookups := _gsubLookups p; _gposLookups := _gposLookups p;
     _lookupInfo := _lookupInfo p; _ligatureCarets := _ligatureCarets p;
     _sanitizedLookupNames := _sanitizedLookupNames p |}.

Definition set_gsubLookups v (p : Parser) : Parser :=
  {| _ignore_uvs := _ignore_uvs p; _use_ufo_anchors := _use_ufo_anchors p;
     _layers := _layers p; _layerType := _layerType p;
     _glyphRefs := _glyphRefs p; _glyphAnchors := _glyphAnchors p;
     _glyphKerns := _glyphKerns p; _glyphPosSub := _glyphPosSub p;
     _anchorClasses := _anchorClasses p; _kernClasses := _kernClasses p;
     _gsubLookups := v; _gposLookups := _gposLookups p;
     _lookupInfo := _lookupInfo p; _ligatureCarets := _ligatureCarets p;
     _sanitizedLookupNames := _sanitizedLookupNames p |}.

Definition set_gposLookups v (p : Parser) : Parser :=
  {| _ignore_uvs := _ignore_uvs p; _use_ufo_anchors := _use_ufo_anchors p;
     _layers := _layers p; _layerType := _layerType p;
     _glyphRefs := _glyphRefs p; _glyphAnchors := _glyphAnchors p;
     _glyphKerns := _glyphKerns p; _glyphPosSub := _glyphPosSub p;
     _anchorClasses := _anchorClasses p; _kernClasses := _kernClasses p;
     _gsubLookups := _gsubLookups p; _gposLookups := v;
     _lookupInfo := _lookupInfo p; _ligatureCarets := _ligatureCarets p;
     _sanitizedLookupNames := _sanitizedLookupNames p |}.

Definition set_lookupInfo v (p : Parser) : Parser :=
  {| _ignore_uvs := _ignore_uvs p; _use_ufo_anchors := _use_ufo_anchors p;
     _layers := _layers p; _layerType := _layerType p;
     _glyphRefs := _glyphRefs p; _glyphAnchors := _glyphAnchors p;
     _glyphKerns := _glyphKerns p; _glyphPosSub := _glyphPosSub p;
     _anchorClasses := _anchorClasses p; _kernClasses := _kernClasses p;
     _gsubLookups := _gsubLookups p; _gposLookups := _gposLookups p;
     _lookupInfo := v; _ligatureCarets := _ligatureCarets p;
     _sanitizedLookupNames := _sanitizedLookupNames p |}.

Definition set_ligatureCarets v (p : Parser) : Parser :=
  {| _ignore_uvs := _ignore_uvs p; _use_ufo_anchors := _use_ufo_anchors p;
     _layers := _layers p; _layerType := _layerType p;
     _glyphRefs := _glyphRefs p; _glyphAnchors := _glyphAnchors p;
     _glyphKerns := _glyphKerns p; _glyphPosSub := _glyphPosSub p;
     _anchorClasses := _anchorClasses p; _kernClasses := _kernClasses p;
     _gsubLookups := _gsubLookups p; _gposLookups := _gposLookups p;
     _lookupInfo := _lookupInfo p; _ligatureCarets := v;
     _sanitizedLookupNames := _sanitizedLookupNames p |}.

Definition set_sanitizedLookupNames v (p : Parser) : Parser :=
  {| _ignore_uvs := _ignore_uvs p; _use_ufo_anchors := _use_ufo_anchors p;
     _layers := _layers p; _layerType := _layerType p;
     _glyphRefs := _glyphRefs p; _glyphAnchors := _glyphAnchors p;
     _glyphKerns := _glyphKerns p; _glyphPosSub := _glyphPosSub p;
     _anchorClasses := _anchorClasses p; _kernClasses := _kernClasses p;
     _gsubLookups := _gsubLookups p; _gposLookups := _gposLookups p;
     _lookupInfo := _lookupInfo p; _ligatureCarets := _ligatureCarets p;
     _sanitizedLookupNames := v |}.

(** ** State and exceptions

    A method runs on the parser object and the font it fills.  What it
    changed before raising stays changed, as in Python. *)
Record St : Type := { self : Parser; font : Font }.

Definition M (A : Type) : Type := St → St * result A.

Definition ret {A} (a : A) : M A := λ st, (st, Ok a).

Definition bind {A B} (m : M A) (k : A → M B) : M B :=
  λ st, match m st with
        | (st', Ok a) => k a st'
        | (st', Raise e) => (st', Raise e)
        end.

Definition raise {A} (e : exn) : M A := λ st, (st, Raise e).

Definition lift {A} (r : result A) : M A := λ st, (st, r).

Definition get_self : M Parser := λ st, (st, Ok (self st)).
Definition get_font : M Font := λ st, (st, Ok (font st)).

Definition mod_self (u : Parser → Parser) : M unit :=
  λ st, ({| self := u (self st); font := font st |}, Ok tt).

Definition mod_font (u : Font → Font) : M unit :=
  λ st, ({| self := self st; font := u (font st) |}, Ok tt).

(** [assert b] *)
Definition assert (b : bool) : M unit :=
  if b then ret tt else raise AssertionError.

End ParserState.

Notation "x <- m ; k" := (bind m (λ x, k))
  (at level 20, m at level 100, k at level 200, only parsing).
Notation "' p <- m ; k" := (bind m (λ x, match x with p => k end))
  (at level 20, p pattern, m at level 100, k at level 200, only parsing).
Notation "m >> k" := (bind m (λ _, k))
  (at level 100, k at level 200, right associativity, only parsing).
Notation "x <-? r ; k" := (rbind r (λ x, k))
  (at level 20, r at level 100, k at level 200, only parsing).
Notation "' p <-? r ; k" := (rbind r (λ x, match x with p => k end))
  (at level 20, p pattern, r at level 100, k at level 200, only parsing).

(** ** The methods of [SFDParser] *)

Section SFDParser.
Context `{B : Builtins} `{R : Regex} `{U : !Utils}.

(** [int(value)] where [value] may be [None] *)
Definition int_of (value : option string) : result Z :=
  match value with
  | Some v => of_option ValueError (py_int v)
  | None => Raise TypeError
  end.

(** [float(value)] where [value] may be [None] *)
Definition float_of (value : option string) : result pyfloat :=
  match value with
  | Some v => of_option ValueError (py_float v)
  | None => Raise TypeError
  end.

(** A method of a string held in a variable that may be [None]. *)
Definition str_of (value : option string) : result string :=
  of_option AttributeError value.

(** A string handed to a helper that reads its characters. *)
Definition arg_of (value : option string) : result string :=
  of_option TypeError value.

(** *** [_getSection]

    The lines from [data[i]] up to the first one that starts with [end_],
    and the cursor past that line.  Running off the input is an
    [IndexError]. *)
Fixpoint getSection_go (fuel : nat) (data : list string) (i : Z) (end_ : string)
    (section : list string) : result (list string * Z) :=
  match fuel with
  | O => Raise Diverges
  | S f =>
      line <-? getitem data i;
      if startswith line end_ then Ok (section, (i + 1)%Z)
      else getSection_go f data (i + 1)%Z end_ (section ++ [line])
  end.

Definition _getSection (data : list string) (i : Z) (end_ : string)
    (value : option string) : result (list string * Z) :=
  getSection_go (S (length data + Z.to_nat (Z.abs i))) data i end_
    (match value with Some v => [v] | None => [] end).

(** *** [_parseSplineSet] *)

(** A segment [(pts, segmentType, flags)] of a contour, or the name that
    a [Named] line appended to it. *)
Inductive citem : Type :=
| Seg (pts : list point) (segmentType : string) (flags : string)
| Named (name : string).

Definition contour : Type := list citem.

(** [contours[-1].append(x)] *)
Definition append_last (contours : list contour) (x : citem) : result (list contour) :=
  match reverse contours with
  | [] => Raise IndexError
  | c :: cs => Ok (reverse cs ++ [c ++ [x]])
  end.

Definition parseSegment (line : string) (contours : list contour)
  : result (list contour) :=
  match strip <$> glyph_segment_split line with
  | [pts; segmentType; flags] =>
      pts <-? rmap (λ c, of_option ValueError (py_float c)) (split " " pts);
      let pts := _splitList pts 2 in
      if decide (segmentType = "m") then
        if decide (length pts = 1%nat) then Ok (contours ++ [[Seg pts segmentType flags]])
        else Raise AssertionError
      else if decide (segmentType = "l") then
        if decide (length pts = 1%nat) then append_last contours (Seg pts segmentType flags)
        else Raise AssertionError
      else if decide (segmentType = "c") then
        if decide (length pts = 3%nat) then append_last contours (Seg pts segmentType flags)
        else Raise AssertionError
      else Ok contours
  | _ => Raise ValueError
  end.

Fixpoint parseSplineSet_go (fuel : nat) (data : list string) (i : Z)
    (contours : list contour) : result (list contour) :=
  match fuel with
  | O => Raise Diverges
  | S f =>
      if (i <? Z.of_nat (length data))%Z then
        line <-? getitem data i;
        let i := (i + 1)%Z in
        if decide (line = "Spiro") then
          '(spiro, i) <-? _getSection data i "EndSpiro" None;
          parseSplineSet_go f data (i + 1)%Z contours
        else if startswith line "Named" then
          name <-? of_option IndexError (split ": " line !! 1%nat);
          name <-? SFDReadUTF7 name;
          contours <-? append_last contours (Named name);
          parseSplineSet_go f data i contours
        else
          contours <-? parseSegment line contours;
          parseSplineSet_go f data i contours
      else Ok contours
  end.

Definition _parseSplineSet (data : list string) : result (list contour) :=
  parseSplineSet_go (S (length data)) data 0%Z [].

(** *** [_drawContours] *)

(** The base value of a flag field: what stands before any [,] or [x]. *)
Definition flag_of (flags : string) : result Z :=
  f <-? of_option IndexError (head (split "," flags));
  f <-? of_option IndexError (head (split "x" f));
  of_option ValueError (py_int f).

(** Python's truth value of [quadratic], as read from [self._layerType]. *)
Definition truthy (q : option bool) : bool := default false q.

(** One turn of [for pts, segmentType, flags in contour]: the points the
    segment adds to [ufoContour], and whether it forces the path open. *)
Definition drawSegment (quadratic : option bool) (it : citem)
  : result (list penpoint * bool) :=
  match it with
  | Named _ => Raise ValueError
  | Seg pts segmentType flags =>
      flag <-? flag_of flags;
      let forceOpen := negb (Z.land flag 0x400 =? 0)%Z in
      let smooth := negb (Z.land flag 0x3 =? 1)%Z in
      if decide (segmentType = "m") then
        p <-? of_option IndexError (pts !! 0%nat);
        Ok ([(p, Some "move", Some smooth)], forceOpen)
      else if decide (segmentType = "l") then
        p <-? of_option IndexError (pts !! 0%nat);
        Ok ([(p, Some "line", Some smooth)], forceOpen)
      else if truthy quadratic then
        p0 <-? of_option IndexError (pts !! 0%nat);
        p1 <-? of_option IndexError (pts !! 1%nat);
        if decide (p0 = p1) then
          let pts := drop 1 pts in
          if negb (Z.land flag 0x80 =? 0)%Z then
            Ok ((λ pt, (pt, None, None)) <$> pts, forceOpen)
          else
            p <-? of_option IndexError (last pts);
            Ok (((λ pt, (pt, None, None)) <$> removelast pts)
                  ++ [(p, Some "qcurve", Some smooth)], forceOpen)
        else Raise AssertionError
      else
        p <-? of_option IndexError (last pts);
        Ok (((λ pt, (pt, None, None)) <$> removelast pts)
              ++ [(p, Some "curve", Some smooth)], forceOpen)
  end.

(** The whole [for] loop over one contour: [(ufoContour, forceOpen)]. *)
Fixpoint drawSegments (quadratic : option bool) (c : contour)
    (ufoContour : list penpoint) (forceOpen : bool) : result (list penpoint * bool) :=
  match c with
  | [] => Ok (ufoContour, forceOpen)
  | it :: c' =>
      '(pts, fo) <-? drawSegment quadratic it;
      drawSegments quadratic c' (ufoContour ++ pts) (forceOpen || fo)
  end.

(** [if not isinstance(contour[-1], (tuple, list)): name = contour.pop()] *)
Definition popName (c : contour) : result contour :=
  match last c with
  | None => Raise IndexError
  | Some (Named _) => Ok (removelast c)
  | Some (Seg _ _ _) => Ok c
  end.

(** The "closed path" step: [ufoContour[0] = ufoContour[-1]] and
    [ufoContour.pop()] when the guard holds. *)
Definition closePath (forceOpen : bool) (ufoContour : list penpoint) : list penpoint :=
  match ufoContour, last ufoContour with
  | p0 :: rest, Some pn =>
      if negb forceOpen && (1 <? length ufoContour)%nat
         && bool_decide (p0.1.1 = pn.1.1)
      then pn :: removelast rest
      else ufoContour
  | _, _ => ufoContour
  end.

(** What [pen] receives for one contour. *)
Definition drawContour (quadratic : option bool) (c : contour) : result (list penpoint) :=
  c <-? popName c;
  '(ufoContour, forceOpen) <-? drawSegments quadratic c [] false;
  Ok (closePath forceOpen ufoContour).

Fixpoint _drawContours (glyph : nat) (contours : list contour)
    (quadratic : option bool) : M unit :=
  match contours with
  | [] => ret tt
  | c :: rest =>
      pts <- lift (drawContour quadratic c);
      mod_font (update_glyph glyph (g_addContour pts)) >>
      _drawContours glyph rest quadratic
  end.


(** *** Loops and attribute access in the state monad *)

Fixpoint forM {A} (l : list A) (body : A → M unit) : M unit :=
  match l with
  | [] => ret tt
  | x :: l' => body x >> forM l' body
  end.

Fixpoint mapM {A B} (f : A → M B) (l : list A) : M (list B) :=
  match l with
  | [] => ret []
  | x :: l' => y <- f x; ys <- mapM f l'; ret (y :: ys)
  end.

(** Nested [for] loops that append to one output list. *)
Definition flatM {A B} (f : A → M (list B)) (l : list A) : M (list B) :=
  ls <- mapM f l; ret (concat ls).

Definition get_info (a : string) : M pyval := f <- get_font; ret (getinfo a f).
Definition set_info (a : string) (v : pyval) : M unit := mod_font (setinfo a v).

(** Python's truth value *)
Definition truth (v : pyval) : bool :=
  match v with
  | VNone => false
  | VBool b => b
  | VInt z => negb (z =? 0)%Z
  | VFloat x => float_truth x
  | VStr s => negb (String.eqb s "")
  | VList l => negb (bool_decide (l = []))
  | VDict d => negb (bool_decide (d = []))
  end.

(** [value] stored as it is: a string or [None] *)
Definition str_val (value : option string) : pyval :=
  match value with Some v => VStr v | None => VNone end.

(** [[i for i in range(n) if v & (1 << i)]] *)
Definition bits (n : nat) (v : Z) : list pyval :=
  (λ i, VInt (Z.of_nat i)) <$> filter (λ i, Z.testbit v (Z.of_nat i) = true) (seq 0 n).

(** [getattr(info, a).append(v)] *)
Definition info_append (a : string) (v : pyval) : M unit :=
  l <- get_info a;
  match l with
  | VList l => set_info a (VList (l ++ [v]))
  | _ => raise AttributeError
  end.

(** *** [_parsePrivateDict] *)

Definition privateValue (value : string) : result pyval :=
  if startswith value "[" && endswith value "]" then
    let inner := String.rev (drop_str 1 (String.rev (drop_str 1 value))) in
    l <-? rmap (λ n, of_option ValueError (py_float n)) (split " " inner);
    Ok (VList (VFloat <$> l))
  else
    x <-? of_option ValueError (py_float value); Ok (VFloat x).

(** [value[0]] *)
Definition first_item (v : pyval) : result pyval :=
  match v with
  | VList l => of_option IndexError (head l)
  | _ => Raise TypeError
  end.

(** [x in l] *)
Definition float_in (x : pyfloat) (l : list pyval) : bool :=
  existsb (λ v, match v with VFloat y => bool_decide (x = y) | _ => false end) l.

(** [l.pop(l.index(x))] *)
Fixpoint remove_first (x : pyfloat) (l : list pyval) : list pyval :=
  match l with
  | [] => []
  | VFloat y :: l' => if decide (x = y) then l' else VFloat y :: remove_first x l'
  | v :: l' => v :: remove_first x l'
  end.

(** The promotion of [StdHW] (or [StdVW]) to the head of its stem list. *)
Definition promoteStem (attr : string) (std : pyval) : M unit :=
  if truth std then
    match std with
    | VFloat x =>
        l <- get_info attr;
        match l with
        | VList l =>
            set_info attr (VList (VFloat x ::
                             (if float_in x l then remove_first x l else l)))
        | _ => raise TypeError
        end
    | _ => raise TypeError
    end
  else ret tt.

Fixpoint privateLines (data : list string) (StdHW StdVW : pyval) : M (pyval * pyval) :=
  match data with
  | [] => ret (StdHW, StdVW)
  | line :: data' =>
      match strip <$> splitn " " 2 line with
      | [key; n; value] =>
          n <- lift (of_option ValueError (py_int n));
          assert (Z.of_nat (String.length value) =? n)%Z >>
          value <- lift (privateValue value);
          if decide (key = "BlueValues") then
            set_info "postscriptBlueValues" value >> privateLines data' StdHW StdVW
          else if decide (key = "OtherBlues") then
            set_info "postscriptOtherBlues" value >> privateLines data' StdHW StdVW
          else if decide (key = "FamilyBlues") then
            set_info "postscriptFamilyBlues" value >> privateLines data' StdHW StdVW
          else if decide (key = "FamilyOtherBlues") then
            set_info "postscriptFamilyOtherBlues" value >> privateLines data' StdHW StdVW
          else if decide (key = "BlueFuzz") then
            set_info "postscriptBlueFuzz" value >> privateLines data' StdHW StdVW
          else if decide (key = "BlueShift") then
            set_info "postscriptBlueShift" value >> privateLines data' StdHW StdVW
          else if decide (key = "BlueScale") then
            set_info "postscriptBlueScale" value >> privateLines data' StdHW StdVW
          else if decide (key = "ForceBold") then
            set_info "postscriptForceBold" value >> privateLines data' StdHW StdVW
          else if decide (key = "StemSnapH") then
            set_info "postscriptStemSnapH" value >> privateLines data' StdHW StdVW
          else if decide (key = "StemSnapV") then
            set_info "postscriptStemSnapV" value >> privateLines data' StdHW StdVW
          else if decide (key = "StdHW") then
            v <- lift (first_item value); privateLines data' v StdVW
          else if decide (key = "StdVW") then
            v <- lift (first_item value); privateLines data' StdHW v
          else privateLines data' StdHW StdVW
      | _ => raise ValueError
      end
  end.

Definition _parsePrivateDict (data : list string) : M unit :=
  match data with
  | [] => raise IndexError
  | n :: data =>
      n <- lift (of_option ValueError (py_int n));
      assert (Z.of_nat (length data) =? n)%Z >>
      ' (StdHW, StdVW) <- privateLines data VNone VNone;
      promoteStem "postscriptStemSnapH" StdHW >>
      promoteStem "postscriptStemSnapV" StdVW
  end.

(** *** [_parseGaspTable] *)

Definition gaspRecord (pair : list string) : result pyval :=
  match pair with
  | [ppem; flags] =>
      ppem <-? of_option ValueError (py_int ppem);
      flags <-? of_option ValueError (py_int flags);
      Ok (VDict [("rangeMaxPPEM", VInt ppem);
                 ("rangeGaspBehavior", VList (bits 4 flags))])
  | _ => Raise ValueError
  end.

Definition _parseGaspTable (data : option string) : M unit :=
  data <- lift (str_of data);
  match split " " data with
  | [] => raise IndexError
  | num :: data =>
      num <- lift (of_option ValueError (py_int num));
      version <- lift (of_option IndexError (last data));
      let data := removelast data in
      version <- lift (of_option ValueError (py_int version));
      assert (Z.of_nat (length data) =? num * 2)%Z >>
      records <- lift (rmap gaspRecord (_splitList data 2));
      if bool_decide (records = []) then ret tt
      else set_info "openTypeGaspRangeRecords" (VList records)
  end.

(** *** [_parseNames] *)

Definition _NAMES : list (option string) := [
  Some "copyright";
  Some "familyName";
  Some "styleName";
  Some "openTypeNameUniqueID";
  None;
  Some "openTypeNameVersion";
  Some "postscriptFontName";
  Some "trademark";
  Some "openTypeNameManufacturer";
  Some "openTypeNameDesigner";
  Some "openTypeNameDescription";
  Some "openTypeNameManufacturerURL";
  Some "openTypeNameDesignerURL";
  Some "openTypeNameLicense";
  Some "openTypeNameLicenseURL";
  None;
  Some "openTypeNamePreferredFamilyName";
  Some "openTypeNamePreferredSubfamilyName";
  Some "openTypeNameCompatibleFullName";
  Some "openTypeNameSampleText";
  None;
  Some "openTypeNameWWSFamilyName";
  Some "openTypeNameWWSSubfamilyName"
].

Definition nameRecord (langId : Z) (nameId : nat) (name : string) : M unit :=
  name <- lift (SFDReadUTF7 name);
  if negb (String.eqb name "") then
    let generic :=
      recs <- get_info "openTypeNameRecords";
      (if truth recs then ret tt else set_info "openTypeNameRecords" (VList [])) >>
      info_append "openTypeNameRecords"
        (VDict [("nameID", VInt (Z.of_nat nameId)); ("languageID", VInt langId);
                ("string", VStr name); ("platformID", VInt 3);
                ("encodingID", VInt 1)]) in
    if (langId =? 1033)%Z then
      slot <- lift (of_option IndexError (_NAMES !! nameId));
      match slot with
      | Some attr => set_info attr (VStr name)
      | None => generic
      end
    else generic
  else ret tt.

Fixpoint nameRecords (langId : Z) (nameId : nat) (data : list string) : M unit :=
  match data with
  | [] => ret tt
  | name :: data' => nameRecord langId nameId name >> nameRecords langId (S nameId) data'
  end.

Definition _parseNames (data : option string) : M unit :=
  data <- lift (str_of data);
  match splitn " " 1 data with
  | [langId; rest] =>
      langId <- lift (of_option ValueError (py_int langId));
      nameRecords langId 0 (quoted_findall rest)
  | _ => ret tt
  end.

(** *** [_parseGrid] *)

Definition opt_float (x : option pyfloat) : pyval :=
  match x with Some x => VFloat x | None => VNone end.

(** The guideline of the line from [p0] to [p1]. *)
Definition guideline (name : pyval) (p0 : option point) (p1 : point) : result pyval :=
  p0 <-? of_option TypeError p0;
  x0 <-? of_option IndexError (p0 !! 0%nat);
  x1 <-? of_option IndexError (p1 !! 0%nat);
  if decide (x0 = x1) then
    Ok (VDict [("x", VFloat x0); ("y", VNone); ("name", name); ("angle", VNone)])
  else
    y0 <-? of_option IndexError (p0 !! 1%nat);
    y1 <-? of_option IndexError (p1 !! 1%nat);
    if decide (y0 = y1) then
      Ok (VDict [("x", VNone); ("y", VFloat y0); ("name", name); ("angle", VNone)])
    else
      Ok (VDict [("x", VFloat x0); ("y", VFloat y0); ("name", name);
                 ("angle", VFloat (guideline_angle x0 y0 x1 y1))]).

Fixpoint gridSegments (name : pyval) (c : contour) (p0 : option point) : M unit :=
  match c with
  | [] => ret tt
  | Named _ :: _ => raise ValueError
  | Seg pts segmentType _ :: c' =>
      if decide (segmentType = "m") then
        p <- lift (of_option IndexError (pts !! 0%nat));
        gridSegments name c' (Some p)
      else if decide (segmentType = "l") then
        p1 <- lift (of_option IndexError (pts !! 0%nat));
        g <- lift (guideline name p0 p1);
        info_append "guidelines" g >>
        gridSegments name c' p0
      else
        p <- lift (of_option IndexError (pts !! 0%nat));
        gridSegments name c' (Some p)
  end.

Definition gridContour (c : contour) : M unit :=
  match last c with
  | None => raise IndexError
  | Some it =>
      let '(name, c) := match it with
                        | Named n => (VStr n, removelast c)
                        | Seg _ _ _ => (VNone, c)
                        end in
      if decide (length c = 2%nat) then gridSegments name c None else ret tt
  end.

Definition _parseGrid (data : list string) : M unit :=
  contours <- lift (_parseSplineSet (strip <$> data));
  forM contours gridContour.

(** *** [_parseImage] *)
Definition _parseImage (glyph : nat) (data : list string) : M unit := ret tt.

(** *** [_parseKerns] *)

Definition _parseKerns (glyph_name : string) (data : option string) : M unit :=
  p <- get_self;
  assert (negb (dhas (_glyphKerns p) glyph_name)) >>
  data <- lift (arg_of data);
  let kerns := kerns_findall data in
  assert (negb (bool_decide (kerns = []))) >>
  mod_self (λ p, set_glyphKerns (dset (_glyphKerns p) glyph_name []) p) >>
  forM kerns (λ '(gid, kern, subtable),
    gid <- lift (of_option ValueError (py_int gid));
    kern <- lift (of_option ValueError (py_int kern));
    mod_self (λ p, set_glyphKerns
      (dset (_glyphKerns p) glyph_name
         (default [] (dget (_glyphKerns p) glyph_name) ++ [(gid, kern)])) p)).

(** *** [_parseKernClass] *)

(** One group of classes: [[v.split()[1:] for v in rows]] led by [None]. *)
Definition kernGroup (rows : list string) : list (option (list string)) :=
  None :: ((λ v, Some (tail (split_ws v))) <$> rows).

Definition _parseKernClass (data : list string) (i : Z) (value : option string)
  : M Z :=
  value <- lift (arg_of value);
  ' (n1, n2, name) <- lift (of_option AttributeError (kerns_match value));
  n1 <- lift (of_option ValueError (py_int n1));
  n2 <- lift (of_option ValueError (py_int n2));
  name <- lift (SFDReadUTF7 name);
  let first := kernGroup (slice data i (i + n1 - 1)) in
  let i := (i + (n1 - 1))%Z in
  let second := kernGroup (slice data i (i + n2 - 1)) in
  let i := (i + (n2 - 1))%Z in
  kerns <- lift (getitem data i);
  kerns <- lift (rmap (λ k, of_option ValueError (py_int k))
                   (filter (λ k, k ≠ "") (devicetable_split kerns)));
  mod_self (λ p, set_kernClasses (dset (_kernClasses p) name (first, second, kerns)) p) >>
  ret (i + 1)%Z.

(** *** [_parseAnchorClass] *)

Definition anchorClassPair (pair : list string) : M unit :=
  match pair with
  | [anchor; subtable] =>
      mod_self (λ p, set_anchorClasses
        (dset (_anchorClasses p) subtable
           (default [] (dget (_anchorClasses p) subtable) ++ [anchor])) p)
  | _ => raise ValueError
  end.

Definition _parseAnchorClass (data : option string) : M unit :=
  p <- get_self;
  assert (bool_decide (_anchorClasses p = [])) >>
  data <- lift (arg_of data);
  data <- lift (rmap SFDReadUTF7 (quoted_findall data));
  forM (_splitList data 2) anchorClassPair.

(** *** [_parseAnchorPoint] *)

Definition _parseAnchorPoint (glyph : nat) (glyph_name : string)
    (data : option string) : M unit :=
  data <- lift (arg_of data);
  m <- ret (anchor_match data);
  assert (bool_decide (is_Some m)) >>
  match m with
  | None => raise AssertionError
  | Some (name, x, y, kind, index) =>
      name <- lift (SFDReadUTF7 name);
      x <- lift (of_option ValueError (py_float x));
      y <- lift (of_option ValueError (py_float y));
      index <- lift (of_option ValueError (py_int index));
      p <- get_self;
      if _use_ufo_anchors p then
        a <- lift (parseAnchorPoint name kind x y index);
        mod_font (update_glyph glyph (g_appendAnchor a))
      else
        mod_self (λ p,
          let byGlyph := default [] (dget (_glyphAnchors p) glyph_name) in
          let byName := default [] (dget byGlyph name) in
          set_glyphAnchors
            (dset (_glyphAnchors p) glyph_name
               (dset byGlyph name (dset byName kind (x, y, index)))) p)
  end.

(** *** [_parsePosSub] *)

(** [int(p.split("=")[1])] *)
Definition posValue (p : string) : result tok :=
  v <-? of_option IndexError (split "=" p !! 1%nat);
  z <-? of_option ValueError (py_int v);
  Ok (TInt z).

Definition _parsePosSub (glyph_name : string) (key : string) (data : option string)
  : M unit :=
  data <- lift (arg_of data);
  m <- ret (subpos_match data);
  assert (bool_decide (is_Some m)) >>
  match m with
  | None => raise AssertionError
  | Some (subtable, possub) =>
      let key := String.rev (drop_str 1 (String.rev key)) in
      subtable <- lift (SFDReadUTF7 subtable);
      let possub := split_ws (strip possub) in
      mod_self (λ p,
        if dhas (_glyphPosSub p) glyph_name then p
        else set_glyphPosSub (dset (_glyphPosSub p) glyph_name []) p) >>
      possub <- lift (
        if decide (key = "Position") then rmap posValue possub
        else if decide (key = "PairPos") then
          rest <-? rmap posValue (drop 1 possub);
          Ok ((TStr <$> take 1 possub) ++ rest)
        else Ok (TStr <$> possub));
      if inb key ["Ligature"; "Substitution"; "AlternateSubs"; "MultipleSubs";
                  "Position"; "PairPos"] then
        mod_self (λ p,
          let byGlyph := default [] (dget (_glyphPosSub p) glyph_name) in
          let frags := default [] (dget byGlyph subtable) in
          set_glyphPosSub
            (dset (_glyphPosSub p) glyph_name
               (dset byGlyph subtable (frags ++ [(key, possub)]))) p)
      else raise AssertionError
  end.

(** *** [_parseChar] *)

Definition _LAYER_KEYWORDS : list string := ["Back"; "Fore"; "Layer"].

Definition _GLYPH_CLASSES : list string := [
  "automatic";
  "noclass";
  "baseglyph";
  "baseligature";
  "mark";
  "component"
].

(** The local variables of [_parseChar] that its loop updates.  [order]
    and [quadratic] have no value until a record assigns one. *)
Record CharLocals : Type := {
  unicodes : list Z;
  order : option Z;
  quadratic : option (option bool);
  layerGlyph : nat;
}.

Definition set_unicodes v (l : CharLocals) : CharLocals :=
  {| unicodes := v; order := order l; quadratic := quadratic l;
     layerGlyph := layerGlyph l |}.

Definition set_order v (l : CharLocals) : CharLocals :=
  {| unicodes := unicodes l; order := Some v; quadratic := quadratic l;
     layerGlyph := layerGlyph l |}.

Definition set_layer q g (l : CharLocals) : CharLocals :=
  {| unicodes := unicodes l; order := order l; quadratic := Some q;
     layerGlyph := g |}.

(** [key, value = line.split(": ", 1)] when [": "] occurs in the line,
    [key = line] and [value = None] otherwise. *)
Definition splitRecord (line : string) : string * option string :=
  if contains ": " line then
    match splitn ": " 1 line with
    | [key; value] => (key, Some value)
    | _ => (line, None)
    end
  else (line, None).

(** [self._LAYER_KEYWORDS.index(key)] *)
Definition keywordIndex (key : string) : result Z :=
  match list_find (λ k, k = key) _LAYER_KEYWORDS with
  | Some (i, _) => Ok (Z.of_nat i)
  | None => Raise ValueError
  end.

(** [idx = value and int(value) or self._LAYER_KEYWORDS.index(key)] *)
Definition layerIndex (key : string) (value : option string) : result Z :=
  match value with
  | None => keywordIndex key
  | Some v =>
      if String.eqb v "" then keywordIndex key
      else
        n <-? of_option ValueError (py_int v);
        if (n =? 0)%Z then keywordIndex key else Ok n
  end.

(** The body of the branch [key in self._LAYER_KEYWORDS]. *)
Definition selectLayer (glyph : nat) (name : string) (key : string)
    (value : option string) (loc : CharLocals) : M CharLocals :=
  idx <- lift (layerIndex key value);
  p <- get_self;
  layer <- lift (getitem (_layers p) idx);
  quadratic <- lift (getitem (_layerType p) idx);
  match layer with
  | SlotNone => raise TypeError
  | SlotName n =>
      if contains name n then raise TypeError else raise AttributeError
  | SlotLayer li =>
      f <- get_font;
      match layer_get li name f with
      | None =>
          let '(f', layerGlyph) := layer_newGlyph li name f in
          mod_font (λ _, f') >>
          f <- get_font;
          let width := default VNone (g_getattr "width" <$> heap f !! glyph) in
          mod_font (update_glyph layerGlyph (g_setattr "width" width)) >>
          ret (set_layer quadratic layerGlyph loc)
      | Some layerGlyph => ret (set_layer quadratic layerGlyph loc)
      end
  end.

(** One turn of the loop of [_parseChar], after [line = data[i]] and
    [i += 1]: the new cursor and the new local variables. *)
Definition charRecord (glyph : nat) (name : string) (data : list string) (i : Z)
    (key : string) (value : option string) (loc : CharLocals)
  : M (Z * CharLocals) :=
  if decide (key = "Width") then
    v <- lift (int_of value);
    mod_font (update_glyph glyph (g_setattr "width" (VInt v))) >> ret (i, loc)
  else if decide (key = "VWidth") then
    v <- lift (int_of value);
    mod_font (update_glyph glyph (g_setattr "height" (VInt v))) >> ret (i, loc)
  else if decide (key = "Encoding") then
    value <- lift (str_of value);
    l <- lift (rmap (λ v, of_option ValueError (py_int v)) (split_ws value));
    match l with
    | [enc; uni; order] =>
        let loc := set_order order loc in
        if (0 <=? uni)%Z then ret (i, set_unicodes (unicodes loc ++ [uni]) loc)
        else ret (i, loc)
    | _ => raise ValueError
    end
  else if decide (key = "AltUni2") then
    value <- lift (str_of value);
    altuni <- lift (rmap (λ v, of_option ValueError (py_int16 v)) (split "." value));
    p <- get_self;
    us <- lift (parseAltuni name (_splitList altuni 3) (_ignore_uvs p));
    ret (i, set_unicodes (unicodes loc ++ us) loc)
  else if decide (key = "GlyphClass") then
    v <- lift (int_of value);
    c <- lift (getitem _GLYPH_CLASSES v);
    mod_font (update_glyph glyph (g_setlib GLYPHCLASS_KEY (VStr c))) >> ret (i, loc)
  else if decide (key = "AnchorPoint") then
    _parseAnchorPoint glyph name value >> ret (i, loc)
  else if inb key _LAYER_KEYWORDS then
    loc <- selectLayer glyph name key value loc; ret (i, loc)
  else if decide (key = "SplineSet") then
    ' (splines, i) <- lift (_getSection data i "EndSplineSet" None);
    contours <- lift (_parseSplineSet splines);
    quadratic <- lift (of_option UnboundLocalError (quadratic loc));
    _drawContours (layerGlyph loc) contours quadratic >> ret (i, loc)
  else if decide (key = "Image") then
    ' (image, i) <- lift (_getSection data i "EndImage" value);
    _parseImage (layerGlyph loc) image >> ret (i, loc)
  else if decide (key = "Colour") then
    value <- lift (arg_of value);
    v <- lift (of_option ValueError (py_int16 value));
    c <- lift (parseColor v);
    mod_font (update_glyph (layerGlyph loc) (g_setattr "markColor" c)) >> ret (i, loc)
  else if decide (key = "Refer") then
    mod_self (λ p, set_glyphRefs
      (dset (_glyphRefs p) (layerGlyph loc)
         (default [] (dget (_glyphRefs p) (layerGlyph loc)) ++ [value])) p) >>
    ret (i, loc)
  else if decide (key = "Kerns2") then
    _parseKerns name value >> ret (i, loc)
  else if decide (key = "Comment") then
    value <- lift (arg_of value);
    note <- lift (SFDReadUTF7 value);
    mod_font (update_glyph glyph (g_setattr "note" (VStr note))) >> ret (i, loc)
  else if decide (key = "UnlinkRmOvrlpSave") then
    v <- lift (int_of value);
    mod_font (update_glyph glyph
      (g_setlib DECOMPOSEREMOVEOVERLAP_KEY (VBool (negb (v =? 0)%Z)))) >>
    ret (i, loc)
  else if decide (key = "LCarets2") then
    value <- lift (str_of value);
    v <- lift (rmap (λ v, of_option ValueError (py_int v)) (split " " value));
    match v with
    | [] => raise IndexError
    | num :: v =>
        if existsb (λ z, negb (z =? 0)%Z) v then
          assert (Z.of_nat (length v) =? num)%Z >>
          mod_self (λ p, set_ligatureCarets (dset (_ligatureCarets p) name v) p) >>
          ret (i, loc)
        else ret (i, loc)
    end
  else if inb key ["Position2"; "PairPos2"; "Ligature2"; "Substitution2";
                   "AlternateSubs2"; "MultipleSubs2"] then
    _parsePosSub name key value >> ret (i, loc)
  else if inb key ["HStem"; "VStem"; "DStem2"; "CounterMasks"] then ret (i, loc)
  else if decide (key = "Flags") then ret (i, loc)
  else if decide (key = "LayerCount") then ret (i, loc)
  else ret (i, loc).

Fixpoint parseChar_go (fuel : nat) (glyph : nat) (name : string)
    (data : list string) (i : Z) (loc : CharLocals) : M CharLocals :=
  match fuel with
  | O => raise Diverges
  | S f =>
      if (i <? Z.of_nat (length data))%Z then
        line <- lift (getitem data i);
        let '(key, value) := splitRecord line in
        ' (i, loc) <- charRecord glyph name data (i + 1)%Z key value loc;
        parseChar_go f glyph name data i loc
      else ret loc
  end.

(** [_parseChar(data)]: the glyph object, its name and its rank. *)
Definition _parseChar (data : list string) : M (nat * string * Z) :=
  match data with
  | [] => raise IndexError
  | first :: data =>
      match split ": " first with
      | [_; name] =>
          name <- (if startswith name dquote then lift (SFDReadUTF7 name) else ret name);
          f <- get_font;
          let '(f', glyph) := layer_newGlyph 0 name f in
          mod_font (λ _, f') >>
          loc <- parseChar_go (S (length data)) glyph name data 0%Z
                   {| unicodes := []; order := None; quadratic := None;
                      layerGlyph := glyph |};
          mod_font (update_glyph glyph
                      (g_setattr "unicodes" (VList (VInt <$> unicodes loc)))) >>
          order <- lift (of_option UnboundLocalError (order loc));
          ret (glyph, name, order)
      | _ => raise ValueError
      end
  end.

(** *** [_processReferences] and [_processKerns] *)

Definition addReference (glyph : nat) (ref : option string) : M unit :=
  ref <- lift (str_of ref);
  let ref := split_ws ref in
  gid <- lift (of_option IndexError (ref !! 0%nat));
  gid <- lift (of_option ValueError (py_int gid));
  f <- get_font;
  name <- lift (getitem (glyphOrder f) gid);
  matrix <- lift (rmap (λ v, of_option ValueError (py_float v)) (slice ref 3 9));
  mod_font (update_glyph glyph (g_addComponent name matrix)).

Definition _processReferences : M unit :=
  p <- get_self;
  forM (_glyphRefs p) (λ '(glyph, refs), forM refs (addReference glyph)).

Definition _processKerns : M unit :=
  p <- get_self;
  forM (_glyphKerns p) (λ '(name1, kerns),
    forM kerns (λ '(gid2, kern),
      f <- get_font;
      name2 <- lift (getitem (glyphOrder f) gid2);
      mod_font (set_kerning name1 name2 kern))).

(** *** [_parseChars] *)

(** The loop over the glyph block: [glyphOrderMap] after all sections. *)
Fixpoint parseChars_go (fuel : nat) (data : list string) (i : Z)
    (glyphOrderMap : list (string * Z)) : M (list (string * Z)) :=
  match fuel with
  | O => raise Diverges
  | S f =>
      if (i <? Z.of_nat (length data))%Z then
        line <- lift (getitem data i);
        let i := (i + 1)%Z in
        if startswith line "StartChar" then
          ' (char, i) <- lift (_getSection data i "EndChar" (Some line));
          ' (glyph, name, order) <- _parseChar char;
          parseChars_go f data i (dset glyphOrderMap name order)
        else parseChars_go f data i glyphOrderMap
      else ret glyphOrderMap
  end.

(** [sorted(glyphOrderMap, key=glyphOrderMap.get)] *)
Definition sortedGlyphNames (glyphOrderMap : list (string * Z)) : list string :=
  (sorted_by Z.ltb snd glyphOrderMap).*1.

Definition _parseChars (data : option (list string)) : M unit :=
  data <- lift (of_option TypeError data);
  let data := filter (λ l, l ≠ "") (strip <$> data) in
  glyphOrderMap <- parseChars_go (S (length data)) data 0%Z [];
  f <- get_font;
  assert (length (glyphOrder f) =? length glyphOrderMap)%nat >>
  mod_font (f_with_glyphOrder (sortedGlyphNames glyphOrderMap)).

(** *** [_parseLookup] *)

Definition _LOOKUP_TYPES : list (Z * string) := [
  (0x001, "gsub_single");
  (0x002, "gsub_multiple");
  (0x003, "gsub_alternate");
  (0x004, "gsub_ligature");
  (0x005, "gsub_context");
  (0x006, "gsub_contextchain");
  (0x008, "gsub_reversecchain");
  (0x0fd, "morx_indic");
  (0x0fe, "morx_context");
  (0x0ff, "morx_insert");
  (0x101, "gpos_single");
  (0x102, "gpos_pair");
  (0x103, "gpos_cursive");
  (0x104, "gpos_mark2base");
  (0x105, "gpos_mark2ligature");
  (0x106, "gpos_mark2mark");
  (0x107, "gpos_context");
  (0x108, "gpos_contextchain");
  (0x1ff, "kern_statemachine")
]%Z.

Definition _LOOKUP_FLAGS : list (Z * string) := [
  (1, "RightToLeft");
  (2, "IgnoreBaseGlyphs");
  (4, "IgnoreLigatures");
  (8, "IgnoreMarks")
]%Z.

Definition lookupFeature (f : string * string) : Feature :=
  {| tag := f.1;
     langsys := (λ '(script, langs), (script, tag_findall langs))
                  <$> langsys_findall f.2 |}.

Definition _parseLookup (data : option string) : M unit :=
  data <- lift (arg_of data);
  m <- ret (lookup_match data);
  assert (bool_decide (is_Some m)) >>
  match m with
  | None => raise AssertionError
  | Some (kind, flag, _, lookup, subtables, feature) =>
      kind <- lift (of_option ValueError (py_int kind));
      flag <- lift (of_option ValueError (py_int flag));
      lookup <- lift (SFDReadUTF7 lookup);
      subtables <- lift (rmap SFDReadUTF7 (quoted_findall subtables));
      (if negb (Z.shiftr kind 8 =? 0)%Z
       then mod_self (λ p, set_gposLookups (dset (_gposLookups p) lookup subtables) p)
       else mod_self (λ p, set_gsubLookups (dset (_gsubLookups p) lookup subtables) p)) >>
      let flags := snd <$> filter (λ e, Z.land flag e.1 ≠ 0%Z) _LOOKUP_FLAGS in
      let features := lookupFeature <$> feature_findall feature in
      kind <- lift (of_option KeyError (dget _LOOKUP_TYPES kind));
      mod_self (λ p, set_lookupInfo (dset (_lookupInfo p) lookup (kind, flags, features)) p)
  end.

(** *** [_fixOffsetMetrics] *)

Definition _OFFSET_METRICS : list (string * string) := [
  ("HheadAOffset", "openTypeHheaAscender");
  ("HheadDOffset", "openTypeHheaDescender");
  ("OS2TypoAOffset", "openTypeOS2TypoAscender");
  ("OS2TypoDOffset", "openTypeOS2TypoDescender");
  ("OS2WinAOffset", "openTypeOS2WinAscent");
  ("OS2WinDOffset", "openTypeOS2WinDescent")
].

(** [a + b] and [a - b] on the integers the parser stores *)
Definition py_add (a b : pyval) : result pyval :=
  match a, b with
  | VInt x, VInt y => Ok (VInt (x + y))
  | _, _ => Raise TypeError
  end.

Definition py_sub (a b : pyval) : result pyval :=
  match a, b with
  | VInt x, VInt y => Ok (VInt (x - y))
  | _, _ => Raise TypeError
  end.

(** [max(a, 0)] *)
Definition py_max0 (a : pyval) : result pyval :=
  match a with
  | VInt x => Ok (VInt (Z.max x 0))
  | _ => Raise TypeError
  end.

(** [self._font.ascender] and [self._font.descender]: attributes of the
    font object itself, not of its [info]; a font object that has no such
    attribute raises [AttributeError]. *)
Definition font_ascender (f : Font) : result pyval :=
  of_option AttributeError (attrs f !! "ascender").
Definition font_descender (f : Font) : result pyval :=
  of_option AttributeError (attrs f !! "descender").

(** One turn of the loop of [_fixOffsetMetrics]. *)
Definition fixOffsetMetric (bounds : Bounds) (metric : string) : M unit :=
  value <- get_info metric;
  f <- get_font;
  value <- lift (
    if decide (metric = "openTypeOS2TypoAscender") then
      a <-? font_ascender f; py_add a value
    else if decide (metric = "openTypeOS2TypoDescender") then
      d <-? font_descender f; py_add d value
    else if decide (metric = "openTypeOS2WinAscent") then py_add (VInt (yMax bounds)) value
    else if decide (metric = "openTypeOS2WinDescent") then
      v <-? py_add (VInt (- yMin bounds)) value; py_max0 v
    else if decide (metric = "openTypeHheaAscender") then py_add (VInt (yMax bounds)) value
    else if decide (metric = "openTypeHheaDescender") then py_add (VInt (yMin bounds)) value
    else Ok value);
  set_info metric value.

Definition _fixOffsetMetrics (metrics : list string) : M unit :=
  f <- get_font;
  bounds <- lift (getFontBounds f);
  forM metrics (fixOffsetMetric bounds).

(** *** [_writeGDEF] *)

(** [font.features.text += "\n".join(lines)], after the text is set to a
    newline when it is still [None]. *)
Definition appendFeatures (lines : list string) : M unit :=
  mod_font (λ f,
    f_with_features
      (Some (default nl (features_text f) +:+ join nl lines)) f).

Definition classNames : list (string * string) := [
  ("baseglyph", "@GDEF_Simple");
  ("baseligature", "@GDEF_Ligature");
  ("mark", "@GDEF_Mark");
  ("component", "@GDEF_Component")
].

(** The class of a glyph in the GDEF table; [None] leaves the glyph out. *)
Definition gdefClass (p : Parser) (f : Font) (name : string) : result (option string) :=
  glyph <-? of_option KeyError (layer_get 0 name f);
  let lib := default ∅ (g_lib <$> heap f !! glyph) in
  match lib !! GLYPHCLASS_KEY with
  | Some (VStr c) => Ok (Some c)
  | Some VNone | None =>
      if decide (name = ".notdef") then Ok None
      else
        let frags := concat (snd <$> default [] (dget (_glyphPosSub p) name)) in
        if existsb (λ '(kind, _), String.eqb kind "Ligature") frags
        then Ok (Some "baseligature") else Ok (Some "baseglyph")
  | Some _ => Ok None
  end.

Fixpoint gdefClasses (p : Parser) (f : Font) (names : list string)
    (gdef : list (string * list string)) : result (list (string * list string)) :=
  match names with
  | [] => Ok gdef
  | name :: names' =>
      c <-? gdefClass p f name;
      match c with
      | Some c =>
          gdefClasses p f names' (dset gdef c (default [] (dget gdef c) ++ [name]))
      | None => gdefClasses p f names' gdef
      end
  end.

(** The line of one class: the glyphs, wrapped before column 80. *)
Fixpoint classLine (glyphs : list string) (line : string) (n : nat) : string :=
  match glyphs with
  | [] => line +:+ "];"
  | glyph :: glyphs' =>
      let '(line, n) := if (80 <? n + String.length glyph + 1)%nat
                        then (line +:+ nl +:+ tab, 8%nat) else (line, n) in
      classLine glyphs' (line +:+ "\" +:+ glyph +:+ " ") (n + String.length glyph + 1)
  end.

Definition _writeGDEF : M unit :=
  p <- get_self;
  f <- get_font;
  gdef <- lift (gdefClasses p f (glyphOrder f) []);
  let classLines :=
    omap (λ '(name, classname),
            glyphs ← dget gdef name;
            Some (classLine glyphs (classname +:+ " = [") (String.length classname + 8)))
         classNames in
  let names := (λ '(name, classname), if dhas gdef name then classname else "")
                 <$> classNames in
  let carets := (λ '(k, v), "  LigatureCaretByPos \" +:+ k +:+ " "
                              +:+ join " " (str_of_Z <$> v) +:+ ";")
                  <$> _ligatureCarets p in
  appendFeatures (
    ["#Mark attachment classes (defined in GDEF, used in lookupflags)"; ""]
    ++ classLines
    ++ [""; "table GDEF {"; "  GlyphClassDef " +:+ join ", " names +:+ ";"; ""]
    ++ carets
    ++ ["} GDEF;"; ""; ""]).

(** *** [_santizeLookupName] *)

Definition _SHORT_LOOKUP_TYPES : list (string * string) := [
  ("gsub_single", "single");
  ("gsub_multiple", "mult");
  ("gsub_alternate", "alt");
  ("gsub_ligature", "ligature");
  ("gsub_context", "context");
  ("gsub_contextchain", "chain");
  ("gsub_reversecchain", "reversecc");
  ("gpos_single", "single");
  ("gpos_pair", "pair");
  ("gpos_cursive", "cursive");
  ("gpos_mark2base", "mark2base");
  ("gpos_mark2ligature", "mark2liga");
  ("gpos_mark2mark", "mark2mark");
  ("gpos_context", "context");
  ("gpos_contextchain", "chain")
].

(** The first loop: the characters of the raw name that are kept.  [i] is
    the position of the head of [s] in the raw name. *)
Fixpoint keptChars (i : nat) (s : string) : string :=
  match s with
  | EmptyString => EmptyString
  | String ch s' =>
      if (127 <=? ord ch)%nat then keptChars (S i) s'
      else if isalpha ch then String ch (keptChars (S i) s')
      else if bool_decide (ch = "."%char ∨ ch = "_"%char) then String ch (keptChars (S i) s')
      else if negb (i =? 0)%nat && isdigit ch then String ch (keptChars (S i) s')
      else keptChars (S i) s'
  end.

(** [out = out[:63]] after the first loop *)
Definition strippedName (lookup : string) : string := take_str 63 (keptChars 0 lookup).

(** The script part of a synthesized name: the loop
    [for langsys in fealangsys[0]] starts on the tag itself, whose first
    character it takes, and then goes through the scripts. *)
Definition scriptOf (f : Feature) : result string :=
  match tag f with
  | EmptyString => Raise IndexError
  | String c _ =>
      Ok (fold_left (λ script ls, if decide (ls.1 = "DFLT") then script else ls.1)
            (langsys f) (String c EmptyString))
  end.

(** ["%s_%s_%s%s_%d" % (isgpos and "pos" or "sub", kind, feat, script, i)] *)
Definition synthName (isgpos : bool) (kind feat script : string) (i : nat) : string :=
  (if isgpos then "pos" else "sub") +:+ "_" +:+ kind +:+ "_" +:+ feat +:+ script
    +:+ "_" +:+ str_of_nat i.

(** The [while True] loop: the first of [i], [i + 2], [i + 4], ... whose
    name is not in use.  A name in use is met at most once, so the loop
    makes at most one turn more than there are names in use. *)
Fixpoint freeName (fuel : nat) (used : list string) (mk : nat → string) (i : nat)
  : result string :=
  match fuel with
  | O => Raise Diverges
  | S f => if inb (mk i) used then freeName f used mk (i + 2) else Ok (mk i)
  end.

Definition _santizeLookupName (lookup : string) (isgpos : option bool) : M string :=
  p <- get_self;
  match dget (_sanitizedLookupNames p) lookup with
  | Some out => ret out
  | None =>
      assert (bool_decide (is_Some isgpos)) >>
      let isgpos := default false isgpos in
      let out := strippedName lookup in
      let used := dvalues (_sanitizedLookupNames p) in
      if negb (inb out used) then
        mod_self (set_sanitizedLookupNames (dset (_sanitizedLookupNames p) lookup out)) >>
        ret out
      else
        ' (kind, _, fealangsys) <- lift (of_option KeyError (dget (_lookupInfo p) lookup));
        let kind := default "unknown" (dget _SHORT_LOOKUP_TYPES kind) in
        ' (feat, script) <- lift (
          match fealangsys with
          | [] => Ok (EmptyString, EmptyString)
          | f :: _ => script <-? scriptOf f; Ok (tag f, script)
          end);
        out <- lift (freeName (S (length used)) used (synthName isgpos kind feat script) 0);
        mod_self (set_sanitizedLookupNames (dset (_sanitizedLookupNames p) lookup out)) >>
        ret out
  end.

(** *** [_sanitizeName] *)
Fixpoint _sanitizeName (name : string) : string :=
  match name with
  | EmptyString => EmptyString
  | String ch s' =>
      if (127 <=? ord ch)%nat then _sanitizeName s'
      else
        (if bool_decide (ch = " "%char) then "_" else "")
        +:+ (if isalnum ch || bool_decide (ch = "."%char ∨ ch = "_"%char)
             then String ch EmptyString else "")
        +:+ _sanitizeName s'
  end.

(** *** [_pruneSubtables] *)

(** A subtable survives when some glyph has rule fragments filed under
    its name, or when it is the subtable of an anchor class. *)
Definition survives (p : Parser) (sub : string) : bool :=
  existsb (λ '(g, frags), dhas frags sub) (_glyphPosSub p)
  || dhas (_anchorClasses p) sub.

Definition _pruneSubtables (p : Parser) (subtables : list string) (isgpos : bool)
  : list string :=
  filter (λ sub, survives p sub = true) subtables.

(** *** [_writeAnchorClass] *)

Definition anchor : Type := pyfloat * pyfloat * Z.

Definition _dumpAnchor (a : option (pyfloat * pyfloat)) : string :=
  match a with
  | None => "<anchor NULL>"
  | Some (x, y) => "<anchor " +:+ fmt_g x +:+ " " +:+ fmt_g y +:+ ">"
  end.

(** The groups of glyphs that share an anchor position and class. *)
Definition anchorGroups : Type := list (pyfloat * pyfloat * string * list string).

Definition addToGroup (a : option anchor) (anchorClass glyph : string)
    (groups : anchorGroups) : anchorGroups :=
  match a with
  | None => groups
  | Some (x, y, _) =>
      dset groups (x, y, anchorClass)
        (default [] (dget groups (x, y, anchorClass)) ++ [glyph])
  end.

(** The two nested loops over the anchor classes of the subtable and the
    glyphs of the font: the cursive lines, the mark groups, the base groups. *)
Definition anchorStep (p : Parser) (kind : string) (anchorClass glyph : string)
    (acc : list string * anchorGroups * anchorGroups)
  : list string * anchorGroups * anchorGroups :=
  let '(lines, marks, bases) := acc in
  match dget (_glyphAnchors p) glyph ≫= (λ byName, dget byName anchorClass) with
  | None => acc
  | Some a =>
      if decide (kind = "gpos_cursive") then
        let entry := dget a "entry" in
        let exit := dget a "exit" in
        if bool_decide (is_Some entry) || bool_decide (is_Some exit) then
          (lines ++ ["    pos cursive \" +:+ glyph +:+ " "
                       +:+ _dumpAnchor (fst <$> entry) +:+ " "
                       +:+ _dumpAnchor (fst <$> exit) +:+ ";"],
           marks, bases)
        else acc
      else
        let mark := dget a "mark" in
        let base := match dget a "basechar" with
                    | Some b => Some b
                    | None => dget a "basemark"
                    end in
        (lines, addToGroup mark anchorClass glyph marks,
         addToGroup base anchorClass glyph bases)
  end.

Definition _writeAnchorClass (p : Parser) (f : Font) (lookup subtable : string)
  : result (list string) :=
  ' (kind, _, _) <-? of_option KeyError (dget (_lookupInfo p) lookup);
  classes <-? of_option KeyError (dget (_anchorClasses p) subtable);
  let '(lines, marks, bases) :=
    fold_left (λ acc anchorClass,
                 fold_left (λ acc glyph, anchorStep p kind anchorClass glyph acc)
                   (glyphOrder f) acc)
      classes ([], [], []) in
  let markLines :=
    (λ '(x, y, anchorClass, glyphs),
       "  markClass [\" +:+ join " \" glyphs +:+ " ] " +:+ _dumpAnchor (Some (x, y))
         +:+ " @" +:+ _sanitizeName anchorClass +:+ ";") <$> marks in
  baseLines <-? rmap (λ '(x, y, anchorClass, glyphs),
       pos <-? of_option IndexError (split "2" kind !! 1%nat);
       if decide (pos = "ligature") then Raise AssertionError
       else Ok ("  pos " +:+ pos +:+ " [\" +:+ join " \" glyphs +:+ " ] "
                  +:+ _dumpAnchor (Some (x, y)) +:+ " mark @"
                  +:+ _sanitizeName anchorClass +:+ ";")) bases;
  Ok (lines ++ markLines ++ baseLines).

(** *** [_writeGSUBGPOS] *)

Definition tok_str (t : tok) : string :=
  match t with
  | TStr s => s
  | TInt z => str_of_Z z
  end.

(** [sep.join(possub)]: every item must be a string. *)
Definition join_toks (sep : string) (possub : list tok) : result string :=
  l <-? rmap (λ t, match t with TStr s => Ok s | TInt _ => Raise TypeError end) possub;
  Ok (join sep l).

(** The statement of one rule fragment, and the fragment afterwards (the
    pair positioning branch pops its first item in place). *)
Definition ruleLine (kind glyph : string) (possub : list tok)
  : result (string * list tok) :=
  if startswith kind "gsub_" then
    joined <-? join_toks " \" possub;
    if inb kind ["gsub_single"; "gsub_multiple"] then
      Ok ("    sub \" +:+ glyph +:+ " by \" +:+ joined +:+ " ;", possub)
    else if decide (kind = "gsub_alternate") then
      Ok ("    sub \" +:+ glyph +:+ " from [\" +:+ joined +:+ " ];", possub)
    else if decide (kind = "gsub_ligature") then
      Ok ("    sub \" +:+ joined +:+ "  by \" +:+ glyph +:+ ";", possub)
    else Raise AssertionError
  else if decide (kind = "gpos_single") then
    Ok ("    pos \" +:+ glyph +:+ " <" +:+ join " " (tok_str <$> possub) +:+ ">;", possub)
  else if decide (kind = "gpos_pair") then
    match possub with
    | [] => Raise IndexError
    | glyph2 :: possub =>
        Ok ("    pos \" +:+ glyph +:+ " <" +:+ join " " (tok_str <$> take 4 possub)
              +:+ "> \" +:+ tok_str glyph2
              +:+ " <" +:+ join " " (tok_str <$> drop 4 possub) +:+ ">;", possub)
    end
  else Raise AssertionError.

(** The loop over the fragments of one glyph under one subtable: the
    statements, the fragments as the loop leaves them, and the exception
    that ended it, if any. *)
Fixpoint ruleLines (kind glyph : string) (frags : list (string * list tok))
  : list string * list (string * list tok) * option exn :=
  match frags with
  | [] => ([], [], None)
  | (k, possub) :: rest =>
      match ruleLine kind glyph possub with
      | Raise e => ([], frags, Some e)
      | Ok (line, possub') =>
          let '(lines, rest', e) := ruleLines kind glyph rest in
          (line :: lines, (k, possub') :: rest', e)
      end
  end.

(** [for glyph in self._glyphPosSub: if subtable in ...[glyph]: ...] *)
Definition subtableRules (kind subtable : string) : M (list string) :=
  p <- get_self;
  flatM (λ glyph,
    p <- get_self;
    let byGlyph := default [] (dget (_glyphPosSub p) glyph) in
    match dget byGlyph subtable with
    | None => ret []
    | Some frags =>
        let '(lines, frags', e) := ruleLines kind glyph frags in
        mod_self (set_glyphPosSub
                    (dset (_glyphPosSub p) glyph (dset byGlyph subtable frags'))) >>
        match e with
        | Some e => raise e
        | None => ret lines
        end
    end) (dkeys (_glyphPosSub p)).

(** The block of one lookup: from its blank line to its closing brace. *)
Definition lookupBlock (lookup : string) (subtables : list string) : M (list string) :=
  p <- get_self;
  ' (kind, flags, _) <- lift (of_option KeyError (dget (_lookupInfo p) lookup));
  let flags := if bool_decide (flags = []) then "0"
               else if String.eqb (join " " flags) "" then "0" else join " " flags in
  name <- _santizeLookupName lookup None;
  body <- flatM (λ subtable,
            p <- get_self;
            f <- get_font;
            if dhas (_anchorClasses p) subtable
            then lift (_writeAnchorClass p f lookup subtable)
            else subtableRules kind subtable) subtables;
  name' <- _santizeLookupName lookup None;
  ret ([""; "lookup " +:+ name +:+ " {"; "  lookupflag " +:+ flags +:+ ";"]
       ++ body ++ ["} " +:+ name' +:+ ";"]).

(** [x not in l] guarded append: the items of [l], each once, in the
    order of their first occurrence. *)
Fixpoint distinct (l seen : list string) : list string :=
  match l with
  | [] => []
  | x :: l' => if inb x seen then distinct l' seen else x :: distinct l' (x :: seen)
  end.

(** The features of the surviving lookups, in order of lookup. *)
Definition survivingFeatures (p : Parser) (lookups : list (string * list string))
  : result (list Feature) :=
  fs <-? rmap (λ '(lookup, _),
                 ' (_, _, fealangsys) <-? of_option KeyError (dget (_lookupInfo p) lookup);
                 Ok fealangsys) lookups;
  Ok (concat fs).

(** [featureSet], [sorted(scriptSet)] and [sorted(langSet[script], ...)].
    A set is listed in order of first insertion before it is sorted. *)
Definition featureSet (fs : list Feature) : list string := distinct (tag <$> fs) [].

Definition scriptSet (fs : list Feature) : list string :=
  sorted_by String.ltb id (distinct (fst <$> concat (langsys <$> fs)) []).

Definition langKey (l : string) : string := if String.eqb l "dflt" then "0" else l.

Definition langSet (fs : list Feature) (script : string) : list string :=
  sorted_by String.ltb langKey
    (distinct (concat (snd <$> filter (λ sl, sl.1 = script) (concat (langsys <$> fs)))) []).

(** The innermost loops: the names of the lookups that serve
    [feature]/[script]/[language], once per matching entry. *)
Definition languageLookups (lookups : list (string * list string))
    (feature script language : string) : M (list string) :=
  flatM (λ '(lookup, _),
    p <- get_self;
    ' (_, _, fealangsys) <- lift (of_option KeyError (dget (_lookupInfo p) lookup));
    flatM (λ fl : Feature,
      if decide (feature = tag fl) then
        flatM (λ sl : string * list string,
          if decide (script = sl.1) then
            flatM (λ ll : string,
              if decide (language = ll) then
                name <- _santizeLookupName lookup None; ret [name]
              else ret []) sl.2
          else ret []) (langsys fl)
      else ret []) fealangsys) lookups.

(** [features]: feature, then script, then language, then lookup names;
    an entry is kept when it is not empty. *)
Definition featureTree (lookups : list (string * list string)) (fs : list Feature)
  : M (list (string * list (string * list (string * list string)))) :=
  outf <- mapM (λ feature,
    outs <- mapM (λ script,
      outl <- mapM (λ language,
        names <- languageLookups lookups feature script language;
        ret (language, names)) (langSet fs script);
      ret (script, filter (λ e, e.2 ≠ []) outl)) (scriptSet fs);
    ret (feature, filter (λ e, e.2 ≠ []) outs)) (featureSet fs);
  ret (filter (λ e, e.2 ≠ []) outf).

Definition languageLines (e : string * list string) : list string :=
  ("     language " +:+ e.1 +:+ " "
     +:+ (if String.eqb e.1 "dflt" then "" else "exclude_dflt") +:+ ";")
  :: ((λ lookup, "      lookup " +:+ lookup +:+ ";") <$> e.2).

Definition scriptLines (e : string * list (string * list string)) : list string :=
  [""; " script " +:+ e.1 +:+ ";"] ++ concat (languageLines <$> e.2).

Definition featureLines
    (e : string * list (string * list (string * list string))) : list string :=
  [""; "feature " +:+ e.1 +:+ " {"] ++ concat (scriptLines <$> e.2)
  ++ ["} " +:+ e.1 +:+ ";"].

Definition tableLookups (isgpos : bool) (p : Parser) : list (string * list string) :=
  if isgpos then _gposLookups p else _gsubLookups p.

(** [any(l)] for a list of strings *)
Definition any_str (l : list string) : bool := existsb (λ s, negb (String.eqb s "")) l.

(** The lookups kept by "Prune empty lookups". *)
Definition prunedLookups (isgpos : bool) (p : Parser) : list (string * list string) :=
  filter (λ e, any_str (_pruneSubtables p e.2 isgpos) = true) (tableLookups isgpos p).

(** The lines that one pass joins into the feature text ([None] when the
    pass returns early). *)
Definition tableLines (isgpos : bool) : M (option (list string)) :=
  p <- get_self;
  forM (dkeys (tableLookups isgpos p))
       (λ lookup, _santizeLookupName lookup (Some isgpos) >> ret tt) >>
  p <- get_self;
  let lookups := prunedLookups isgpos p in
  if bool_decide (lookups = []) then ret None
  else
    fs <- lift (survivingFeatures p lookups);
    features <- featureTree lookups fs;
    blocks <- flatM (λ '(lookup, subtables), lookupBlock lookup subtables) lookups;
    ret (Some (["# " +:+ (if isgpos then "GPOS" else "GSUB") +:+ " "; ""]
               ++ blocks ++ concat (featureLines <$> features) ++ [""])).

Definition _writeGSUBGPOS (isgpos : bool) : M unit :=
  lines <- tableLines isgpos;
  match lines with
  | None => ret tt
  | Some lines => appendFeatures lines
  end.

(** *** [parse] *)

(** What [self._path] holds: a file, or a directory with its
    [font.props] (if any) and its [*.glyph] files in the order the
    directory lists them. *)
Inductive Input : Type :=
| SFDFile (lines : list string)
| SFDDir (props : option (list string)) (glyphs : list (list string)).

(** The variables of the main loop. *)
Record FontLocals : Type := {
  cursor : Z;
  charData : option (list string);
  offsetMetrics : list string;
}.

Definition at_cursor (i : Z) (l : FontLocals) : FontLocals :=
  {| cursor := i; charData := charData l; offsetMetrics := offsetMetrics l |}.

(** [key, value = [v.strip() for v in line.split(":", 1)]] when [":"]
    occurs in the line, [key = line.strip()] and [value = None] otherwise. *)
Definition splitFontRecord (line : string) : string * option string :=
  if contains ":" line then
    match splitn ":" 1 line with
    | [key; value] => (strip key, Some (strip value))
    | _ => (strip line, None)
    end
  else (strip line, None).

(** The test of the first line. *)
Definition checkHeader (key : string) (value : option string) : result unit :=
  if negb (String.eqb key "SplineFontDB") then Raise (Exception "Not an SFD file.")
  else
    version <-? float_of value;
    if negb (bool_decide (version = float_3))
    then Raise (Exception ("Unsupported SFD version: " +:+ fmt_f version))
    else Ok tt.

Definition info_int (attr : string) (value : option string) : M unit :=
  v <- lift (int_of value); set_info attr (VInt v).

Definition info_float (attr : string) (value : option string) : M unit :=
  v <- lift (float_of value); set_info attr (VFloat v).

(** [l[idx] = v] *)
Definition setitem {A} (l : list A) (idx : Z) (v : A) : result (list A) :=
  let n := Z.of_nat (length l) in
  let i := if (idx <? 0)%Z then (n + idx)%Z else idx in
  if (0 <=? i)%Z && (i <? n)%Z then Ok (<[Z.to_nat i := v]> l) else Raise IndexError.

Definition layerRecord (value : option string) : M unit :=
  value <- lift (arg_of value);
  ' (idx, quadratic, name, _) <- lift (of_option AttributeError (layer_match value));
  idx <- lift (of_option ValueError (py_int idx));
  quadratic <- lift (of_option ValueError (py_int quadratic));
  name <- lift (SFDReadUTF7 name);
  p <- get_self;
  ls <- lift (setitem (_layers p) idx
                (if (idx =? 1)%Z then SlotLayer 0 else SlotName name));
  mod_self (set_layers ls) >>
  p <- get_self;
  lt <- lift (setitem (_layerType p) idx (Some (negb (quadratic =? 0)%Z)));
  mod_self (set_layerType lt).

(** [info.openTypeOS2Selection += [bit]], on a list made empty first
    when the attribute has no true value. *)
Definition addSelection (bit : Z) : M unit :=
  sel <- get_info "openTypeOS2Selection";
  (if truth sel then ret tt else set_info "openTypeOS2Selection" (VList [])) >>
  info_append "openTypeOS2Selection" (VInt bit).

(** One turn of the main loop after the first line: [None] is [break]. *)
Definition fontRecord (data : list string) (key : string) (value : option string)
    (loc : FontLocals) : M (option FontLocals) :=
  let continue := ret (Some loc) in
  if decide (key = "FontName") then
    set_info "postscriptFontName" (str_val value) >> continue
  else if decide (key = "FullName") then
    set_info "postscriptFullName" (str_val value) >> continue
  else if decide (key = "FamilyName") then
    set_info "familyName" (str_val value) >> continue
  else if decide (key = "DefaultBaseFilename") then continue
  else if decide (key = "Weight") then
    set_info "postscriptWeightName" (str_val value) >> continue
  else if decide (key = "Copyright") then
    value <- lift (arg_of value);
    v <- lift (of_option ValueError (escape_decode value));
    set_info "copyright" (VStr v) >> continue
  else if decide (key = "Comments") then
    set_info "note" (str_val value) >> continue
  else if decide (key = "UComments") then
    old <- get_info "note";
    value <- lift (arg_of value);
    note <- lift (SFDReadUTF7 value);
    set_info "note" (VStr note) >>
    (if truth old then
       match old with
       | VStr old => set_info "note" (VStr (note +:+ nl +:+ old))
       | _ => raise TypeError
       end
     else ret tt) >> continue
  else if decide (key = "FontLog") then
    old <- get_info "note";
    set_info "note" (VStr (if truth old then nl else "")) >>
    value <- lift (arg_of value);
    log <- lift (SFDReadUTF7 value);
    set_info "note"
      (VStr ((if truth old then nl else "") +:+ "Font log:" +:+ nl +:+ log)) >>
    continue
  else if decide (key = "Version") then
    ' (major, minor) <- lift (parseVersion value);
    set_info "versionMajor" major >> set_info "versionMinor" minor >> continue
  else if decide (key = "ItalicAngle") then
    v <- lift (float_of value);
    set_info "italicAngle" (VFloat v) >>
    set_info "postscriptSlantAngle" (VFloat v) >> continue
  else if decide (key = "UnderlinePosition") then
    info_float "postscriptUnderlinePosition" value >> continue
  else if decide (key = "UnderlineWidth") then
    info_float "postscriptUnderlineThickness" value >> continue
  else if contains key "Ascent" then
    info_int "ascender" value >> continue
  else if contains key "Descent" then
    v <- lift (int_of value); set_info "descender" (VInt (- v)) >> continue
  else if decide (key = "sfntRevision") then continue
  else if decide (key = "WidthSeparation") then continue
  else if decide (key = "LayerCount") then
    n <- lift (int_of value);
    mod_self (set_layers (replicate (Z.to_nat n) SlotNone)) >>
    mod_self (set_layerType (replicate (Z.to_nat n) None)) >> continue
  else if decide (key = "Layer") then layerRecord value >> continue
  else if decide (key = "DisplayLayer") then continue
  else if decide (key = "DisplaySize") then continue
  else if decide (key = "AntiAlias") then continue
  else if decide (key = "FitToEm") then continue
  else if decide (key = "WinInfo") then continue
  else if decide (key = "Encoding") then continue
  else if decide (key = "CreationTime") then
    v <- lift (int_of value);
    t <- lift (of_option ValueError (utc_strftime v));
    set_info "openTypeHeadCreated" (VStr t) >> continue
  else if decide (key = "ModificationTime") then continue
  else if decide (key = "FSType") then
    v <- lift (int_of value);
    set_info "openTypeOS2Type" (VList (bits 16 v)) >> continue
  else if decide (key = "PfmFamily") then continue
  else if inb key ["TTFWeight"; "PfmWeight"] then
    info_int "openTypeOS2WeightClass" value >> continue
  else if decide (key = "TTFWidth") then
    info_int "openTypeOS2WidthClass" value >> continue
  else if decide (key = "Panose") then
    value <- lift (str_of value);
    v <- lift (rmap (λ n, of_option ValueError (py_int n)) (split_ws value));
    set_info "openTypeOS2Panose" (VList (VInt <$> v)) >> continue
  else if decide (key = "LineGap") then
    info_int "openTypeHheaLineGap" value >> continue
  else if decide (key = "VLineGap") then
    info_int "openTypeVheaVertTypoLineGap" value >> continue
  else if decide (key = "HheadAscent") then
    info_int "openTypeHheaAscender" value >> continue
  else if decide (key = "HheadDescent") then
    info_int "openTypeHheaDescender" value >> continue
  else if decide (key = "OS2TypoLinegap") then
    info_int "openTypeOS2TypoLineGap" value >> continue
  else if decide (key = "OS2Vendor") then
    value <- lift (str_of value);
    set_info "openTypeOS2VendorID" (VStr (strip_chars ["'"%char] value)) >> continue
  else if decide (key = "OS2FamilyClass") then
    v <- lift (int_of value);
    set_info "openTypeOS2FamilyClass"
      (VList [VInt (Z.shiftr v 8); VInt (Z.land v 0xff)]) >> continue
  else if decide (key = "OS2Version") then continue
  else if decide (key = "OS2_WeightWidthSlopeOnly") then
    v <- lift (int_of value);
    (if negb (v =? 0)%Z then addSelection 8 else ret tt) >> continue
  else if decide (key = "OS2_UseTypoMetrics") then addSelection 7 >> continue
  else if decide (key = "OS2CodePages") then continue
  else if decide (key = "OS2UnicodeRanges") then continue
  else if decide (key = "OS2TypoAscent") then
    info_int "openTypeOS2TypoAscender" value >> continue
  else if decide (key = "OS2TypoDescent") then
    info_int "openTypeOS2TypoDescender" value >> continue
  else if decide (key = "OS2WinAscent") then
    info_int "openTypeOS2WinAscent" value >> continue
  else if decide (key = "OS2WinDescent") then
    info_int "openTypeOS2WinDescent" value >> continue
  else if dhas _OFFSET_METRICS key then
    v <- lift (int_of value);
    if negb (v =? 0)%Z then
      ret (Some {| cursor := cursor loc; charData := charData loc;
                   offsetMetrics := offsetMetrics loc
                     ++ [default "" (dget _OFFSET_METRICS key)] |})
    else continue
  else if decide (key = "OS2SubXSize") then
    info_int "openTypeOS2SubscriptXSize" value >> continue
  else if decide (key = "OS2SubYSize") then
    info_int "openTypeOS2SubscriptYSize" value >> continue
  else if decide (key = "OS2SubXOff") then
    info_int "openTypeOS2SubscriptXOffset" value >> continue
  else if decide (key = "OS2SubYOff") then
    info_int "openTypeOS2SubscriptYOffset" value >> continue
  else if decide (key = "OS2SupXSize") then
    info_int "openTypeOS2SuperscriptXSize" value >> continue
  else if decide (key = "OS2SupYSize") then
    info_int "openTypeOS2SuperscriptYSize" value >> continue
  else if decide (key = "OS2SupXOff") then
    info_int "openTypeOS2SuperscriptXOffset" value >> continue
  else if decide (key = "OS2SupYOff") then
    info_int "openTypeOS2SuperscriptYOffset" value >> continue
  else if decide (key = "OS2StrikeYSize") then
    info_int "openTypeOS2StrikeoutSize" value >> continue
  else if decide (key = "OS2StrikeYPos") then
    info_int "openTypeOS2StrikeoutPosition" value >> continue
  else if decide (key = "OS2CapHeight") then info_int "capHeight" value >> continue
  else if decide (key = "OS2XHeight") then info_int "xHeight" value >> continue
  else if decide (key = "UniqueID") then
    info_int "postscriptUniqueID" value >> continue
  else if decide (key = "LangName") then _parseNames value >> continue
  else if decide (key = "GaspTable") then _parseGaspTable value >> continue
  else if decide (key = "BeginPrivate") then
    ' (section, i) <- lift (_getSection data (cursor loc) "EndPrivate" value);
    _parsePrivateDict section >> ret (Some (at_cursor i loc))
  else if decide (key = "BeginChars") then
    ' (chars, i) <- lift (_getSection data (cursor loc) "EndChars" None);
    ret (Some {| cursor := i; charData := Some chars;
                 offsetMetrics := offsetMetrics loc |})
  else if decide (key = "Grid") then
    ' (grid, i) <- lift (_getSection data (cursor loc) "EndSplineSet" None);
    _parseGrid grid >> ret (Some (at_cursor i loc))
  else if decide (key = "KernClass2") then
    i <- _parseKernClass data (cursor loc) value; ret (Some (at_cursor i loc))
  else if decide (key = "Lookup") then _parseLookup value >> continue
  else if decide (key = "AnchorClass2") then _parseAnchorClass value >> continue
  else if decide (key = "XUID") then continue
  else if decide (key = "UnicodeInterp") then continue
  else if decide (key = "NameList") then continue
  else if decide (key = "DEI") then continue
  else if decide (key = "EndSplineFont") then ret None
  else continue.

(** The main loop.  [KernClass2] sets the cursor from numbers of the
    input, so the loop need not end; [fuel] bounds its turns. *)
Fixpoint parse_go (fuel : nat) (data : list string) (loc : FontLocals)
  : M FontLocals :=
  match fuel with
  | O => raise Diverges
  | S f =>
      if (cursor loc <? Z.of_nat (length data))%Z then
        line <- lift (getitem data (cursor loc));
        let i := (cursor loc + 1)%Z in
        let '(key, value) := splitFontRecord line in
        if (i =? 1)%Z then
          lift (checkHeader key value) >> parse_go f data (at_cursor i loc)
        else
          next <- fontRecord data key value (at_cursor i loc);
          match next with
          | Some loc => parse_go f data loc
          | None => ret (at_cursor i loc)
          end
      else ret loc
  end.

(** The loop that turns the names left in [self._layers] into layers. *)
Fixpoint createLayers (n : nat) (idx : nat) : M unit :=
  match n with
  | O => ret tt
  | S n' =>
      p <- get_self;
      match _layers p !! idx with
      | Some (SlotName name) =>
          let count := length (filter (λ s, s = SlotName name) (_layers p)) in
          let name := if negb (inb idx [0; 1]%nat) && negb (count =? 1)%nat
                      then name +:+ "_" +:+ str_of_nat idx else name in
          f <- get_font;
          ' (f', li) <- lift (font_newLayer name f);
          mod_font (λ _, f') >>
          mod_self (set_layers (<[idx := SlotLayer li]> (_layers p))) >>
          createLayers n' (S idx)
      | _ => createLayers n' (S idx)
      end
  end.

(** The kerning classes that the GPOS lookups refer to. *)
Definition kernSubtables (p : Parser) : list KernClass :=
  omap (dget (_kernClasses p)) (concat (snd <$> _gposLookups p)).

(** The fallback for a missing style name. *)
Definition defaultStyleName : M unit :=
  style <- get_info "styleName";
  match style with
  | VNone =>
      psname <- get_info "postscriptFontName";
      weight <- get_info "postscriptWeightName";
      match psname with
      | VStr n =>
          if negb (String.eqb n "") && contains "-" n then
            set_info "styleName" (VStr (default "" (splitn "-" 1 n !! 1%nat)))
          else if truth weight then set_info "styleName" weight
          else set_info "styleName" (VStr "Regular")
      | _ =>
          if truth psname then raise TypeError
          else if truth weight then set_info "styleName" weight
          else set_info "styleName" (VStr "Regular")
      end
  | _ => ret tt
  end.

Definition parse (fuel : nat) (input : Input) : M unit :=
  data <- lift (match input with
                | SFDFile lines => Ok lines
                | SFDDir (Some props) _ => Ok props
                | SFDDir None _ => Raise (Exception "Not an SFD directory")
                end);
  loc <- parse_go fuel data {| cursor := 0; charData := None; offsetMetrics := [] |};
  p <- get_self;
  createLayers (length (_layers p)) 0 >>
  charData <- match input with
              | SFDFile _ => ret (charData loc)
              | SFDDir _ glyphs =>
                  assert (bool_decide (charData loc = None)) >>
                  ret (Some (concat glyphs))
              end;
  _parseChars charData >>
  _processReferences >>
  _processKerns >>
  p <- get_self;
  f <- get_font;
  f' <- lift (processKernClasses f (kernSubtables p));
  mod_font (λ _, f') >>
  _fixOffsetMetrics (offsetMetrics loc) >>
  _writeGSUBGPOS false >>
  _writeGSUBGPOS true >>
  _writeGDEF >>
  ascender <- get_info "ascender";
  descender <- get_info "descender";
  upm <- lift (py_sub ascender descender);
  set_info "unitsPerEm" upm >>
  defaultStyleName.

End SFDParser.

(** ** A reference instance of the collaborators

    The theorems hold for every behaviour of the collaborators.  To run
    the parser on a concrete source they are fixed here: the module's
    patterns through a small backtracking matcher, numerals as plain
    decimal text, and the helpers of [sfdLib.utils] on plain ASCII names. *)

Module Re.

(** Regular expressions with the operators the module's patterns use. *)
Inductive re : Type :=
| Eps
| Chr (p : ascii → bool)
| Seq (a b : re)
| Star (greedy : bool) (a : re)
| Rep (n : nat) (a : re)
| Grp (a : re).

Definition lit (c : ascii) : re := Chr (λ x, bool_decide (x = c)).
Definition opt (a : re) : re := Rep 1 a.
Definition plus (a : re) : re := Seq a (Star true a).
Fixpoint seqs (l : list re) : re :=
  match l with
  | [] => Eps
  | [a] => a
  | a :: l' => Seq a (seqs l')
  end.

(** [.], [\s], [\S] and [\d] *)
Definition dot : re := Chr (λ x, negb (bool_decide (x = ascii_of_nat 10))).
Definition space : re := Chr isspace.
Definition nonspace : re := Chr (λ x, negb (isspace x)).
Definition digit : re := Chr isdigit.

(** Backtracking match of [r] at the head of [s]; [k] receives what is
    left of [s] and the groups closed so far. *)
Fixpoint run {T} (fuel : nat) (r : re) (s : string) (caps : list string)
    (k : string → list string → option T) : option T :=
  match fuel with
  | O => None
  | S f =>
      let shorter s' := (String.length s' <? String.length s)%nat in
      match r with
      | Eps => k s caps
      | Chr p =>
          match s with
          | String c s' => if p c then k s' caps else None
          | EmptyString => None
          end
      | Seq a b => run f a s caps (λ s' caps', run f b s' caps' k)
      | Star true a =>
          match run f a s caps
                  (λ s' caps', if shorter s' then run f (Star true a) s' caps' k else None) with
          | Some t => Some t
          | None => k s caps
          end
      | Star false a =>
          match k s caps with
          | Some t => Some t
          | None =>
              run f a s caps
                (λ s' caps', if shorter s' then run f (Star false a) s' caps' k else None)
          end
      | Rep O a => k s caps
      | Rep (S n) a =>
          match run f a s caps (λ s' caps', run f (Rep n a) s' caps' k) with
          | Some t => Some t
          | None => k s caps
          end
      | Grp a =>
          run f a s caps
            (λ s' caps',
               k s' (caps' ++ [take_str (String.length s - String.length s') s]))
      end
  end.

(** [r.match(s)]: the rest of [s] and the groups. *)
Definition exec (r : re) (s : string) : option (string * list string) :=
  run (2 * String.length s + 64) r s [] (λ s' caps, Some (s', caps)).

Definition skip1 (s : string) : string := drop_str 1 s.

(** [r.findall(s)]: the groups of the successive matches. *)
Fixpoint findall_go (fuel : nat) (r : re) (s : string) : list (list string) :=
  match fuel with
  | O => []
  | S f =>
      match s with
      | EmptyString => []
      | String _ s1 =>
          match exec r s with
          | Some (rest, caps) =>
              caps :: findall_go f r
                        (if (String.length rest <? String.length s)%nat then rest else s1)
          | None => findall_go f r s1
          end
      end
  end.

Definition findall (r : re) (s : string) : list (list string) :=
  findall_go (S (String.length s)) r s.

(** [r.split(s)]: the pieces between the matches, each match leaving its
    groups between two pieces. *)
Fixpoint split_go (fuel : nat) (r : re) (s : string) (cur : string) : list string :=
  match fuel with
  | O => [String.rev cur +:+ s]
  | S f =>
      match s with
      | EmptyString => [String.rev cur]
      | String c s1 =>
          match exec r s with
          | Some (rest, caps) =>
              if (String.length rest <? String.length s)%nat
              then String.rev cur :: caps ++ split_go f r rest EmptyString
              else split_go f r s1 (String c cur)
          | None => split_go f r s1 (String c cur)
          end
      end
  end.

Definition split (r : re) (s : string) : list string :=
  split_go (S (String.length s)) r s EmptyString.

(** The patterns of the module. *)
Definition quote : re := lit (ascii_of_nat 34).
Definition QUOTED_RE : re := Grp (seqs [quote; Star false dot; quote]).
Definition NUMBER_RE : re :=
  Grp (seqs [opt (lit "-"); Star true digit; Star true (lit "."); plus digit]).
Definition LAYER_RE : re :=
  seqs [Grp dot; plus space; Grp dot; plus space; QUOTED_RE; plus space; Grp (opt dot)].
Definition GLYPH_SEGMENT_RE : re :=
  Grp (seqs [space; Chr (λ x, bool_decide (x ∈ ["l"; "m"; "c"]%char)); space]).
Definition KERNS_RE : re :=
  seqs [NUMBER_RE; plus space; NUMBER_RE; plus space; QUOTED_RE].
Definition ANCHOR_RE : re :=
  seqs [QUOTED_RE; plus space; NUMBER_RE; plus space; NUMBER_RE; plus space;
        Grp (plus nonspace); plus space; Grp digit].
Definition DEVICETABLE_RE : re :=
  seqs [opt space; lit "{"; Star false dot; lit "}"; opt space].
Definition LOOKUP_RE : re :=
  seqs [Grp (plus digit); plus space; Grp (plus digit); plus space;
        Grp (plus digit); plus space; QUOTED_RE; plus space;
        lit "{"; Grp (Star false dot); lit "}"; plus space;
        lit "["; Grp (Star false dot); lit "]"].
Definition TAG_RE : re := seqs [lit "'"; Grp (Rep 4 dot); lit "'"].
Definition FEATURE_RE : re :=
  seqs [TAG_RE; plus space; lit "("; Grp (Seq (Star true dot) dot); lit ")"].
Definition LANGSYS_RE : re :=
  seqs [TAG_RE; plus space; lit "<"; Grp (Star false dot); lit ">"; plus space].
Definition SUBPOS_RE : re :=
  seqs [QUOTED_RE; plus space; Grp (Seq (Star true dot) dot)].

Definition groups1 (l : list string) : option string := l !! 0%nat.
Definition groups2 (l : list string) : option (string * string) :=
  match l with [a; b] => Some (a, b) | _ => None end.
Definition groups3 (l : list string) : option (string * string * string) :=
  match l with [a; b; c] => Some (a, b, c) | _ => None end.

#[global] Instance engine : Regex := {|
  quoted_findall s := omap groups1 (findall QUOTED_RE s);
  layer_match s :=
    m ← exec LAYER_RE s;
    match m.2 with [a; b; c; d] => Some (a, b, c, d) | _ => None end;
  glyph_segment_split s := split GLYPH_SEGMENT_RE s;
  kerns_findall s := omap groups3 (findall KERNS_RE s);
  anchor_match s :=
    m ← exec ANCHOR_RE s;
    match m.2 with [a; b; c; d; e] => Some (a, b, c, d, e) | _ => None end;
  lookup_match s :=
    m ← exec LOOKUP_RE s;
    match m.2 with [a; b; c; d; e; f] => Some (a, b, c, d, e, f) | _ => None end;
  tag_findall s := omap groups1 (findall TAG_RE s);
  feature_findall s := omap groups2 (findall FEATURE_RE s);
  langsys_findall s := omap groups2 (findall LANGSYS_RE s);
  subpos_match s := m ← exec SUBPOS_RE s; groups2 m.2;
  kerns_match s := m ← exec KERNS_RE s; groups3 m.2;
  devicetable_split s := split DEVICETABLE_RE s;
|}.

End Re.

Module Plain.

(** A number written in decimal: [mant * 10 ^ (- expo)], with no
    trailing zero kept in the fraction. *)
Definition decimal : Type := Z * nat.

Fixpoint normalize (mant : Z) (expo : nat) : decimal :=
  match expo with
  | O => (mant, O)
  | S e => if (mant mod 10 =? 0)%Z then normalize (mant / 10) e else (mant, expo)
  end.

Fixpoint digits_go (acc : Z) (s : string) : option Z :=
  match s with
  | EmptyString => Some acc
  | String c s' =>
      if isdigit c then digits_go (10 * acc + Z.of_nat (ord c - 48)) s' else None
  end.

Definition read_digits (s : string) : option Z :=
  match s with
  | EmptyString => None
  | _ => digits_go 0 s
  end.

Definition signed {A} (read : string → option A) (neg : A → A) (s : string) : option A :=
  match strip s with
  | String "-" s' => neg <$> read s'
  | String "+" s' => read s'
  | s' => read s'
  end.

(** [int(s)] on a decimal numeral *)
Definition read_int : string → option Z := signed read_digits Z.opp.

Definition hex_digit (c : ascii) : option Z :=
  let n := ord c in
  if isdigit c then Some (Z.of_nat (n - 48))
  else if ((97 <=? n) && (n <=? 102))%nat then Some (Z.of_nat (n - 87))
  else if ((65 <=? n) && (n <=? 70))%nat then Some (Z.of_nat (n - 55))
  else None.

Fixpoint hex_go (acc : Z) (s : string) : option Z :=
  match s with
  | EmptyString => Some acc
  | String c s' => d ← hex_digit c; hex_go (16 * acc + d) s'
  end.

(** [int(s, 16)] on a hexadecimal numeral *)
Definition read_hex : string → option Z :=
  signed (λ s, match s with EmptyString => None | _ => hex_go 0 s end) Z.opp.

(** [float(s)] on a decimal numeral with an optional fraction *)
Definition read_decimal : string → option decimal :=
  signed (λ s,
    match Py.split "." s with
    | [ip] => m ← read_digits ip; Some (m, O)
    | [ip; fp] =>
        if String.eqb ip "" && String.eqb fp "" then None
        else
          i ← digits_go 0 ip;
          f ← digits_go 0 fp;
          Some (normalize (i * 10 ^ Z.of_nat (String.length fp) + f) (String.length fp))
    | _ => None
    end) (λ d, (- d.1, d.2)%Z).

(** The digits of a decimal, with [places] digits of fraction at least. *)
Definition show_decimal (places : nat) (d : decimal) : string :=
  let e := Nat.max places d.2 in
  let m := (Z.abs d.1 * 10 ^ Z.of_nat (e - d.2))%Z in
  let ip := str_of_Z (m / 10 ^ Z.of_nat e) in
  let fp := str_of_Z (10 ^ Z.of_nat e + m mod 10 ^ Z.of_nat e) in
  (if (d.1 <? 0)%Z then "-" else "") +:+ ip
    +:+ (if (e =? 0)%nat then "" else "." +:+ drop_str 1 fp).

#[global] Instance floats : Floats := decimal.

#[global] Instance builtins : Builtins := {|
  py_int := read_int;
  py_int16 := read_hex;
  py_float := read_decimal;
  float_3 := (3%Z, O);
  fmt_f := show_decimal 6;
  fmt_g := show_decimal 0;
  float_truth d := negb (d.1 =? 0)%Z;
  guideline_angle _ _ _ _ := (0%Z, O);
  escape_decode s := Some s;
  utc_strftime n := Some (str_of_Z n);
|}.

(** The lowest and highest ordinate among the points drawn in the
    default layer, each rounded down; [0] in a font with no point. *)
Definition ordinates (f : Font) : list Z :=
  let ids := default [] (dvalues ∘ l_glyphs <$> layers f !! 0%nat) in
  let glyphs := omap (λ id, heap f !! id) ids in
  let points := concat (concat (g_contours <$> glyphs)) in
  omap (λ pp : penpoint,
          y ← pp.1.1 !! 1%nat; Some (y.1 / 10 ^ Z.of_nat y.2)%Z) points.

Definition bounds (f : Font) : Bounds :=
  {| yMin := foldr Z.min (default 0%Z (head (ordinates f))) (ordinates f);
     yMax := foldr Z.max (default 0%Z (head (ordinates f))) (ordinates f) |}.

#[global] Instance utils : Utils := {|
  SFDReadUTF7 s := Ok (strip_chars [ascii_of_nat 34] s);
  parseAltuni name altuni ignore_uvs :=
    Ok (omap (λ t, match t with
                   | [uni; uvs; _] =>
                       if bool_decide (uvs ∈ [-1; 0xffffffff]%Z) then Some uni else None
                   | _ => None
                   end) altuni);
  parseAnchorPoint name kind x y index :=
    Ok (VDict [("name", VStr name); ("kind", VStr kind); ("x", VFloat x);
               ("y", VFloat y); ("index", VInt index)]);
  parseColor v := Ok (VInt v);
  parseVersion value :=
    match value with
    | Some v => Ok (VStr v, VNone)
    | None => Raise TypeError
    end;
  getFontBounds f := Ok (bounds f);
  processKernClasses f subtables := Ok f;
  GLYPHCLASS_KEY := "org.sfdlib.glyphclass";
  DECOMPOSEREMOVEOVERLAP_KEY := "org.sfdlib.decomposeAndRemoveOverlap";
|}.

(** An empty font: no glyph, the default layer alone. *)
Definition emptyFont : Font :=
  {| info := ∅; heap := [];
     layers := [{| l_name := "public.default"; l_glyphs := [] |}];
     glyphOrder := []; kerning := []; features_text := None; attrs := ∅ |}.

(** A parser as [SFDParser(path, font)] makes it, on an empty font. *)
Definition start : St := {| self := __init__ false false; font := emptyFont |}.

End Plain.

(** * Verified properties *)

(** ** Statements

    The notions the properties are stated with, and the sources and fonts
    they are tried on. *)

Section Statements.
Context `{B : Builtins}.

(** A segment that starts a contour. *)
Definition is_move (it : citem) : Prop := ∃ pts f, it = Seg pts "m" f.

(** A contour handed to the pen is closed when it does not start with a
    [move] point. *)
Definition closed (c : list penpoint) : Prop :=
  ∀ p, head c = Some p → p.1.2 ≠ Some "move".

(** What is stored for a contour [c] of the source.  The contour emits
    the points [u], at least one.  When no segment forces the path open
    and the emitted points are [p0], [mid], [pn] with [p0] and [pn] at
    the same coordinates, then [pn] takes the place of [p0] and is
    dropped from the end, and the stored contour is closed.  A single
    emitted point is stored as it is, and the contour is open.  A contour
    forced open, or one whose ends differ, is stored as it is emitted. *)
Definition storedFor (q : option bool) (c : contour) (stored : list penpoint)
  : Prop :=
  ∃ c' u forceOpen,
    popName c = Ok c'
    ∧ drawSegments q c' [] false = Ok (u, forceOpen)
    ∧ (forceOpen = false ↔
       ∀ pts s f flag, Seg pts s f ∈ c' → flag_of f = Ok flag →
                       Z.land flag 0x400 = 0%Z)
    ∧ u ≠ []
    ∧ (∀ p0 mid pn,
         forceOpen = false → u = p0 :: mid ++ [pn] → p0.1.1 = pn.1.1 →
         stored = pn :: mid
         ∧ length stored = (length u - 1)%nat
         ∧ closed stored)
    ∧ (∀ p, u = [p] → stored = [p] ∧ ¬ closed stored)
    ∧ ((forceOpen = true
        ∨ ∃ p0 pn, head u = Some p0 ∧ last u = Some pn ∧ p0.1.1 ≠ pn.1.1) →
       stored = u).

(** A line is the header of a version 3.0 source when it splits into the
    key [SplineFontDB] and a value that [float] reads as [3.0]. *)
Definition isHeader (line : string) : Prop :=
  ∃ value version,
    splitFontRecord line = ("SplineFontDB", Some value)
    ∧ py_float value = Some version
    ∧ version = float_3.

(** The exceptions of the header test. *)
Definition headerError (e : exn) : Prop :=
  e = Exception "Not an SFD file."
  ∨ e = TypeError
  ∨ e = ValueError
  ∨ ∃ version, e = Exception ("Unsupported SFD version: " +:+ fmt_f version).

(** How many times a metric name was remembered. *)
Definition timesIn (metric : string) (metrics : list string) : nat :=
  length (filter (λ m, m = metric) metrics).

(** The value that the rules give to a remembered metric, from the
    ascender and descender that the font object has, the bounding box and
    the stored offset. *)
Definition resolvedMetric (metric : string) (ascender descender : Z) (b : Bounds)
    (offset : Z) : Z :=
  if decide (metric = "openTypeOS2TypoAscender") then ascender + offset
  else if decide (metric = "openTypeOS2TypoDescender") then descender + offset
  else if decide (metric = "openTypeOS2WinAscent") then yMax b + offset
  else if decide (metric = "openTypeOS2WinDescent") then Z.max (- yMin b + offset) 0
  else if decide (metric = "openTypeHheaAscender") then yMax b + offset
  else if decide (metric = "openTypeHheaDescender") then yMin b + offset
  else offset.

End Statements.

Section GlyphStatements.
Context `{B : Builtins} `{R : Regex} `{U : !Utils}.

(** Where the cursor of [_parseChar] stands after the record [key] at
    [i - 1]: past the section that a [SplineSet] or [Image] record opens,
    at the next line otherwise ([None] when the section has no end). *)
Definition nextCursor (data : list string) (i : Z) (key : string)
    (value : option string) : option Z :=
  if decide (key = "SplineSet") then
    match _getSection data i "EndSplineSet" None with
    | Ok (_, i') => Some i'
    | Raise _ => None
    end
  else if decide (key = "Image") then
    match _getSection data i "EndImage" value with
    | Ok (_, i') => Some i'
    | Raise _ => None
    end
  else Some i.

(** The values of the [Encoding] records of a glyph section, in order:
    the records are the lines the cursor stops at, not the lines inside
    an outline or an image. *)
Fixpoint encodingRecords_go (fuel : nat) (data : list string) (i : Z)
  : list (option string) :=
  match fuel with
  | O => []
  | S f =>
      if (i <? Z.of_nat (length data))%Z then
        match getitem data i with
        | Ok line =>
            let '(key, value) := splitRecord line in
            (if decide (key = "Encoding") then [value] else [])
            ++ match nextCursor data (i + 1)%Z key value with
               | Some i' => encodingRecords_go f data i'
               | None => []
               end
        | Raise _ => []
        end
      else []
  end.

Definition encodingRecords (data : list string) : list (option string) :=
  encodingRecords_go (S (length data)) data 0%Z.

(** The rank that an [Encoding] value carries: its third integer. *)
Definition rankOf (value : option string) : option Z :=
  match value with
  | Some v =>
      match rmap (λ x, of_option ValueError (py_int x)) (split_ws v) with
      | Ok [_; _; rank] => Some rank
      | _ => None
      end
  | None => None
  end.

End GlyphStatements.

(** The lines of a triangle that ends where it starts, and the contour
    that [_parseSplineSet] makes of them: four emitted points, three
    stored, the first one a [line] point. *)
Definition triangleLines : list string :=
  ["0 0 m 1,0,-1"; "100 750 l 1,1,-1"; "200 0 l 1,2,-1"; "0 0 l 1,0,-1"].

Definition triangle : contour (F := Plain.floats) := [
  Seg [[(0%Z, O); (0%Z, O)]] "m" "1,0,-1";
  Seg [[(100%Z, O); (750%Z, O)]] "l" "1,1,-1";
  Seg [[(200%Z, O); (0%Z, O)]] "l" "1,2,-1";
  Seg [[(0%Z, O); (0%Z, O)]] "l" "1,0,-1"
].

(** A font that holds the one glyph [a]. *)
Definition oneGlyph : St (F := Plain.floats) :=
  {| self := __init__ false false;
     font := (layer_newGlyph 0 "a" Plain.emptyFont).1 |}.


(** The lines of a source, as [readlines] gives them. *)
Definition readlines (l : list string) : list string := (λ s, s +:+ nl) <$> l.

(** A small source: one glyph [a], the triangle, between the font's
    records and the end of the font.  [offsets] stands where the flags of
    the offset metrics go. *)
Definition sampleWith (offsets : list string) : list string :=
  readlines (
    ["SplineFontDB: 3.0"; "FontName: Sample-Bold"; "Ascent: 800"; "Descent: 200";
     "LayerCount: 2";
     "Layer: 0 0 " +:+ dquote +:+ "Back" +:+ dquote +:+ " 1";
     "Layer: 1 0 " +:+ dquote +:+ "Fore" +:+ dquote +:+ " 0";
     "OS2WinAscent: 50"]
    ++ offsets ++
    ["BeginChars: 256 1"; "";
     "StartChar: a"; "Encoding: 97 97 0"; "Width: 500"; "Fore"; "SplineSet";
     "0 0 m 1,0,-1"; " 100 750 l 1,1,-1"; " 200 0 l 1,2,-1"; " 0 0 l 1,0,-1";
     "EndSplineSet"; "EndChar"; "EndChars"; "EndSplineFont"]).

Definition sample : list string := sampleWith ["OS2WinAOffset: 1"].

(** A font whose [info] has ascender 800, descender -200 and the offset
    50 in [openTypeOS2WinAscent], with the triangle drawn in its glyph
    [a]: the outline reaches from 0 up to 750.  The font object itself has
    no attribute [ascender] or [descender]. *)
Definition metricsFont : St (F := Plain.floats) :=
  {| self := __init__ false false;
     font :=
       setinfo "openTypeOS2WinAscent" (VInt 50)
         (setinfo "descender" (VInt (-200))
            (setinfo "ascender" (VInt 800)
               (update_glyph 0
                  (g_addContour [([(0%Z, O); (0%Z, O)], Some "line", Some false);
                                 ([(100%Z, O); (750%Z, O)], Some "line", Some false);
                                 ([(200%Z, O); (0%Z, O)], Some "line", Some false)])
                  (font oneGlyph)))) |}.

(** A parser whose source declared three layers: slot 0 holds the
    background layer, slot 1 the default layer, slot 2 a layer [Extra]. *)
Definition threeLayers : St (F := Plain.floats) :=
  (bind (parse_go 6
           (readlines ["SplineFontDB: 3.0"; "LayerCount: 3";
                       "Layer: 0 0 " +:+ dquote +:+ "Back" +:+ dquote +:+ " 1";
                       "Layer: 1 0 " +:+ dquote +:+ "Fore" +:+ dquote +:+ " 0";
                       "Layer: 2 1 " +:+ dquote +:+ "Extra" +:+ dquote +:+ " 0"])
           {| cursor := 0; charData := None; offsetMetrics := [] |})
        (λ _, createLayers 3 0) Plain.start).1.

(** A glyph section that selects its layer with [Layer: 0]. *)
Definition layerZeroGlyph : list string := [
  "StartChar: a"; "Encoding: 97 97 0"; "Width: 500"; "Layer: 0";
  "SplineSet"; "0 0 m 1,0,-1"; "100 750 l 1,1,-1"; "EndSplineSet"
].

(** The rank that a rank map gives to a name. *)
Definition rankIn (glyphOrderMap : list (string * Z)) (name : string) : Z :=
  default 0%Z (dget glyphOrderMap name).

(** The lines that the loop of [_parseChars] goes through: stripped, the
    empty ones left out. *)
Definition scanned (lines : list string) : list string :=
  filter (λ l, l ≠ "") (strip <$> lines).

(** [font.glyphOrder = sorted(glyphOrderMap, key=glyphOrderMap.get)] *)
Definition assignOrder {F : Floats} (glyphOrderMap : list (string * Z)) (f : Font) : Font :=
  f_with_glyphOrder (sortedGlyphNames glyphOrderMap) f.

(** A glyph block of three glyphs whose ranks are not in the order of the
    sections; [b] and [c] share a rank. *)
Definition threeGlyphs : list string := [
  "StartChar: b"; "Encoding: 98 98 1"; "Width: 500"; "EndChar"; "";
  "StartChar: c"; "Encoding: 99 99 1"; "Width: 500"; "EndChar";
  "StartChar: a"; "Encoding: 97 97 0"; "Width: 500"; "EndChar"
].

(** *** Lookup names *)

(** A memo of names is injective when no name is held twice. *)
Definition injectiveNames (memo : list (string * string)) : Prop :=
  NoDup (dvalues memo).

(** The characters of the class [[A-Za-z0-9._]]. *)
Definition nameChar (ch : ascii) : bool :=
  (ord ch <? 127)%nat
  && (isalpha ch || isdigit ch || bool_decide (ch = "."%char ∨ ch = "_"%char)).

(** The characters of [s] that are in the class. *)
Fixpoint keepNameChars (s : string) : string :=
  match s with
  | EmptyString => EmptyString
  | String ch s' =>
      if nameChar ch then String ch (keepNameChars s') else keepNameChars s'
  end.

Fixpoint dropLeadingDigits (s : string) : string :=
  match s with
  | String ch s' => if isdigit ch then dropLeadingDigits s' else s
  | EmptyString => EmptyString
  end.

(** The stripped name as the words of the specification give it: the
    characters outside the class are stripped, the leading digits are
    dropped, and what is left is cut to 63 characters. *)
Definition specStrippedName (lookup : string) : string :=
  take_str 63 (dropLeadingDigits (keepNameChars lookup)).

(** What the first loop of [_santizeLookupName] leaves out besides the
    characters outside the class: a digit that is the first character of
    the raw name. *)
Definition dropFirstDigit (lookup : string) : string :=
  match lookup with
  | String ch s' => if isdigit ch then s' else lookup
  | EmptyString => EmptyString
  end.

(** The parts of a synthesized name, from the entry of the lookup in
    [_lookupInfo]: the short kind, and the tag and script of the first
    feature. *)
Definition synthParts {F : Floats} (info : LookupInfo) (kind feat script : string)
  : Prop :=
  kind = default "unknown" (dget _SHORT_LOOKUP_TYPES info.1.1)
  ∧ match info.2 with
    | [] => feat = "" ∧ script = ""
    | f :: _ => feat = tag f ∧ scriptOf f = Ok script
    end.

(** [out] is a name that [_santizeLookupName] makes for [lookup] when the
    names [used] are taken: the stripped name when it is free, and
    otherwise the first free one of the synthesized names numbered 0, 2,
    4, ... *)
Definition newName {F : Floats} (p : Parser) (lookup : string) (isgpos : bool)
    (used : list string) (out : string) : Prop :=
  (out ∉ used)
  ∧ (out = strippedName lookup
     ∨ strippedName lookup ∈ used
       ∧ ∃ info kind feat script k,
           dget (_lookupInfo p) lookup = Some info
           ∧ synthParts info kind feat script
           ∧ out = synthName isgpos kind feat script (2 * k)
           ∧ ∀ j, (j < k)%nat → synthName isgpos kind feat script (2 * j) ∈ used).

(** Two raw names that strip to one name. *)
Definition twoLookups {F : Floats} (p : Parser) : Parser :=
  set_lookupInfo
    [("a-b", ("gsub_single", [], [{| tag := "liga"; langsys := [("latn", ["dflt"])] |}]));
     ("ab", ("gsub_single", [], [{| tag := "liga"; langsys := [("latn", ["dflt"])] |}]))]
    p.

(** *** Pruned lookups *)

(** The lines in which the text names a lookup: where its block opens
    and closes, and where a feature refers to it. *)
Definition blockOpen (name : string) : string := "lookup " +:+ name +:+ " {".
Definition blockClose (name : string) : string := "} " +:+ name +:+ ";".
Definition lookupRef (name : string) : string := "      lookup " +:+ name +:+ ";".

(** A subtable survives when some glyph has rule fragments filed under
    its name, or when it is a registered anchor-class subtable. *)
Definition survivesAs {F : Floats} (p : Parser) (sub : string) : Prop :=
  (∃ glyph frags, (glyph, frags) ∈ _glyphPosSub p ∧ is_Some (dget frags sub))
  ∨ is_Some (dget (_anchorClasses p) sub).

(** None of the subtables of [lookup] survives. *)
Definition noSurvivor {F : Floats} (p : Parser) (isgpos : bool) (lookup : string)
  : Prop :=
  ∀ subtables sub,
    (lookup, subtables) ∈ tableLookups isgpos p → sub ∈ subtables →
    ¬ survivesAs p sub.

(** The font after [lines] are added to its feature text. *)
Definition emitted {F : Floats} (lines : list string) (f : Font) : Font :=
  f_with_features (Some (default nl (features_text f) +:+ join nl lines)) f.

(** A parser that has read two GSUB lookups: [liga], with a ligature
    rule of the glyph [f_i] under its subtable, and [empty], whose one
    subtable has no rule and no anchor class. *)
Definition twoTables : St (F := Plain.floats) :=
  let feature := {| tag := "liga"; langsys := [("latn", ["dflt"])] |} in
  {| self :=
       set_glyphPosSub [("f_i", [("liga-1", [("Ligature2", [TStr "f"; TStr "i"])])])]
         (set_lookupInfo [("liga", ("gsub_ligature", [], [feature]));
                          ("empty", ("gsub_single", [], [feature]))]
            (set_gsubLookups [("liga", ["liga-1"]); ("empty", ["empty-1"])]
               (__init__ false false)));
     font := Plain.emptyFont |}.

(** The lines of a block between its first and last line start with two
    blanks and then [l], [m] or [p], or with four blanks and then [s] or
    [p]. *)
Definition indented (s : string) : bool :=
  startswith s "  l" || startswith s "  m" || startswith s "  p"
  || startswith s "    s" || startswith s "    p".

(** The lines of a feature that are not references to a lookup. *)
Definition featureFrame (s : string) : bool :=
  String.eqb s "" || startswith s "f" || startswith s " s"
  || startswith s "     l" || startswith s "}".

(** A line of the block of the lookup named [name]. *)
Definition blockLine (name s : string) : Prop :=
  s = "" ∨ s = blockOpen name ∨ indented s = true ∨ s = blockClose name.

(** A line of a feature whose references are to names in [P]. *)
Definition featureLine (P : string → Prop) (s : string) : Prop :=
  featureFrame s = true ∨ ∃ name, P name ∧ s = lookupRef name.

(** Every name in the tree of features is in [P]. *)
Definition namesIn (P : string → Prop)
    (features : list (string * list (string * list (string * list string))))
  : Prop :=
  Forall (λ e, Forall (λ e', Forall (λ e'', Forall P e''.2) e'.2) e.2) features.

(** *** More statements *)

(** The characters of a string. *)
Definition chars (s : string) : list ascii := list_ascii_of_string s.

(** The number that a list of bit numbers stands for. *)
Definition bitValue {F : Floats} (l : list pyval) : Z :=
  foldr (λ x acc, match x with VInt i => 2 ^ i + acc | _ => acc end)%Z 0%Z l.

(** The lines [data[i:j]]. *)
Definition between {A} (data : list A) (i j : nat) : list A :=
  take (j - i) (drop i data).

(** [j] is the first line at or after [i] that starts with [end_]. *)
Definition firstEnd (data : list string) (end_ : string) (i j : nat) : Prop :=
  (i ≤ j)%nat
  ∧ (∃ line, data !! j = Some line ∧ startswith line end_ = true)
  ∧ ∀ k line, (i ≤ k < j)%nat → data !! k = Some line →
              startswith line end_ = false.

(** No line at or after [i] starts with [end_]. *)
Definition noEnd (data : list string) (end_ : string) (i : nat) : Prop :=
  ∀ j line, (i ≤ j)%nat → data !! j = Some line → startswith line end_ = false.

(** [section] as [_getSection] starts it. *)
Definition sectionStart (value : option string) : list string :=
  match value with Some v => [v] | None => [] end.

(** The records of a glyph section, in order: the lines the cursor of
    [_parseChar] stops at, split into key and value. *)
Fixpoint records_go (fuel : nat) (data : list string) (i : Z)
  : list (string * option string) :=
  match fuel with
  | O => []
  | S f =>
      if (i <? Z.of_nat (length data))%Z then
        match getitem data i with
        | Ok line =>
            let '(key, value) := splitRecord line in
            (key, value)
            :: match nextCursor data (i + 1)%Z key value with
               | Some i' => records_go f data i'
               | None => []
               end
        | Raise _ => []
        end
      else []
  end.

Definition records (data : list string) : list (string * option string) :=
  records_go (S (length data)) data 0%Z.

(** The rule fragments filed for [glyph] under [subtable]. *)
Definition fragments {F : Floats} (p : Parser) (glyph subtable : string)
  : list (string * list tok) :=
  default [] (dget (default [] (dget (_glyphPosSub p) glyph)) subtable).

(** The kinds of rule fragment that [_parsePosSub] files. *)
Definition posSubKinds : list string :=
  ["Ligature"; "Substitution"; "AlternateSubs"; "MultipleSubs"; "Position"; "PairPos"].

(** The anchor classes paired with [subtable] in a list of pairs
    [[anchor; subtable]], in order. *)
Definition anchorsOf (subtable : string) (pairs : list (list string)) : list string :=
  omap (λ pair, match pair with
                | [anchor; s] => if decide (s = subtable) then Some anchor else None
                | _ => None
                end) pairs.

(** The pair of integers read from one match of [KERNS_RE]: the glyph
    index and the kern (the subtable name is not kept). *)
Definition kernPair {F : Floats} {B : Builtins} (m : string * string * string)
    (pr : Z * Z) : Prop :=
  py_int m.1.1 = Some pr.1 ∧ py_int m.1.2 = Some pr.2.

(** [font.kerning.get((n1, n2))] *)
Definition kernOf {F : Floats} (f : Font) (n1 n2 : string) : option Z :=
  dget (kerning f) (n1, n2).

(** The kerns gathered in [_glyphKerns], one by one in the order of the
    two loops of [_processKerns]: first glyph, index of the second, kern. *)
Definition gatheredKerns (glyphKerns : list (string * list (Z * Z)))
  : list (string * Z * Z) :=
  concat ((λ e : string * list (Z * Z),
             (λ k : Z * Z, (e.1, k.1, k.2)) <$> e.2) <$> glyphKerns).

(** A font of the glyphs [A] and [V], and a parser that has gathered one
    kern for [A]: 50 units less before the glyph at index 1. *)
Definition kernedFont : St (F := Plain.floats) :=
  {| self := set_glyphKerns [("A", [(1, -50)])]%Z (__init__ false false);
     font := (layer_newGlyph 0 "V" (layer_newGlyph 0 "A" Plain.emptyFont).1).1 |}.

(** An item that may follow the first of a contour: a line of one
    point, a curve of three, or a name. *)
Definition laterItem {F : Floats} (it : citem) : Prop :=
  match it with
  | Seg pts t _ =>
      (t = "l" ∧ length pts = 1%nat) ∨ (t = "c" ∧ length pts = 3%nat)
  | Named _ => True
  end.

(** A contour as [_parseSplineSet] builds it: a move of one point, and
    then lines, curves and names. *)
Definition movedContour {F : Floats} (c : contour) : Prop :=
  ∃ pts flags rest,
    c = Seg pts "m" flags :: rest ∧ length pts = 1%nat ∧ Forall laterItem rest.

(** A point holds one or two coordinates. *)
Definition pointsOf {F : Floats} (it : citem) : list point :=
  match it with Seg pts _ _ => pts | Named _ => [] end.

(** A source of three lines: the header, a line that holds one number,
    and a [KernClass2] record whose two class counts are 1 and -1. *)
Definition loopingSource : list string :=
  readlines ["SplineFontDB: 3.0"; "0";
             "KernClass2: 1 -1 " +:+ dquote +:+ "k" +:+ dquote].

(** A run that ends: it returns, or raises an exception of Python. *)
Definition ends {A} (r : result A) : Prop := r ≠ Raise Diverges.

(** The helpers of [sfdLib.utils] end on every input. *)
Definition helpersEnd {F : Floats} {U : Utils} : Prop :=
  (∀ s, ends (SFDReadUTF7 s))
  ∧ (∀ name altuni ignore_uvs, ends (parseAltuni name altuni ignore_uvs))
  ∧ (∀ name kind x y index, ends (parseAnchorPoint name kind x y index))
  ∧ (∀ v, ends (parseColor v))
  ∧ (∀ value, ends (parseVersion value)).

(** *** Statements on layers, lookups and names *)

(** A slot of [self._layers] that holds a name. *)
Definition holdsName (s : layer_slot) : bool :=
  match s with SlotName _ => true | _ => false end.

(** The name of the layer made for the name [n] at index [i] of [slots]:
    [n_i] when [i] is neither 0 nor 1 and a later slot holds the same
    name, [n] otherwise. *)
Definition layerName (slots : list layer_slot) (i : nat) (n : string) : string :=
  if (2 <=? i)%nat && bool_decide (SlotName n ∈ drop (S i) slots)
  then n +:+ "_" +:+ str_of_nat i else n.

(** The names of the layers made for the slots [rest], which stand at
    index [i] and after it in [slots]. *)
Fixpoint namedFrom (slots : list layer_slot) (i : nat) (rest : list layer_slot)
  : list string :=
  match rest with
  | [] => []
  | SlotName n :: rest' => layerName slots i n :: namedFrom slots (S i) rest'
  | _ :: rest' => namedFrom slots (S i) rest'
  end.

Definition namedLayers (slots : list layer_slot) : list string :=
  namedFrom slots 0 slots.

(** The names [names] can be given to new layers, one after the other,
    in a font whose layers are named [have]: no two of them are the same,
    and none is the name of a layer that the font has. *)
Definition freshNames (have names : list string) : Prop :=
  NoDup names ∧ ∀ n, n ∈ names → n ∉ have.

(** A parser whose slots 0 and 2 hold the names [Back] and [Extra], on an
    empty font. *)
Definition backAndExtra : St (F := Plain.floats) :=
  {| self := set_layers [SlotName "Back"; SlotLayer 0; SlotName "Extra"]
               (__init__ false false);
     font := Plain.emptyFont |}.

(** A parser whose slots 0, 2, 3 and 4 hold the names [X], [X], [Y] and
    [Y], on an empty font. *)
Definition namedSlots : St (F := Plain.floats) :=
  {| self := set_layers [SlotName "X"; SlotLayer 0; SlotName "X";
                         SlotName "Y"; SlotName "Y"] (__init__ false false);
     font := Plain.emptyFont |}.

(** The component that a [Refer] record stands for in a font of the
    glyph order [order]: the glyph at the index that the record starts
    with, and the numbers of its fields 3 to 8. *)
Definition referTo {F : Floats} {B : Builtins} (order : list string)
    (ref : option string) (c : string * list pyfloat) : Prop :=
  ∃ r g gid,
    ref = Some r
    ∧ split_ws r !! 0%nat = Some g
    ∧ py_int g = Some gid
    ∧ getitem order gid = Ok c.1
    ∧ rmap (λ v, of_option ValueError (py_float v)) (slice (split_ws r) 3 9)
      = Ok c.2.

(** The references gathered in [_glyphRefs], one by one in the order
    of the two loops of [_processReferences]. *)
Definition gatheredRefs (glyphRefs : list (nat * list (option string)))
  : list (nat * option string) :=
  concat ((λ e : nat * list (option string),
             (λ r : option string, (e.1, r)) <$> e.2) <$> glyphRefs).

(** Among the components [comps] made for the references [refs], those
    of the glyph object [glyph]. *)
Definition componentsOf {F : Floats} (glyph : nat)
    (refs : list (nat * option string)) (comps : list (string * list pyfloat))
  : list (string * list pyfloat) :=
  snd <$> filter (λ rc : (nat * option string) * (string * list pyfloat),
                    rc.1.1 = glyph) (zip refs comps).

(** A glyph with more components. *)
Definition addComponents {F : Floats} (cs : list (string * list pyfloat))
    (g : Glyph) : Glyph :=
  {| g_name := g_name g; g_attrs := g_attrs g; g_lib := g_lib g;
     g_anchors := g_anchors g; g_contours := g_contours g;
     g_components := g_components g ++ cs |}.

(** A font of the glyphs [A] and [B], and a parser that has gathered one
    reference for [B]: the glyph at index 0, moved by (10, 20). *)
Definition referringFont : St (F := Plain.floats) :=
  {| self := set_glyphRefs [(1%nat, [Some "0 65 N 1 0 0 1 10 20 2"])]
               (__init__ false false);
     font := (layer_newGlyph 0 "B" (layer_newGlyph 0 "A" Plain.emptyFont).1).1 |}.

(** Every lookup of the two tables has its entry in [_lookupInfo]. *)
Definition lookupsKnown {F : Floats} (p : Parser) : Prop :=
  ∀ isgpos lookup,
    lookup ∈ dkeys (tableLookups isgpos p) → is_Some (dget (_lookupInfo p) lookup).

(** The names of the lookup flags, in the order of their bits. *)
Definition flagNames : list string :=
  ["RightToLeft"; "IgnoreBaseGlyphs"; "IgnoreLigatures"; "IgnoreMarks"].

(** A type of lookup that belongs to the GPOS table, by its name. *)
Definition gposType (typ : string) : Prop :=
  startswith typ "gpos_" = true ∨ typ = "kern_statemachine".

(** A [Lookup] record of kind 7, the GSUB extension, which is no key of
    [_LOOKUP_TYPES]. *)
Definition extensionLookup : string :=
  "7 0 0 " +:+ dquote +:+ "ext" +:+ dquote +:+ " { " +:+ dquote +:+ "ext-1"
    +:+ dquote +:+ " } []".

(** The glyphs among [names] that [_writeGDEF] puts in the class [c],
    in order. *)
Definition classMembers {F : Floats} {U : Utils} (p : Parser) (f : Font)
    (c : string) (names : list string) : list string :=
  omap (λ name, match gdefClass p f name with
                | Ok (Some c') => if decide (c' = c) then Some name else None
                | _ => None
                end) names.

(** The class that a glyph object holds, if it holds one, is a name. *)
Definition classesAreNames {F : Floats} {U : Utils} (f : Font) : Prop :=
  ∀ g v, g ∈ heap f → g_lib g !! GLYPHCLASS_KEY = Some v →
         v = VNone ∨ ∃ c, v = VStr c.

(** The names of the classes that have a glyph, for the statement
    [GlyphClassDef]: the empty string stands for a class without one. *)
Definition classDefNames {F : Floats} {U : Utils} (p : Parser) (f : Font)
  : list string :=
  (λ nc : string * string,
     if bool_decide (classMembers p f nc.1 (glyphOrder f) = []) then "" else nc.2)
    <$> classNames.

(** A font of the glyphs [f_i] and [a], and a parser that has filed a
    ligature for [f_i]. *)
Definition ligatureFont : St (F := Plain.floats) :=
  {| self := set_glyphPosSub
               [("f_i", [("liga-1", [("Ligature", [TStr "f"; TStr "i"])])])]
               (__init__ false false);
     font := (layer_newGlyph 0 "a" (layer_newGlyph 0 "f_i" Plain.emptyFont).1).1 |}.

(** The anchor filed for [glyph] under the class [anchorClass] and the
    kind [kind]. *)
Definition anchorAt {F : Floats} (p : Parser) (glyph anchorClass kind : string)
  : option (pyfloat * pyfloat * Z) :=
  byName ← dget (_glyphAnchors p) glyph;
  byKind ← dget byName anchorClass;
  dget byKind kind.

(** An [AnchorPoint] record: a mark anchor of the class [top] at
    (250, 700). *)
Definition topAnchor : string :=
  dquote +:+ "top" +:+ dquote +:+ " 250 700 mark 0".

(** ** Reasoning about runs *)

Section Runs.
Context `{B : Builtins}.

Lemma rbind_Ok {X Y} (r : result X) (k : X → result Y) y :
  rbind r k = Ok y → ∃ x, r = Ok x ∧ k x = Ok y.
Proof. destruct r; simpl; [eauto | discriminate]. Qed.

Lemma rbind_Raise_l {X Y} (r : result X) (k : X → result Y) e :
  r = Raise e → rbind r k = Raise e.
Proof. intros ->. reflexivity. Qed.

Lemma of_option_Ok {X} e (o : option X) x : of_option e o = Ok x → o = Some x.
Proof. destruct o; simpl; congruence. Qed.

Lemma bind_Ok {X Y} (m : M X) (k : X → M Y) st st' y :
  bind m k st = (st', Ok y) →
  ∃ st1 x, m st = (st1, Ok x) ∧ k x st1 = (st', Ok y).
Proof.
  unfold bind. destruct (m st) as [st1 [x|e]]; [eauto | discriminate].
Qed.

Lemma bind_step {X Y} (m : M X) (k : X → M Y) st st1 x :
  m st = (st1, Ok x) → bind m k st = k x st1.
Proof. unfold bind. intros ->. reflexivity. Qed.

Lemma bind_Raise {X Y} (m : M X) (k : X → M Y) st st1 e :
  m st = (st1, Raise e) → bind m k st = (st1, Raise e).
Proof. unfold bind. intros ->. reflexivity. Qed.

Lemma lift_Ok {X} (r : result X) st st' x :
  lift r st = (st', Ok x) → st' = st ∧ r = Ok x.
Proof. unfold lift. intros [= -> ->]. auto. Qed.

Lemma ret_Ok {X} (a : X) st st' x : ret a st = (st', Ok x) → st' = st ∧ x = a.
Proof. unfold ret. intros [= -> ->]. auto. Qed.

Lemma assert_Ok b st st' x : assert b st = (st', Ok x) → st' = st ∧ b = true.
Proof. destruct b; simpl; unfold ret, raise; intros [= ->]; auto. Qed.

Lemma setinfo_other a b v f : a ≠ b → getinfo b (setinfo a v f) = getinfo b f.
Proof. intros Hne. unfold getinfo, setinfo. simpl. by rewrite lookup_insert_ne. Qed.

Lemma setinfo_same a v f : getinfo a (setinfo a v f) = v.
Proof. unfold getinfo, setinfo. simpl. by rewrite lookup_insert_eq. Qed.

Lemma set_info_run a v st : set_info a v st
  = ({| self := self st; font := setinfo a v (font st) |}, Ok tt).
Proof. reflexivity. Qed.

Lemma get_info_run a st : get_info a st = (st, Ok (getinfo a (font st))).
Proof. reflexivity. Qed.

Lemma mod_font_run u (st : St) :
  mod_font u st = ({| self := self st; font := u (font st) |}, Ok tt).
Proof. reflexivity. Qed.

Lemma mod_self_run u (st : St) :
  mod_self u st = ({| self := u (self st); font := font st |}, Ok tt).
Proof. reflexivity. Qed.

End Runs.

(** Splits a successful run of a sequence of steps into its steps. *)
Ltac run_inv H :=
  repeat match type of H with
  | bind _ _ _ = (_, Ok _) =>
      let st1 := fresh "st" in let x := fresh "x" in
      let H1 := fresh "Hrun" in
      apply bind_Ok in H as (st1 & x & H1 & H)
  end.

(** Resolves the steps that read or write the state directly. *)
Ltac run_prims :=
  repeat match goal with
  | H : lift _ _ = (_, _) |- _ => unfold lift in H; simplify_eq
  | H : ret _ _ = (_, _) |- _ => unfold ret in H; simplify_eq
  | H : get_self _ = (_, _) |- _ => unfold get_self in H; simplify_eq
  | H : get_font _ = (_, _) |- _ => unfold get_font in H; simplify_eq
  | H : mod_self _ _ = (_, _) |- _ => unfold mod_self in H; simplify_eq
  | H : mod_font _ _ = (_, _) |- _ => unfold mod_font in H; simplify_eq
  | H : get_info _ _ = (_, _) |- _ => rewrite get_info_run in H; simplify_eq
  | H : set_info _ _ _ = (_, _) |- _ => rewrite set_info_run in H; simplify_eq
  | H : assert _ _ = (_, Ok _) |- _ => apply assert_Ok in H as [-> H]
  end.

(** ** Drawing contours *)

Section Contours.
Context `{B : Builtins}.

Lemma drawSegments_acc q c u fo :
  drawSegments q c u fo =
  match drawSegments q c [] false with
  | Ok (w, fo') => Ok (u ++ w, fo || fo')
  | Raise e => Raise e
  end.
Proof.
  revert u fo. induction c as [|it c IH]; intros u fo; simpl.
  - by rewrite app_nil_r, orb_false_r.
  - destruct (drawSegment q it) as [[pts f]|e]; simpl; [|done].
    rewrite (IH (u ++ pts)), (IH pts).
    destruct (drawSegments q c [] false) as [[w fo']|e]; [|done].
    by rewrite app_assoc, orb_assoc.
Qed.


End Contours.

Section ContourClaims.
Context `{B : Builtins}.






Lemma drawSegment_Ok_flag q pts s f r fo :
  drawSegment q (Seg pts s f) = Ok (r, fo) →
  ∃ flag, flag_of f = Ok flag ∧ fo = negb (Z.land flag 0x400 =? 0)%Z.
Proof.
  simpl. intros Hd. apply rbind_Ok in Hd as (flag & Hflag & Hd).
  exists flag. split; [done|].
  destruct (decide (s = "m")).
  { by apply rbind_Ok in Hd as (? & _ & [= _ <-]). }
  destruct (decide (s = "l")).
  { by apply rbind_Ok in Hd as (? & _ & [= _ <-]). }
  destruct (truthy q).
  - apply rbind_Ok in Hd as (p0 & _ & Hd).
    apply rbind_Ok in Hd as (p1 & _ & Hd).
    destruct (decide (p0 = p1)); [|done].
    destruct (negb _); [by injection Hd as _ <-|].
    by apply rbind_Ok in Hd as (? & _ & [= _ <-]).
  - by apply rbind_Ok in Hd as (? & _ & [= _ <-]).
Qed.

Lemma drawSegment_Ok_points q it r fo :
  drawSegment q it = Ok (r, fo) →
  r ≠ [] ∧ (¬ is_move it → ∀ p, p ∈ r → p.1.2 ≠ Some "move").
Proof.
  destruct it as [pts s f|n]; [|done]. simpl. intros Hd.
  apply rbind_Ok in Hd as (flag & Hflag & Hd).
  destruct (decide (s = "m")) as [->|Hm].
  { apply rbind_Ok in Hd as (p & _ & [= <- <-]). split; [done|].
    intros Hnm. destruct Hnm. by exists pts, f. }
  destruct (decide (s = "l")) as [->|Hl].
  { apply rbind_Ok in Hd as (p & _ & [= <- <-]). split; [done|].
    intros _ p' ->%list_elem_of_singleton. done. }
  destruct (truthy q).
  - apply rbind_Ok in Hd as (p0 & Hp0 & Hd).
    apply rbind_Ok in Hd as (p1 & Hp1 & Hd).
    apply of_option_Ok in Hp0, Hp1.
    destruct pts as [|a [|b pts]]; simplify_eq/=.
    case_decide; [|done]. case_match.
    + simplify_eq. split; [done|]. intros _ p Hp.
      apply elem_of_cons in Hp as [->|Hp]; [done|].
      apply list_elem_of_fmap in Hp as (? & -> & _). done.
    + apply rbind_Ok in Hd as (p & _ & [= <- <-]). split.
      { by destruct (_ <$> _). }
      intros _ p' Hp. apply elem_of_app in Hp as [Hp|Hp].
      * apply list_elem_of_fmap in Hp as (? & -> & _). done.
      * apply list_elem_of_singleton in Hp as ->. done.
  - apply rbind_Ok in Hd as (p & _ & [= <- <-]). split.
    { by destruct (_ <$> _). }
    intros _ p' Hp. apply elem_of_app in Hp as [Hp|Hp].
    + apply list_elem_of_fmap in Hp as (? & -> & _). done.
    + apply list_elem_of_singleton in Hp as ->. done.
Qed.

Lemma drawSegments_snoc q l it u fo :
  drawSegments q (l ++ [it]) [] false = Ok (u, fo) →
  ∃ u1 f1 pts f2,
    drawSegments q l [] false = Ok (u1, f1) ∧ drawSegment q it = Ok (pts, f2)
    ∧ u = u1 ++ pts ∧ fo = f1 || f2.
Proof.
  revert u fo. induction l as [|x l IH]; intros u fo; simpl.
  - destruct (drawSegment q it) as [[pts f]|]; simpl; [|done].
    intros [= <- <-]. by exists [], false, pts, f.
  - destruct (drawSegment q x) as [[px fx]|]; simpl; [|done].
    rewrite drawSegments_acc. rewrite (drawSegments_acc _ l).
    destruct (drawSegments q (l ++ [it]) [] false) as [[w fw]|] eqn:E; [|done].
    destruct (IH _ _ eq_refl) as (u1 & f1 & pts & f2 & -> & Hit & -> & ->).
    intros [= <- <-]. exists (px ++ u1), (fx || f1), pts, f2.
    by rewrite app_assoc, orb_assoc.
Qed.

Lemma drawSegments_forceOpen q c u fo :
  drawSegments q c [] false = Ok (u, fo) →
  (fo = false ↔
   ∀ pts s f flag, Seg pts s f ∈ c → flag_of f = Ok flag → Z.land flag 0x400 = 0%Z).
Proof.
  revert u fo. induction c as [|it c IH]; intros u fo; simpl.
  - intros [= <- <-]. split; [|done]. intros _ ???? Hin. inversion Hin.
  - destruct (drawSegment q it) as [[pts f]|] eqn:Hit; simpl; [|done].
    rewrite drawSegments_acc.
    destruct (drawSegments q c [] false) as [[w fw]|] eqn:E; [|done].
    intros [= <- <-]. specialize (IH _ _ eq_refl).
    destruct it as [ps s fl|n]; [|done].
    destruct (drawSegment_Ok_flag _ _ _ _ _ _ Hit) as (flag & Hflag & ->).
    rewrite orb_false_iff, negb_false_iff, Z.eqb_eq, IH.
    split.
    + intros [H0 Hc] ps' s' f' flag' Hin Hf'.
      apply elem_of_cons in Hin as [[= -> -> ->]|Hin]; [|eauto].
      congruence.
    + intros Hall. split; [eapply Hall; [left|done]|].
      intros ???? Hin. eapply Hall. by right.
Qed.

Lemma closePath_closed (p0 pn : penpoint) (mid : list penpoint) :
  p0.1.1 = pn.1.1 → closePath false (p0 :: mid ++ [pn]) = pn :: mid.
Proof.
  intros Heq. unfold closePath.
  assert (Hl : last (p0 :: mid ++ [pn]) = Some pn).
  { by rewrite app_comm_cons, last_snoc. }
  rewrite Hl. rewrite removelast_last.
  rewrite bool_decide_eq_true_2 by done.
  simpl. rewrite length_app. simpl.
  destruct (length mid + 1)%nat eqn:E; [lia|done].
Qed.

Lemma update_glyph_addContour glyph (f : Font) g d :
  heap f !! glyph = Some g →
  heap (update_glyph glyph (g_addContour d) f) !! glyph = Some (g_addContour d g).
Proof.
  intros Hg. unfold update_glyph. simpl.
  by rewrite list_lookup_alter_eq, Hg.
Qed.

Lemma drawContours_spec glyph contours q st st' g :
  _drawContours glyph contours q st = (st', Ok tt) →
  heap (font st) !! glyph = Some g →
  ∃ drawn g',
    Forall2 (λ c d, drawContour q c = Ok d) contours drawn
    ∧ heap (font st') !! glyph = Some g'
    ∧ g_contours g' = g_contours g ++ drawn.
Proof.
  revert st g. induction contours as [|c cs IH]; intros st g Hrun Hg.
  - apply ret_Ok in Hrun as [-> _]. exists [], g. by rewrite app_nil_r.
  - simpl in Hrun. run_inv Hrun. apply lift_Ok in Hrun0 as [-> Hc].
    unfold mod_font in Hrun1. injection Hrun1 as <- <-.
    destruct (IH _ (g_addContour x g) Hrun) as (drawn & g' & Hall & Hg' & Hcs).
    { simpl. by apply update_glyph_addContour. }
    exists (x :: drawn), g'. split; [by constructor|].
    split; [done|]. rewrite Hcs. simpl. by rewrite <- app_assoc.
Qed.

Lemma closePath_single fo (p : penpoint) : closePath fo [p] = [p].
Proof. unfold closePath. simpl. by rewrite andb_false_r. Qed.

Lemma closePath_forced (u : list penpoint) : closePath true u = u.
Proof. unfold closePath. destruct u; [done|]. by destruct (last _). Qed.

Lemma closePath_apart fo (u : list penpoint) p0 pn :
  head u = Some p0 → last u = Some pn → p0.1.1 ≠ pn.1.1 → closePath fo u = u.
Proof.
  intros Hh Hl Hne. unfold closePath. destruct u as [|x u]; [done|].
  injection Hh as ->. rewrite Hl.
  by rewrite bool_decide_eq_false_2, andb_false_r.
Qed.

End ContourClaims.


(** ** The driver: header, offset metrics, units per em *)

Section Driver.
Context `{B : Builtins} `{R : Regex} `{U : !Utils}.

Lemma checkHeader_not_header line key value :
  splitFontRecord line = (key, value) → ¬ isHeader line →
  ∃ e, checkHeader key value = Raise e ∧ headerError e.
Proof.
  intros Hsplit Hnot. unfold checkHeader.
  destruct (String.eqb key "SplineFontDB") eqn:Ekey; simpl.
  2: { eexists. split; [done|]. by left. }
  apply String.eqb_eq in Ekey as ->.
  destruct value as [value|]; simpl.
  2: { eexists. split; [done|]. right. by left. }
  destruct (py_float value) as [version|] eqn:Ev; simpl.
  2: { eexists. split; [done|]. right. right. by left. }
  case_bool_decide as Hv; simpl.
  - destruct Hnot. by exists value, version.
  - eexists. split; [done|]. right. right. right. by exists version.
Qed.

(** C1. Whatever follows it, a first line that is not the header of a
    version 3.0 source makes [parse] raise one of the exceptions of the
    header test, from a file as from the [font.props] of a directory, and
    leaves the parser and the font exactly as they were. *)
Theorem C1_version_gate (fuel : nat) (line : string) (rest : list string)
    (glyphs : list (list string)) (st : St) :
  ¬ isHeader line →
  ∃ e, headerError e
       ∧ parse (S fuel) (SFDFile (line :: rest)) st = (st, Raise e)
       ∧ parse (S fuel) (SFDDir (Some (line :: rest)) glyphs) st = (st, Raise e).
Proof.
  intros Hnot.
  destruct (splitFontRecord line) as [key value] eqn:Hsplit.
  destruct (checkHeader_not_header _ _ _ Hsplit Hnot) as (e & He & Herr).
  exists e. split; [done|].
  assert (Hgo : ∀ loc, cursor loc = 0%Z →
            parse_go (S fuel) (line :: rest) loc st = (st, Raise e)).
  { intros loc Hc. simpl. rewrite Hc. simpl.
    unfold bind at 1. simpl. rewrite Hsplit.
    unfold bind, lift. by rewrite He. }
  split; unfold parse; (erewrite bind_step by reflexivity);
    apply bind_Raise; by apply Hgo.
Qed.



Lemma offset_metric_names m :
  m ∈ dvalues _OFFSET_METRICS →
  m = "openTypeHheaAscender" ∨ m = "openTypeHheaDescender"
  ∨ m = "openTypeOS2TypoAscender" ∨ m = "openTypeOS2TypoDescender"
  ∨ m = "openTypeOS2WinAscent" ∨ m = "openTypeOS2WinDescent".
Proof.
  unfold dvalues. simpl. rewrite !elem_of_cons, elem_of_nil. tauto.
Qed.

Lemma fixOffsetMetric_run b m st off a d :
  m ∈ dvalues _OFFSET_METRICS →
  getinfo m (font st) = VInt off →
  (m = "openTypeOS2TypoAscender" → font_ascender (font st) = Ok (VInt a)) →
  (m = "openTypeOS2TypoDescender" → font_descender (font st) = Ok (VInt d)) →
  fixOffsetMetric b m st
  = ({| self := self st;
        font := setinfo m (VInt (resolvedMetric m a d b off)) (font st) |}, Ok tt).
Proof.
  intros Hm Hoff Ha Hd. unfold fixOffsetMetric.
  rewrite (bind_step _ _ _ _ _ (get_info_run _ _)).
  unfold bind at 1, get_font at 1. simpl. rewrite Hoff.
  apply offset_metric_names in Hm.
  destruct Hm as [-> | [-> | [-> | [-> | [-> | ->]]]]];
    try rewrite (Ha eq_refl); try rewrite (Hd eq_refl); reflexivity.
Qed.

(** The typo rules read the ascender and the descender from the font
    object: when it has no such attribute, the turn of the loop raises
    [AttributeError], whatever [info] holds. *)
Lemma fixOffsetMetric_typo_ascender b st :
  attrs (font st) !! "ascender" = None →
  fixOffsetMetric b "openTypeOS2TypoAscender" st = (st, Raise AttributeError).
Proof.
  intros Hnone. unfold fixOffsetMetric.
  rewrite (bind_step _ _ _ _ _ (get_info_run _ _)).
  unfold bind at 1, get_font at 1. simpl.
  unfold font_ascender. by rewrite Hnone.
Qed.

Lemma fixOffsetMetric_typo_descender b st :
  attrs (font st) !! "descender" = None →
  fixOffsetMetric b "openTypeOS2TypoDescender" st = (st, Raise AttributeError).
Proof.
  intros Hnone. unfold fixOffsetMetric.
  rewrite (bind_step _ _ _ _ _ (get_info_run _ _)).
  unfold bind at 1, get_font at 1. simpl.
  unfold font_descender. by rewrite Hnone.
Qed.

(** A turn of the loop leaves the attributes of the font object alone. *)
Lemma fixOffsetMetric_attrs b m st st' r :
  fixOffsetMetric b m st = (st', r) → attrs (font st') = attrs (font st).
Proof.
  unfold fixOffsetMetric.
  rewrite (bind_step _ _ _ _ _ (get_info_run _ _)).
  unfold bind at 1, get_font at 1. simpl.
  unfold bind, lift.
  match goal with |- context [match ?x with _ => _ end] => destruct x as [v|e] end.
  - rewrite set_info_run. by intros [= <- _].
  - by intros [= <- _].
Qed.

(** A remembered typo metric stops the loop when the font object lacks the
    attribute it reads. *)
Lemma fixOffsetMetrics_stops b name metrics st st' r :
  (name = "openTypeOS2TypoAscender" ∨ name = "openTypeOS2TypoDescender") →
  (name = "openTypeOS2TypoAscender" → attrs (font st) !! "ascender" = None) →
  (name = "openTypeOS2TypoDescender" → attrs (font st) !! "descender" = None) →
  name ∈ metrics →
  forM metrics (fixOffsetMetric b) st = (st', r) → ∃ e, r = Raise e.
Proof.
  intros Hname Ha Hd. revert st Ha Hd.
  induction metrics as [|m ms IH]; intros st Ha Hd Hin Hrun; [inversion Hin|].
  simpl in Hrun. unfold bind at 1 in Hrun.
  destruct (fixOffsetMetric b m st) as [st1 [[]|e]] eqn:Hstep.
  - apply elem_of_cons in Hin as [->|Hin].
    + destruct Hname as [->| ->].
      * rewrite fixOffsetMetric_typo_ascender in Hstep by auto. discriminate.
      * rewrite fixOffsetMetric_typo_descender in Hstep by auto. discriminate.
    + apply fixOffsetMetric_attrs in Hstep.
      apply (IH st1); [rewrite Hstep; exact Ha|rewrite Hstep; exact Hd|done|done].
  - injection Hrun as _ <-. eauto.
Qed.

(** A key of [_OFFSET_METRICS] whose value is a non-zero integer makes
    the main loop remember the name of its metric, and nothing else. *)
Lemma offsetRecord_remembers data key metric value v loc st :
  dget _OFFSET_METRICS key = Some metric →
  int_of value = Ok v → v ≠ 0%Z →
  fontRecord data key value loc st
  = (st, Ok (Some {| cursor := cursor loc; charData := charData loc;
                     offsetMetrics := offsetMetrics loc ++ [metric] |})).
Proof.
  intros Hkey Hv Hnz.
  assert (Hcases : key = "HheadAOffset" ∨ key = "HheadDOffset"
            ∨ key = "OS2TypoAOffset" ∨ key = "OS2TypoDOffset"
            ∨ key = "OS2WinAOffset" ∨ key = "OS2WinDOffset").
  { simpl in Hkey. repeat case_decide; try discriminate; subst; tauto. }
  assert (Hz : (v =? 0)%Z = false) by by apply Z.eqb_neq.
  destruct Hcases as [-> | [-> | [-> | [-> | [-> | ->]]]]]; injection Hkey as <-;
    cbv beta iota zeta delta -[int_of Z.eqb];
    rewrite Hv; cbv beta iota zeta delta -[Z.eqb]; by rewrite Hz.
Qed.

Lemma timesIn_cons_eq m ms : timesIn m (m :: ms) = S (timesIn m ms).
Proof. unfold timesIn. by rewrite filter_cons_True. Qed.

Lemma timesIn_cons_ne m m0 ms : m0 ≠ m → timesIn m (m0 :: ms) = timesIn m ms.
Proof. intros Hne. unfold timesIn. by rewrite filter_cons_False. Qed.

Lemma timesIn_none m ms : m ∉ ms → timesIn m ms = 0%nat.
Proof.
  induction ms as [|m0 ms IH]; [done|].
  intros [Hne Hin]%not_elem_of_cons.
  rewrite timesIn_cons_ne by done. by apply IH.
Qed.

(** The loop of [_fixOffsetMetrics]: every entry of the list is a turn, so
    a name that is in it [k] times has its rule applied [k] times. *)
Lemma fixOffsetMetrics_loop b metrics st a d :
  ("openTypeOS2TypoAscender" ∈ metrics → font_ascender (font st) = Ok (VInt a)) →
  ("openTypeOS2TypoDescender" ∈ metrics → font_descender (font st) = Ok (VInt d)) →
  (∀ m, m ∈ metrics →
        m ∈ dvalues _OFFSET_METRICS ∧ ∃ off, getinfo m (font st) = VInt off) →
  ∃ st',
    forM metrics (fixOffsetMetric b) st = (st', Ok tt)
    ∧ self st' = self st
    ∧ (∀ m, m ∉ metrics → getinfo m (font st') = getinfo m (font st))
    ∧ ∀ m off, getinfo m (font st) = VInt off →
               getinfo m (font st')
               = VInt (Nat.iter (timesIn m metrics) (resolvedMetric m a d b) off).
Proof.
  revert st. induction metrics as [|m0 ms IH]; intros st Ha Hd Hall.
  - exists st. split; [done|]. split; [done|]. split; [done|].
    intros m off Hoff. by rewrite Hoff.
  - destruct (Hall m0) as [Hsix [off0 Hoff0]]; [by left|].
    assert (Hstep : fixOffsetMetric b m0 st
              = ({| self := self st;
                    font := setinfo m0 (VInt (resolvedMetric m0 a d b off0)) (font st) |},
                 Ok tt)).
    { apply fixOffsetMetric_run; [done|done| |].
      - intros ->. apply Ha. by left.
      - intros ->. apply Hd. by left. }
    set (st1 := {| self := self st;
                   font := setinfo m0 (VInt (resolvedMetric m0 a d b off0)) (font st) |})
      in *.
    destruct (IH st1) as (st' & Hrun & Hself & Hframe & Hval).
    { intros Hin. simpl. apply Ha. by right. }
    { intros Hin. simpl. apply Hd. by right. }
    { intros m Hm. destruct (Hall m) as [? [off ?]]; [by right|].
      split; [done|]. simpl. destruct (decide (m = m0)) as [->|Hne].
      - rewrite setinfo_same. eauto.
      - rewrite setinfo_other by done. eauto. }
    exists st'. split.
    { simpl. by rewrite (bind_step _ _ _ _ _ Hstep). }
    split; [done|]. split.
    + intros m Hm. apply not_elem_of_cons in Hm as [Hm1 Hm2].
      rewrite Hframe by done. simpl. by rewrite setinfo_other.
    + intros m off Hoff. destruct (decide (m = m0)) as [->|Hne].
      * rewrite timesIn_cons_eq, Nat.iter_succ_r.
        rewrite Hoff0 in Hoff. injection Hoff as <-.
        apply Hval. simpl. by rewrite setinfo_same.
      * rewrite timesIn_cons_ne by done.
        apply Hval. simpl. by rewrite setinfo_other.
Qed.

(** C6.  The typo rules are not computed from the established ascender
    and descender: [_fixOffsetMetrics] reads [ascender] and [descender]
    from the font object itself.  On a font object without the attribute,
    whatever its [info] holds, the turn for [openTypeOS2TypoAscender]
    (and the one for [openTypeOS2TypoDescender]) raises [AttributeError]
    and changes nothing, and no call of [_fixOffsetMetrics] with that name
    among the remembered ones returns. *)
Theorem C6_typo_rule_reads_font_attribute (st : St) :
  attrs (font st) !! "ascender" = None →
  attrs (font st) !! "descender" = None →
  (∀ b, fixOffsetMetric b "openTypeOS2TypoAscender" st = (st, Raise AttributeError))
  ∧ (∀ b, fixOffsetMetric b "openTypeOS2TypoDescender" st = (st, Raise AttributeError))
  ∧ ∀ metrics st' r,
      ("openTypeOS2TypoAscender" ∈ metrics ∨ "openTypeOS2TypoDescender" ∈ metrics) →
      _fixOffsetMetrics metrics st = (st', r) → ∃ e, r = Raise e.
Proof.
  intros Ha Hd.
  split; [intros b; by apply fixOffsetMetric_typo_ascender|].
  split; [intros b; by apply fixOffsetMetric_typo_descender|].
  intros metrics st' r Hin. unfold _fixOffsetMetrics.
  unfold bind at 1, get_font at 1. simpl.
  unfold bind at 1, lift at 1.
  destruct (getFontBounds (font st)) as [b|e]; [|intros [= _ <-]; eauto].
  intros Hrun. destruct Hin as [Hin|Hin].
  - eapply (fixOffsetMetrics_stops b "openTypeOS2TypoAscender");
      [by left|done|done|exact Hin|exact Hrun].
  - eapply (fixOffsetMetrics_stops b "openTypeOS2TypoDescender");
      [by right|done|done|exact Hin|exact Hrun].
Qed.

(** X26.  Let the bounding box of the font be [b], let every remembered
    name be one of the six offset metrics and hold an integer, and let
    the font object have the integer attribute [ascender] when
    [openTypeOS2TypoAscender] is remembered and [descender] when
    [openTypeOS2TypoDescender] is.  Then [_fixOffsetMetrics] returns, the
    parser is as it was, the attributes that are not remembered are as
    they were, and an attribute that held the integer [off] holds the rule
    of its name applied to [off] as many times as the name was
    remembered: once for a name remembered once, not at all for a name
    that was not.  The rules: typo ascender = ascender + offset, typo
    descender = descender + offset, win ascent = yMax + offset, win
    descent = max(- yMin + offset, 0), hhea ascender = yMax + offset, hhea
    descender = yMin + offset. *)
Theorem fixOffsetMetrics_rules
    (metrics : list string) (st : St) (b : Bounds) (a d : Z) :
  getFontBounds (font st) = Ok b →
  ("openTypeOS2TypoAscender" ∈ metrics → font_ascender (font st) = Ok (VInt a)) →
  ("openTypeOS2TypoDescender" ∈ metrics → font_descender (font st) = Ok (VInt d)) →
  (∀ m, m ∈ metrics →
        m ∈ dvalues _OFFSET_METRICS ∧ ∃ off, getinfo m (font st) = VInt off) →
  ∃ st',
    _fixOffsetMetrics metrics st = (st', Ok tt)
    ∧ self st' = self st
    ∧ (∀ m, m ∉ metrics → getinfo m (font st') = getinfo m (font st))
    ∧ (∀ m off, getinfo m (font st) = VInt off →
         getinfo m (font st')
         = VInt (Nat.iter (timesIn m metrics) (resolvedMetric m a d b) off))
    ∧ (∀ m off, m ∈ metrics → timesIn m metrics = 1%nat →
         getinfo m (font st) = VInt off →
         getinfo m (font st') = VInt (resolvedMetric m a d b off))
    ∧ ∀ m off, m ∈ metrics →
        resolvedMetric m a d b off =
          (if decide (m = "openTypeOS2TypoAscender") then a + off
           else if decide (m = "openTypeOS2TypoDescender") then d + off
           else if decide (m = "openTypeOS2WinAscent") then yMax b + off
           else if decide (m = "openTypeOS2WinDescent") then Z.max (- yMin b + off) 0
           else if decide (m = "openTypeHheaAscender") then yMax b + off
           else yMin b + off)%Z.
Proof.
  intros Hb Ha Hd Hall.
  destruct (fixOffsetMetrics_loop b metrics st a d Ha Hd Hall)
    as (st' & Hrun & Hself & Hframe & Hval).
  exists st'. split.
  { unfold _fixOffsetMetrics. unfold bind at 1, get_font at 1. simpl.
    unfold bind at 1, lift at 1. by rewrite Hb. }
  split; [done|]. split; [done|]. split; [done|]. split.
  - intros m off Hm Hone Hoff. rewrite (Hval m off Hoff), Hone. done.
  - intros m off Hm.
    destruct (Hall m Hm) as [Hsix _]. apply offset_metric_names in Hsix.
    destruct Hsix as [-> | [-> | [-> | [-> | [-> | ->]]]]]; reflexivity.
Qed.

End Driver.

(** The first line [SplineFontDB: 2.0] is refused and nothing is changed. *)
Lemma C1_witness :
  ¬ isHeader (B := Plain.builtins) "SplineFontDB: 2.0"
  ∧ ∃ e, headerError e
         ∧ parse 1 (SFDFile ["SplineFontDB: 2.0"; "Ascent: 800"]) Plain.start
           = (Plain.start, Raise e)
         ∧ parse 1 (SFDDir (Some ["SplineFontDB: 2.0"; "Ascent: 800"]) []) Plain.start
           = (Plain.start, Raise e).
Proof.
  assert (Hnot : ¬ isHeader (B := Plain.builtins) "SplineFontDB: 2.0").
  { intros (value & version & Hsplit & Hfloat & Hversion).
    vm_compute in Hsplit. injection Hsplit as <-.
    vm_compute in Hfloat. injection Hfloat as <-.
    vm_compute in Hversion. discriminate. }
  split; [exact Hnot|].
  exact (C1_version_gate 0 "SplineFontDB: 2.0" ["Ascent: 800"] [] Plain.start Hnot).
Defined.


(** A source that sets the flag [OS2TypoAOffset], read into an empty font:
    the ascender 800 is established in [info], and [parse] raises
    [AttributeError] when it comes to the offset metrics.  The same on the
    font [metricsFont], whose [info] has ascender 800 and descender -200. *)
Lemma C6_witness :
  (∃ st',
     parse 100 (SFDFile (sampleWith ["OS2TypoAscent: 0"; "OS2TypoAOffset: 1"]))
       Plain.start = (st', Raise AttributeError)
     ∧ getinfo "ascender" (font st') = VInt 800
     ∧ getinfo "openTypeOS2TypoAscender" (font st') = VInt 0)
  ∧ attrs (font metricsFont) !! "ascender" = None
  ∧ attrs (font metricsFont) !! "descender" = None
  ∧ getinfo "ascender" (font metricsFont) = VInt 800
  ∧ (∀ b, fixOffsetMetric b "openTypeOS2TypoAscender" metricsFont
          = (metricsFont, Raise AttributeError))
  ∧ ∀ st' r, _fixOffsetMetrics ["openTypeOS2TypoAscender"] metricsFont = (st', r) →
             ∃ e, r = Raise e.
Proof.
  split.
  { eexists. split; [vm_compute; reflexivity|].
    split; vm_compute; reflexivity. }
  split; [reflexivity|]. split; [reflexivity|].
  split; [vm_compute; reflexivity|].
  destruct (C6_typo_rule_reads_font_attribute (U := Plain.utils) metricsFont eq_refl eq_refl) as (Ha & _ & Hall).
  split; [exact Ha|].
  intros st' r. apply Hall. left. by left.
Defined.

(** Outline up to 750, offset 50.  Remembered once, the resolved
    [openTypeOS2WinAscent] is 800; remembered twice, it is 1550. *)
Lemma fixOffsetMetrics_rules_witness :
  (∃ st',
     _fixOffsetMetrics ["openTypeOS2WinAscent"] metricsFont = (st', Ok tt)
     ∧ getinfo "openTypeOS2WinAscent" (font st') = VInt 800)
  ∧ ∃ st',
      _fixOffsetMetrics ["openTypeOS2WinAscent"; "openTypeOS2WinAscent"] metricsFont
      = (st', Ok tt)
      ∧ getinfo "openTypeOS2WinAscent" (font st') = VInt 1550.
Proof.
  assert (Hrules : ∀ metrics,
            (∀ m, m ∈ metrics → m = "openTypeOS2WinAscent") →
            ∃ st',
              _fixOffsetMetrics metrics metricsFont = (st', Ok tt)
              ∧ getinfo "openTypeOS2WinAscent" (font st')
                = VInt (Nat.iter (timesIn "openTypeOS2WinAscent" metrics)
                          (resolvedMetric "openTypeOS2WinAscent" 0 0
                             {| yMin := 0; yMax := 750 |}) 50%Z)).
  { intros metrics Hm.
    destruct (fixOffsetMetrics_rules (U := Plain.utils) metrics metricsFont
                {| yMin := 0; yMax := 750 |} 0 0)
      as (st' & Hrun & _ & _ & Hval & _).
    - vm_compute. reflexivity.
    - intros Hin. apply Hm in Hin. discriminate.
    - intros Hin. apply Hm in Hin. discriminate.
    - intros m ->%Hm. split.
      + unfold dvalues. simpl. rewrite !elem_of_cons. tauto.
      + exists 50%Z. vm_compute. reflexivity.
    - exists st'. split; [exact Hrun|]. apply Hval. vm_compute. reflexivity. }
  split.
  - destruct (Hrules ["openTypeOS2WinAscent"]) as (st' & Hrun & Hval).
    { by intros m ->%list_elem_of_singleton. }
    exists st'. split; [exact Hrun|exact Hval].
  - destruct (Hrules ["openTypeOS2WinAscent"; "openTypeOS2WinAscent"])
      as (st' & Hrun & Hval).
    { intros m Hm. rewrite !elem_of_cons, elem_of_nil in Hm. tauto. }
    exists st'. split; [exact Hrun|exact Hval].
Defined.

(** ** One glyph section *)

Section GlyphClaims.
Context `{B : Builtins} `{R : Regex} `{U : !Utils}.

Lemma selectLayer_order glyph name key value loc st st1 loc1 :
  selectLayer glyph name key value loc st = (st1, Ok loc1) →
  order loc1 = order loc.
Proof.
  unfold selectLayer. intros Hrun.
  repeat first [progress run_inv Hrun | progress run_prims
               | case_match; try discriminate]; done.
Qed.

(** What one record does to the cursor and to [order]. *)
Lemma charRecord_order glyph name data i key value loc st st1 i1 loc1 :
  charRecord glyph name data i key value loc st = (st1, Ok (i1, loc1)) →
  nextCursor data i key value = Some i1
  ∧ order loc1 = (if decide (key = "Encoding") then rankOf value else order loc)
  ∧ (key = "Encoding" → is_Some (order loc1)).
Proof.
  unfold charRecord, nextCursor. intros Hrun.
  repeat case_decide; subst; try discriminate;
    repeat first [progress run_inv Hrun | progress run_prims
                 | case_match; try discriminate];
    simplify_eq;
    try match goal with
    | H : selectLayer _ _ _ _ _ _ = _ |- _ => apply selectLayer_order in H
    end;
    try (split; [done|]; split; [done|]; intros; done).
  all: match goal with H : str_of _ = Ok _ |- _ => apply of_option_Ok in H as -> end.
  all: unfold rankOf;
    match goal with H : rmap _ _ = Ok _ |- _ => rewrite H end; simpl; eauto.
Qed.

Lemma getitem_elem_of {X} (l : list X) i x : getitem l i = Ok x → x ∈ l.
Proof.
  unfold getitem. repeat case_match; try done;
    intros ?%of_option_Ok; by eapply list_elem_of_lookup_2.
Qed.

Lemma encodingRecords_elem_of fuel data i value :
  value ∈ encodingRecords_go fuel data i →
  ∃ line, line ∈ data ∧ splitRecord line = ("Encoding", value).
Proof.
  revert i. induction fuel as [|f IH]; intros i; simpl; [by intros ?%elem_of_nil|].
  destruct (i <? _)%Z; [|by intros ?%elem_of_nil].
  destruct (getitem data i) as [line|] eqn:Hline; [|by intros ?%elem_of_nil].
  destruct (splitRecord line) as [key v] eqn:Hs.
  intros Hin. apply elem_of_app in Hin as [Hin|Hin].
  - case_decide; [|by apply elem_of_nil in Hin].
    apply list_elem_of_singleton in Hin. subst.
    exists line. eauto using getitem_elem_of.
  - destruct (nextCursor data (i + 1) key v); [eauto|by apply elem_of_nil in Hin].
Qed.

(** The loop of [_parseChar] leaves in [order] the rank of the last
    [Encoding] record it met, or what [order] held if it met none. *)
Lemma parseChar_go_order fuel glyph name data i loc st st' loc' :
  parseChar_go fuel glyph name data i loc st = (st', Ok loc') →
  order loc' = match last (encodingRecords_go fuel data i) with
               | Some value => rankOf value
               | None => order loc
               end.
Proof.
  revert i loc st. induction fuel as [|f IH]; intros i loc st; simpl; [done|].
  destruct (i <? _)%Z.
  2: { by intros [_ [= <-]]%ret_Ok. }
  intros Hrun. run_inv Hrun. apply lift_Ok in Hrun0 as [-> ->].
  destruct (splitRecord x) as [key value]. run_inv Hrun.
  destruct x0 as [i1 loc1].
  apply charRecord_order in Hrun0 as (-> & Hord & Hsome).
  apply IH in Hrun.
  destruct (encodingRecords_go f data i1) as [|v0 vs] eqn:Erest.
  - rewrite app_nil_r. simpl in Hrun. rewrite Hrun, Hord.
    by case_decide.
  - rewrite last_app.
    assert (is_Some (last (v0 :: vs))) as [w Hw].
    { destruct (last (v0 :: vs)) eqn:El; [eauto|]. by apply last_None in El. }
    by rewrite Hw in Hrun |- *.
Qed.

(** C10. A glyph section is parsed only if it holds an [Encoding]
    record: when [_parseChar] returns, the section has such records, and
    the rank returned is the third integer of the last of them.  A
    section with no [Encoding] line never makes [_parseChar] return: the
    call raises, and when the loop over the records of the section comes
    to its end with [order] unassigned, what is raised is
    [UnboundLocalError]. *)
Theorem C10_rank_from_last_Encoding_record (data : list string) (st : St) :
  (∀ st' glyph name rank,
     _parseChar data st = (st', Ok (glyph, name, rank)) →
     ∃ first rest value,
       data = first :: rest
       ∧ last (encodingRecords rest) = Some value
       ∧ rankOf value = Some rank
       ∧ ∃ line, line ∈ rest ∧ splitRecord line = ("Encoding", value))
  ∧ ((∀ line, line ∈ tail data → (splitRecord line).1 ≠ "Encoding") →
     (∀ st' r, _parseChar data st = (st', r) → ∃ e, r = Raise e)
     ∧ ∀ fuel glyph name i loc st0 st1 loc1,
         order loc = None →
         parseChar_go fuel glyph name (tail data) i loc st0 = (st1, Ok loc1) →
         of_option UnboundLocalError (order loc1) = Raise UnboundLocalError).
Proof.
  assert (Hmain : ∀ st' glyph name rank,
     _parseChar data st = (st', Ok (glyph, name, rank)) →
     ∃ first rest value,
       data = first :: rest
       ∧ last (encodingRecords rest) = Some value
       ∧ rankOf value = Some rank
       ∧ ∃ line, line ∈ rest ∧ splitRecord line = ("Encoding", value)).
  { intros st' glyph name rank Hrun. unfold _parseChar in Hrun.
    destruct data as [|first rest]; [done|].
    destruct (split ": " first) as [|a [|b [|]]]; try done.
    run_inv Hrun. destruct (layer_newGlyph 0 _ _) as [f' g0]. run_inv Hrun.
    match goal with
    | H : parseChar_go _ _ _ _ _ _ _ = _ |- _ =>
        apply parseChar_go_order in H as Hlast
    end.
    match goal with
    | H : lift (of_option _ (order _)) _ = _ |- _ =>
        apply lift_Ok in H as [-> Hord]; apply of_option_Ok in Hord
    end.
    apply ret_Ok in Hrun as [_ Heq]. injection Heq as -> -> ->.
    change (encodingRecords_go (S (length rest)) rest 0)
      with (encodingRecords rest) in Hlast.
    destruct (last (encodingRecords rest)) as [value|] eqn:El.
    2: { simpl in Hlast. rewrite Hord in Hlast. discriminate. }
    exists first, rest, value. split; [done|]. split; [done|].
    split; [congruence|].
    eapply encodingRecords_elem_of. unfold encodingRecords in El.
    eapply last_Some_elem_of, El. }
  split; [exact Hmain|].
  intros Hnone. split.
  - intros st' r Hrun. destruct r as [[[glyph name] rank]|e]; [|eauto].
    exfalso.
    destruct (Hmain _ _ _ _ Hrun) as (first & rest & value & -> & _ & _ & Hline).
    destruct Hline as (line & Hin & Hs). apply (Hnone line); [done|].
    by rewrite Hs.
  - intros fuel glyph name i loc st0 st1 loc1 Hord Hrun.
    apply parseChar_go_order in Hrun as Hlast.
    destruct (last (encodingRecords_go fuel (tail data) i)) as [value|] eqn:El.
    + exfalso. apply last_Some_elem_of, encodingRecords_elem_of in El.
      destruct El as (line & Hin & Hs). apply (Hnone line Hin). by rewrite Hs.
    + by rewrite Hlast, Hord.
Qed.

End GlyphClaims.

Section LayerClaims.
Context `{B : Builtins} `{R : Regex} `{U : !Utils}.

(** The layer index as the source computes it: [Back] is 0, [Fore] is 1,
    a bare [Layer] is 2, and [Layer: n] is [n] when [n] is not zero. *)
Lemma layerIndex_keywords :
  layerIndex "Back" None = Ok 0%Z
  ∧ layerIndex "Fore" None = Ok 1%Z
  ∧ layerIndex "Layer" None = Ok 2%Z
  ∧ ∀ v n, v ≠ "" → py_int v = Some n → n ≠ 0%Z →
           layerIndex "Layer" (Some v) = Ok n.
Proof.
  repeat split; try reflexivity.
  intros v n Hne Hv Hn. unfold layerIndex.
  apply String.eqb_neq in Hne as ->. rewrite Hv. simpl.
  by apply Z.eqb_neq in Hn as ->.
Qed.

(** C4 (the code at [Layer: 0]).  A [Layer] record whose value reads as
    the integer 0 does not select layer 0: the index computed is 2, and
    the record acts in every state exactly as a [Layer] record with no
    value. *)
Theorem C4_Layer_0_selects_index_2 (v : string) :
  py_int v = Some 0%Z →
  layerIndex "Layer" (Some v) = Ok 2%Z
  ∧ ∀ glyph name loc st,
      selectLayer glyph name "Layer" (Some v) loc st
      = selectLayer glyph name "Layer" None loc st.
Proof.
  intros Hv.
  assert (Hidx : layerIndex "Layer" (Some v) = layerIndex "Layer" None).
  { unfold layerIndex. destruct (String.eqb v ""); [done|]. by rewrite Hv. }
  split; [by rewrite Hidx|].
  intros glyph name loc st. unfold selectLayer. by rewrite Hidx.
Qed.

End LayerClaims.

Lemma C4_witness :
  py_int (Builtins := Plain.builtins) "0" = Some 0%Z
  ∧ layerIndex (B := Plain.builtins) "Layer" (Some "0") = Ok 2%Z.
Proof.
  split; [reflexivity|].
  exact (proj1 (C4_Layer_0_selects_index_2 (B := Plain.builtins) "0" eq_refl)).
Defined.

(** The section [layerZeroGlyph] is parsed with three layers declared:
    the glyph made for the record [Layer: 0] and its outline are in the
    layer of slot 2, and the layer of slot 0 holds no glyph. *)
Lemma C4_layer_zero_run :
  ∃ st' id g,
    _parseChar layerZeroGlyph threeLayers = (st', Ok (0%nat, "a", 0%Z))
    ∧ _layers (self st') = [SlotLayer 1; SlotLayer 0; SlotLayer 2]
    ∧ layer_get 1 "a" (font st') = None
    ∧ layer_get 2 "a" (font st') = Some id
    ∧ heap (font st') !! id = Some g
    ∧ length (g_contours g) = 1%nat
    ∧ g_getattr "width" g = VInt 500.
Proof.
  eexists _, _, _.
  split; [vm_compute; reflexivity|].
  split; [vm_compute; reflexivity|].
  split; [vm_compute; reflexivity|].
  split; [vm_compute; reflexivity|].
  split; [vm_compute; reflexivity|].
  split; vm_compute; reflexivity.
Qed.

(** The section below has two [Encoding] records; the rank is that of
    the second. *)
Lemma C10_witness :
  ∃ st',
    _parseChar ["StartChar: a"; "Encoding: 97 97 0"; "Width: 500"; "Encoding: 65 65 7"]
      Plain.start = (st', Ok (0%nat, "a", 7%Z))
    ∧ ∃ first rest value,
        ["StartChar: a"; "Encoding: 97 97 0"; "Width: 500"; "Encoding: 65 65 7"]
        = first :: rest
        ∧ last (encodingRecords rest) = Some value
        ∧ rankOf value = Some 7%Z
        ∧ ∃ line, line ∈ rest ∧ splitRecord line = ("Encoding", value).
Proof.
  eexists. split; [vm_compute; reflexivity|].
  eapply (proj1 (C10_rank_from_last_Encoding_record _ Plain.start)).
  vm_compute. reflexivity.
Defined.

(** ** The glyph order *)

(** Python's stable sort, as straight insertion. *)
Section SortFacts.
Context {A : Type} (key : A → Z).

Lemma insert_by_perm x l : insert_by Z.ltb key x l ≡ₚ x :: l.
Proof.
  induction l as [|y l IH]; simpl; [done|].
  destruct (key y <? key x)%Z; [|done].
  rewrite IH. apply Permutation_swap.
Qed.

Lemma sorted_by_perm l : sorted_by Z.ltb key l ≡ₚ l.
Proof.
  induction l as [|x l IH]; simpl; [done|].
  by rewrite insert_by_perm, IH.
Qed.

Lemma insert_by_sorted x l :
  StronglySorted (λ a b, key a ≤ key b)%Z l →
  StronglySorted (λ a b, key a ≤ key b)%Z (insert_by Z.ltb key x l).
Proof.
  induction 1 as [|y l Hs IH Hall]; simpl.
  - repeat constructor.
  - destruct (key y <? key x)%Z eqn:E.
    + apply Z.ltb_lt in E. constructor; [done|].
      rewrite insert_by_perm. constructor; [lia|done].
    + apply Z.ltb_ge in E. constructor; [by constructor|].
      constructor; [done|]. eapply Forall_impl; [exact Hall|].
      simpl. intros. lia.
Qed.

Lemma sorted_by_sorted l :
  StronglySorted (λ a b, key a ≤ key b)%Z (sorted_by Z.ltb key l).
Proof.
  induction l as [|x l IH]; simpl; [constructor|]. by apply insert_by_sorted.
Qed.

(** Stability: the items of one key keep their order. *)
Lemma insert_by_stable r x l :
  filter (λ a, key a = r) (insert_by Z.ltb key x l)
  = filter (λ a, key a = r) (x :: l).
Proof.
  induction l as [|y l IH]; simpl; [done|].
  destruct (key y <? key x)%Z eqn:E; [|done].
  apply Z.ltb_lt in E.
  rewrite (filter_cons _ y), IH, !filter_cons.
  repeat case_decide; try done; lia.
Qed.

Lemma sorted_by_stable r l :
  filter (λ a, key a = r) (sorted_by Z.ltb key l) = filter (λ a, key a = r) l.
Proof.
  induction l as [|x l IH]; simpl; [done|].
  by rewrite insert_by_stable, !filter_cons, IH.
Qed.

(** A sorted list is left as it is. *)
Lemma sorted_by_fixed l :
  StronglySorted (λ a b, key a ≤ key b)%Z l → sorted_by Z.ltb key l = l.
Proof.
  induction 1 as [|x l Hs IH Hall]; simpl; [done|].
  rewrite IH. destruct l as [|y l]; simpl; [done|].
  apply Forall_cons in Hall as [Hxy _].
  by apply Z.ltb_ge in Hxy as ->.
Qed.

Lemma sorted_by_idem l :
  sorted_by Z.ltb key (sorted_by Z.ltb key l) = sorted_by Z.ltb key l.
Proof. apply sorted_by_fixed, sorted_by_sorted. Qed.

End SortFacts.

(** Sorting names by their rank in the map is sorting the entries. *)
Section Dicts.
Context {K V : Type} `{EqDecision K}.

Lemma dget_dset_eq (d : list (K * V)) k v : dget (dset d k v) k = Some v.
Proof.
  induction d as [|[k' v'] d IH]; simpl.
  - by rewrite decide_True.
  - destruct (decide (k' = k)) as [->|Hne]; simpl.
    + by rewrite decide_True.
    + by rewrite decide_False.
Qed.

Lemma dget_dset_ne (d : list (K * V)) k k' v :
  k ≠ k' → dget (dset d k v) k' = dget d k'.
Proof.
  intros Hne. induction d as [|[k0 v0] d IH]; simpl.
  - by rewrite decide_False.
  - destruct (decide (k0 = k)) as [->|Hne0]; simpl.
    + by rewrite !decide_False.
    + by rewrite IH.
Qed.

Lemma dget_None (d : list (K * V)) k : dget d k = None ↔ k ∉ dkeys d.
Proof.
  unfold dkeys. induction d as [|[k0 v0] d IH]; simpl.
  - split; [intros _; apply not_elem_of_nil | done].
  - rewrite not_elem_of_cons. destruct (decide (k0 = k)) as [->|Hne].
    + split; [done | intros [[] _]; done].
    + rewrite IH. split; [by split | by intros []].
Qed.

Lemma dget_Some_elem (d : list (K * V)) k v : dget d k = Some v → (k, v) ∈ d.
Proof.
  induction d as [|[k0 v0] d IH]; simpl; [done|].
  destruct (decide (k0 = k)) as [->|Hne].
  - intros [= ->]. apply list_elem_of_here.
  - intros H. apply list_elem_of_further. auto.
Qed.

Lemma dget_elem (d : list (K * V)) k v :
  NoDup (dkeys d) → (k, v) ∈ d → dget d k = Some v.
Proof.
  unfold dkeys. induction d as [|[k0 v0] d IH]; simpl.
  - intros _ H. inversion H.
  - intros [Hnot Hnd]%NoDup_cons [[= -> ->]|Hin]%elem_of_cons.
    + by rewrite decide_True.
    + rewrite decide_False; [auto|].
      intros ->. apply Hnot. apply list_elem_of_fmap. by exists (k, v).
Qed.

Lemma dkeys_dset (d : list (K * V)) k v :
  dkeys (dset d k v)
  = match dget d k with Some _ => dkeys d | None => dkeys d ++ [k] end.
Proof.
  unfold dkeys. induction d as [|[k0 v0] d IH]; csimpl; [done|].
  destruct (decide (k0 = k)) as [->|Hne]; csimpl; [done|].
  rewrite IH. by destruct (dget d k).
Qed.

Lemma dset_NoDup_keys (d : list (K * V)) k v :
  NoDup (dkeys d) → NoDup (dkeys (dset d k v)).
Proof.
  intros Hnd. rewrite dkeys_dset. destruct (dget d k) eqn:E; [done|].
  apply dget_None in E. apply NoDup_app. split; [done|]. split.
  - intros x Hx ->%list_elem_of_singleton. done.
  - apply NoDup_singleton.
Qed.

End Dicts.

Section OrderClaims.
Context `{B : Builtins} `{R : Regex} `{U : !Utils}.

Lemma parseChars_go_NoDup fuel data i gom st st1 gom' :
  NoDup (dkeys gom) →
  parseChars_go fuel data i gom st = (st1, Ok gom') →
  NoDup (dkeys gom').
Proof.
  revert i gom st. induction fuel as [|fuel IH]; intros i gom st Hnd Hrun.
  - discriminate.
  - simpl in Hrun. destruct (i <? _)%Z.
    + run_inv Hrun. destruct (startswith x "StartChar").
      * run_inv Hrun. destruct x0 as [char i']. run_inv Hrun.
        destruct x0 as [[glyph name] order].
        eapply IH; [|exact Hrun]. by apply dset_NoDup_keys.
      * eauto.
    + apply ret_Ok in Hrun as [_ ->]. done.
Qed.

Lemma sorted_names (gom l : list (string * Z)) :
  NoDup (dkeys gom) → l ⊆ gom →
  sorted_by Z.ltb (rankIn gom) l.*1 = (sorted_by Z.ltb snd l).*1
  ∧ sorted_by Z.ltb snd l ⊆ gom.
Proof.
  intros Hnd. induction l as [|[n r] l IH]; intros Hsub; csimpl; [done|].
  destruct IH as [IH1 IH2].
  { intros x Hx. apply Hsub. by apply list_elem_of_further. }
  rewrite IH1. split.
  - assert (Hr : rankIn gom n = r).
    { unfold rankIn. rewrite (dget_elem gom n r); [done|done|].
      apply Hsub, list_elem_of_here. }
    revert IH2. generalize (sorted_by Z.ltb snd l). intros s Hs.
    induction s as [|[n' r'] s IHs]; csimpl; [done|].
    assert (Hr' : rankIn gom n' = r').
    { unfold rankIn. rewrite (dget_elem gom n' r'); [done|done|].
      apply Hs, list_elem_of_here. }
    rewrite Hr, Hr'. destruct (r' <? r)%Z; csimpl; [|done].
    f_equal. apply IHs.
    intros x Hx. apply Hs. by apply list_elem_of_further.
  - intros x Hx. rewrite insert_by_perm in Hx.
    apply elem_of_cons in Hx as [->|Hx]; [apply Hsub, list_elem_of_here | auto].
Qed.

Lemma sortedGlyphNames_by_rank gom :
  NoDup (dkeys gom) →
  sortedGlyphNames gom = sorted_by Z.ltb (rankIn gom) (dkeys gom).
Proof.
  intros Hnd. unfold sortedGlyphNames, dkeys.
  symmetry. by apply sorted_names.
Qed.

(** X1.  A returning [_parseChars] has scanned the glyph block into a
    rank map whose names are distinct and as many as the glyphs of the
    font; what it then does is one assignment of the glyph order: the
    names of the map, sorted by rank.  The sort keeps the names of one
    rank in the order they entered the map, and sorting the result again
    by the same ranks, or assigning it again, changes nothing. *)
Theorem parseChars_glyph_order_sorted_by_rank (data : option (list string)) (st st' : St) :
  _parseChars data st = (st', Ok tt) →
  ∃ lines glyphOrderMap st1,
    data = Some lines
    ∧ parseChars_go (S (length (scanned lines))) (scanned lines) 0 [] st
      = (st1, Ok glyphOrderMap)
    ∧ NoDup (dkeys glyphOrderMap)
    ∧ length (dkeys glyphOrderMap) = length (glyphOrder (font st1))
    ∧ st' = {| self := self st1; font := assignOrder glyphOrderMap (font st1) |}
    ∧ glyphOrder (font st') = sorted_by Z.ltb (rankIn glyphOrderMap) (dkeys glyphOrderMap)
    ∧ glyphOrder (font st') ≡ₚ dkeys glyphOrderMap
    ∧ StronglySorted (λ a b, rankIn glyphOrderMap a ≤ rankIn glyphOrderMap b)%Z
        (glyphOrder (font st'))
    ∧ (∀ r, filter (λ n, rankIn glyphOrderMap n = r) (glyphOrder (font st'))
            = filter (λ n, rankIn glyphOrderMap n = r) (dkeys glyphOrderMap))
    ∧ sorted_by Z.ltb (rankIn glyphOrderMap) (glyphOrder (font st'))
      = glyphOrder (font st')
    ∧ assignOrder glyphOrderMap (font st') = font st'.
Proof.
  intros Hrun. unfold _parseChars in Hrun.
  destruct data as [lines|]; [|discriminate].
  rewrite (bind_step _ _ st st lines) in Hrun by reflexivity.
  fold (scanned lines) in Hrun.
  apply bind_Ok in Hrun as (st1 & gom & Hscan & Hrun).
  run_inv Hrun. run_prims.
  assert (Hnd : NoDup (dkeys gom)).
  { eapply parseChars_go_NoDup; [|exact Hscan]. constructor. }
  match goal with H : (_ =? _)%nat = true |- _ => apply Nat.eqb_eq in H; rename H into Hlen end.
  match type of Hscan with _ = (?s, _) => exists lines, gom, s end. simpl.
  rewrite (sortedGlyphNames_by_rank gom Hnd).
  split; [done|]. split; [done|]. split; [done|].
  split; [unfold dkeys; by rewrite length_fmap|].
  split; [unfold assignOrder; by rewrite (sortedGlyphNames_by_rank gom Hnd)|].
  split; [done|].
  split; [apply sorted_by_perm|].
  split; [apply sorted_by_sorted|].
  split; [intros r; apply sorted_by_stable|].
  split; [apply sorted_by_idem|].
  unfold assignOrder. by rewrite (sortedGlyphNames_by_rank gom Hnd).
Qed.

(** C2.  When [_parseChars] returns, it has scanned the glyph block into
    a rank map whose names are distinct and as many as the glyphs of the
    font, and has then assigned the glyph order once: the names of the
    map, sorted by rank.  The sort keeps the names of one rank in the
    order they entered the map, and sorting the result again by the same
    ranks, or assigning it again, changes nothing.  The count is checked:
    when the scan returns a map whose names are not as many as the glyphs
    of the font, [_parseChars] raises [AssertionError] and the glyph
    order is not assigned. *)
Theorem C2_glyph_order_sorted_by_rank (data : option (list string)) (st : St) :
  (∀ st',
     _parseChars data st = (st', Ok tt) →
     ∃ lines glyphOrderMap st1,
       data = Some lines
       ∧ parseChars_go (S (length (scanned lines))) (scanned lines) 0 [] st
         = (st1, Ok glyphOrderMap)
       ∧ NoDup (dkeys glyphOrderMap)
       ∧ length (dkeys glyphOrderMap) = length (glyphOrder (font st1))
       ∧ st' = {| self := self st1; font := assignOrder glyphOrderMap (font st1) |}
       ∧ glyphOrder (font st')
         = sorted_by Z.ltb (rankIn glyphOrderMap) (dkeys glyphOrderMap)
       ∧ glyphOrder (font st') ≡ₚ dkeys glyphOrderMap
       ∧ StronglySorted (λ a b, rankIn glyphOrderMap a ≤ rankIn glyphOrderMap b)%Z
           (glyphOrder (font st'))
       ∧ (∀ r, filter (λ n, rankIn glyphOrderMap n = r) (glyphOrder (font st'))
               = filter (λ n, rankIn glyphOrderMap n = r) (dkeys glyphOrderMap))
       ∧ sorted_by Z.ltb (rankIn glyphOrderMap) (glyphOrder (font st'))
         = glyphOrder (font st')
       ∧ assignOrder glyphOrderMap (font st') = font st')
  ∧ ∀ lines glyphOrderMap st1,
      data = Some lines →
      parseChars_go (S (length (scanned lines))) (scanned lines) 0 [] st
      = (st1, Ok glyphOrderMap) →
      length (glyphOrder (font st1)) ≠ length (dkeys glyphOrderMap) →
      _parseChars data st = (st1, Raise AssertionError).
Proof.
  split.
  { intros st' Hrun. unfold _parseChars in Hrun.
    destruct data as [lines|]; [|discriminate].
    rewrite (bind_step _ _ st st lines) in Hrun by reflexivity.
    fold (scanned lines) in Hrun.
    apply bind_Ok in Hrun as (st1 & gom & Hscan & Hrun).
    run_inv Hrun. run_prims.
    assert (Hnd : NoDup (dkeys gom)).
    { eapply parseChars_go_NoDup; [|exact Hscan]. constructor. }
    match goal with H : (_ =? _)%nat = true |- _ => apply Nat.eqb_eq in H; rename H into Hlen end.
    match type of Hscan with _ = (?s, _) => exists lines, gom, s end. simpl.
    rewrite (sortedGlyphNames_by_rank gom Hnd).
    split; [done|]. split; [done|]. split; [done|].
    split; [unfold dkeys; by rewrite length_fmap|].
    split; [unfold assignOrder; by rewrite (sortedGlyphNames_by_rank gom Hnd)|].
    split; [done|].
    split; [apply sorted_by_perm|].
    split; [apply sorted_by_sorted|].
    split; [intros r; apply sorted_by_stable|].
    split; [apply sorted_by_idem|].
    unfold assignOrder. by rewrite (sortedGlyphNames_by_rank gom Hnd). }
  intros lines gom st1 -> Hscan Hne. unfold _parseChars.
  rewrite (bind_step _ _ st st lines) by reflexivity.
  fold (scanned lines).
  rewrite (bind_step _ _ _ _ _ Hscan).
  erewrite bind_step by reflexivity.
  unfold dkeys in Hne. rewrite length_fmap in Hne.
  apply Nat.eqb_neq in Hne. by rewrite Hne.
Qed.

End OrderClaims.

(** The block [threeGlyphs] from a new font: the three names enter the
    map as [b], [c], [a] and leave sorted as [a], [b], [c]. *)
Lemma parseChars_glyph_order_witness :
  ∃ st',
    _parseChars (Some threeGlyphs) Plain.start = (st', Ok tt)
    ∧ glyphOrder (font st') = ["a"; "b"; "c"]
    ∧ ∃ lines glyphOrderMap st1,
        Some threeGlyphs = Some lines
        ∧ parseChars_go (S (length (scanned lines))) (scanned lines) 0 [] Plain.start
          = (st1, Ok glyphOrderMap)
        ∧ dkeys glyphOrderMap = ["b"; "c"; "a"]
        ∧ length (dkeys glyphOrderMap) = length (glyphOrder (font st1))
        ∧ glyphOrder (font st') ≡ₚ dkeys glyphOrderMap.
Proof.
  eexists. split; [vm_compute; reflexivity|].
  split; [vm_compute; reflexivity|].
  edestruct (parseChars_glyph_order_sorted_by_rank (Some threeGlyphs) Plain.start)
    as (lines & gom & st1 & Hdata & Hscan & _ & Hlen & _ & _ & Hperm & _).
  { vm_compute. reflexivity. }
  exists lines, gom, st1. injection Hdata as <-.
  split; [done|]. split; [done|]. split; [|done].
  vm_compute in Hscan. by injection Hscan as <- <-.
Defined.

(** The block [threeGlyphs] from a new font: the scan returns the ranks
    of [b], [c] and [a], three names for three glyphs, and the glyph
    order is assigned as [a], [b], [c]. *)
Lemma C2_witness :
  ∃ st',
    _parseChars (Some threeGlyphs) Plain.start = (st', Ok tt)
    ∧ glyphOrder (font st') = ["a"; "b"; "c"]
    ∧ ∃ lines glyphOrderMap st1,
        Some threeGlyphs = Some lines
        ∧ parseChars_go (S (length (scanned lines))) (scanned lines) 0 [] Plain.start
          = (st1, Ok glyphOrderMap)
        ∧ glyphOrderMap = [("b", 1%Z); ("c", 1%Z); ("a", 0%Z)]
        ∧ length (dkeys glyphOrderMap) = length (glyphOrder (font st1))
        ∧ assignOrder glyphOrderMap (font st') = font st'.
Proof.
  eexists. split; [vm_compute; reflexivity|].
  split; [vm_compute; reflexivity|].
  edestruct (proj1 (C2_glyph_order_sorted_by_rank (B := Plain.builtins)
                      (R := Re.engine) (U := Plain.utils)
                      (Some threeGlyphs) Plain.start))
    as (lines & gom & st1 & Hdata & Hscan & _ & Hlen & _ & _ & _ & _ & _ & _ & Hagain).
  { vm_compute. reflexivity. }
  exists lines, gom, st1. injection Hdata as <-.
  split; [done|]. split; [done|]. split; [|done].
  vm_compute in Hscan. by injection Hscan as <- <-.
Defined.

(** ** Lookup names *)

Section NameFacts.

Lemma keptChars_keep i s : keptChars (S i) s = keepNameChars s.
Proof.
  revert i. induction s as [|ch s IH]; intros i; [done|].
  cbn [keptChars keepNameChars]. rewrite !IH.
  destruct ch as [[] [] [] [] [] [] [] []]; reflexivity.
Qed.

(** The stripped name: the characters of the class, of the raw name less
    a digit in its first place, cut to 63. *)
Lemma strippedName_spec lookup :
  strippedName lookup = take_str 63 (keepNameChars (dropFirstDigit lookup)).
Proof.
  unfold strippedName. f_equal. destruct lookup as [|ch s]; [done|].
  unfold keptChars; fold keptChars. rewrite !keptChars_keep.
  unfold dropFirstDigit.
  destruct ch as [[] [] [] [] [] [] [] []]; reflexivity.
Qed.

Lemma take_str_length n s : String.length (take_str n s) ≤ n.
Proof.
  revert s. induction n as [|n IH]; intros [|c s]; simpl; try lia.
  specialize (IH s). lia.
Qed.

Lemma str_of_nat_inj a b : str_of_nat a = str_of_nat b → a = b.
Proof.
  unfold str_of_nat. intros H.
  apply (f_equal NilEmpty.uint_of_string) in H.
  rewrite !NilEmpty.usu in H. injection H as H.
  apply (f_equal Nat.of_uint) in H.
  by rewrite !DecimalNat.Unsigned.of_to in H.
Qed.

Lemma synthName_inj isgpos kind feat script a b :
  synthName isgpos kind feat script a = synthName isgpos kind feat script b → a = b.
Proof.
  unfold synthName. intros H.
  repeat apply String.app_inj in H. by apply str_of_nat_inj.
Qed.

(** The [while True] loop. *)
Lemma freeName_Ok fuel used mk i out :
  freeName fuel used mk i = Ok out →
  ∃ k, out = mk (i + 2 * k)%nat ∧ (out ∉ used)
       ∧ ∀ j, (j < k)%nat → mk (i + 2 * j)%nat ∈ used.
Proof.
  revert i. induction fuel as [|fuel IH]; intros i; simpl; [done|].
  unfold inb. case_bool_decide as Hin.
  - intros (k & -> & Hout & Hlt)%IH. exists (S k).
    split; [f_equal; lia|]. split; [done|].
    intros [|j] Hj.
    + match goal with |- mk ?a ∈ _ => by replace a with i by lia end.
    + match goal with
      | |- mk ?a ∈ _ => replace a with (i + 2 + 2 * j)%nat by lia
      end.
      apply Hlt. lia.
  - intros [= <-]. exists 0%nat.
    split; [f_equal; lia|]. split; [done|]. lia.
Qed.

Lemma freeName_Raise fuel used mk i e :
  freeName fuel used mk i = Raise e →
  e = Diverges ∧ ∀ j, (j < fuel)%nat → mk (i + 2 * j)%nat ∈ used.
Proof.
  revert i. induction fuel as [|fuel IH]; intros i; simpl.
  - intros [= <-]. split; [done|]. lia.
  - unfold inb. case_bool_decide as Hin; [|done].
    intros [-> Hlt]%IH. split; [done|].
    intros [|j] Hj.
    + match goal with |- mk ?a ∈ _ => by replace a with i by lia end.
    + match goal with
      | |- mk ?a ∈ _ => replace a with (i + 2 + 2 * j)%nat by lia
      end.
      apply Hlt. lia.
Qed.

(** The loop ends: the names it goes through are all different, and no
    more of them can be in use than there are names in use. *)
Lemma freeName_ends used mk i :
  (∀ a b, mk a = mk b → a = b) →
  ∃ out, freeName (S (length used)) used mk i = Ok out.
Proof.
  intros Hinj.
  destruct (freeName (S (length used)) used mk i) as [out|e] eqn:E; [eauto|].
  apply freeName_Raise in E as [_ Hall]. exfalso.
  assert (Hsub : (λ j, mk (i + 2 * j)%nat) <$> seq 0 (S (length used)) ⊆+ used).
  { apply NoDup_submseteq.
    - apply NoDup_fmap_2; [|apply NoDup_seq].
      intros a b Hab. apply Hinj in Hab. lia.
    - intros x (j & -> & Hj)%list_elem_of_fmap.
      apply elem_of_seq in Hj. apply Hall. lia. }
  apply submseteq_length in Hsub.
  rewrite length_fmap, length_seq in Hsub. lia.
Qed.

Lemma dvalues_dset_new (d : list (string * string)) k v :
  dget d k = None → dvalues (dset d k v) = dvalues d ++ [v].
Proof.
  unfold dvalues. induction d as [|[k0 v0] d IH]; csimpl; [done|].
  destruct (decide (k0 = k)); [done|]. csimpl. intros H. by rewrite IH.
Qed.

Lemma injectiveNames_dget memo a b n :
  injectiveNames memo → dget memo a = Some n → dget memo b = Some n → a = b.
Proof.
  unfold injectiveNames, dvalues.
  intros Hnd Ha%dget_Some_elem Hb%dget_Some_elem.
  apply list_elem_of_lookup in Ha as [i Hi], Hb as [j Hj].
  assert (i = j) as ->.
  { eapply NoDup_lookup; [exact Hnd| |].
    - by rewrite list_lookup_fmap, Hi.
    - by rewrite list_lookup_fmap, Hj. }
  congruence.
Qed.

End NameFacts.

Section NameClaims.
Context `{B : Builtins} `{R : Regex} `{U : !Utils}.

#[local] Arguments freeName : simpl never.
#[local] Arguments dget : simpl never.
#[local] Arguments synthName : simpl never.
#[local] Arguments strippedName : simpl never.

(** A name once made is returned as it is, whatever [isgpos]. *)
Lemma sanitize_hit lookup isgpos (st : St) out :
  dget (_sanitizedLookupNames (self st)) lookup = Some out →
  _santizeLookupName lookup isgpos st = (st, Ok out).
Proof.
  intros H. unfold _santizeLookupName, bind, get_self. by rewrite H.
Qed.

(** A lookup that has no name yet. *)
Lemma sanitize_miss lookup isgpos (st st' : St) r :
  dget (_sanitizedLookupNames (self st)) lookup = None →
  _santizeLookupName lookup isgpos st = (st', r) →
  r ≠ Raise Diverges
  ∧ ∀ out, r = Ok out →
      ∃ g, isgpos = Some g
           ∧ newName (self st) lookup g (dvalues (_sanitizedLookupNames (self st))) out
           ∧ st' = {| self := set_sanitizedLookupNames
                                (dset (_sanitizedLookupNames (self st)) lookup out)
                                (self st);
                      font := font st |}.
Proof.
  intros Hnone. unfold _santizeLookupName, bind at 1, get_self. rewrite Hnone.
  destruct isgpos as [g|]; simpl.
  2:{ intros [= <- <-]. split; [done|]. intros out [=]. }
  unfold bind at 1. simpl. unfold inb.
  case_bool_decide as Hused; simpl.
  - (* the stripped name is in use *)
    unfold bind at 1, lift.
    destruct (dget (_lookupInfo (self st)) lookup) as [[[kind flags] fealangsys]|] eqn:Hinfo;
      simpl.
    2:{ intros [= <- <-]. split; [done|]. intros out [=]. }
    unfold bind at 1.
    set (parts := match fealangsys with
                  | [] => Ok (EmptyString, EmptyString)
                  | f :: _ => rbind (scriptOf f) (λ script, Ok (tag f, script))
                  end).
    destruct parts as [[feat script]|e] eqn:Hparts.
    2:{ intros [= <- <-]. split.
        - subst parts. destruct fealangsys as [|f fs]; [done|].
          unfold scriptOf in Hparts. destruct (tag f); simpl in Hparts; [|done].
          by injection Hparts as <-.
        - intros out [=]. }
    unfold bind at 1.
    destruct (freeName_ends (dvalues (_sanitizedLookupNames (self st)))
                (synthName g (default "unknown" (dget _SHORT_LOOKUP_TYPES kind)) feat script)
                0) as [out Hout].
    { intros a b. apply synthName_inj. }
    rewrite Hout. unfold bind, mod_self, ret. simpl.
    intros [= <- <-]. split; [done|]. intros ? [= <-].
    apply freeName_Ok in Hout as (k & Hk & Hfree & Hlt).
    exists g. split; [done|]. split; [|done].
    split; [done|]. right. split; [done|].
    exists (kind, flags, fealangsys), (default "unknown" (dget _SHORT_LOOKUP_TYPES kind)),
      feat, script, k.
    split; [done|]. split; [|done].
    split; [done|]. simpl. subst parts.
    destruct fealangsys as [|f fs].
    + by injection Hparts as <- <-.
    + destruct (scriptOf f) as [s|]; simpl in Hparts; [|done].
      by injection Hparts as <- <-.
  - (* the stripped name is free *)
    unfold bind, mod_self, ret. simpl.
    intros [= <- <-]. split; [done|]. intros ? [= <-].
    exists g. split; [done|]. split; [|done].
    split; [done|]. by left.
Qed.

(** One call of [_santizeLookupName] on an injective memo: the loop ends,
    and a returning call leaves an injective memo in which [lookup] has
    the returned name and every lookup named before has the name it had. *)
Lemma sanitize_step lookup isgpos (st st' : St) r :
  injectiveNames (_sanitizedLookupNames (self st)) →
  _santizeLookupName lookup isgpos st = (st', r) →
  r ≠ Raise Diverges
  ∧ ∀ out, r = Ok out →
      injectiveNames (_sanitizedLookupNames (self st'))
      ∧ dget (_sanitizedLookupNames (self st')) lookup = Some out
      ∧ (∀ other name, dget (_sanitizedLookupNames (self st)) other = Some name →
                       dget (_sanitizedLookupNames (self st')) other = Some name)
      ∧ (∀ other, other ≠ lookup →
                  dget (_sanitizedLookupNames (self st')) other
                  = dget (_sanitizedLookupNames (self st)) other)
      ∧ font st' = font st
      ∧ (∀ u, set_sanitizedLookupNames u (self st')
              = set_sanitizedLookupNames u (self st))
      ∧ (dget (_sanitizedLookupNames (self st)) lookup = Some out ∧ st' = st
         ∨ dget (_sanitizedLookupNames (self st)) lookup = None
           ∧ ∃ g, isgpos = Some g
                  ∧ newName (self st) lookup g
                      (dvalues (_sanitizedLookupNames (self st))) out).
Proof.
  intros Hinj Hrun.
  destruct (dget (_sanitizedLookupNames (self st)) lookup) as [n|] eqn:Hmemo.
  - rewrite (sanitize_hit _ _ _ _ Hmemo) in Hrun. injection Hrun as <- <-.
    split; [done|]. intros ? [= <-]. repeat split; auto.
  - destruct (sanitize_miss _ _ _ _ _ Hmemo Hrun) as [Hdiv Hok].
    split; [done|]. intros out ->.
    destruct (Hok out eq_refl) as (g & -> & Hnew & ->). simpl.
    split.
    { unfold injectiveNames. rewrite dvalues_dset_new by done.
      apply NoDup_app. split; [done|]. split; [|apply NoDup_singleton].
      intros x Hx ->%list_elem_of_singleton. by destruct Hnew. }
    split; [apply dget_dset_eq|].
    split.
    { intros other name Hother. rewrite dget_dset_ne; [done|]. congruence. }
    split; [intros other Hne; by apply dget_dset_ne|].
    split; [done|]. split; [done|].
    right. split; [done|]. eauto.
Qed.

(** X2.  On a memo in which no name is held twice,
    a call of [_santizeLookupName] ends; when it returns, no name is held
    twice in the memo it leaves, [lookup] holds the returned name and no
    other lookup does, the lookups named before keep their names, and
    every later call for [lookup] returns the same name and changes
    nothing.  A name newly made is free, and it is the stripped name, or,
    when that is in use, the first free one of the synthesized names
    numbered 0, 2, 4, ...  The stripped name is made of the characters of
    the class [[A-Za-z0-9._]], in their order, of the raw name less a
    digit in its first place, cut to 63 characters. *)
Theorem santizeLookupName_injective (lookup : string) (isgpos : option bool)
    (st : St) :
  injectiveNames (_sanitizedLookupNames (self st)) →
  (∀ st', _santizeLookupName lookup isgpos st ≠ (st', Raise Diverges))
  ∧ (∀ st' out,
       _santizeLookupName lookup isgpos st = (st', Ok out) →
       let memo := _sanitizedLookupNames (self st) in
       let memo' := _sanitizedLookupNames (self st') in
       injectiveNames memo'
       ∧ dget memo' lookup = Some out
       ∧ (∀ a b name, dget memo' a = Some name → dget memo' b = Some name → a = b)
       ∧ (∀ other name, dget memo other = Some name → dget memo' other = Some name)
       ∧ (∀ g, _santizeLookupName lookup g st' = (st', Ok out))
       ∧ (dget memo lookup = Some out ∧ st' = st
          ∨ dget memo lookup = None
            ∧ ∃ g, isgpos = Some g ∧ newName (self st) lookup g (dvalues memo) out))
  ∧ strippedName lookup = take_str 63 (keepNameChars (dropFirstDigit lookup))
  ∧ String.length (strippedName lookup) ≤ 63.
Proof.
  intros Hinj. split; [|split; [|split]].
  - intros st' Hrun. by destruct (sanitize_step _ _ _ _ _ Hinj Hrun) as [Hdiv _].
  - intros st' out Hrun. simpl.
    destruct (sanitize_step _ _ _ _ _ Hinj Hrun) as [_ Hok].
    destruct (Hok out eq_refl) as (Hinj' & Hget & Hkeep & _ & _ & _ & Hnew).
    split; [done|]. split; [done|].
    split; [intros a b name; by apply injectiveNames_dget|].
    split; [done|].
    split; [intros g; by apply sanitize_hit|done].
  - apply strippedName_spec.
  - apply take_str_length.
Qed.

(** Within a run: the calls [calls] made one after the other, from a
    parser that has named no lookup yet.  Two calls return one name just
    when they are for one lookup. *)
Lemma sanitize_run_injective (calls : list (string * option bool))
    (st st' : St) (names : list string) :
  injectiveNames (_sanitizedLookupNames (self st)) →
  mapM (λ c, _santizeLookupName c.1 c.2) calls st = (st', Ok names) →
  injectiveNames (_sanitizedLookupNames (self st'))
  ∧ (∀ other name, dget (_sanitizedLookupNames (self st)) other = Some name →
                   dget (_sanitizedLookupNames (self st')) other = Some name)
  ∧ length names = length calls
  ∧ ∀ i c name, calls !! i = Some c → names !! i = Some name →
                dget (_sanitizedLookupNames (self st')) c.1 = Some name.
Proof.
  revert st names. induction calls as [|c calls IH]; intros st names Hinj Hrun.
  - apply ret_Ok in Hrun as [-> ->]. repeat split; auto. intros i c name [=].
  - simpl in Hrun. run_inv Hrun. apply ret_Ok in Hrun as [-> ->].
    destruct (sanitize_step _ _ _ _ _ Hinj Hrun0) as [_ Hok].
    destruct (Hok x eq_refl) as (Hinj1 & Hget & Hkeep & _).
    destruct (IH _ _ Hinj1 Hrun1) as (Hinj' & Hkeep' & Hlen & Hnames).
    split; [done|]. split; [auto|]. split; [simpl; by rewrite Hlen|].
    intros [|i] c' name; simpl.
    + intros [= <-] [= <-]. auto.
    + apply Hnames.
Qed.

End NameClaims.

(** The raw names [a-b] and [ab] strip to one name; the second call gets
    a synthesized one. *)
Lemma santizeLookupName_injective_witness :
  let st := {| self := twoLookups (__init__ false false); font := Plain.emptyFont |} in
  ∃ st1 st2,
    _santizeLookupName "a-b" (Some false) st = (st1, Ok "ab")
    ∧ _santizeLookupName "ab" (Some false) st1 = (st2, Ok "sub_single_ligalatn_0")
    ∧ _sanitizedLookupNames (self st2) = [("a-b", "ab"); ("ab", "sub_single_ligalatn_0")]
    ∧ injectiveNames (_sanitizedLookupNames (self st2))
    ∧ ∀ g, _santizeLookupName "ab" g st2 = (st2, Ok "sub_single_ligalatn_0").
Proof.
  intros st.
  assert (H0 : injectiveNames (_sanitizedLookupNames (self st))) by constructor.
  eexists _, _.
  split; [vm_compute; reflexivity|].
  split; [vm_compute; reflexivity|].
  split; [vm_compute; reflexivity|].
  pose proof (proj1 (proj2 (santizeLookupName_injective (F := Plain.floats)
                "a-b" (Some false) st H0)) _ _ eq_refl) as (H1 & _).
  pose proof (proj1 (proj2 (santizeLookupName_injective (F := Plain.floats)
                "ab" (Some false) _ H1)) _ _ eq_refl) as (H2 & _ & _ & _ & Hmemo & _).
  split; [exact H2 | exact Hmemo].
Defined.

(** C5.  The first loop of [_santizeLookupName] leaves out a digit only
    where it is the first character of the raw name: the name it makes is
    made of the characters of the class, in their order, of the raw name
    less that one digit, cut to 63 characters.  So the digits that lead
    the name are not all dropped.  The raw name [12abc] is named [2abc],
    and the raw name [-1abc] is named [1abc]; stripping the characters
    outside the class and dropping the leading digits gives [abc] for
    both. *)
Theorem C5_leading_digits_kept :
  (∀ lookup,
     strippedName lookup = take_str 63 (keepNameChars (dropFirstDigit lookup)))
  ∧ (∃ st', _santizeLookupName "12abc" (Some false) Plain.start = (st', Ok "2abc"))
  ∧ specStrippedName "12abc" = "abc"
  ∧ (∃ st', _santizeLookupName "-1abc" (Some false) Plain.start = (st', Ok "1abc"))
  ∧ specStrippedName "-1abc" = "abc".
Proof.
  split; [apply strippedName_spec|].
  split; [eexists; vm_compute; reflexivity|].
  split; [reflexivity|].
  split; [eexists; vm_compute; reflexivity|reflexivity].
Qed.

(** ** Pruned lookups *)

Section Loops.
Context `{F : Floats}.

Lemma forM_Ok {A} (I : St → Prop) (body : A → M unit) (l : list A) :
  (∀ x s s' u, x ∈ l → I s → body x s = (s', Ok u) → I s') →
  ∀ st st' u, I st → forM l body st = (st', Ok u) → I st'.
Proof.
  induction l as [|x l IH]; intros Hbody st st' u HI Hrun.
  - by apply ret_Ok in Hrun as [-> _].
  - simpl in Hrun. apply bind_Ok in Hrun as (s1 & u1 & Hx & Hrun).
    eapply IH; [|..|exact Hrun].
    + intros y s s' u' Hy. apply Hbody. by apply list_elem_of_further.
    + eapply Hbody; [apply list_elem_of_here|exact HI|exact Hx].
Qed.

Lemma mapM_Ok {A B} (I : St → Prop) (Q : B → Prop) (f : A → M B) (l : list A) :
  (∀ x s s' y, x ∈ l → I s → f x s = (s', Ok y) → I s' ∧ Q y) →
  ∀ st st' ys, I st → mapM f l st = (st', Ok ys) → I st' ∧ Forall Q ys.
Proof.
  induction l as [|x l IH]; intros Hf st st' ys HI Hrun.
  - apply ret_Ok in Hrun as [-> ->]. by split.
  - simpl in Hrun. apply bind_Ok in Hrun as (s1 & y & Hx & Hrun).
    apply bind_Ok in Hrun as (s2 & ys' & Hl & Hrun).
    apply ret_Ok in Hrun as [-> ->].
    destruct (Hf x st s1 y) as [HI1 HQ]; [apply list_elem_of_here|done|done|].
    destruct (IH (λ y s s' z Hy, Hf y s s' z (list_elem_of_further _ _ _ Hy))
                s1 s2 ys' HI1 Hl) as [HI2 HQs].
    split; [done|]. by constructor.
Qed.

Lemma flatM_Ok {A B} (I : St → Prop) (Q : B → Prop) (f : A → M (list B))
    (l : list A) :
  (∀ x s s' ys, x ∈ l → I s → f x s = (s', Ok ys) → I s' ∧ Forall Q ys) →
  ∀ st st' ys, I st → flatM f l st = (st', Ok ys) → I st' ∧ Forall Q ys.
Proof.
  intros Hf st st' ys HI Hrun. unfold flatM in Hrun.
  apply bind_Ok in Hrun as (s1 & yss & Hl & Hrun).
  apply ret_Ok in Hrun as [-> ->].
  destruct (mapM_Ok I (Forall Q) f l Hf st s1 yss HI Hl) as [HI1 HQ].
  split; [done|]. by apply Forall_concat.
Qed.

Lemma fold_left_inv {A B} (P : A → Prop) (step : A → B → A) (l : list B) a :
  (∀ a b, P a → P (step a b)) → P a → P (fold_left step l a).
Proof.
  intros Hstep. revert a. induction l as [|b l IH]; intros a Ha; simpl; auto.
Qed.

Lemma rmap_Ok {A B} (Q : B → Prop) (f : A → result B) (l : list A) ys :
  (∀ x y, x ∈ l → f x = Ok y → Q y) → rmap f l = Ok ys → Forall Q ys.
Proof.
  revert ys. induction l as [|x l IH]; intros ys Hf; simpl.
  - intros [= <-]. constructor.
  - intros (y & Hy & (ys' & Hys & [= <-])%rbind_Ok)%rbind_Ok.
    constructor.
    + eapply Hf; [apply list_elem_of_here|done].
    + apply IH; [|done]. intros x' y' Hx'. apply Hf. by apply list_elem_of_further.
Qed.

End Loops.

Section Lines.

Lemma append_cons c a b : String c a +:+ b = String c (a +:+ b).
Proof. reflexivity. Qed.

Lemma length_append a b :
  String.length (a +:+ b) = (String.length a + String.length b)%nat.
Proof.
  induction a as [|c a IH]; [done|].
  rewrite append_cons. simpl. by rewrite IH.
Qed.

Lemma append_inj_r c a b : a +:+ c = b +:+ c → a = b.
Proof.
  intros H.
  assert (Hlen : String.length a = String.length b).
  { apply (f_equal String.length) in H. rewrite !length_append in H. lia. }
  revert b H Hlen. induction a as [|x a IH]; intros [|y b] H Hlen;
    try done.
  rewrite !append_cons in H. injection H as -> H.
  f_equal. apply IH; [done|]. by injection Hlen.
Qed.

Lemma lookupRef_inj a b : lookupRef a = lookupRef b → a = b.
Proof.
  unfold lookupRef. intros H%String.app_inj. by apply append_inj_r in H.
Qed.

Lemma blockOpen_inj a b : blockOpen a = blockOpen b → a = b.
Proof.
  unfold blockOpen. intros H%String.app_inj. by apply append_inj_r in H.
Qed.

Lemma blockClose_inj a b : blockClose a = blockClose b → a = b.
Proof.
  unfold blockClose. intros H%String.app_inj. by apply append_inj_r in H.
Qed.

Lemma indented_not_named s name :
  indented s = true →
  s ≠ "" ∧ s ≠ blockOpen name ∧ s ≠ blockClose name ∧ s ≠ lookupRef name.
Proof.
  intros H. repeat split; intros ->; cbv in H; discriminate.
Qed.

Lemma featureFrame_not_named s name :
  featureFrame s = true → s ≠ blockOpen name ∧ s ≠ lookupRef name.
Proof.
  intros H. repeat split; intros ->; cbv in H; discriminate.
Qed.

Lemma blockLine_not_named n name s :
  n ≠ name → blockLine n s →
  s ≠ blockOpen name ∧ s ≠ blockClose name ∧ s ≠ lookupRef name.
Proof.
  intros Hne [->|[->|[H| ->]]].
  - repeat split; intros H; cbv in H; discriminate.
  - split; [by intros ?%blockOpen_inj|].
    split; intros H; cbv in H; discriminate.
  - by apply indented_not_named.
  - split; [intros H; cbv in H; discriminate|].
    split; [by intros ?%blockClose_inj|].
    intros H; cbv in H; discriminate.
Qed.

Lemma featureLine_not_named (P : string → Prop) name s :
  ¬ P name → featureLine P s → s ≠ blockOpen name ∧ s ≠ lookupRef name.
Proof.
  intros HP [H|(n & Hn & ->)].
  - by apply featureFrame_not_named.
  - split; [intros H; cbv in H; discriminate|].
    intros ->%lookupRef_inj. done.
Qed.

End Lines.

Section PruneFacts.
Context `{B : Builtins} `{R : Regex} `{U : !Utils}.

#[local] Arguments dget : simpl never.
#[local] Arguments dset : simpl never.

Lemma survives_spec (p : Parser) sub : survives p sub = true ↔ survivesAs p sub.
Proof.
  unfold survives, survivesAs, dhas.
  rewrite orb_true_iff, bool_decide_eq_true, existsb_exists. split.
  - intros [([g frags] & Hin & H)|H]; [left|by right].
    apply bool_decide_eq_true in H. exists g, frags.
    split; [by apply list_elem_of_In|done].
  - intros [(g & frags & Hin & H)|H]; [left|by right].
    exists (g, frags). split; [by apply list_elem_of_In|].
    by apply bool_decide_eq_true.
Qed.

(** A lookup that is kept has a subtable that survives. *)
Lemma pruned_survivor isgpos (p : Parser) lookup subtables :
  (lookup, subtables) ∈ prunedLookups isgpos p →
  (lookup, subtables) ∈ tableLookups isgpos p
  ∧ ∃ sub, sub ∈ subtables ∧ survivesAs p sub.
Proof.
  unfold prunedLookups. intros [Hany Hin]%list_elem_of_filter.
  split; [done|]. unfold any_str in Hany.
  apply existsb_exists in Hany as (sub & Hsub & _).
  apply list_elem_of_In in Hsub. unfold _pruneSubtables in Hsub.
  apply list_elem_of_filter in Hsub as [Hs Hsub].
  exists sub. split; [done|]. by apply survives_spec.
Qed.

Lemma noSurvivor_pruned isgpos (p : Parser) lookup :
  noSurvivor p isgpos lookup → lookup ∉ dkeys (prunedLookups isgpos p).
Proof.
  intros Hno ([l subtables] & -> & Hin)%list_elem_of_fmap.
  apply pruned_survivor in Hin as [Hin (sub & Hsub & Hs)].
  by eapply Hno.
Qed.

Lemma pruned_keys isgpos (p : Parser) lookup :
  lookup ∈ dkeys (prunedLookups isgpos p) → lookup ∈ dkeys (tableLookups isgpos p).
Proof.
  intros ([l subtables] & -> & Hin)%list_elem_of_fmap.
  apply pruned_survivor in Hin as [Hin _].
  apply list_elem_of_fmap. by exists (l, subtables).
Qed.

(** The first loop of [_writeGSUBGPOS]: every lookup of the table gets
    its name, and nothing else of the parser changes. *)
Lemma sanitize_all isgpos keys (st st1 : St) u :
  injectiveNames (_sanitizedLookupNames (self st)) →
  forM keys (λ lookup, _santizeLookupName lookup (Some isgpos) >> ret tt) st
  = (st1, Ok u) →
  injectiveNames (_sanitizedLookupNames (self st1))
  ∧ (∀ other name, dget (_sanitizedLookupNames (self st)) other = Some name →
                   dget (_sanitizedLookupNames (self st1)) other = Some name)
  ∧ (∀ k, k ∈ keys → is_Some (dget (_sanitizedLookupNames (self st1)) k))
  ∧ font st1 = font st
  ∧ (∀ v, set_sanitizedLookupNames v (self st1)
          = set_sanitizedLookupNames v (self st)).
Proof.
  revert st. induction keys as [|k keys IH]; intros st Hinj Hrun.
  - apply ret_Ok in Hrun as [-> _]. repeat split; auto.
    intros k Hk. inversion Hk.
  - simpl in Hrun. apply bind_Ok in Hrun as (s1 & u1 & Hk & Hrun).
    apply bind_Ok in Hk as (s2 & name & Hk & Hret).
    apply ret_Ok in Hret as [-> _].
    destruct (sanitize_step _ _ _ _ _ Hinj Hk) as [_ Hok].
    destruct (Hok name eq_refl) as (Hinj1 & Hget & Hkeep & _ & Hfont & Hset & _).
    destruct (IH _ Hinj1 Hrun) as (Hinj' & Hkeep' & Hall & Hfont' & Hset').
    split; [done|]. split; [auto|]. split.
    { intros k' [->|Hk']%elem_of_cons; [eauto|auto]. }
    split; [congruence|]. intros v. by rewrite Hset'.
Qed.

Lemma same_tables isgpos (p p' : Parser) :
  (∀ v, set_sanitizedLookupNames v p' = set_sanitizedLookupNames v p) →
  tableLookups isgpos p' = tableLookups isgpos p
  ∧ prunedLookups isgpos p' = prunedLookups isgpos p.
Proof.
  intros H. specialize (H []).
  assert (H1 : _gsubLookups p' = _gsubLookups p)
    by exact (f_equal _gsubLookups H).
  assert (H2 : _gposLookups p' = _gposLookups p)
    by exact (f_equal _gposLookups H).
  assert (H3 : _glyphPosSub p' = _glyphPosSub p)
    by exact (f_equal _glyphPosSub H).
  assert (H4 : _anchorClasses p' = _anchorClasses p)
    by exact (f_equal _anchorClasses H).
  unfold prunedLookups, _pruneSubtables, survives, tableLookups.
  by rewrite H1, H2, H3, H4.
Qed.

(** *** The lines of a block *)

Lemma ruleLine_indented kind glyph possub line possub' :
  ruleLine kind glyph possub = Ok (line, possub') → indented line = true.
Proof.
  unfold ruleLine. destruct (startswith kind "gsub_").
  - destruct (join_toks _ possub) as [joined|]; [|done].
    unfold rbind. repeat case_match; intros [= <- <-]; reflexivity.
  - repeat case_match; try done; intros [= <- <-]; reflexivity.
Qed.

Lemma ruleLines_indented kind glyph frags lines frags' e :
  ruleLines kind glyph frags = (lines, frags', e) →
  Forall (λ s, indented s = true) lines.
Proof.
  revert lines frags' e. induction frags as [|[k possub] frags IH];
    intros lines frags' e; simpl.
  - intros [= <- <- <-]. constructor.
  - destruct (ruleLine kind glyph possub) as [[line possub']|e'] eqn:Hline.
    + destruct (ruleLines kind glyph frags) as [[lines0 rest] e0].
      intros [= <- <- <-]. constructor; [|by eapply IH].
      by eapply ruleLine_indented.
    + intros [= <- <- <-]. constructor.
Qed.

Lemma subtableRules_lines kind subtable (st st' : St) lines :
  subtableRules kind subtable st = (st', Ok lines) →
  (_sanitizedLookupNames (self st') = _sanitizedLookupNames (self st)
   ∧ font st' = font st)
  ∧ Forall (λ s, indented s = true) lines.
Proof.
  intros Hrun. unfold subtableRules in Hrun.
  apply bind_Ok in Hrun as (s1 & p & Hp & Hrun).
  apply ret_Ok in Hp as [-> ->].
  eapply (flatM_Ok (λ s, _sanitizedLookupNames (self s) = _sanitizedLookupNames (self st)
                         ∧ font s = font st)); [|done|exact Hrun].
  clear. intros glyph s s' ys _ Hs Hrun.
  apply bind_Ok in Hrun as (s1 & p & Hp & Hrun).
  apply ret_Ok in Hp as [-> ->].
  destruct (dget (default [] (dget (_glyphPosSub (self s)) glyph)) subtable)
    as [frags|].
  - destruct (ruleLines kind glyph frags) as [[lines frags'] e] eqn:Hlines.
    apply bind_Ok in Hrun as (s1 & u & Hmod & Hrun).
    unfold mod_self in Hmod. injection Hmod as <- _.
    destruct e as [e|]; [discriminate|].
    apply ret_Ok in Hrun as [-> ->]. split; [done|].
    by eapply ruleLines_indented.
  - apply ret_Ok in Hrun as [-> ->]. by split.
Qed.

Lemma anchorStep_lines (p : Parser) kind anchorClass glyph acc :
  Forall (λ s, indented s = true) acc.1.1 →
  Forall (λ s, indented s = true) (anchorStep p kind anchorClass glyph acc).1.1.
Proof.
  destruct acc as [[lines marks] bases]. unfold anchorStep. simpl.
  intros Hlines. repeat case_match; simpl; try done.
  apply Forall_app. split; [done|]. by repeat constructor.
Qed.

Lemma writeAnchorClass_lines (p : Parser) (f : Font) lookup subtable lines :
  _writeAnchorClass p f lookup subtable = Ok lines →
  Forall (λ s, indented s = true) lines.
Proof.
  unfold _writeAnchorClass.
  intros ([[kind flags] fs] & _ & (classes & _ & H)%rbind_Ok)%rbind_Ok.
  revert H.
  match goal with
  | |- context [fold_left ?step classes ?acc0] =>
      set (acc := fold_left step classes acc0);
      assert (Hacc : Forall (λ s, indented s = true) acc.1.1)
  end.
  { subst acc.
    apply (fold_left_inv (λ acc, Forall (λ s, indented s = true) acc.1.1));
      [|constructor].
    intros acc anchorClass Hacc.
    apply (fold_left_inv (λ acc, Forall (λ s, indented s = true) acc.1.1));
      [|done].
    intros acc' glyph. apply anchorStep_lines. }
  destruct acc as [[ls marks] bases]. simpl in Hacc.
  intros (baseLines & Hbase & [= <-])%rbind_Ok.
  apply Forall_app. split; [done|]. apply Forall_app. split.
  - apply Forall_fmap, Forall_forall. by intros [[[x y] anchorClass] glyphs] _.
  - eapply rmap_Ok; [|exact Hbase].
    intros [[[x y] anchorClass] glyphs] line _ (pos & _ & Hline)%rbind_Ok.
    case_decide; [done|]. by injection Hline as <-.
Qed.

Lemma lookupBlock_lines lookup subtables name (st st' : St) lines :
  dget (_sanitizedLookupNames (self st)) lookup = Some name →
  lookupBlock lookup subtables st = (st', Ok lines) →
  (_sanitizedLookupNames (self st') = _sanitizedLookupNames (self st)
   ∧ font st' = font st)
  ∧ Forall (blockLine name) lines.
Proof.
  intros Hname Hrun. unfold lookupBlock in Hrun.
  apply bind_Ok in Hrun as (s1 & p & Hp & Hrun). apply ret_Ok in Hp as [-> ->].
  apply bind_Ok in Hrun as (s1 & [[kind flags] fs] & Hinfo & Hrun).
  apply lift_Ok in Hinfo as [-> _].
  apply bind_Ok in Hrun as (s1 & n & Hn & Hrun).
  rewrite (sanitize_hit lookup None st name) in Hn by done.
  injection Hn as <- <-.
  apply bind_Ok in Hrun as (s1 & body & Hbody & Hrun).
  apply bind_Ok in Hrun as (s2 & n' & Hn' & Hrun).
  apply ret_Ok in Hrun as [-> ->].
  eapply (flatM_Ok (λ s, _sanitizedLookupNames (self s) = _sanitizedLookupNames (self st)
                         ∧ font s = font st)
            (λ s, indented s = true)) in Hbody as [[Hm1 Hf1] Hb]; [|clear|done].
  2:{ intros subtable s s' ys _ [Hs Hf] Hsub.
      apply bind_Ok in Hsub as (s1 & p & Hp & Hsub). apply ret_Ok in Hp as [-> ->].
      apply bind_Ok in Hsub as (s1 & f & Hfo & Hsub). apply ret_Ok in Hfo as [-> ->].
      destruct (dhas (_anchorClasses (self s)) subtable).
      - apply lift_Ok in Hsub as [-> Hw]. split; [done|].
        by eapply writeAnchorClass_lines.
      - apply subtableRules_lines in Hsub as [[Hs' Hf'] Hl].
        split; [|done]. split; congruence. }
  rewrite (sanitize_hit lookup None s1 name) in Hn' by (by rewrite Hm1).
  injection Hn' as <- <-. split; [done|].
  apply Forall_app. split.
  { constructor; [by left|]. constructor; [right; by left|].
    constructor; [|constructor]. right. right. by left. }
  apply Forall_app. split.
  - eapply Forall_impl; [exact Hb|]. intros s Hs. right. right. by left.
  - constructor; [|constructor]. right. right. by right.
Qed.

(** *** The lines of the features *)

Lemma languageLookups_names lookups feature script language memo (st st' : St)
    names :
  _sanitizedLookupNames (self st) = memo →
  (∀ l, l ∈ dkeys lookups → is_Some (dget memo l)) →
  languageLookups lookups feature script language st = (st', Ok names) →
  st' = st
  ∧ Forall (λ n, ∃ l, l ∈ dkeys lookups ∧ dget memo l = Some n) names.
Proof.
  intros Hmemo Hall Hrun. unfold languageLookups in Hrun.
  eapply (flatM_Ok (λ s, s = st)); [|reflexivity|exact Hrun].
  intros [lookup subtables] s s' ys Hin -> Hl.
  apply bind_Ok in Hl as (s1 & p & Hp & Hl). apply ret_Ok in Hp as [-> ->].
  apply bind_Ok in Hl as (s1 & [[kind flags] fs] & Hinfo & Hl).
  apply lift_Ok in Hinfo as [-> _].
  assert (Hkey : lookup ∈ dkeys lookups).
  { apply list_elem_of_fmap. by exists (lookup, subtables). }
  destruct (Hall lookup Hkey) as [name Hname].
  eapply (flatM_Ok (λ s, s = st)); [|reflexivity|exact Hl].
  intros fl s sa ysa _ -> Hfl. case_decide.
  2:{ apply ret_Ok in Hfl as [-> ->]. by split. }
  eapply (flatM_Ok (λ s, s = st)); [|reflexivity|exact Hfl].
  intros sl s sb ysb _ -> Hsl. case_decide.
  2:{ apply ret_Ok in Hsl as [-> ->]. by split. }
  eapply (flatM_Ok (λ s, s = st)); [|reflexivity|exact Hsl].
  intros ll s sc ysc _ -> Hll. case_decide.
  2:{ apply ret_Ok in Hll as [-> ->]. by split. }
  apply bind_Ok in Hll as (s3 & n & Hn & Hll).
  rewrite (sanitize_hit lookup None st name) in Hn by (by rewrite Hmemo).
  injection Hn as <- <-. apply ret_Ok in Hll as [-> ->].
  split; [done|]. constructor; [eauto|constructor].
Qed.

Lemma featureTree_names lookups fs memo (st st' : St) features :
  _sanitizedLookupNames (self st) = memo →
  (∀ l, l ∈ dkeys lookups → is_Some (dget memo l)) →
  featureTree lookups fs st = (st', Ok features) →
  st' = st
  ∧ namesIn (λ n, ∃ l, l ∈ dkeys lookups ∧ dget memo l = Some n) features.
Proof.
  intros Hmemo Hall Hrun. unfold featureTree in Hrun.
  apply bind_Ok in Hrun as (s1 & outf & Houtf & Hrun).
  apply ret_Ok in Hrun as [-> ->].
  set (P := λ n, ∃ l, l ∈ dkeys lookups ∧ dget memo l = Some n).
  assert (Hfilter : ∀ {X} (Q : X → Prop) (T : X → Prop) `{∀ x, Decision (T x)}
                      (l : list X), Forall Q l → Forall Q (filter T l)).
  { intros X Q T ? l Hl. apply Forall_forall. intros x [_ Hx]%list_elem_of_filter.
    by eapply Forall_forall in Hl. }
  eapply (mapM_Ok (λ s, s = st)
            (λ e, Forall (λ e', Forall (λ e'', Forall P e''.2) e'.2) e.2))
    in Houtf as [-> Hf]; [|clear Houtf|reflexivity].
  { split; [done|]. by apply Hfilter. }
  intros feature s s' e _ -> He.
  apply bind_Ok in He as (t1 & outs & Houts & He).
  apply ret_Ok in He as [-> ->]. simpl.
  eapply (mapM_Ok (λ s, s = st) (λ e', Forall (λ e'', Forall P e''.2) e'.2))
    in Houts as [-> Hs]; [|clear Houts|reflexivity].
  { split; [done|]. by apply Hfilter. }
  intros script s s' e _ -> He.
  apply bind_Ok in He as (t2 & outl & Houtl & He).
  apply ret_Ok in He as [-> ->]. simpl.
  eapply (mapM_Ok (λ s, s = st) (λ e'', Forall P e''.2))
    in Houtl as [-> Hl]; [|clear Houtl|reflexivity].
  { split; [done|]. by apply Hfilter. }
  intros language s s' e _ -> He.
  apply bind_Ok in He as (t3 & names & Hnames & He).
  apply ret_Ok in He as [-> ->]. simpl.
  by eapply languageLookups_names.
Qed.

Lemma featureLines_names (P : string → Prop) features :
  namesIn P features → Forall (featureLine P) (concat (featureLines <$> features)).
Proof.
  intros Hf. apply Forall_concat, Forall_fmap.
  eapply Forall_impl; [exact Hf|]. clear. intros [feature scripts] Hs. simpl in *.
  unfold featureLines. simpl.
  constructor; [by left|]. constructor; [by left|].
  apply Forall_app. split; [|constructor; [by left|constructor]].
  apply Forall_concat, Forall_fmap.
  eapply Forall_impl; [exact Hs|]. clear. intros [script languages] Hl. simpl in *.
  unfold scriptLines. simpl.
  constructor; [by left|]. constructor; [by left|].
  apply Forall_concat, Forall_fmap.
  eapply Forall_impl; [exact Hl|]. clear. intros [language names] Hn. simpl in *.
  unfold languageLines. simpl.
  constructor; [by left|].
  apply Forall_fmap. eapply Forall_impl; [exact Hn|].
  intros name Hname. right. by exists name.
Qed.

End PruneFacts.

Section PruneClaims.
Context `{B : Builtins} `{R : Regex} `{U : !Utils}.

(** X3.  A lookup of the table none of whose subtables survives is not
    among the lookups kept.  When [_writeGSUBGPOS] returns, either it
    has added nothing to the feature text, or it has added the lines of
    the blocks and of the features, and among them there is no line that
    opens a block under the name of the lookup and none that refers to
    it; no line of the blocks closes a block under its name.  The name
    is the one name the parser holds for the lookup, and it holds it for
    no other. *)
Theorem writeGSUBGPOS_pruned_lookup_absent (isgpos : bool) (st st' : St) (lookup : string) :
  injectiveNames (_sanitizedLookupNames (self st)) →
  lookup ∈ dkeys (tableLookups isgpos (self st)) →
  noSurvivor (self st) isgpos lookup →
  _writeGSUBGPOS isgpos st = (st', Ok tt) →
  (lookup ∉ dkeys (prunedLookups isgpos (self st)))
  ∧ (∀ sub, survives (self st) sub = true ↔ survivesAs (self st) sub)
  ∧ ∃ name,
      dget (_sanitizedLookupNames (self st')) lookup = Some name
      ∧ (∀ other, dget (_sanitizedLookupNames (self st')) other = Some name →
                  other = lookup)
      ∧ (font st' = font st
         ∨ ∃ lines blocks feats,
             font st' = emitted lines (font st)
             ∧ lines = ["# " +:+ (if isgpos then "GPOS" else "GSUB") +:+ " "; ""]
                       ++ blocks ++ feats ++ [""]
             ∧ (blockOpen name ∉ lines)
             ∧ (lookupRef name ∉ lines)
             ∧ (blockClose name ∉ blocks)).
Proof.
  intros Hinj Hkey Hno Hrun.
  pose proof (noSurvivor_pruned _ _ _ Hno) as Hpruned.
  split; [done|]. split; [intros sub; apply survives_spec|].
  unfold _writeGSUBGPOS in Hrun.
  apply bind_Ok in Hrun as (s1 & lines & Hlines & Hrun).
  unfold tableLines in Hlines.
  apply bind_Ok in Hlines as (s0 & p & Hp & Hlines). apply ret_Ok in Hp as [-> ->].
  apply bind_Ok in Hlines as (s2 & u & Hall & Hlines).
  apply sanitize_all in Hall as (Hinj2 & _ & Hnamed & Hfont2 & Hset2); [|done].
  apply bind_Ok in Hlines as (s0 & p & Hp & Hlines). apply ret_Ok in Hp as [-> ->].
  destruct (same_tables isgpos _ _ Hset2) as [Htable Hkept].
  rewrite Hkept in Hlines.
  destruct (Hnamed lookup Hkey) as [name Hname].
  assert (Hother : ∀ l, l ∈ dkeys (prunedLookups isgpos (self st)) →
            ∃ n, dget (_sanitizedLookupNames (self s2)) l = Some n ∧ n ≠ name).
  { intros l Hl. destruct (Hnamed l (pruned_keys _ _ _ Hl)) as [n Hn].
    exists n. split; [done|]. intros ->.
    assert (l = lookup) as -> by (by eapply injectiveNames_dget).
    done. }
  case_bool_decide as Hempty.
  { (* no lookup is kept *)
    apply ret_Ok in Hlines as [-> ->]. apply ret_Ok in Hrun as [-> _].
    exists name. split; [done|].
    split; [intros other Ho; by eapply injectiveNames_dget|]. by left. }
  apply bind_Ok in Hlines as (s0 & fs & Hfs & Hlines). apply lift_Ok in Hfs as [-> _].
  apply bind_Ok in Hlines as (s0 & features & Htree & Hlines).
  eapply featureTree_names in Htree as [-> Htree]; [|reflexivity|].
  2:{ intros l Hl. apply Hnamed. by eapply pruned_keys. }
  apply bind_Ok in Hlines as (s3 & blocks & Hblocks & Hlines).
  apply ret_Ok in Hlines as [-> ->].
  eapply (flatM_Ok (λ s, _sanitizedLookupNames (self s) = _sanitizedLookupNames (self s2)
                         ∧ font s = font s2)
            (λ s, s ≠ blockOpen name ∧ s ≠ blockClose name ∧ s ≠ lookupRef name))
    in Hblocks as [[Hm3 Hf3] Hb]; [| |done].
  2:{ intros [l subtables] s s' ys Hin [Hs Hf] Hblock.
      assert (Hl : l ∈ dkeys (prunedLookups isgpos (self st))).
      { apply list_elem_of_fmap. by exists (l, subtables). }
      destruct (Hother l Hl) as (n & Hn & Hne).
      eapply lookupBlock_lines in Hblock as [[Hs' Hf'] Hl']; [|rewrite Hs; exact Hn].
      split; [split; congruence|].
      eapply Forall_impl; [exact Hl'|]. intros line. by apply blockLine_not_named. }
  unfold appendFeatures, mod_font in Hrun. injection Hrun as <-.
  cbn [self font]. exists name. split; [by rewrite Hm3|].
  split; [intros other Ho; rewrite Hm3 in Ho; by eapply injectiveNames_dget|].
  right.
  exists (["# " +:+ (if isgpos then "GPOS" else "GSUB") +:+ " "; ""]
          ++ blocks ++ concat (featureLines <$> features) ++ [""]),
    blocks, (concat (featureLines <$> features)).
  split; [unfold emitted; by rewrite Hf3, Hfont2|]. split; [reflexivity|].
  assert (Hfeats : Forall (λ s, s ≠ blockOpen name ∧ s ≠ lookupRef name)
                     (concat (featureLines <$> features))).
  { eapply Forall_impl; [by apply featureLines_names|].
    intros line. apply featureLine_not_named.
    intros (l & Hl & Hn). destruct (Hother l Hl) as (n & Hn' & Hne). congruence. }
  rewrite Forall_forall in Hb. rewrite Forall_forall in Hfeats.
  split; [|split].
  - rewrite !elem_of_app, !elem_of_cons, elem_of_nil.
    intros [[H|[H|[]]]|[H|[H|[H|[]]]]]; try (cbv in H; discriminate).
    + by destruct (Hb _ H) as (? & ? & ?).
    + by destruct (Hfeats _ H) as (? & ?).
  - rewrite !elem_of_app, !elem_of_cons, elem_of_nil.
    intros [[H|[H|[]]]|[H|[H|[H|[]]]]]; try (cbv in H; discriminate).
    + by destruct (Hb _ H) as (? & ? & ?).
    + by destruct (Hfeats _ H) as (? & ?).
  - intros H. by destruct (Hb _ H) as (? & ? & ?).
Qed.

(** C7.  Let [lookup] be a lookup of the GSUB or GPOS table none of whose
    subtables survives, where a subtable survives just when some glyph
    has rule fragments filed under its name or it is a registered
    anchor-class subtable.  Then [lookup] is not among the lookups kept,
    and when [_writeGSUBGPOS] returns, either it has added nothing to the
    feature text, or it has added the lines of the blocks and of the
    features, and among them there is no line that opens a block under
    the name of the lookup and none that refers to it; no line of the
    blocks closes a block under its name.  The name is the one name the
    parser holds for the lookup, and it holds it for no other. *)
Theorem C7_pruned_lookup_absent (isgpos : bool) (st st' : St) (lookup : string) :
  injectiveNames (_sanitizedLookupNames (self st)) →
  lookup ∈ dkeys (tableLookups isgpos (self st)) →
  noSurvivor (self st) isgpos lookup →
  _writeGSUBGPOS isgpos st = (st', Ok tt) →
  (lookup ∉ dkeys (prunedLookups isgpos (self st)))
  ∧ (∀ sub, survives (self st) sub = true ↔ survivesAs (self st) sub)
  ∧ ∃ name,
      dget (_sanitizedLookupNames (self st')) lookup = Some name
      ∧ (∀ other, dget (_sanitizedLookupNames (self st')) other = Some name →
                  other = lookup)
      ∧ (font st' = font st
         ∨ ∃ lines blocks feats,
             font st' = emitted lines (font st)
             ∧ lines = ["# " +:+ (if isgpos then "GPOS" else "GSUB") +:+ " "; ""]
                       ++ blocks ++ feats ++ [""]
             ∧ (blockOpen name ∉ lines)
             ∧ (lookupRef name ∉ lines)
             ∧ (blockClose name ∉ blocks)).
Proof.
  intros Hinj Hkey Hno Hrun.
  pose proof (noSurvivor_pruned _ _ _ Hno) as Hpruned.
  split; [done|]. split; [intros sub; apply survives_spec|].
  unfold _writeGSUBGPOS in Hrun.
  apply bind_Ok in Hrun as (s1 & lines & Hlines & Hrun).
  unfold tableLines in Hlines.
  apply bind_Ok in Hlines as (s0 & p & Hp & Hlines). apply ret_Ok in Hp as [-> ->].
  apply bind_Ok in Hlines as (s2 & u & Hall & Hlines).
  apply sanitize_all in Hall as (Hinj2 & _ & Hnamed & Hfont2 & Hset2); [|done].
  apply bind_Ok in Hlines as (s0 & p & Hp & Hlines). apply ret_Ok in Hp as [-> ->].
  destruct (same_tables isgpos _ _ Hset2) as [Htable Hkept].
  rewrite Hkept in Hlines.
  destruct (Hnamed lookup Hkey) as [name Hname].
  assert (Hother : ∀ l, l ∈ dkeys (prunedLookups isgpos (self st)) →
            ∃ n, dget (_sanitizedLookupNames (self s2)) l = Some n ∧ n ≠ name).
  { intros l Hl. destruct (Hnamed l (pruned_keys _ _ _ Hl)) as [n Hn].
    exists n. split; [done|]. intros ->.
    assert (l = lookup) as -> by (by eapply injectiveNames_dget).
    done. }
  case_bool_decide as Hempty.
  { (* no lookup is kept *)
    apply ret_Ok in Hlines as [-> ->]. apply ret_Ok in Hrun as [-> _].
    exists name. split; [done|].
    split; [intros other Ho; by eapply injectiveNames_dget|]. by left. }
  apply bind_Ok in Hlines as (s0 & fs & Hfs & Hlines). apply lift_Ok in Hfs as [-> _].
  apply bind_Ok in Hlines as (s0 & features & Htree & Hlines).
  eapply featureTree_names in Htree as [-> Htree]; [|reflexivity|].
  2:{ intros l Hl. apply Hnamed. by eapply pruned_keys. }
  apply bind_Ok in Hlines as (s3 & blocks & Hblocks & Hlines).
  apply ret_Ok in Hlines as [-> ->].
  eapply (flatM_Ok (λ s, _sanitizedLookupNames (self s) = _sanitizedLookupNames (self s2)
                         ∧ font s = font s2)
            (λ s, s ≠ blockOpen name ∧ s ≠ blockClose name ∧ s ≠ lookupRef name))
    in Hblocks as [[Hm3 Hf3] Hb]; [| |done].
  2:{ intros [l subtables] s s' ys Hin [Hs Hf] Hblock.
      assert (Hl : l ∈ dkeys (prunedLookups isgpos (self st))).
      { apply list_elem_of_fmap. by exists (l, subtables). }
      destruct (Hother l Hl) as (n & Hn & Hne).
      eapply lookupBlock_lines in Hblock as [[Hs' Hf'] Hl']; [|rewrite Hs; exact Hn].
      split; [split; congruence|].
      eapply Forall_impl; [exact Hl'|]. intros line. by apply blockLine_not_named. }
  unfold appendFeatures, mod_font in Hrun. injection Hrun as <-.
  cbn [self font]. exists name. split; [by rewrite Hm3|].
  split; [intros other Ho; rewrite Hm3 in Ho; by eapply injectiveNames_dget|].
  right.
  exists (["# " +:+ (if isgpos then "GPOS" else "GSUB") +:+ " "; ""]
          ++ blocks ++ concat (featureLines <$> features) ++ [""]),
    blocks, (concat (featureLines <$> features)).
  split; [unfold emitted; by rewrite Hf3, Hfont2|]. split; [reflexivity|].
  assert (Hfeats : Forall (λ s, s ≠ blockOpen name ∧ s ≠ lookupRef name)
                     (concat (featureLines <$> features))).
  { eapply Forall_impl; [by apply featureLines_names|].
    intros line. apply featureLine_not_named.
    intros (l & Hl & Hn). destruct (Hother l Hl) as (n & Hn' & Hne). congruence. }
  rewrite Forall_forall in Hb. rewrite Forall_forall in Hfeats.
  split; [|split].
  - rewrite !elem_of_app, !elem_of_cons, elem_of_nil.
    intros [[H|[H|[]]]|[H|[H|[H|[]]]]]; try (cbv in H; discriminate).
    + by destruct (Hb _ H) as (? & ? & ?).
    + by destruct (Hfeats _ H) as (? & ?).
  - rewrite !elem_of_app, !elem_of_cons, elem_of_nil.
    intros [[H|[H|[]]]|[H|[H|[H|[]]]]]; try (cbv in H; discriminate).
    + by destruct (Hb _ H) as (? & ? & ?).
    + by destruct (Hfeats _ H) as (? & ?).
  - intros H. by destruct (Hb _ H) as (? & ? & ?).
Qed.

End PruneClaims.

(** The parser [twoTables]: the block and the reference of [liga] are
    written, and no line names [empty]. *)
Lemma writeGSUBGPOS_pruned_lookup_witness :
  ∃ st',
    _writeGSUBGPOS (B := Plain.builtins) false twoTables = (st', Ok tt)
    ∧ (tableLines (B := Plain.builtins) false twoTables).2
      = Ok (Some ["# GSUB "; ""; ""; "lookup liga {"; "  lookupflag 0;";
                  "    sub \f \i  by \f_i;"; "} liga;"; ""; "feature liga {"; "";
                  " script latn;"; "     language dflt ;"; "      lookup liga;";
                  "} liga;"; ""])
    ∧ ("empty" ∉ dkeys (prunedLookups false (self twoTables)))
    ∧ dget (_sanitizedLookupNames (self st')) "empty" = Some "empty"
    ∧ ∃ lines,
        font st' = emitted lines (font twoTables)
        ∧ (blockOpen "empty" ∉ lines)
        ∧ (lookupRef "empty" ∉ lines).
Proof.
  exists (_writeGSUBGPOS (B := Plain.builtins) false twoTables).1.
  split; [vm_compute; reflexivity|].
  split; [vm_compute; reflexivity|].
  destruct (writeGSUBGPOS_pruned_lookup_absent (B := Plain.builtins) false twoTables
              (_writeGSUBGPOS (B := Plain.builtins) false twoTables).1 "empty")
    as (Hpruned & _ & name & Hname & _ & Hlines).
  - constructor.
  - apply list_elem_of_further, list_elem_of_here.
  - intros subtables sub Hin Hsub Hs. apply survives_spec in Hs.
    apply elem_of_cons in Hin as [[=]|Hin].
    apply elem_of_cons in Hin as [[= ->]|Hin]; [|inversion Hin].
    apply elem_of_cons in Hsub as [->|Hsub]; [|inversion Hsub].
    vm_compute in Hs. discriminate.
  - vm_compute. reflexivity.
  - split; [exact Hpruned|].
    vm_compute in Hname. injection Hname as <-.
    split; [vm_compute; reflexivity|].
    destruct Hlines as [Hfont|(lines & blocks & feats & Hfont & _ & Hopen & Href & _)].
    + apply (f_equal features_text) in Hfont. vm_compute in Hfont. discriminate.
    + exists lines. split; [exact Hfont|]. split; [exact Hopen|exact Href].
Defined.

(** The lookup [empty] of the parser [twoTables] has the one subtable
    [empty-1], under which no glyph has a rule and which is no anchor
    class: the text written has the block and the reference of [liga],
    and no line names [empty]. *)
Lemma C7_witness :
  ∃ st',
    _writeGSUBGPOS (B := Plain.builtins) false twoTables = (st', Ok tt)
    ∧ dget (tableLookups false (self twoTables)) "empty" = Some ["empty-1"]
    ∧ noSurvivor (self twoTables) false "empty"
    ∧ ("empty" ∉ dkeys (prunedLookups false (self twoTables)))
    ∧ dget (_sanitizedLookupNames (self st')) "empty" = Some "empty"
    ∧ features_text (font st')
      = Some (nl +:+ join nl
                ["# GSUB "; ""; ""; "lookup liga {"; "  lookupflag 0;";
                 "    sub \f \i  by \f_i;"; "} liga;"; ""; "feature liga {"; "";
                 " script latn;"; "     language dflt ;"; "      lookup liga;";
                 "} liga;"; ""])
    ∧ ∃ lines,
        font st' = emitted lines (font twoTables)
        ∧ (blockOpen "empty" ∉ lines)
        ∧ (lookupRef "empty" ∉ lines).
Proof.
  exists (_writeGSUBGPOS (B := Plain.builtins) false twoTables).1.
  split; [vm_compute; reflexivity|].
  split; [vm_compute; reflexivity|].
  assert (Hno : noSurvivor (self twoTables) false "empty").
  { intros subtables sub Hin Hsub Hs. apply survives_spec in Hs.
    apply elem_of_cons in Hin as [[=]|Hin].
    apply elem_of_cons in Hin as [[= ->]|Hin]; [|inversion Hin].
    apply elem_of_cons in Hsub as [->|Hsub]; [|inversion Hsub].
    vm_compute in Hs. discriminate. }
  split; [exact Hno|].
  destruct (C7_pruned_lookup_absent (B := Plain.builtins) false twoTables
              (_writeGSUBGPOS (B := Plain.builtins) false twoTables).1 "empty")
    as (Hpruned & _ & name & Hname & _ & Hlines).
  - constructor.
  - apply list_elem_of_further, list_elem_of_here.
  - exact Hno.
  - vm_compute. reflexivity.
  - split; [exact Hpruned|].
    vm_compute in Hname. injection Hname as <-.
    split; [vm_compute; reflexivity|].
    split; [vm_compute; reflexivity|].
    destruct Hlines as [Hfont|(lines & blocks & feats & Hfont & _ & Hopen & Href & _)].
    + apply (f_equal features_text) in Hfont. vm_compute in Hfont. discriminate.
    + exists lines. split; [exact Hfont|]. split; [exact Hopen|exact Href].
Defined.

(** ** Helpers of the parser *)

Section Chunks.
Context {A : Type}.

Lemma splitList_go_concat fuel (data : list A) n :
  (0 < n)%nat → (length data ≤ fuel)%nat →
  concat (splitList_go fuel data n) = data.
Proof.
  intros Hn. revert data. induction fuel as [|fuel IH]; intros data Hlen.
  - destruct data; [done|simpl in Hlen; lia].
  - destruct data as [|x data]; [done|].
    cbn [splitList_go concat]. rewrite IH; [apply take_drop|].
    rewrite length_drop. simpl in *. lia.
Qed.

Lemma splitList_go_lookup fuel (data : list A) n i :
  (0 < n)%nat → (length data ≤ fuel)%nat → (i * n < length data)%nat →
  splitList_go fuel data n !! i = Some (take n (drop (i * n) data)).
Proof.
  intros Hn. revert data i. induction fuel as [|fuel IH]; intros data i Hlen Hi.
  - lia.
  - destruct data as [|x data]; [simpl in Hi; lia|].
    cbn [splitList_go]. destruct i as [|i]; [done|].
    cbn [lookup list_lookup]. rewrite IH.
    + rewrite drop_drop. by replace (n + i * n)%nat with (S i * n)%nat by lia.
    + rewrite length_drop. simpl in *. lia.
    + rewrite length_drop. simpl in *. lia.
Qed.

Lemma splitList_go_length fuel (data : list A) n :
  (0 < n)%nat → (length data ≤ fuel)%nat →
  (length (splitList_go fuel data n) * n < length data + n
   ∧ length data ≤ length (splitList_go fuel data n) * n)%nat.
Proof.
  intros Hn. revert data. induction fuel as [|fuel IH]; intros data Hlen.
  - destruct data; simpl in *; lia.
  - destruct data as [|x data]; [simpl; lia|].
    cbn [splitList_go]. rewrite length_cons.
    specialize (IH (drop n (x :: data))).
    rewrite length_drop in IH. revert IH.
    generalize (length (splitList_go fuel (drop n (x :: data)) n)).
    rewrite length_cons in *. intros c IH.
    assert (Hf : (S (length data) - n ≤ fuel)%nat) by lia.
    destruct (IH Hf) as [IH1 IH2]. rewrite Nat.mul_succ_l.
    destruct (decide (n ≤ S (length data))%nat); [lia|].
    assert (c = 0)%nat as -> by nia. lia.
Qed.

(** X4.  [_splitList(data, n)] for a chunk size that is not zero: the
    chunks put together are [data]; chunk [i] is [data[i*n : i*n + n]];
    there are as many chunks as it takes to hold [data] and no more, so
    every chunk holds an item, and every chunk but the last holds [n]. *)
Theorem splitList_chunks (data : list A) (n : nat) :
  (0 < n)%nat →
  concat (_splitList data n) = data
  ∧ (∀ i, (i * n < length data)%nat →
          _splitList data n !! i = Some (take n (drop (i * n) data)))
  ∧ (∀ i, (length data ≤ i * n)%nat → _splitList data n !! i = None)
  ∧ (∀ i c, _splitList data n !! i = Some c →
            (0 < length c ≤ n)%nat
            ∧ ((S i) * n ≤ length data → length c = n)%nat).
Proof.
  intros Hn. unfold _splitList.
  pose proof (splitList_go_length (length data) data n Hn (le_n _)) as [Hl1 Hl2].
  assert (Hnone : ∀ i, (length data ≤ i * n)%nat →
                       splitList_go (length data) data n !! i = None).
  { intros i Hi. apply lookup_ge_None. nia. }
  split; [by apply splitList_go_concat|].
  split; [intros i Hi; by apply splitList_go_lookup|].
  split; [done|].
  intros i c Hc.
  destruct (decide (i * n < length data)%nat) as [Hi|Hi].
  - rewrite splitList_go_lookup in Hc by done. injection Hc as <-.
    rewrite length_take, length_drop. split; lia.
  - rewrite Hnone in Hc by lia. done.
Qed.

End Chunks.

(** Pairs of a list of five, the odd item in a chunk of its own. *)
Lemma splitList_chunks_witness :
  (0 < 2)%nat
  ∧ _splitList [1; 2; 3; 4; 5]%Z 2 = [[1; 2]; [3; 4]; [5]]%Z
  ∧ concat (_splitList [1; 2; 3; 4; 5]%Z 2) = [1; 2; 3; 4; 5]%Z.
Proof.
  split; [lia|]. split; [reflexivity|].
  exact (proj1 (splitList_chunks [1; 2; 3; 4; 5]%Z 2 ltac:(lia))).
Defined.

(** ** Sections *)

Section Sections.

Lemma getitem_nat {A} (l : list A) (i : nat) :
  getitem l (Z.of_nat i) = of_option IndexError (l !! i).
Proof.
  unfold getitem. destruct (0 <=? Z.of_nat i)%Z eqn:E.
  - by rewrite Nat2Z.id.
  - apply Z.leb_gt in E. lia.
Qed.

Lemma between_nil {A} (l : list A) i : between l i i = [].
Proof. unfold between. by rewrite Nat.sub_diag. Qed.

Lemma between_cons {A} (l : list A) i j x :
  l !! i = Some x → (i < j)%nat → between l i j = x :: between l (S i) j.
Proof.
  intros Hx Hij. unfold between.
  rewrite (drop_S l x i Hx).
  replace (j - i)%nat with (S (j - S i)) by lia. done.
Qed.

Lemma firstEnd_unique data end_ i j j' :
  firstEnd data end_ i j → firstEnd data end_ i j' → j = j'.
Proof.
  intros (Hij & (l & Hl & Hs) & Hbefore) (Hij' & (l' & Hl' & Hs') & Hbefore').
  destruct (Nat.lt_trichotomy j j') as [H|[H|H]]; [|done|].
  - rewrite (Hbefore' j l) in Hs; [done|lia|done].
  - rewrite (Hbefore j' l') in Hs'; [done|lia|done].
Qed.

Lemma getSection_go_cases fuel data end_ (i : nat) section :
  (length data < i + fuel)%nat → (0 < fuel)%nat →
  (∃ j, firstEnd data end_ i j
        ∧ getSection_go fuel data (Z.of_nat i) end_ section
          = Ok (section ++ between data i j, Z.of_nat (S j)))
  ∨ (noEnd data end_ i
     ∧ getSection_go fuel data (Z.of_nat i) end_ section = Raise IndexError).
Proof.
  revert i section. induction fuel as [|fuel IH]; intros i section Hfuel Hpos.
  - lia.
  - cbn [getSection_go]. rewrite getitem_nat.
    destruct (data !! i) as [line|] eqn:Hline; cbn [of_option rbind].
    2:{ right. split; [|done]. intros j l Hj Hl.
        apply lookup_ge_None in Hline. apply lookup_lt_Some in Hl. lia. }
    destruct (startswith line end_) eqn:Hs.
    { left. exists i. rewrite between_nil, app_nil_r. split.
      - split; [done|]. split; [eauto|]. lia.
      - do 2 f_equal. lia. }
    replace (Z.of_nat i + 1)%Z with (Z.of_nat (S i)) by lia.
    apply lookup_lt_Some in Hline as Hlt.
    destruct (IH (S i) (section ++ [line])) as [(j & Hj & ->)|[Hno ->]];
      [lia|lia| |].
    + left. exists j. destruct Hj as (Hij & Hend & Hbefore).
      split.
      * split; [lia|]. split; [done|]. intros k l Hk Hl.
        destruct (decide (k = i)) as [->|]; [congruence|].
        apply (Hbefore k); [lia|done].
      * by rewrite (between_cons data i j line), <- app_assoc by (done || lia).
    + right. split; [|done]. intros j l Hj Hl.
      destruct (decide (j = i)) as [->|]; [congruence|].
      apply (Hno j); [lia|done].
Qed.

(** X5.  [_getSection(data, i, end, value)] for a cursor [i] that is not
    negative.  It returns just when some line at or after [i] starts
    with [end]: with [j] the first such line, the section is [value] (if
    given) and then the lines [data[i:j]], and the cursor returned is
    [j + 1], past the end line and beyond [i].  When no line at or after
    [i] starts with [end], and only then, it raises [IndexError]; the
    loop always ends. *)
Theorem getSection_first_end (data : list string) (i : nat) (end_ : string)
    (value : option string) :
  (∀ section i',
     _getSection data (Z.of_nat i) end_ value = Ok (section, i')
     ↔ ∃ j, firstEnd data end_ i j
            ∧ section = sectionStart value ++ between data i j
            ∧ i' = Z.of_nat (S j))
  ∧ (_getSection data (Z.of_nat i) end_ value = Raise IndexError
     ↔ noEnd data end_ i)
  ∧ (∀ e, _getSection data (Z.of_nat i) end_ value = Raise e → e = IndexError)
  ∧ (∀ section i',
       _getSection data (Z.of_nat i) end_ value = Ok (section, i') →
       (Z.of_nat i < i' ≤ Z.of_nat (length data))%Z).
Proof.
  unfold _getSection. fold (sectionStart value).
  destruct (getSection_go_cases
              (S (length data + Z.to_nat (Z.abs (Z.of_nat i)))) data end_ i
              (sectionStart value)) as [(j & Hj & Hrun)|[Hno Hrun]]; [lia|lia| |];
    rewrite Hrun.
  - split; [|split; [|split]].
    + intros section i'. split.
      * intros [= <- <-]. eauto.
      * intros (j' & Hj' & -> & ->).
        by rewrite (firstEnd_unique _ _ _ _ _ Hj Hj').
    + split; [done|]. intros Hno.
      destruct Hj as (Hij & (l & Hl & Hs) & _).
      by rewrite (Hno j l Hij Hl) in Hs.
    + done.
    + intros section i' [= <- <-].
      destruct Hj as (Hij & (l & Hl & _) & _).
      apply lookup_lt_Some in Hl. lia.
  - split; [|split; [|split]].
    + intros section i'. split; [done|].
      intros (j & (Hij & (l & Hl & Hs) & _) & _).
      by rewrite (Hno j l Hij Hl) in Hs.
    + done.
    + by intros e [= <-].
    + done.
Qed.

End Sections.

(** The outline section of a glyph: the cursor stands behind
    [SplineSet], at line 2, and [EndSplineSet] is line 4. *)
Lemma getSection_first_end_witness :
  firstEnd ["Fore"; "SplineSet"; "0 0 m 1"; "9 9 l 1"; "EndSplineSet"; "EndChar"]
    "EndSplineSet" 2 4
  ∧ _getSection ["Fore"; "SplineSet"; "0 0 m 1"; "9 9 l 1"; "EndSplineSet"; "EndChar"]
      2 "EndSplineSet" None
    = Ok (["0 0 m 1"; "9 9 l 1"], 5%Z).
Proof.
  assert (H : firstEnd
                ["Fore"; "SplineSet"; "0 0 m 1"; "9 9 l 1"; "EndSplineSet"; "EndChar"]
                "EndSplineSet" 2 4).
  { split; [lia|]. split; [by eexists|].
    intros k line Hk Hline.
    destruct k as [|[|[|[|k]]]]; try lia; by injection Hline as <-. }
  split; [exact H|].
  apply (proj1 (getSection_first_end _ 2 "EndSplineSet" None)).
  exists 4%nat. split; [exact H|]. split; reflexivity.
Defined.

(** ** Names in the feature text *)

Section SanitizeName.

(** One character of [_sanitizeName]: kept when it is in the class, a
    blank turned into an underscore, dropped otherwise. *)
Lemma sanitizeName_cons ch s :
  _sanitizeName (String ch s)
  = (if nameChar ch then String ch ""
     else if bool_decide (ch = " "%char) then "_" else "")
    +:+ _sanitizeName s.
Proof. destruct ch as [[] [] [] [] [] [] [] []]; reflexivity. Qed.

Lemma sanitizeName_chars name :
  Forall (λ c, nameChar c = true) (chars (_sanitizeName name)).
Proof.
  induction name as [|ch s IH]; [constructor|].
  rewrite sanitizeName_cons.
  destruct (nameChar ch) eqn:E; [by constructor|].
  case_bool_decide; [by constructor|done].
Qed.

Lemma sanitizeName_fixed name :
  Forall (λ c, nameChar c = true) (chars name) → _sanitizeName name = name.
Proof.
  induction name as [|ch s IH]; [done|].
  intros [Hch Hs]%Forall_cons. rewrite sanitizeName_cons, Hch, IH; done.
Qed.

Lemma sanitizeName_append a b :
  _sanitizeName (a +:+ b) = _sanitizeName a +:+ _sanitizeName b.
Proof.
  induction a as [|ch a IH]; [done|].
  rewrite append_cons, !sanitizeName_cons, IH.
  destruct (nameChar ch); [done|]. by case_bool_decide.
Qed.

Lemma sanitizeName_length name :
  (String.length (_sanitizeName name) ≤ String.length name)%nat.
Proof.
  induction name as [|ch s IH]; [done|].
  rewrite sanitizeName_cons, length_append.
  destruct (nameChar ch); [simpl; lia|]. case_bool_decide; simpl; lia.
Qed.

(** X6.  [_sanitizeName]: every character of the result is of the class
    [[A-Za-z0-9._]]; a name made of such characters is returned as it
    is, so sanitizing twice is sanitizing once; a blank becomes an
    underscore; the result is no longer than the name; and the name of
    two parts put together is sanitized part by part. *)
Theorem sanitizeName_class (name : string) :
  Forall (λ c, nameChar c = true) (chars (_sanitizeName name))
  ∧ (Forall (λ c, nameChar c = true) (chars name) → _sanitizeName name = name)
  ∧ _sanitizeName (_sanitizeName name) = _sanitizeName name
  ∧ (String.length (_sanitizeName name) ≤ String.length name)%nat
  ∧ (∀ rest, _sanitizeName (name +:+ " " +:+ rest)
             = _sanitizeName name +:+ "_" +:+ _sanitizeName rest)
  ∧ (∀ rest, _sanitizeName (name +:+ rest)
             = _sanitizeName name +:+ _sanitizeName rest).
Proof.
  split; [apply sanitizeName_chars|].
  split; [apply sanitizeName_fixed|].
  split; [apply sanitizeName_fixed, sanitizeName_chars|].
  split; [apply sanitizeName_length|].
  split; [|apply sanitizeName_append].
  intros rest. by rewrite !sanitizeName_append.
Qed.

End SanitizeName.

(** ** Bit lists *)

Section Bits.
Context `{F : Floats}.

Lemma bitValue_app (l l' : list pyval) :
  bitValue (l ++ l') = (bitValue l + bitValue l')%Z.
Proof.
  induction l as [|x l IH]; [done|]. cbn [app bitValue foldr].
  fold (bitValue (l ++ l')). fold (bitValue l). rewrite IH.
  destruct x; lia.
Qed.

Lemma bits_S n v :
  bits (S n) v
  = bits n v ++ (if Z.testbit v (Z.of_nat n) then [VInt (Z.of_nat n)] else []).
Proof.
  unfold bits. rewrite seq_S, filter_app, fmap_app. f_equal.
  cbn [Nat.add]. rewrite filter_cons, filter_nil.
  case_decide as H; destruct (Z.testbit v (Z.of_nat n)); done.
Qed.

Lemma bitValue_bits n v : bitValue (bits n v) = (v mod 2 ^ Z.of_nat n)%Z.
Proof.
  induction n as [|n IH].
  - cbn. by rewrite Z.mod_1_r.
  - rewrite bits_S, bitValue_app, IH.
    rewrite Nat2Z.inj_succ, Z.pow_succ_r by lia.
    rewrite (Z.mul_comm 2), Z.rem_mul_r by lia.
    rewrite <- Z.testbit_spec' by lia.
    destruct (Z.testbit v (Z.of_nat n)); cbn [bitValue foldr Z.b2z]; lia.
Qed.

Lemma bits_elem n v i :
  VInt i ∈ bits n v ↔ (0 ≤ i < Z.of_nat n)%Z ∧ Z.testbit v i = true.
Proof.
  unfold bits. rewrite list_elem_of_fmap. split.
  - intros (k & [= ->] & [Hbit Hk]%list_elem_of_filter).
    apply elem_of_seq in Hk. split; [lia|done].
  - intros [Hi Hbit]. exists (Z.to_nat i).
    rewrite Z2Nat.id by lia. split; [done|].
    apply list_elem_of_filter. rewrite Z2Nat.id by lia. split; [done|].
    apply elem_of_seq. lia.
Qed.

Lemma bits_sorted n v :
  ∃ l, bits n v = VInt <$> l ∧ StronglySorted Z.lt l.
Proof.
  induction n as [|n (l & Hl & Hs)].
  - exists []. split; [done|constructor].
  - rewrite bits_S. destruct (Z.testbit v (Z.of_nat n)).
    + exists (l ++ [Z.of_nat n]). split; [by rewrite fmap_app, Hl|].
      assert (Hlt : Forall (λ i, i < Z.of_nat n)%Z l).
      { apply Forall_forall. intros i Hi.
        assert (Hin : VInt i ∈ bits n v).
        { rewrite Hl. apply list_elem_of_fmap. eauto. }
        apply bits_elem in Hin. lia. }
      clear Hl. induction Hs as [|x l Hs IH Hx]; simpl.
      * repeat constructor.
      * apply Forall_cons in Hlt as [Hxn Hlt]. constructor; [auto|].
        apply Forall_app. split; [done|]. by repeat constructor.
    + exists l. by rewrite app_nil_r.
Qed.

(** X7.  The list of bit numbers that the parser makes of an integer
    ([range(16)] for [FSType], [range(4)] for the flags of a gasp
    record): a number is in the list just when it is below the width and
    the bit is set; the numbers are in ascending order; and the powers of
    two of the listed numbers add up to the integer modulo two to the
    width, so nothing of the low bits is lost. *)
Theorem bits_round_trip (n : nat) (v : Z) :
  (∀ i, VInt i ∈ bits n v ↔ (0 ≤ i < Z.of_nat n)%Z ∧ Z.testbit v i = true)
  ∧ (∃ l, bits n v = VInt <$> l ∧ StronglySorted Z.lt l)
  ∧ bitValue (bits n v) = (v mod 2 ^ Z.of_nat n)%Z.
Proof.
  split; [intros i; apply bits_elem|].
  split; [apply bits_sorted | apply bitValue_bits].
Qed.

End Bits.

(** ** Records of the font *)

Section FontRecords.
Context `{B : Builtins} `{R : Regex} `{U : !Utils}.

Lemma checkHeader_header line :
  isHeader line →
  ∃ value, splitFontRecord line = ("SplineFontDB", Some value)
           ∧ checkHeader "SplineFontDB" (Some value) = Ok tt.
Proof.
  intros (value & version & Hsplit & Hfloat & ->).
  exists value. split; [done|].
  unfold checkHeader. simpl. rewrite Hfloat. simpl.
  by rewrite bool_decide_eq_true_2.
Qed.

(** The main loop on a source whose first line is the header: the line
    is checked and what follows is read from the second line on. *)
Lemma parse_go_header fuel line rest loc (st : St) :
  isHeader line → cursor loc = 0%Z →
  parse_go (S fuel) (line :: rest) loc st
  = parse_go fuel (line :: rest) (at_cursor 1 loc) st.
Proof.
  intros (value & Hsplit & Hcheck)%checkHeader_header Hc.
  cbn [parse_go]. rewrite Hc. cbn [length].
  replace (0 <? Z.of_nat (S (length rest)))%Z with true by (symmetry; apply Z.ltb_lt; lia).
  unfold bind at 1, lift at 1. cbn [getitem Z.leb]. simpl.
  rewrite Hsplit. simpl. unfold bind at 1, lift at 1. by rewrite Hcheck.
Qed.

(** The test [key in "Ascent"] is a test for a substring. *)
Lemma Ascent_record data key value loc (st : St) :
  contains key "Ascent" = true →
  fontRecord data key value loc st
  = bind (info_int "ascender" value) (λ _, ret (Some loc)) st.
Proof.
  intros H. unfold fontRecord.
  repeat (case_decide; [subst key; vm_compute in H; discriminate|]).
  by rewrite H.
Qed.

(** X8.  The record of the ascender is found by [key in "Ascent"], a
    test for a substring: after the first line, a record whose key is
    any part of the word (as [Ascent], [A], [cent], or the empty key of
    a blank line) sets the ascender to the integer of its value, and a
    record of such a key without a value raises [TypeError].  So a blank
    line as the second line of a source ends [parse] with [TypeError],
    whatever follows. *)
Theorem Ascent_key_is_substring (data : list string) (key : string)
    (value : option string) (loc : FontLocals) (st : St) :
  contains key "Ascent" = true →
  (∀ v n, value = Some v → py_int v = Some n →
     fontRecord data key value loc st
     = ({| self := self st; font := setinfo "ascender" (VInt n) (font st) |},
        Ok (Some loc)))
  ∧ (value = None → fontRecord data key value loc st = (st, Raise TypeError))
  ∧ (∀ v, value = Some v → py_int v = None →
          fontRecord data key value loc st = (st, Raise ValueError))
  ∧ ∀ fuel header blank rest,
      isHeader header → splitFontRecord blank = (key, None) →
      parse (S (S fuel)) (SFDFile (header :: blank :: rest)) st
      = (st, Raise TypeError).
Proof.
  intros H.
  split; [|split; [|split]].
  - intros v n -> Hn. rewrite Ascent_record by done.
    unfold info_int, bind, lift, int_of. rewrite Hn. reflexivity.
  - intros ->. by rewrite Ascent_record.
  - intros v -> Hn. rewrite Ascent_record by done.
    unfold info_int, bind, lift, int_of. by rewrite Hn.
  - intros fuel header blank rest Hheader Hblank.
    unfold parse. erewrite bind_step by reflexivity.
    apply bind_Raise. rewrite parse_go_header by done.
    cbn [parse_go at_cursor cursor length].
    replace (1 <? Z.of_nat (S (S (length rest))))%Z with true
      by (symmetry; apply Z.ltb_lt; lia).
    unfold bind at 1, lift at 1. cbn [getitem Z.leb]. simpl.
    rewrite Hblank. simpl. apply bind_Raise.
    by rewrite Ascent_record.
Qed.

End FontRecords.

(** A source whose second line is blank. *)
Lemma Ascent_key_is_substring_witness :
  contains "" "Ascent" = true
  ∧ isHeader (B := Plain.builtins) ("SplineFontDB: 3.0" +:+ nl)
  ∧ splitFontRecord nl = ("", None)
  ∧ parse (B := Plain.builtins) 2
      (SFDFile (readlines ["SplineFontDB: 3.0"; ""; "FontName: Sample"]))
      Plain.start
    = (Plain.start, Raise TypeError).
Proof.
  assert (Hh : isHeader (B := Plain.builtins) ("SplineFontDB: 3.0" +:+ nl)).
  { exists "3.0", (3%Z, 0%nat). repeat split; vm_compute; reflexivity. }
  split; [reflexivity|]. split; [exact Hh|]. split; [reflexivity|].
  exact (proj2 (proj2 (proj2 (Ascent_key_is_substring (B := Plain.builtins)
           [] "" None {| cursor := 0; charData := None; offsetMetrics := [] |}
           Plain.start eq_refl)))
           0%nat _ nl ["FontName: Sample" +:+ nl] Hh eq_refl).
Defined.

(** ** The layer of an outline *)

Section Outlines.
Context `{B : Builtins} `{R : Regex} `{U : !Utils}.

(** [quadratic] and [layerGlyph] are assigned by the layer records and
    by no other. *)
Lemma charRecord_quadratic glyph name data i key value loc (st st1 : St) i1 loc1 :
  inb key _LAYER_KEYWORDS = false →
  charRecord glyph name data i key value loc st = (st1, Ok (i1, loc1)) →
  quadratic loc1 = quadratic loc ∧ layerGlyph loc1 = layerGlyph loc.
Proof.
  unfold charRecord. intros Hkey Hrun.
  repeat case_decide; subst; try discriminate; rewrite ?Hkey in Hrun;
    repeat first [progress run_inv Hrun | progress run_prims
                 | case_match; try discriminate];
    simplify_eq; done.
Qed.

Lemma selectLayer_quadratic glyph name key value loc (st st1 : St) loc1 :
  selectLayer glyph name key value loc st = (st1, Ok loc1) →
  is_Some (quadratic loc1).
Proof.
  unfold selectLayer. intros Hrun.
  repeat first [progress run_inv Hrun | progress run_prims
               | case_match; try discriminate]; simplify_eq; by eexists.
Qed.

Lemma charRecord_SplineSet glyph name data i value loc :
  charRecord glyph name data i "SplineSet" value loc
  = (' (splines, i) <- lift (_getSection data i "EndSplineSet" None);
     contours <- lift (_parseSplineSet splines);
     quadratic <- lift (of_option UnboundLocalError (quadratic loc));
     _drawContours (layerGlyph loc) contours quadratic >> ret (i, loc)).
Proof. reflexivity. Qed.

Lemma SplineSet_unbound glyph name data i value loc (st st' : St) r :
  quadratic loc = None →
  charRecord glyph name data i "SplineSet" value loc st = (st', r) →
  st' = st
  ∧ ∃ e, r = Raise e
         ∧ ∀ splines i' contours,
             _getSection data i "EndSplineSet" None = Ok (splines, i') →
             _parseSplineSet splines = Ok contours →
             e = UnboundLocalError.
Proof.
  intros Hq. rewrite charRecord_SplineSet. unfold bind, lift. rewrite Hq.
  destruct (_getSection data i "EndSplineSet" None) as [[splines i']|e] eqn:Hsec.
  - destruct (_parseSplineSet splines) as [contours|e] eqn:Hpar; simpl.
    + intros [= <- <-]. split; [done|]. eexists. split; [done|].
      by intros ??? _ _.
    + intros [= <- <-]. split; [done|]. eexists. split; [done|].
      intros ??? [= <- <-] Hc. congruence.
  - intros [= <- <-]. split; [done|]. eexists. split; [done|].
    by intros ??? [=].
Qed.

(** The loop of [_parseChar], entered with [quadratic] unassigned and
    returning: a [SplineSet] record among those it went through has a
    layer record before it. *)
Lemma parseChar_go_outline fuel glyph name data i loc (st st' : St) loc' :
  quadratic loc = None →
  parseChar_go fuel glyph name data i loc st = (st', Ok loc') →
  ∀ k value,
    records_go fuel data i !! k = Some ("SplineSet", value) →
    ∃ k' key' value',
      (k' < k)%nat ∧ records_go fuel data i !! k' = Some (key', value')
      ∧ key' ∈ _LAYER_KEYWORDS.
Proof.
  revert i loc st. induction fuel as [|f IH]; intros i loc st Hq; simpl; [done|].
  destruct (i <? _)%Z; [|done].
  intros Hrun. run_inv Hrun. apply lift_Ok in Hrun0 as [-> ->].
  destruct (splitRecord x) as [key value]. run_inv Hrun.
  destruct x0 as [i1 loc1].
  pose proof (charRecord_order _ _ _ _ _ _ _ _ _ _ _ Hrun0) as (Hnext & _).
  rewrite Hnext.
  destruct (inb key _LAYER_KEYWORDS) eqn:Hkey.
  - (* a layer record: it is before every record that follows *)
    intros [|k] v Hk.
    + injection Hk as -> ->. done.
    + exists 0%nat, key, value. split; [lia|]. split; [done|].
      unfold inb in Hkey. by apply bool_decide_eq_true in Hkey.
  - destruct (decide (key = "SplineSet")) as [->|Hne].
    { apply (SplineSet_unbound _ _ _ _ _ _ _ _ _ Hq) in Hrun0 as (_ & e & [=] & _). }
    apply (charRecord_quadratic _ _ _ _ _ _ _ _ _ _ _ Hkey) in Hrun0 as [Hq1 _].
    rewrite Hq in Hq1.
    intros [|k] v Hk.
    + injection Hk as -> ->. done.
    + destruct (IH _ _ _ Hq1 Hrun k v Hk) as (k' & key' & value' & Hlt & Hk' & Hin).
      exists (S k'), key', value'. split; [lia|done].
Qed.

(** X9.  The outline of a glyph is drawn into the layer that a [Back],
    [Fore] or [Layer] record has selected, and [quadratic] has no value
    before such a record.  A [SplineSet] record met while [quadratic] is
    unassigned changes nothing and raises; when its section is found and
    parsed, what it raises is [UnboundLocalError].  So when [_parseChar]
    returns, every [SplineSet] record of the section has a layer record
    before it. *)
Theorem outline_needs_layer_record (data : list string) (st : St) :
  (∀ glyph name i value loc st' r,
     quadratic loc = None →
     charRecord glyph name data i "SplineSet" value loc st = (st', r) →
     st' = st
     ∧ ∃ e, r = Raise e
            ∧ ∀ splines i' contours,
                _getSection data i "EndSplineSet" None = Ok (splines, i') →
                _parseSplineSet splines = Ok contours →
                e = UnboundLocalError)
  ∧ ∀ st' glyph name rank,
      _parseChar data st = (st', Ok (glyph, name, rank)) →
      ∀ k value,
        records (tail data) !! k = Some ("SplineSet", value) →
        ∃ k' key' value',
          (k' < k)%nat ∧ records (tail data) !! k' = Some (key', value')
          ∧ key' ∈ _LAYER_KEYWORDS.
Proof.
  split; [intros; by eapply SplineSet_unbound|].
  intros st' glyph name rank Hrun. unfold _parseChar in Hrun.
  destruct data as [|first rest]; [done|].
  destruct (split ": " first) as [|a [|b [|]]]; try done.
  run_inv Hrun. destruct (layer_newGlyph 0 _ _) as [f' g0]. run_inv Hrun.
  match goal with
  | H : parseChar_go _ _ _ _ _ _ _ = (_, Ok _) |- _ =>
      cbn [tail]; eapply parseChar_go_outline; [|exact H]; done
  end.
Qed.

End Outlines.

(** The section [layerZeroGlyph]: its outline comes after the record
    [Layer: 0].  The same outline as the first record of a section
    raises [UnboundLocalError]. *)
Lemma outline_needs_layer_record_witness :
  records (tail layerZeroGlyph) !! 3%nat = Some ("SplineSet", None)
  ∧ (∃ k' key' value',
       (k' < 3)%nat
       ∧ records (tail layerZeroGlyph) !! k' = Some (key', value')
       ∧ key' ∈ _LAYER_KEYWORDS)
  ∧ charRecord (B := Plain.builtins) 0 "a"
      ["SplineSet"; "0 0 m 1,0,-1"; "EndSplineSet"] 1 "SplineSet" None
      {| unicodes := []; order := None; quadratic := None; layerGlyph := 0 |}
      oneGlyph
    = (oneGlyph, Raise UnboundLocalError).
Proof.
  split; [reflexivity|]. split.
  - eapply (proj2 (outline_needs_layer_record (B := Plain.builtins)
                     layerZeroGlyph threeLayers)).
    + vm_compute. reflexivity.
    + reflexivity.
  - destruct (proj1 (outline_needs_layer_record (B := Plain.builtins)
                       ["SplineSet"; "0 0 m 1,0,-1"; "EndSplineSet"] oneGlyph)
                0%nat "a" 1%Z None
                {| unicodes := []; order := None; quadratic := None; layerGlyph := 0 |}
                _ _ eq_refl (surjective_pairing _))
      as (Hst & e & Hr & He).
    rewrite (surjective_pairing (charRecord _ _ _ _ _ _ _ _)), Hst, Hr.
    by rewrite (He _ _ _ eq_refl eq_refl).
Defined.

(** ** Rule fragments and anchor classes *)

Section DictElements.
Context {K V : Type} `{EqDecision K}.

Lemma elem_of_dset (d : list (K * V)) k v k' v' :
  (k', v') ∈ d → (k', v') ∈ dset d k v ∨ (k' = k ∧ dget d k = Some v').
Proof.
  induction d as [|[k0 v0] d IH]; [by intros ?%elem_of_nil|].
  simpl. intros [[= -> ->]|Hin]%elem_of_cons.
  - destruct (decide (k0 = k)) as [->|]; [by right|]. left. apply list_elem_of_here.
  - destruct (decide (k0 = k)) as [->|].
    + left. by apply list_elem_of_further.
    + destruct (IH Hin) as [H|H]; [|by right]. left. by apply list_elem_of_further.
Qed.

Lemma dset_elem (d : list (K * V)) k v :
  (k, v) ∈ dset d k v.
Proof. apply dget_Some_elem, dget_dset_eq. Qed.

End DictElements.

Section Fragments.
Context `{B : Builtins} `{R : Regex} `{U : !Utils}.

#[local] Arguments dget : simpl never.
#[local] Arguments dset : simpl never.

Lemma survives_glyph (p : Parser) glyph frags sub :
  (glyph, frags) ∈ _glyphPosSub p → is_Some (dget frags sub) →
  survives p sub = true.
Proof.
  intros Hin Hsub. apply survives_spec. left. by exists glyph, frags.
Qed.

(** A subtable that survives and has a name keeps every lookup that
    lists it. *)
Lemma survivor_kept isgpos (p : Parser) lookup subtables sub :
  survives p sub = true → sub ≠ "" → sub ∈ subtables →
  (lookup, subtables) ∈ tableLookups isgpos p →
  (lookup, subtables) ∈ prunedLookups isgpos p.
Proof.
  intros Hs Hne Hsub Hin. unfold prunedLookups.
  apply list_elem_of_filter. split; [|done].
  unfold any_str. apply existsb_exists. exists sub. split.
  - apply list_elem_of_In. unfold _pruneSubtables.
    by apply list_elem_of_filter.
  - by apply negb_true_iff, String.eqb_neq.
Qed.

(** X10.  When [_parsePosSub] returns, the key less its last character
    is one of the six kinds, and one fragment of that kind has been added
    at the end of those filed for the glyph under the subtable; the font
    is as it was.  From then on the subtable survives pruning, as does
    every subtable that did before, and a lookup of either table that
    lists the subtable (if its name is not empty) is kept. *)
Theorem parsePosSub_files_fragment (glyph key : string) (data : option string)
    (st st' : St) :
  _parsePosSub glyph key data st = (st', Ok tt) →
  ∃ subtable kind toks,
    kind = String.rev (drop_str 1 (String.rev key))
    ∧ kind ∈ posSubKinds
    ∧ fragments (self st') glyph subtable
      = fragments (self st) glyph subtable ++ [(kind, toks)]
    ∧ font st' = font st
    ∧ survives (self st') subtable = true
    ∧ (∀ sub, survives (self st) sub = true → survives (self st') sub = true)
    ∧ ∀ isgpos lookup subtables,
        subtable ≠ "" → subtable ∈ subtables →
        (lookup, subtables) ∈ tableLookups isgpos (self st') →
        (lookup, subtables) ∈ prunedLookups isgpos (self st').
Proof.
  intros Hrun. unfold _parsePosSub in Hrun.
  apply bind_Ok in Hrun as (s1 & d & Hd & Hrun). apply lift_Ok in Hd as [-> _].
  apply bind_Ok in Hrun as (s1 & m & Hm & Hrun). apply ret_Ok in Hm as [-> ->].
  apply bind_Ok in Hrun as (s1 & u & Hu & Hrun). apply assert_Ok in Hu as [-> _].
  destruct (subpos_match d) as [[subtableRaw possubRaw]|]; [|done].
  apply bind_Ok in Hrun as (s1 & subtable & Hsub & Hrun).
  apply lift_Ok in Hsub as [-> _].
  apply bind_Ok in Hrun as (s1 & u1 & Hmod & Hrun).
  unfold mod_self in Hmod. injection Hmod as <- _.
  apply bind_Ok in Hrun as (s2 & toks & Htoks & Hrun).
  apply lift_Ok in Htoks as [-> _].
  set (kind := String.rev (drop_str 1 (String.rev key))) in *.
  destruct (inb kind _) eqn:Hkind; [|done].
  unfold mod_self in Hrun. injection Hrun as <-. cbn [self font].
  set (p1 := if dhas (_glyphPosSub (self st)) glyph then self st
             else set_glyphPosSub (dset (_glyphPosSub (self st)) glyph []) (self st)).
  assert (Hby : default [] (dget (_glyphPosSub p1) glyph)
                = default [] (dget (_glyphPosSub (self st)) glyph)).
  { subst p1. unfold dhas. case_bool_decide as Hhas; [done|].
    cbn [_glyphPosSub set_glyphPosSub]. rewrite dget_dset_eq.
    destruct (dget (_glyphPosSub (self st)) glyph) eqn:E; [|done].
    destruct Hhas. by eexists. }
  assert (Hother : ∀ x, x ∈ _glyphPosSub (self st) → x ∈ _glyphPosSub p1).
  { subst p1. unfold dhas. case_bool_decide as Hhas; [done|].
    cbn [_glyphPosSub set_glyphPosSub]. intros [g frags] Hx.
    destruct (elem_of_dset _ glyph [] _ _ Hx) as [H|[-> H]]; [done|].
    destruct Hhas. by eexists. }
  assert (Hanchors : _anchorClasses p1 = _anchorClasses (self st)).
  { subst p1. by destruct (dhas _ _). }
  cbn [_glyphPosSub set_glyphPosSub _anchorClasses].
  set (byGlyph := default [] (dget (_glyphPosSub p1) glyph)) in *.
  set (frags := default [] (dget byGlyph subtable)).
  set (p2 := set_glyphPosSub _ p1).
  assert (Hin : (glyph, dset byGlyph subtable (frags ++ [(kind, toks)]))
                ∈ _glyphPosSub p2) by apply dset_elem.
  assert (Hsurv : survives p2 subtable = true).
  { eapply survives_glyph; [exact Hin|]. rewrite dget_dset_eq. by eexists. }
  exists subtable, kind, toks.
  split; [done|].
  split; [unfold inb in Hkind; by apply bool_decide_eq_true in Hkind|].
  split.
  { unfold fragments. subst p2. cbn [_glyphPosSub set_glyphPosSub].
    rewrite !dget_dset_eq. cbn [default]. subst frags. rewrite <- Hby.
    unfold id. by rewrite dget_dset_eq. }
  split; [subst p1; by destruct (dhas _ _)|].
  split; [done|]. split.
  - intros sub [(g & fr & Hg & Hfr)|Ha]%survives_spec.
    + apply Hother in Hg.
      destruct (elem_of_dset _ glyph (dset byGlyph subtable (frags ++ [(kind, toks)]))
                  _ _ Hg) as [Hg'|[-> Hg']].
      * by eapply survives_glyph.
      * eapply survives_glyph; [exact Hin|].
        assert (byGlyph = fr) as -> by (subst byGlyph; by rewrite Hg').
        destruct (decide (subtable = sub)) as [->|Hne].
        -- rewrite dget_dset_eq. by eexists.
        -- by rewrite dget_dset_ne.
    + apply survives_spec. right. subst p2.
      cbn [_anchorClasses set_glyphPosSub]. by rewrite Hanchors.
  - intros isgpos lookup subtables Hne Hsub Hl. by eapply survivor_kept.
Qed.

End Fragments.

(** A ligature fragment of the glyph [f_i] under the subtable [liga-1]. *)
Lemma parsePosSub_files_fragment_witness :
  ∃ st',
    _parsePosSub (B := Plain.builtins) "f_i" "Ligature2"
      (Some (dquote +:+ "liga-1" +:+ dquote +:+ " f i")) Plain.start = (st', Ok tt)
    ∧ fragments (self st') "f_i" "liga-1" = [("Ligature", [TStr "f"; TStr "i"])]
    ∧ survives (self st') "liga-1" = true.
Proof.
  exists (_parsePosSub (B := Plain.builtins) "f_i" "Ligature2"
            (Some (dquote +:+ "liga-1" +:+ dquote +:+ " f i")) Plain.start).1.
  split; [vm_compute; reflexivity|].
  split; [vm_compute; reflexivity|].
  destruct (parsePosSub_files_fragment (B := Plain.builtins) "f_i" "Ligature2"
              (Some (dquote +:+ "liga-1" +:+ dquote +:+ " f i")) Plain.start
              (_parsePosSub (B := Plain.builtins) "f_i" "Ligature2"
                 (Some (dquote +:+ "liga-1" +:+ dquote +:+ " f i")) Plain.start).1)
    as (subtable & kind & toks & _ & _ & Hfrag & _ & Hs & _).
  { vm_compute. reflexivity. }
  assert (subtable = "liga-1") as ->; [|exact Hs].
  destruct (decide (subtable = "liga-1")) as [|Hne]; [done|].
  exfalso. revert Hfrag. unfold fragments.
  change (_glyphPosSub (self Plain.start)) with (@nil (string * list (string * list (string * list tok)))).
  replace (_glyphPosSub (self (_parsePosSub (B := Plain.builtins) "f_i" "Ligature2"
              (Some (dquote +:+ "liga-1" +:+ dquote +:+ " f i")) Plain.start).1))
    with [("f_i", [("liga-1", [("Ligature", [TStr "f"; TStr "i"])])])]
    by (vm_compute; reflexivity).
  simpl. rewrite decide_False by done. simpl. by destruct toks.
Defined.

Section AnchorClasses.
Context `{B : Builtins} `{R : Regex} `{U : !Utils}.

#[local] Arguments dget : simpl never.
#[local] Arguments dset : simpl never.

Lemma anchorClassPairs_run pairs (st st' : St) u :
  forM pairs anchorClassPair st = (st', Ok u) →
  Forall (λ pair, length pair = 2%nat) pairs
  ∧ font st' = font st
  ∧ (∀ v, set_anchorClasses v (self st') = set_anchorClasses v (self st))
  ∧ (∀ sub, default [] (dget (_anchorClasses (self st')) sub)
            = default [] (dget (_anchorClasses (self st)) sub) ++ anchorsOf sub pairs)
  ∧ (∀ sub, is_Some (dget (_anchorClasses (self st')) sub)
            ↔ is_Some (dget (_anchorClasses (self st)) sub)
              ∨ anchorsOf sub pairs ≠ []).
Proof.
  revert st. induction pairs as [|pair pairs IH]; intros st Hrun.
  - apply ret_Ok in Hrun as [-> _]. split; [constructor|].
    split; [done|]. split; [done|]. split.
    + intros sub. by rewrite app_nil_r.
    + intros sub. simpl. tauto.
  - simpl in Hrun. apply bind_Ok in Hrun as (s1 & u1 & Hpair & Hrun).
    destruct pair as [|anchor [|subtable [|]]]; try done.
    unfold anchorClassPair, mod_self in Hpair. injection Hpair as <- _.
    destruct (IH _ Hrun) as (Hlen & Hfont & Hset & Hval & Hhas).
    cbn [self font _anchorClasses set_anchorClasses] in *.
    split; [by constructor|]. split; [done|]. split; [done|]. split.
    + intros sub. rewrite Hval. simpl.
      destruct (decide (subtable = sub)) as [->|Hne].
      * rewrite dget_dset_eq. simpl. by rewrite <- app_assoc.
      * by rewrite dget_dset_ne.
    + intros sub. rewrite Hhas. simpl.
      destruct (decide (subtable = sub)) as [->|Hne].
      * rewrite dget_dset_eq. split; [intros _; by right|intros _; left; by eexists].
      * by rewrite dget_dset_ne.
Qed.

(** X11.  [_parseAnchorClass] runs once: with anchor classes already
    registered it raises [AssertionError] and changes nothing.  When it
    returns, the quoted names of the record came in pairs of a class and
    a subtable; the subtables registered are those of the pairs, each
    with the classes paired with it, in the order of the record; every
    one of them survives pruning; and the font is as it was. *)
Theorem parseAnchorClass_registers (data : option string) (st : St) :
  (_anchorClasses (self st) ≠ [] →
   _parseAnchorClass data st = (st, Raise AssertionError))
  ∧ ∀ st',
      _parseAnchorClass data st = (st', Ok tt) →
      ∃ value names,
        data = Some value
        ∧ rmap SFDReadUTF7 (quoted_findall value) = Ok names
        ∧ Forall (λ pair, length pair = 2%nat) (_splitList names 2)
        ∧ font st' = font st
        ∧ (∀ sub, default [] (dget (_anchorClasses (self st')) sub)
                  = anchorsOf sub (_splitList names 2))
        ∧ (∀ sub, is_Some (dget (_anchorClasses (self st')) sub)
                  ↔ ∃ anchor, [anchor; sub] ∈ _splitList names 2)
        ∧ ∀ anchor sub, [anchor; sub] ∈ _splitList names 2 →
                        survives (self st') sub = true.
Proof.
  split.
  - intros Hne. unfold _parseAnchorClass, bind, get_self, assert.
    by rewrite bool_decide_eq_false_2.
  - intros st' Hrun. unfold _parseAnchorClass in Hrun.
    apply bind_Ok in Hrun as (s1 & p & Hp & Hrun). apply ret_Ok in Hp as [-> ->].
    apply bind_Ok in Hrun as (s1 & u & Hu & Hrun).
    apply assert_Ok in Hu as [-> Hempty]. apply bool_decide_eq_true in Hempty.
    apply bind_Ok in Hrun as (s1 & value & Hv & Hrun).
    apply lift_Ok in Hv as [-> Hv]. apply of_option_Ok in Hv as ->.
    apply bind_Ok in Hrun as (s1 & names & Hn & Hrun).
    apply lift_Ok in Hn as [-> Hn].
    apply anchorClassPairs_run in Hrun as (Hlen & Hfont & _ & Hval & Hhas).
    rewrite Hempty in Hval, Hhas.
    assert (Hpairs : ∀ sub, anchorsOf sub (_splitList names 2) ≠ []
                            ↔ ∃ anchor, [anchor; sub] ∈ _splitList names 2).
    { intros sub. generalize (_splitList names 2). intros pairs.
      induction pairs as [|pair pairs IH]; simpl.
      - split; [done|]. by intros [? ?%elem_of_nil].
      - destruct pair as [|a [|s [|]]];
          try (rewrite IH; split; intros [x Hx]; exists x;
               [by apply list_elem_of_further
               |by apply elem_of_cons in Hx as [?|?]]).
        case_decide as Hs; [subst s|].
        + split; [intros _; exists a; apply list_elem_of_here|done].
        + rewrite IH. split; intros [x Hx]; exists x.
          * by apply list_elem_of_further.
          * apply elem_of_cons in Hx as [[= -> ->]|?]; done. }
    exists value, names. split; [done|]. split; [done|]. split; [done|].
    split; [done|]. split; [intros sub; by rewrite Hval|].
    split.
    { intros sub. rewrite Hhas, <- Hpairs. split; [|by right].
      intros [[? [=]]|?]; done. }
    intros anchor sub Hin. apply survives_spec. right.
    apply Hhas. right. apply Hpairs. by exists anchor.
Qed.

End AnchorClasses.

(** Two classes for one subtable. *)
Lemma parseAnchorClass_registers_witness :
  let record := dquote +:+ "top" +:+ dquote +:+ " " +:+ dquote +:+ "mark-1" +:+ dquote
                +:+ " " +:+ dquote +:+ "bottom" +:+ dquote +:+ " "
                +:+ dquote +:+ "mark-1" +:+ dquote in
  ∃ st',
    _parseAnchorClass (F := Plain.floats) (Some record) Plain.start = (st', Ok tt)
    ∧ _anchorClasses (self st') = [("mark-1", ["top"; "bottom"])]
    ∧ survives (self st') "mark-1" = true
    ∧ _parseAnchorClass (F := Plain.floats) (Some record) st'
      = (st', Raise AssertionError).
Proof.
  intros record.
  set (run := _parseAnchorClass (F := Plain.floats) (Some record) Plain.start).
  assert (Hrun : run = (run.1, Ok tt)) by (vm_compute; reflexivity).
  exists run.1. split; [exact Hrun|]. split; [vm_compute; reflexivity|].
  destruct (proj2 (parseAnchorClass_registers (Some record) Plain.start) run.1 Hrun)
    as (value & names & Hvalue & Hnames & _ & _ & _ & _ & Hs).
  injection Hvalue as <-. vm_compute in Hnames. injection Hnames as <-.
  split.
  - apply (Hs "top"). apply list_elem_of_here.
  - apply (proj1 (parseAnchorClass_registers (Some record) run.1)).
    vm_compute. discriminate.
Defined.

(** ** Kerning *)

Section Kerns.
Context `{B : Builtins} `{R : Regex} `{U : !Utils}.

#[local] Arguments dget : simpl never.
#[local] Arguments dset : simpl never.

Lemma parseKerns_loop name kerns (st st' : St) u acc :
  dget (_glyphKerns (self st)) name = Some acc →
  forM kerns (λ '(gid, kern, subtable),
    gid <- lift (of_option ValueError (py_int gid));
    kern <- lift (of_option ValueError (py_int kern));
    mod_self (λ p, set_glyphKerns
      (dset (_glyphKerns p) name
         (default [] (dget (_glyphKerns p) name) ++ [(gid, kern)])) p)) st
  = (st', Ok u) →
  ∃ pairs,
    Forall2 kernPair kerns pairs
    ∧ dget (_glyphKerns (self st')) name = Some (acc ++ pairs)
    ∧ (∀ other, other ≠ name →
                dget (_glyphKerns (self st')) other = dget (_glyphKerns (self st)) other)
    ∧ font st' = font st.
Proof.
  revert st acc. induction kerns as [|[[gid kern] subtable] kerns IH];
    intros st acc Hacc Hrun.
  - apply ret_Ok in Hrun as [-> _]. exists []. rewrite app_nil_r.
    split; [constructor|done].
  - simpl in Hrun. apply bind_Ok in Hrun as (s1 & u1 & Hstep & Hrun).
    apply bind_Ok in Hstep as (s2 & g & Hg & Hstep).
    apply lift_Ok in Hg as [-> Hg%of_option_Ok].
    apply bind_Ok in Hstep as (s2 & k & Hk & Hstep).
    apply lift_Ok in Hk as [-> Hk%of_option_Ok].
    unfold mod_self in Hstep. injection Hstep as <- _.
    apply (IH _ (acc ++ [(g, k)])) in Hrun
      as (pairs & Hpairs & Hget & Hother & Hfont).
    2:{ simpl. by rewrite dget_dset_eq, Hacc. }
    exists ((g, k) :: pairs). split; [by constructor|].
    split; [by rewrite Hget, <- app_assoc|]. split; [|done].
    intros other Hne. rewrite Hother by done.
    simpl. by rewrite dget_dset_ne.
Qed.

(** X12.  The kerns of a glyph are read once: for a glyph name that
    already has an entry in [_glyphKerns], [_parseKerns] raises
    [AssertionError] and changes nothing.  When it returns, the name had
    no entry, the record held at least one kern, and the entry of the
    name now holds the pair of integers of every kern of the record, in
    order; the entries of the other names and the font are as they
    were. *)
Theorem parseKerns_once (name : string) (data : option string) (st : St) :
  (is_Some (dget (_glyphKerns (self st)) name) →
   _parseKerns name data st = (st, Raise AssertionError))
  ∧ ∀ st',
      _parseKerns name data st = (st', Ok tt) →
      dget (_glyphKerns (self st)) name = None
      ∧ ∃ value pairs,
          data = Some value
          ∧ kerns_findall value ≠ []
          ∧ Forall2 kernPair (kerns_findall value) pairs
          ∧ dget (_glyphKerns (self st')) name = Some pairs
          ∧ (∀ other, other ≠ name →
                      dget (_glyphKerns (self st')) other
                      = dget (_glyphKerns (self st)) other)
          ∧ font st' = font st
          ∧ ∀ data', _parseKerns name data' st' = (st', Raise AssertionError).
Proof.
  assert (Hagain : ∀ s : St, is_Some (dget (_glyphKerns (self s)) name) →
            ∀ d, _parseKerns name d s = (s, Raise AssertionError)).
  { intros s Hs d. unfold _parseKerns, bind, get_self, assert, dhas.
    by rewrite bool_decide_eq_true_2. }
  split; [intros Hs; by apply Hagain|].
  intros st' Hrun. unfold _parseKerns in Hrun.
  apply bind_Ok in Hrun as (s1 & p & Hp & Hrun). apply ret_Ok in Hp as [-> ->].
  apply bind_Ok in Hrun as (s1 & u & Hu & Hrun).
  apply assert_Ok in Hu as [-> Hnew]. apply negb_true_iff in Hnew.
  unfold dhas in Hnew. apply bool_decide_eq_false in Hnew.
  apply bind_Ok in Hrun as (s1 & value & Hv & Hrun).
  apply lift_Ok in Hv as [-> Hv%of_option_Ok].
  apply bind_Ok in Hrun as (s1 & u1 & Hu & Hrun).
  apply assert_Ok in Hu as [-> Hkerns]. apply negb_true_iff in Hkerns.
  apply bool_decide_eq_false in Hkerns.
  apply bind_Ok in Hrun as (s1 & u2 & Hmod & Hrun).
  unfold mod_self in Hmod. injection Hmod as <- _.
  eapply (parseKerns_loop name _ _ _ _ []) in Hrun
    as (pairs & Hpairs & Hget & Hother & Hfont).
  2:{ simpl. by rewrite dget_dset_eq. }
  split.
  { destruct (dget (_glyphKerns (self st)) name) eqn:E; [|done].
    destruct Hnew. by eexists. }
  exists value, pairs. split; [done|]. split; [done|]. split; [done|].
  split; [done|]. split.
  { intros other Hne. rewrite Hother by done.
    simpl. by rewrite dget_dset_ne. }
  split; [done|]. intros d. apply Hagain. rewrite Hget. by eexists.
Qed.

End Kerns.

(** Two kerns of the glyph [A]; a second record for [A] is refused. *)
Lemma parseKerns_once_witness :
  let record := "2 -50 " +:+ dquote +:+ "kern-1" +:+ dquote
                +:+ " 5 30 " +:+ dquote +:+ "kern-1" +:+ dquote in
  ∃ st',
    _parseKerns (B := Plain.builtins) "A" (Some record) Plain.start = (st', Ok tt)
    ∧ _glyphKerns (self st') = [("A", [(2, -50); (5, 30)])]%Z
    ∧ _parseKerns (B := Plain.builtins) "A" (Some record) st'
      = (st', Raise AssertionError).
Proof.
  intros record.
  set (run := _parseKerns (B := Plain.builtins) "A" (Some record) Plain.start).
  assert (Hrun : run = (run.1, Ok tt)) by (vm_compute; reflexivity).
  exists run.1. split; [exact Hrun|]. split; [vm_compute; reflexivity|].
  destruct (proj2 (parseKerns_once (B := Plain.builtins) "A" (Some record)
                     Plain.start) run.1 Hrun)
    as (_ & value & pairs & _ & _ & _ & _ & _ & _ & Hagain).
  apply Hagain.
Defined.

Section ProcessKerns.
Context `{B : Builtins} `{R : Regex} `{U : !Utils}.

Lemma set_kerning_dset n1 n2 v (f : Font) :
  set_kerning n1 n2 v f = f_with_kerning (dset (kerning f) (n1, n2) v) f.
Proof.
  unfold set_kerning. f_equal.
  induction (kerning f) as [|[k0 v0] l IH]; [done|].
  cbn [list_find dset]. destruct (decide (k0 = (n1, n2))) as [->|Hne].
  - rewrite decide_True by done. done.
  - rewrite decide_False by done.
    destruct (list_find _ l) as [[i e]|]; simpl in *; by rewrite IH.
Qed.

Lemma forM_acc {A} (I : list A → St → Prop) (body : A → M unit) (l : list A) :
  (∀ x seen s s' u, I seen s → body x s = (s', Ok u) → I (seen ++ [x]) s') →
  ∀ seen st st' u, I seen st → forM l body st = (st', Ok u) → I (seen ++ l) st'.
Proof.
  intros Hbody. induction l as [|x l IH]; intros seen st st' u HI Hrun.
  - apply ret_Ok in Hrun as [-> _]. by rewrite app_nil_r.
  - simpl in Hrun. apply bind_Ok in Hrun as (s1 & u1 & Hx & Hrun).
    replace (seen ++ x :: l) with ((seen ++ [x]) ++ l) by by rewrite <- app_assoc.
    eapply IH; [|exact Hrun]. by eapply Hbody.
Qed.

(** What holds after the kerns [seen] have been entered, from [st0]. *)
Definition kernsEntered (st0 : St) (seen : list (string * Z * Z)) (st : St) : Prop :=
  self st = self st0
  ∧ font st = f_with_kerning (kerning (font st)) (font st0)
  ∧ (∀ name1 gid2 kern, (name1, gid2, kern) ∈ seen →
       ∃ name2, getitem (glyphOrder (font st0)) gid2 = Ok name2
                ∧ is_Some (kernOf (font st) name1 name2))
  ∧ ∀ name1 name2 v, kernOf (font st) name1 name2 = Some v →
      kernOf (font st0) name1 name2 = Some v
      ∨ ∃ gid2, (name1, gid2, v) ∈ seen
                ∧ getitem (glyphOrder (font st0)) gid2 = Ok name2.

Lemma kernsEntered_step (st0 : St) seen name1 gid2 kern (s s' : St) u :
  kernsEntered st0 seen s →
  (f <- get_font;
   name2 <- lift (getitem (glyphOrder f) gid2);
   mod_font (set_kerning name1 name2 kern)) s = (s', Ok u) →
  kernsEntered st0 (seen ++ [(name1, gid2, kern)]) s'.
Proof.
  intros (Hself & Hfont & Hall & Hfrom) Hrun.
  apply bind_Ok in Hrun as (s1 & f & Hf & Hrun). apply ret_Ok in Hf as [-> ->].
  apply bind_Ok in Hrun as (s1 & name2 & Hn & Hrun).
  apply lift_Ok in Hn as [-> Hn].
  unfold mod_font in Hrun. injection Hrun as <- _.
  rewrite set_kerning_dset. rewrite Hfont in Hn. cbn [glyphOrder f_with_kerning] in Hn.
  split; [done|]. split; [by rewrite Hfont|].
  unfold kernOf in *. cbn [self font kerning f_with_kerning].
  split.
  - intros n1 g k [Hin|[= -> -> ->]%list_elem_of_singleton]%elem_of_app.
    + destruct (Hall _ _ _ Hin) as (n2 & Hn2 & Hsome). exists n2. split; [done|].
      destruct (decide ((name1, name2) = (n1, n2))) as [[= <- <-]|Hne].
      * rewrite dget_dset_eq. by eexists.
      * by rewrite dget_dset_ne.
    + exists name2. split; [done|]. rewrite dget_dset_eq. by eexists.
  - intros n1 n2 v Hv.
    destruct (decide ((name1, name2) = (n1, n2))) as [[= <- <-]|Hne].
    + rewrite dget_dset_eq in Hv. injection Hv as <-. right. exists gid2.
      split; [|done]. apply elem_of_app. right. apply list_elem_of_here.
    + rewrite dget_dset_ne in Hv by done.
      destruct (Hfrom _ _ _ Hv) as [?|(g & Hg & ?)]; [by left|right].
      exists g. split; [|done]. apply elem_of_app. by left.
Qed.

(** X13.  When [_processKerns] returns, the parser is as it was and the
    font differs at most in its kerning.  Every kern gathered for a
    glyph has an index that the glyph order holds (a negative one counts
    from its end), and the pair of the glyph and the glyph at that index
    has a kerning value; every kerning value is one the font had before,
    or the kern gathered for such a pair.  An index outside the glyph
    order never lets [_processKerns] return. *)
Theorem processKerns_entries (st st' : St) :
  _processKerns st = (st', Ok tt) →
  self st' = self st
  ∧ font st' = f_with_kerning (kerning (font st')) (font st)
  ∧ (∀ name1 gid2 kern,
       (name1, gid2, kern) ∈ gatheredKerns (_glyphKerns (self st)) →
       ∃ name2, getitem (glyphOrder (font st)) gid2 = Ok name2
                ∧ is_Some (kernOf (font st') name1 name2))
  ∧ ∀ name1 name2 v,
      kernOf (font st') name1 name2 = Some v →
      kernOf (font st) name1 name2 = Some v
      ∨ ∃ gid2, (name1, gid2, v) ∈ gatheredKerns (_glyphKerns (self st))
                ∧ getitem (glyphOrder (font st)) gid2 = Ok name2.
Proof.
  intros Hrun. unfold _processKerns in Hrun.
  apply bind_Ok in Hrun as (s1 & p & Hp & Hrun). apply ret_Ok in Hp as [-> ->].
  assert (Hstart : kernsEntered st (gatheredKerns []) st).
  { split; [done|]. split; [by destruct (font st)|]. split.
    - intros ??? Hin. inversion Hin.
    - intros n1 n2 v Hv. by left. }
  refine (forM_acc (λ seen s, kernsEntered st (gatheredKerns seen) s) _ _ _
            [] st st' tt Hstart Hrun).
  intros [name1 kerns] seen s s' u HI Hinner.
  assert (Hseen : kernsEntered st
            (gatheredKerns seen ++ ((λ k : Z * Z, (name1, k.1, k.2)) <$> [])) s).
  { simpl. by rewrite app_nil_r. }
  unfold gatheredKerns. rewrite fmap_app, concat_app. simpl. rewrite app_nil_r.
  fold (gatheredKerns seen).
  refine (forM_acc (λ done s, kernsEntered st
            (gatheredKerns seen ++ ((λ k : Z * Z, (name1, k.1, k.2)) <$> done)) s)
            _ _ _ [] s s' u Hseen Hinner).
  intros [gid2 kern] done s0 s0' u0 HI0 Hstep.
  rewrite fmap_app, app_assoc. simpl.
  by eapply kernsEntered_step.
Qed.

End ProcessKerns.

(** The kern gathered for [A] against index 1 becomes the kerning of the
    pair [A], [V]. *)
Lemma processKerns_entries_witness :
  ∃ st',
    _processKerns kernedFont = (st', Ok tt)
    ∧ kerning (font st') = [("A", "V", -50)]%Z
    ∧ ∃ name2, getitem (glyphOrder (font kernedFont)) 1 = Ok name2
               ∧ is_Some (kernOf (font st') "A" name2).
Proof.
  set (run := _processKerns kernedFont).
  assert (Hrun : run = (run.1, Ok tt)) by (vm_compute; reflexivity).
  exists run.1. split; [exact Hrun|]. split; [vm_compute; reflexivity|].
  destruct (processKerns_entries kernedFont run.1 Hrun) as (_ & _ & Hall & _).
  apply (Hall "A" 1%Z (-50)%Z). apply list_elem_of_here.
Defined.

(** ** Outlines as read *)

Section SplineSets.
Context `{B : Builtins} `{R : Regex} `{U : !Utils}.

Lemma append_last_Ok (contours : list contour) x contours' :
  append_last contours x = Ok contours' →
  ∃ cs c, contours = cs ++ [c] ∧ contours' = cs ++ [c ++ [x]].
Proof.
  unfold append_last. destruct (reverse contours) as [|c cs] eqn:E; [done|].
  intros [= <-]. exists (reverse cs), c. split; [|done].
  apply (f_equal reverse) in E. rewrite reverse_involutive in E.
  by rewrite E, reverse_cons.
Qed.

Lemma append_last_moved (contours : list contour) x contours' :
  Forall movedContour contours → laterItem x →
  append_last contours x = Ok contours' → Forall movedContour contours'.
Proof.
  intros Hall Hx (cs & c & -> & ->)%append_last_Ok.
  apply Forall_app in Hall as [Hcs Hc]. apply Forall_app. split; [done|].
  apply Forall_singleton in Hc as (pts & flags & rest & -> & Hlen & Hrest).
  apply Forall_singleton. exists pts, flags, (rest ++ [x]).
  split; [done|]. split; [done|]. apply Forall_app. split; [done|].
  by apply Forall_singleton.
Qed.

Lemma splitList_points {X} (l : list X) :
  Forall (λ p, (0 < length p ≤ 2)%nat) (_splitList l 2).
Proof.
  apply Forall_forall. intros p Hp.
  apply list_elem_of_lookup in Hp as [i Hi].
  by apply (splitList_chunks l 2 ltac:(lia)) in Hi as [? _].
Qed.

Lemma parseSegment_moved line (contours contours' : list contour) :
  Forall movedContour contours →
  Forall (λ c, Forall (λ it, Forall (λ p : point, (0 < length p ≤ 2)%nat)
                               (pointsOf it)) c) contours →
  parseSegment line contours = Ok contours' →
  Forall movedContour contours'
  ∧ Forall (λ c, Forall (λ it, Forall (λ p : point, (0 < length p ≤ 2)%nat)
                                 (pointsOf it)) c) contours'.
Proof.
  intros Hall Hpts. unfold parseSegment.
  destruct (strip <$> glyph_segment_split line) as [|pts [|t [|flags [|]]]];
    try done.
  intros (floats & _ & Hseg)%rbind_Ok.
  pose proof (splitList_points floats) as Hp.
  repeat case_decide; try done; subst.
  - injection Hseg as <-. split.
    + apply Forall_app. split; [done|]. apply Forall_singleton.
      eexists _, _, []. split; [done|]. split; [done|constructor].
    + apply Forall_app. split; [done|]. apply Forall_singleton, Forall_singleton.
      exact Hp.
  - split; [eapply append_last_moved; [done| |done]; by left|].
    apply append_last_Ok in Hseg as (cs & c & -> & ->).
    apply Forall_app in Hpts as [Hcs Hc]. apply Forall_app. split; [done|].
    rewrite Forall_singleton in Hc. apply Forall_singleton.
    apply Forall_app. split; [done|]. apply Forall_singleton. exact Hp.
  - split; [eapply append_last_moved; [done| |done]; by right|].
    apply append_last_Ok in Hseg as (cs & c & -> & ->).
    apply Forall_app in Hpts as [Hcs Hc]. apply Forall_app. split; [done|].
    rewrite Forall_singleton in Hc. apply Forall_singleton.
    apply Forall_app. split; [done|]. apply Forall_singleton. exact Hp.
  - injection Hseg as <-. done.
Qed.

Lemma parseSplineSet_go_moved fuel data i (contours contours' : list contour) :
  Forall movedContour contours →
  Forall (λ c, Forall (λ it, Forall (λ p : point, (0 < length p ≤ 2)%nat)
                               (pointsOf it)) c) contours →
  parseSplineSet_go fuel data i contours = Ok contours' →
  Forall movedContour contours'
  ∧ Forall (λ c, Forall (λ it, Forall (λ p : point, (0 < length p ≤ 2)%nat)
                                 (pointsOf it)) c) contours'.
Proof.
  revert i contours. induction fuel as [|fuel IH]; intros i contours Hall Hpts;
    [done|].
  cbn [parseSplineSet_go]. destruct (i <? _)%Z; [|by intros [= <-]].
  intros (line & _ & Hrun)%rbind_Ok. case_decide.
  - apply rbind_Ok in Hrun as ([spiro i'] & _ & Hrun). by eapply IH.
  - destruct (startswith line "Named").
    + apply rbind_Ok in Hrun as (raw & _ & Hrun).
      apply rbind_Ok in Hrun as (name & _ & Hrun).
      apply rbind_Ok in Hrun as (contours1 & Happ & Hrun).
      eapply IH; [| |exact Hrun].
      * eapply append_last_moved; [exact Hall| |exact Happ]. exact I.
      * apply append_last_Ok in Happ as (cs & c & -> & ->).
        apply Forall_app in Hpts as [Hcs Hc]. apply Forall_app. split; [done|].
        rewrite Forall_singleton in Hc. apply Forall_singleton.
        apply Forall_app. split; [done|]. by repeat constructor.
    + apply rbind_Ok in Hrun as (contours1 & Hseg & Hrun).
      destruct (parseSegment_moved _ _ _ Hall Hpts Hseg). by eapply IH.
Qed.

(** X14.  The contours that [_parseSplineSet] returns: every contour
    starts with a move of one point, and what follows it are lines of one
    point, curves of three points and names; every point holds one or
    two coordinates.  So a line, a curve or a name that comes before the
    first move raises [IndexError]: there is no contour to add it to. *)
Theorem parseSplineSet_contours (data : list string) :
  (∀ contours,
     _parseSplineSet data = Ok contours →
     Forall movedContour contours
     ∧ Forall (λ c, Forall (λ it, Forall (λ p : point, (0 < length p ≤ 2)%nat)
                                    (pointsOf it)) c) contours)
  ∧ (∀ x, append_last (@nil contour) x = Raise IndexError)
  ∧ ∀ line rest raw name,
      line ≠ "Spiro" → startswith line "Named" = true →
      split ": " line !! 1%nat = Some raw → SFDReadUTF7 raw = Ok name →
      _parseSplineSet (line :: rest) = Raise IndexError.
Proof.
  split; [|split].
  - intros contours Hrun. unfold _parseSplineSet in Hrun.
    eapply parseSplineSet_go_moved; [| |exact Hrun]; constructor.
  - done.
  - intros line rest raw name Hne Hnamed Hraw Hname.
    unfold _parseSplineSet. cbn [parseSplineSet_go length].
    replace (0 <? Z.of_nat (S (length rest)))%Z with true
      by (symmetry; apply Z.ltb_lt; lia).
    cbn [getitem Z.leb]. simpl. rewrite decide_False by done.
    by rewrite Hnamed, Hraw; simpl; rewrite Hname.
Qed.

End SplineSets.

(** A move and a line: one contour of two items. *)
Lemma parseSplineSet_contours_witness :
  _parseSplineSet (B := Plain.builtins) ["0 0 m 1,0,-1"; "100 750 l 1,1,-1"]
  = Ok [[Seg [[(0%Z, O); (0%Z, O)]] "m" "1,0,-1";
         Seg [[(100%Z, O); (750%Z, O)]] "l" "1,1,-1"]]
  ∧ Forall movedContour
      [[Seg [[(0%Z, O); (0%Z, O)]] "m" "1,0,-1";
        Seg [[(100%Z, O); (750%Z, O)]] "l" "1,1,-1"]]
  ∧ _parseSplineSet (B := Plain.builtins) ["Named: top"; "0 0 m 1,0,-1"]
    = Raise IndexError.
Proof.
  split; [vm_compute; reflexivity|]. split.
  - apply (proj1 (parseSplineSet_contours (B := Plain.builtins)
                    ["0 0 m 1,0,-1"; "100 750 l 1,1,-1"])).
    vm_compute. reflexivity.
  - apply (proj2 (proj2 (parseSplineSet_contours (B := Plain.builtins) []))
             "Named: top" ["0 0 m 1,0,-1"] "top" "top");
      [discriminate|reflexivity|reflexivity|reflexivity].
Defined.

(** ** The closed path *)

Section ClosingClaims.
Context `{B : Builtins} `{R : Regex} `{U : !Utils}.

(** What follows the move of a contour emits no [move] point. *)
Lemma drawSegments_no_move q (l : contour) w fo :
  drawSegments q l [] false = Ok (w, fo) →
  Forall laterItem l → ∀ p, p ∈ w → p.1.2 ≠ Some "move".
Proof.
  revert w fo. induction l as [|it l IH]; intros w fo; simpl.
  - intros [= <- <-] _ p Hp. inversion Hp.
  - destruct (drawSegment q it) as [[pts f]|] eqn:Hit; simpl; [|done].
    rewrite drawSegments_acc.
    destruct (drawSegments q l [] false) as [[w' fw]|] eqn:E; [|done].
    intros [= <- <-] Hall p Hp.
    apply Forall_cons in Hall as [Hlater Hl].
    apply elem_of_app in Hp as [Hp|Hp].
    + destruct (drawSegment_Ok_points _ _ _ _ Hit) as [_ Hmove].
      apply Hmove; [|done]. intros (pts' & f' & ->).
      simpl in Hlater. destruct Hlater as [[? _]|[? _]]; discriminate.
    + by eapply IH.
Qed.

(** The name at the end of a contour is taken off; the move and what
    follows it stay. *)
Lemma popName_moved (c c' : contour) pts flags rest :
  c = Seg pts "m" flags :: rest → Forall laterItem rest → popName c = Ok c' →
  ∃ rest', c' = Seg pts "m" flags :: rest' ∧ Forall laterItem rest'.
Proof.
  intros -> Hrest. unfold popName.
  destruct (last (Seg pts "m" flags :: rest)) as [x|] eqn:El; [|done].
  apply last_Some in El as [l El].
  destruct x as [ps s f|name]; intros [= <-]; [by exists rest|].
  destruct l as [|y l]; [done|].
  injection El as <- ->. exists l.
  change (removelast ((Seg pts "m" flags :: l) ++ [Named name])
          = Seg pts "m" flags :: l ∧ Forall laterItem l).
  rewrite removelast_last. split; [done|].
  by apply Forall_app in Hrest as [? _].
Qed.

(** The points that a contour of [_parseSplineSet] emits: a [move] point,
    and then points that are not [move] points. *)
Lemma movedContour_drawn q (c c' : contour) u fo :
  movedContour c → popName c = Ok c' →
  drawSegments q c' [] false = Ok (u, fo) →
  ∃ pm w, u = pm :: w ∧ pm.1.2 = Some "move"
          ∧ ∀ p, p ∈ w → p.1.2 ≠ Some "move".
Proof.
  intros (pts & flags & rest & Hc & _ & Hrest) Hpop Hdraw.
  destruct (popName_moved _ _ _ _ _ Hc Hrest Hpop) as (rest' & -> & Hrest').
  cbn [drawSegments] in Hdraw.
  apply rbind_Ok in Hdraw as ([ps f] & Hm & Hdraw).
  cbn [drawSegment] in Hm.
  apply rbind_Ok in Hm as (flag & _ & Hm).
  rewrite decide_True in Hm by done.
  apply rbind_Ok in Hm as (p & _ & [= <- <-]).
  rewrite drawSegments_acc in Hdraw.
  destruct (drawSegments q rest' [] false) as [[w fw]|] eqn:E; [|done].
  injection Hdraw as <- <-.
  eexists _, w. split; [reflexivity|]. split; [done|].
  by eapply drawSegments_no_move.
Qed.

(** C3 (amended).  For every contour that [_parseSplineSet] returned and
    [_drawContours] draws onto a glyph: the contour emits at least one
    point.  If no segment has flag bit 0x400, the contour emits more than
    one point, and the first and last emitted points have equal
    coordinates, then the last point is dropped and stored in the place
    of the first, with its segment type and smoothness, so that N emitted
    points are stored as N - 1, and the stored contour is closed (it
    starts with no [move] point).  A contour that emits a single point is
    stored as it is, open.  A contour forced open, or one whose first and
    last emitted points differ, is stored as it is emitted. *)
Theorem C3_closed_contour_drops_closing_point
    (q : option bool) (glyph : nat) (data : list string) (contours : list contour)
    (st st' : St) (g : Glyph) :
  _parseSplineSet data = Ok contours →
  _drawContours glyph contours q st = (st', Ok tt) →
  heap (font st) !! glyph = Some g →
  ∃ drawn g',
    heap (font st') !! glyph = Some g'
    ∧ g_contours g' = g_contours g ++ drawn
    ∧ Forall2 (storedFor q) contours drawn.
Proof.
  intros Hparse Hrun Hg.
  assert (Hmoved : Forall movedContour contours).
  { unfold _parseSplineSet in Hparse.
    eapply parseSplineSet_go_moved; [| |exact Hparse]; constructor. }
  destruct (drawContours_spec _ _ _ _ _ _ Hrun Hg) as (drawn & g' & Hall & Hg' & Hcs).
  exists drawn, g'. split; [done|]. split; [done|].
  clear Hrun Hcs Hg' Hparse. induction Hall as [|c stored cs ds Hc Hall IH];
    [constructor|].
  apply Forall_cons in Hmoved as [Hm Hmoved].
  constructor; [|by apply IH].
  unfold drawContour in Hc.
  apply rbind_Ok in Hc as (c' & Hpop & Hc).
  apply rbind_Ok in Hc as ([u fo] & Hsegs & [= <-]).
  destruct (movedContour_drawn _ _ _ _ _ Hm Hpop Hsegs) as (pm & w & -> & Hpm & Hw).
  exists c', (pm :: w), fo. split; [done|]. split; [done|].
  split; [by eapply drawSegments_forceOpen|].
  split; [done|]. split; [|split].
  - intros p0 mid pn -> Hu Heq. rewrite Hu, closePath_closed by done.
    split; [done|]. split.
    { simpl. rewrite length_app. simpl. lia. }
    intros p [= <-]. apply Hw. injection Hu as _ ->.
    apply elem_of_app. right. by left.
  - intros p [= <- ->]. rewrite closePath_single. split; [done|].
    intros Hclosed. by apply (Hclosed pm).
  - intros [->|(p0 & pn & Hh & Hl & Hne)].
    + apply closePath_forced.
    + by eapply closePath_apart.
Qed.

End ClosingClaims.

(** The triangle: its four lines are parsed into one contour, which is
    drawn onto the glyph [a] and stored by the rule. *)
Lemma C3_witness :
  _parseSplineSet (B := Plain.builtins) (R := Re.engine) triangleLines = Ok [triangle]
  ∧ ∃ st',
      _drawContours 0 [triangle] (Some false) oneGlyph = (st', Ok tt)
      ∧ ∃ drawn g',
          heap (font st') !! 0%nat = Some g'
          ∧ g_contours g' = [] ++ drawn
          ∧ Forall2 (storedFor (Some false)) [triangle] drawn.
Proof.
  split; [vm_compute; reflexivity|].
  eexists. split; [vm_compute; reflexivity|].
  eapply (C3_closed_contour_drops_closing_point (B := Plain.builtins)
            (R := Re.engine) (U := Plain.utils)
            (Some false) 0 triangleLines [triangle] oneGlyph _ (newGlyphObject "a"));
    [vm_compute; reflexivity | vm_compute; reflexivity | reflexivity].
Defined.

(** A contour of the single point of its [m] segment is not forced open,
    and its first and last emitted points are the same point; yet the
    point is not dropped: one point is emitted, one is stored (not
    none), and the contour stays open. *)
Lemma C3_counterexample :
  let c : contour (F := Plain.floats) := [Seg [[(0%Z, O); (0%Z, O)]] "m" "1"] in
  ∃ u p,
    popName c = Ok c
    ∧ drawSegments None c [] false = Ok (u, false)
    ∧ head u = Some p ∧ last u = Some p
    ∧ drawContour None c = Ok u
    ∧ length u = 1%nat
    ∧ length u ≠ (length u - 1)%nat
    ∧ ¬ closed u.
Proof.
  eexists _, _. repeat split; try (vm_compute; reflexivity).
  - simpl. lia.
  - intros Hclosed. by apply (Hclosed _ eq_refl).
Defined.

(** ** The main loop *)

Section MainLoop.
Context `{B : Builtins} `{R : Regex} `{U : !Utils}.

Lemma fontRecord_KernClass2 data value loc :
  fontRecord data "KernClass2" value loc
  = (i <- _parseKernClass data (cursor loc) value; ret (Some (at_cursor i loc))).
Proof. reflexivity. Qed.

(** [_parseKernClass] on a record that matches: the two groups are the
    [n1 - 1] and the [n2 - 1] lines from the cursor on, the values are
    read from the line after them, and the cursor returned is past that
    line. *)
Lemma parseKernClass_run data i value s1 s2 raw n1 n2 name kline kerns (st : St) :
  kerns_match value = Some (s1, s2, raw) →
  py_int s1 = Some n1 → py_int s2 = Some n2 →
  SFDReadUTF7 raw = Ok name →
  getitem data (i + (n1 - 1) + (n2 - 1)) = Ok kline →
  rmap (λ k, of_option ValueError (py_int k))
    (filter (λ k, k ≠ "") (devicetable_split kline)) = Ok kerns →
  _parseKernClass data i (Some value) st
  = ({| self := set_kernClasses
                  (dset (_kernClasses (self st)) name
                     (kernGroup (slice data i (i + n1 - 1)),
                      kernGroup (slice data (i + (n1 - 1)) (i + (n1 - 1) + n2 - 1)),
                      kerns)) (self st);
        font := font st |},
     Ok (i + (n1 - 1) + (n2 - 1) + 1)%Z).
Proof.
  intros Hm H1 H2 Hname Hline Hkerns.
  unfold _parseKernClass, bind, lift, arg_of. simpl.
  rewrite Hm. simpl. rewrite H1. simpl. rewrite H2. simpl. rewrite Hname.
  rewrite Hline. simpl. rewrite Hkerns. reflexivity.
Qed.

(** One turn of the main loop after the first line. *)
Lemma parse_go_turn fuel data loc line key value (st st1 : St) loc1 :
  (0 < cursor loc)%Z →
  getitem data (cursor loc) = Ok line →
  splitFontRecord line = (key, value) →
  fontRecord data key value (at_cursor (cursor loc + 1) loc) st = (st1, Ok (Some loc1)) →
  parse_go (S fuel) data loc st = parse_go fuel data loc1 st1.
Proof.
  intros Hpos Hline Hsplit Hrec. cbn [parse_go].
  assert (Hlt : (cursor loc <? Z.of_nat (length data))%Z = true).
  { apply Z.ltb_lt. unfold getitem in Hline.
    destruct (0 <=? cursor loc)%Z eqn:E; [|apply Z.leb_gt in E; lia].
    apply of_option_Ok, lookup_lt_Some in Hline. lia. }
  rewrite Hlt. unfold bind at 1, lift at 1. rewrite Hline, Hsplit.
  replace (cursor loc + 1 =? 1)%Z with false by (symmetry; apply Z.eqb_neq; lia).
  unfold bind at 1. by rewrite Hrec.
Qed.

(** X15.  The main loop of [parse] need not end.  [_parseKernClass]
    returns the cursor it was given moved by the two class counts of the
    record, less one; when the counts add up to nothing, the cursor
    returned is the line of the [KernClass2] record itself, and the loop
    reads that record again and again: whatever the number of turns
    allowed, the loop has not ended. *)
Theorem KernClass2_can_loop (data : list string) (c : Z) (line value : string)
    (s1 s2 raw : string) (n1 n2 : Z) (name kline : string) (kerns : list Z) :
  (0 < c)%Z →
  getitem data c = Ok line →
  splitFontRecord line = ("KernClass2", Some value) →
  kerns_match value = Some (s1, s2, raw) →
  py_int s1 = Some n1 → py_int s2 = Some n2 →
  SFDReadUTF7 raw = Ok name →
  (n1 + n2 = 0)%Z →
  getitem data (c - 1) = Ok kline →
  rmap (λ k, of_option ValueError (py_int k))
    (filter (λ k, k ≠ "") (devicetable_split kline)) = Ok kerns →
  (∀ st : St, ∃ st', _parseKernClass data (c + 1) (Some value) st = (st', Ok c))
  ∧ ∀ fuel loc (st : St),
      cursor loc = c → ∃ st', parse_go fuel data loc st = (st', Raise Diverges).
Proof.
  intros Hpos Hline Hsplit Hm H1 H2 Hname Hsum Hkline Hkerns.
  assert (Hrun : ∀ st : St, ∃ st',
            _parseKernClass data (c + 1) (Some value) st = (st', Ok c)).
  { intros st. eexists.
    assert (Hk : getitem data (c + 1 + (n1 - 1) + (n2 - 1)) = Ok kline)
      by (by replace (c + 1 + (n1 - 1) + (n2 - 1))%Z with (c - 1)%Z by lia).
    rewrite (parseKernClass_run _ _ _ _ _ _ _ _ _ _ _ st Hm H1 H2 Hname Hk Hkerns).
    do 2 f_equal. lia. }
  split; [done|].
  induction fuel as [|fuel IH]; intros loc st Hc.
  - by eexists.
  - destruct (Hrun st) as [st1 Hst1].
    destruct (IH (at_cursor c (at_cursor (c + 1) loc)) st1 eq_refl) as [st' Hst'].
    exists st'. rewrite <- Hst'.
    eapply parse_go_turn; [by rewrite Hc|by rewrite Hc|exact Hsplit|].
    rewrite fontRecord_KernClass2. rewrite Hc. cbn [cursor at_cursor].
    unfold bind. by rewrite Hst1.
Qed.

End MainLoop.

(** On [loopingSource] the record is at line 2 and sends the cursor back
    to line 2: a thousand turns do not end [parse]. *)
Lemma KernClass2_can_loop_witness :
  ∃ st', parse (B := Plain.builtins) 1000 (SFDFile loopingSource) Plain.start
         = (st', Raise Diverges).
Proof.
  pose (loc := {| cursor := 0; charData := None; offsetMetrics := [] |}).
  assert (Hh : isHeader (B := Plain.builtins) ("SplineFontDB: 3.0" +:+ nl)).
  { exists "3.0", (3%Z, 0%nat). repeat split; vm_compute; reflexivity. }
  destruct (proj2 (KernClass2_can_loop (B := Plain.builtins) loopingSource 2
              ("KernClass2: 1 -1 " +:+ dquote +:+ "k" +:+ dquote +:+ nl)
              ("1 -1 " +:+ dquote +:+ "k" +:+ dquote)
              "1" "-1" (dquote +:+ "k" +:+ dquote) 1 (-1) "k" ("0" +:+ nl) [0%Z]
              ltac:(lia)
              ltac:(vm_compute; reflexivity) ltac:(vm_compute; reflexivity)
              ltac:(vm_compute; reflexivity) ltac:(vm_compute; reflexivity)
              ltac:(vm_compute; reflexivity) ltac:(vm_compute; reflexivity)
              ltac:(lia)
              ltac:(vm_compute; reflexivity) ltac:(vm_compute; reflexivity))
             998%nat (at_cursor 2 (at_cursor 1 loc)) Plain.start eq_refl)
    as [st' Hloop].
  exists st'. unfold parse. erewrite bind_step by reflexivity.
  apply bind_Raise. fold loc.
  change loopingSource
    with (("SplineFontDB: 3.0" +:+ nl) :: List.tl loopingSource).
  rewrite (parse_go_header (B := Plain.builtins) 999 _ _ loc Plain.start Hh eq_refl).
  rewrite <- Hloop.
  apply (parse_go_turn (B := Plain.builtins) 998 _ (at_cursor 1 loc)
           ("0" +:+ nl) "0" None);
    [cbn; lia|vm_compute; reflexivity|vm_compute; reflexivity|vm_compute; reflexivity].
Defined.

(** ** The loops end *)

Create HintDb ends discriminated.

Section EndsBasics.
Context `{F : Floats}.

Lemma ends_Ok {A} (a : A) : ends (Ok a).
Proof. done. Qed.

Lemma ends_Raise {A} (e : exn) : e ≠ Diverges → ends (@Raise A e).
Proof. unfold ends. congruence. Qed.

Lemma ends_of_option {A} e (o : option A) : e ≠ Diverges → ends (of_option e o).
Proof. destruct o; [done|apply ends_Raise]. Qed.

Lemma ends_rbind {A B} (r : result A) (k : A → result B) :
  ends r → (∀ x, r = Ok x → ends (k x)) → ends (rbind r k).
Proof.
  destruct r as [a|e]; simpl; intros Hr Hk; [by apply Hk|].
  unfold ends in *. congruence.
Qed.

Lemma ends_rmap {A B} (f : A → result B) (l : list A) :
  (∀ x, ends (f x)) → ends (rmap f l).
Proof.
  intros Hf. induction l as [|x l IH]; simpl; [done|].
  apply ends_rbind; [done|]. intros y _.
  apply ends_rbind; [done|]. done.
Qed.

Lemma ends_bind {X Y} (m : M X) (k : X → M Y) (st : St) :
  ends (m st).2 →
  (∀ st1 x, m st = (st1, Ok x) → ends (k x st1).2) →
  ends (bind m k st).2.
Proof.
  unfold bind. destruct (m st) as [st1 [x|e]]; simpl; intros Hm Hk; [by apply Hk|].
  unfold ends in *. congruence.
Qed.

Lemma ends_forM {A} (l : list A) (body : A → M unit) (st : St) :
  (∀ x st, ends (body x st).2) → ends (forM l body st).2.
Proof.
  intros Hb. revert st. induction l as [|x l IH]; intros st; simpl; [done|].
  apply ends_bind; [done|]. intros; apply IH.
Qed.

Lemma ends_getitem {A} (l : list A) i : ends (getitem l i).
Proof. unfold getitem. repeat case_match; by try apply ends_of_option. Qed.

Lemma ends_int_of `{B : !Builtins} value : ends (int_of value).
Proof. destruct value; simpl; [by apply ends_of_option|done]. Qed.

Lemma ends_float_of `{B : !Builtins} value : ends (float_of value).
Proof. destruct value; simpl; [by apply ends_of_option|done]. Qed.

Lemma ends_str_of value : ends (str_of value).
Proof. by apply ends_of_option. Qed.

Lemma ends_arg_of value : ends (arg_of value).
Proof. by apply ends_of_option. Qed.

Lemma ends_info_append a v (st : St) : ends (info_append a v st).2.
Proof. unfold info_append, get_info, bind, get_font, ret. simpl. by case_match. Qed.

End EndsBasics.

#[export] Hint Resolve ends_Ok ends_getitem ends_int_of ends_float_of ends_str_of
  ends_arg_of ends_info_append : ends.

(** One step of a proof that a run ends: the run is taken apart along
    its sequence of steps and its case distinctions. *)
Ltac ends_step :=
  cbv beta zeta;
  match goal with
  | |- ends (Ok _) => apply ends_Ok
  | |- ends (Raise _) => apply ends_Raise; discriminate
  | |- ends (of_option _ _) => apply ends_of_option; discriminate
  | |- ends (rbind _ _) => apply ends_rbind; [|intros ? ?]
  | |- ends (rmap _ _) => apply ends_rmap; intros ?
  | |- ends (bind _ _ _).2 => apply ends_bind; [|intros ? ? ?]
  | |- ends (ret _ _).2 => apply ends_Ok
  | |- ends (get_self _).2 => apply ends_Ok
  | |- ends (get_font _).2 => apply ends_Ok
  | |- ends (mod_self _ _).2 => apply ends_Ok
  | |- ends (mod_font _ _).2 => apply ends_Ok
  | |- ends (get_info _ _).2 => apply ends_Ok
  | |- ends (set_info _ _ _).2 => apply ends_Ok
  | |- ends (lift ?r _).2 => change (ends r)
  | |- ends (raise ?e _).2 => apply ends_Raise; discriminate
  | |- ends (assert ?b _).2 =>
      destruct b; [apply ends_Ok|apply ends_Raise; discriminate]
  | |- ends (forM _ _ _).2 => apply ends_forM; intros ? ?
  | |- ends ((match ?x with _ => _ end) _).2 => destruct x eqn:?
  | |- ends (match ?x with _ => _ end) => destruct x eqn:?
  | _ => solve [eauto with ends]
  end.

Ltac ends_tac := repeat ends_step.

Section Termination.
Context `{B : Builtins} `{R : Regex} `{U : !Utils}.
Hypothesis Hhelp : helpersEnd.

Lemma ends_SFDReadUTF7 s : ends (SFDReadUTF7 s).
Proof. apply Hhelp. Qed.

Lemma ends_parseAltuni name altuni uvs : ends (parseAltuni name altuni uvs).
Proof. apply Hhelp. Qed.

Lemma ends_parseAnchorPoint name kind x y index :
  ends (parseAnchorPoint name kind x y index).
Proof. apply Hhelp. Qed.

Lemma ends_parseColor v : ends (parseColor v).
Proof. apply Hhelp. Qed.

Lemma ends_parseVersion v : ends (parseVersion v).
Proof. apply Hhelp. Qed.

#[local] Hint Resolve ends_SFDReadUTF7 ends_parseAltuni ends_parseAnchorPoint
  ends_parseColor ends_parseVersion : ends.

(** [_getSection] from a cursor that is not negative ends, and moves the
    cursor forward when it returns. *)
Lemma getSection_forward data (i : Z) end_ value :
  (0 ≤ i)%Z →
  ends (_getSection data i end_ value)
  ∧ ∀ section i', _getSection data i end_ value = Ok (section, i') →
                  (i < i' ≤ Z.of_nat (length data))%Z.
Proof.
  intros Hi. unfold _getSection.
  assert (Hn : ∃ n, i = Z.of_nat n) by (exists (Z.to_nat i); lia).
  destruct Hn as [n ->].
  destruct (getSection_go_cases (S (length data + Z.to_nat (Z.abs (Z.of_nat n))))
              data end_ n (match value with Some v => [v] | None => [] end))
    as [(j & (Hij & (l & Hl & _) & _) & ->)|[_ ->]]; [lia|lia| |].
  - split; [done|]. intros section i' [= <- <-].
    apply lookup_lt_Some in Hl. lia.
  - split; [by apply ends_Raise|done].
Qed.

Lemma ends_getSection data (i : Z) end_ value :
  (0 ≤ i)%Z → ends (_getSection data i end_ value).
Proof. intros. by apply getSection_forward. Qed.

(** *** Outlines *)

Lemma ends_append_last contours x : ends (append_last contours x).
Proof. unfold append_last. ends_tac. Qed.

Lemma ends_parseSegment line contours : ends (parseSegment line contours).
Proof.
  pose proof ends_append_last. unfold parseSegment. ends_tac.
Qed.

Lemma parseSplineSet_go_ends fuel data (i : Z) contours :
  (0 ≤ i)%Z → (0 < fuel)%nat → (Z.of_nat (length data) - i < Z.of_nat fuel)%Z →
  ends (parseSplineSet_go fuel data i contours).
Proof.
  revert i contours. induction fuel as [|fuel IH]; intros i contours Hi Hpos Hfuel.
  - lia.
  - cbn [parseSplineSet_go].
    destruct (i <? Z.of_nat (length data))%Z eqn:Hlt; [|done].
    apply Z.ltb_lt in Hlt.
    apply ends_rbind; [apply ends_getitem|]. intros line _.
    cbv zeta. case_decide.
    + destruct (getSection_forward data (i + 1) "EndSpiro" None) as [He Hf]; [lia|].
      apply ends_rbind; [done|]. intros [spiro i'] Hs.
      apply Hf in Hs. apply IH; lia.
    + destruct (startswith line "Named").
      * apply ends_rbind; [by apply ends_of_option|]. intros raw _.
        apply ends_rbind; [apply ends_SFDReadUTF7|]. intros name _.
        apply ends_rbind; [apply ends_append_last|]. intros cs _.
        apply IH; lia.
      * apply ends_rbind; [apply ends_parseSegment|]. intros cs _.
        apply IH; lia.
Qed.

Lemma ends_parseSplineSet data : ends (_parseSplineSet data).
Proof. unfold _parseSplineSet. apply parseSplineSet_go_ends; lia. Qed.

Lemma ends_drawSegments q c u fo : ends (drawSegments q c u fo).
Proof.
  revert u fo. induction c as [|it c IH]; intros u fo; simpl; [done|].
  apply ends_rbind; [|by intros [pts fo'] _].
  unfold drawSegment, flag_of. ends_tac.
Qed.

Lemma ends_drawContours glyph contours q (st : St) :
  ends (_drawContours glyph contours q st).2.
Proof.
  pose proof ends_drawSegments.
  revert st. induction contours as [|c rest IH]; intros st; simpl; [done|].
  apply ends_bind.
  - unfold drawContour, popName. ends_tac.
  - intros st1 pts _. apply ends_bind; [done|]. intros; apply IH.
Qed.

(** *** The records of a glyph *)

Lemma ends_parseAnchorPoint_record glyph name data (st : St) :
  ends (_parseAnchorPoint glyph name data st).2.
Proof. unfold _parseAnchorPoint. ends_tac. Qed.

Lemma ends_parseKerns name data (st : St) : ends (_parseKerns name data st).2.
Proof. unfold _parseKerns. ends_tac. Qed.

Lemma ends_parsePosSub name key data (st : St) :
  ends (_parsePosSub name key data st).2.
Proof. unfold _parsePosSub, posValue. ends_tac. Qed.

Lemma ends_selectLayer glyph name key value loc (st : St) :
  ends (selectLayer glyph name key value loc st).2.
Proof. unfold selectLayer, layerIndex, keywordIndex. ends_tac. Qed.

#[local] Hint Resolve ends_parseSplineSet ends_drawContours
  ends_parseAnchorPoint_record ends_parseKerns ends_parsePosSub
  ends_selectLayer : ends.

Lemma ends_charRecord glyph name data i key value loc (st : St) :
  (0 ≤ i)%Z → ends (charRecord glyph name data i key value loc st).2.
Proof.
  intros Hi. pose proof (ends_getSection data i "EndSplineSet" None Hi).
  pose proof (ends_getSection data i "EndImage" value Hi).
  unfold charRecord, _parseImage. ends_tac.
Qed.

Lemma charRecord_forward glyph name data i key value loc (st st1 : St) i1 loc1 :
  (0 ≤ i)%Z →
  charRecord glyph name data i key value loc st = (st1, Ok (i1, loc1)) →
  (i ≤ i1)%Z.
Proof.
  intros Hi Hrun. apply charRecord_order in Hrun as (Hnext & _).
  unfold nextCursor in Hnext.
  repeat case_decide; repeat case_match; simplify_eq; try lia.
  all: match goal with
       | H : _getSection _ _ _ _ = Ok _ |- _ =>
           eapply getSection_forward in H; [lia|done]
       end.
Qed.

Lemma parseChar_go_ends fuel glyph name data (i : Z) loc (st : St) :
  (0 ≤ i)%Z → (0 < fuel)%nat → (Z.of_nat (length data) - i < Z.of_nat fuel)%Z →
  ends (parseChar_go fuel glyph name data i loc st).2.
Proof.
  revert i loc st. induction fuel as [|fuel IH]; intros i loc st Hi Hpos Hfuel.
  - lia.
  - cbn [parseChar_go].
    destruct (i <? Z.of_nat (length data))%Z eqn:Hlt; [|done].
    apply Z.ltb_lt in Hlt.
    apply ends_bind; [apply ends_getitem|]. intros st1 line _.
    destruct (splitRecord line) as [key value].
    apply ends_bind; [apply ends_charRecord; lia|].
    intros st2 [i1 loc1] Hrec.
    apply charRecord_forward in Hrec; [|lia].
    apply IH; lia.
Qed.

Lemma ends_parseChar data (st : St) : ends (_parseChar data st).2.
Proof.
  unfold _parseChar.
  destruct data as [|first data]; [by apply ends_Raise|].
  repeat case_match; try (by apply ends_Raise).
  all: apply ends_bind; [ends_tac|]; intros st1 nm _.
  all: apply ends_bind; [done|]; intros st2 f _.
  all: case_match.
  all: apply ends_bind; [done|]; intros st3 [] _.
  all: apply ends_bind; [apply parseChar_go_ends; lia|]; intros st4 loc _.
  all: ends_tac.
Qed.

Lemma parseChars_go_ends fuel data (i : Z) glyphOrderMap (st : St) :
  (0 ≤ i)%Z → (0 < fuel)%nat → (Z.of_nat (length data) - i < Z.of_nat fuel)%Z →
  ends (parseChars_go fuel data i glyphOrderMap st).2.
Proof.
  revert i glyphOrderMap st.
  induction fuel as [|fuel IH]; intros i glyphOrderMap st Hi Hpos Hfuel.
  - lia.
  - cbn [parseChars_go].
    destruct (i <? Z.of_nat (length data))%Z eqn:Hlt; [|done].
    apply Z.ltb_lt in Hlt.
    apply ends_bind; [apply ends_getitem|]. intros st1 line _.
    cbv zeta. destruct (startswith line "StartChar").
    + destruct (getSection_forward data (i + 1) "EndChar" (Some line))
        as [He Hf]; [lia|].
      apply ends_bind; [done|]. intros st2 [char i'] Hs.
      unfold lift in Hs. injection Hs as _ Hs. apply Hf in Hs.
      apply ends_bind; [apply ends_parseChar|]. intros st3 [[glyph nm] order] _.
      apply IH; lia.
    + apply IH; lia.
Qed.

Lemma ends_parseChars data (st : St) : ends (_parseChars data st).2.
Proof.
  unfold _parseChars.
  apply ends_bind; [by apply ends_of_option|]. intros st1 lines _.
  apply ends_bind; [apply parseChars_go_ends; lia|]. intros st2 gom _.
  ends_tac.
Qed.

(** X16.  The glyph sections are read by loops that end.  Where the
    helpers of [sfdLib.utils] end, [_parseSplineSet], [_parseChar] and
    [_parseChars] return or raise on every input: every turn of their
    loops moves the cursor forward, and the sections they skip are
    found by [_getSection], which moves it forward too. *)
Theorem glyph_loops_end :
  (∀ data, ends (_parseSplineSet data))
  ∧ (∀ data (st : St), ends (_parseChar data st).2)
  ∧ (∀ data (st : St), ends (_parseChars data st).2)
  ∧ ∀ glyph name data i key value loc (st st1 : St) i1 loc1,
      (0 ≤ i)%Z →
      charRecord glyph name data i key value loc st = (st1, Ok (i1, loc1)) →
      (i ≤ i1)%Z.
Proof.
  split; [apply ends_parseSplineSet|].
  split; [apply ends_parseChar|].
  split; [apply ends_parseChars|].
  apply charRecord_forward.
Qed.

(** *** The records of the font *)

Lemma ends_layerRecord value (st : St) : ends (layerRecord value st).2.
Proof. unfold layerRecord, setitem. ends_tac. Qed.

Lemma ends_addSelection bit (st : St) : ends (addSelection bit st).2.
Proof. unfold addSelection. ends_tac. Qed.

Lemma ends_info_int attr value (st : St) : ends (info_int attr value st).2.
Proof. unfold info_int. ends_tac. Qed.

Lemma ends_info_float attr value (st : St) : ends (info_float attr value st).2.
Proof. unfold info_float. ends_tac. Qed.

Lemma ends_nameRecords langId nameId data (st : St) :
  ends (nameRecords langId nameId data st).2.
Proof.
  revert nameId st. induction data as [|name data IH]; intros nameId st; simpl; [done|].
  apply ends_bind; [|intros; apply IH].
  unfold nameRecord. ends_tac.
Qed.

Lemma ends_parseNames data (st : St) : ends (_parseNames data st).2.
Proof. pose proof ends_nameRecords. unfold _parseNames. ends_tac. Qed.

Lemma ends_parseGaspTable data (st : St) : ends (_parseGaspTable data st).2.
Proof. unfold _parseGaspTable, gaspRecord. ends_tac. Qed.

Lemma ends_privateLines data StdHW StdVW (st : St) :
  ends (privateLines data StdHW StdVW st).2.
Proof.
  revert StdHW StdVW st.
  induction data as [|line data IH]; intros StdHW StdVW st; simpl; [done|].
  unfold privateValue, first_item. ends_tac.
Qed.

Lemma ends_parsePrivateDict data (st : St) : ends (_parsePrivateDict data st).2.
Proof.
  pose proof ends_privateLines. unfold _parsePrivateDict, promoteStem. ends_tac.
Qed.

Lemma ends_gridSegments name c p0 (st : St) : ends (gridSegments name c p0 st).2.
Proof.
  revert p0 st. induction c as [|it c IH]; intros p0 st; simpl; [done|].
  unfold guideline. ends_tac.
Qed.

Lemma ends_parseGrid data (st : St) : ends (_parseGrid data st).2.
Proof.
  pose proof ends_gridSegments. unfold _parseGrid, gridContour. ends_tac.
Qed.

Lemma ends_parseKernClass data i value (st : St) :
  ends (_parseKernClass data i value st).2.
Proof. unfold _parseKernClass. ends_tac. Qed.

Lemma ends_parseLookup data (st : St) : ends (_parseLookup data st).2.
Proof. unfold _parseLookup. ends_tac. Qed.

Lemma ends_parseAnchorClass data (st : St) : ends (_parseAnchorClass data st).2.
Proof. unfold _parseAnchorClass, anchorClassPair. ends_tac. Qed.

Lemma ends_checkHeader key value : ends (checkHeader key value).
Proof. unfold checkHeader. ends_tac. Qed.

#[local] Hint Resolve ends_layerRecord ends_addSelection ends_info_int
  ends_info_float ends_parseNames ends_parseGaspTable ends_parsePrivateDict
  ends_parseGrid ends_parseKernClass ends_parseLookup ends_parseAnchorClass
  ends_checkHeader : ends.

Lemma ends_fontRecord data key value loc (st : St) :
  (0 ≤ cursor loc)%Z → ends (fontRecord data key value loc st).2.
Proof.
  intros Hi.
  pose proof (ends_getSection data (cursor loc) "EndPrivate" value Hi).
  pose proof (ends_getSection data (cursor loc) "EndChars" None Hi).
  pose proof (ends_getSection data (cursor loc) "EndSplineSet" None Hi).
  unfold fontRecord. ends_tac.
Qed.

(** [fwd c m]: when [m] returns local variables, their cursor is not
    before [c]. *)
Definition fwd (c : Z) (m : M (option FontLocals)) : Prop :=
  ∀ (st st1 : St) loc1, m st = (st1, Ok (Some loc1)) → (c ≤ cursor loc1)%Z.

Lemma fwd_bind {X} c (m : M X) (k : X → M (option FontLocals)) :
  (∀ st st1 x, m st = (st1, Ok x) → fwd c (k x)) → fwd c (bind m k).
Proof.
  intros Hk st st1 loc1 Hrun. apply bind_Ok in Hrun as (st2 & x & Hm & Hrun).
  by eapply Hk.
Qed.

Lemma fwd_ret c loc1 : (c ≤ cursor loc1)%Z → fwd c (ret (Some loc1)).
Proof. by intros Hc st st1 loc2 [= _ <-]. Qed.

Lemma fwd_break c : fwd c (ret None).
Proof. by intros st st1 loc2. Qed.

(** A record other than [KernClass2] leaves the cursor where it is or
    moves it forward. *)
Lemma fontRecord_forward data key value loc (st st1 : St) loc1 :
  (0 ≤ cursor loc)%Z → key ≠ "KernClass2" →
  fontRecord data key value loc st = (st1, Ok (Some loc1)) →
  (cursor loc ≤ cursor loc1)%Z.
Proof.
  intros Hi Hkey. revert st st1 loc1.
  change (fwd (cursor loc) (fontRecord data key value loc)).
  unfold fontRecord. cbv zeta.
  repeat match goal with
  | |- fwd _ (bind _ _) => apply fwd_bind; intros ? ? ? ?
  | |- fwd _ (ret None) => apply fwd_break
  | |- fwd _ (ret (Some _)) => apply fwd_ret; cbn [cursor at_cursor]
  | |- fwd _ (if decide (key = "KernClass2") then _ else _) =>
      destruct (decide (key = "KernClass2")); [done|]
  | |- fwd _ (match ?x with _ => _ end) => destruct x
  | |- (?c ≤ ?c)%Z => reflexivity
  | H : lift (_getSection _ _ _ _) _ = (_, Ok (_, ?i)) |- (_ ≤ ?i)%Z =>
      unfold lift in H; injection H as _ H;
      eapply getSection_forward in H; [lia|done]
  end.
Qed.

Lemma parse_go_ends fuel data loc (st : St) :
  (∀ line, line ∈ data → (splitFontRecord line).1 ≠ "KernClass2") →
  (0 ≤ cursor loc)%Z → (0 < fuel)%nat →
  (Z.of_nat (length data) - cursor loc < Z.of_nat fuel)%Z →
  ends (parse_go fuel data loc st).2.
Proof.
  intros Hdata. revert loc st.
  induction fuel as [|fuel IH]; intros loc st Hi Hpos Hfuel.
  - lia.
  - cbn [parse_go].
    destruct (cursor loc <? Z.of_nat (length data))%Z eqn:Hlt; [|done].
    apply Z.ltb_lt in Hlt.
    apply ends_bind; [apply ends_getitem|]. intros st1 line Hline.
    unfold lift in Hline. injection Hline as _ Hline.
    apply getitem_elem_of, Hdata in Hline.
    cbv zeta. destruct (splitFontRecord line) as [key value]. simpl in Hline.
    destruct (cursor loc + 1 =? 1)%Z.
    + apply ends_bind; [apply ends_checkHeader|]. intros st2 [] _.
      apply IH; cbn [cursor at_cursor]; lia.
    + apply ends_bind; [apply ends_fontRecord; cbn [cursor at_cursor]; lia|].
      intros st2 [loc1|] Hrec; [|done].
      apply fontRecord_forward in Hrec; [|cbn [cursor at_cursor]; lia|done].
      cbn [cursor at_cursor] in Hrec. apply IH; lia.
Qed.

(** X17.  The main loop of [parse] ends on every source that has no
    [KernClass2] record.  Where the helpers of [sfdLib.utils] end, a
    record other than [KernClass2] leaves the cursor where it is or moves
    it forward, so that the loop has returned or raised after at most as
    many turns as the source has lines. *)
Theorem main_loop_ends (data : list string) :
  (∀ line, line ∈ data → (splitFontRecord line).1 ≠ "KernClass2") →
  (∀ fuel loc (st : St),
     (0 ≤ cursor loc)%Z → (length data < fuel)%nat →
     ends (parse_go fuel data loc st).2)
  ∧ ∀ key value loc (st st1 : St) loc1,
      (0 ≤ cursor loc)%Z → key ≠ "KernClass2" →
      fontRecord data key value loc st = (st1, Ok (Some loc1)) →
      (cursor loc ≤ cursor loc1)%Z.
Proof.
  intros Hdata. split.
  - intros fuel loc st Hi Hfuel. apply parse_go_ends; [done|done|lia|lia].
  - intros key value loc st st1 loc1. apply fontRecord_forward.
Qed.

End Termination.

(** The reference helpers return on every input but [parseVersion],
    which raises [TypeError] where it has no value. *)
Lemma plain_helpersEnd : helpersEnd (U := Plain.utils).
Proof.
  repeat split; try done. intros [v|]; [done|]. by apply ends_Raise.
Qed.

(** The glyph block of the small source. *)
Lemma glyph_loops_end_witness :
  helpersEnd (U := Plain.utils)
  ∧ ends (_parseChars (B := Plain.builtins)
            (Some (readlines ["StartChar: a"; "Encoding: 97 97 0"; "Width: 500";
                              "Fore"; "SplineSet"; "0 0 m 1,0,-1";
                              " 100 750 l 1,1,-1"; "EndSplineSet"; "EndChar"]))
            Plain.start).2.
Proof.
  split; [exact plain_helpersEnd|].
  apply (proj1 (proj2 (proj2 (glyph_loops_end (B := Plain.builtins)
                                plain_helpersEnd)))).
Defined.

(** The small source has no [KernClass2] record: thirty turns are more
    than its main loop takes. *)
Lemma main_loop_ends_witness :
  (∀ line, line ∈ sample → (splitFontRecord line).1 ≠ "KernClass2")
  ∧ ends (parse_go (B := Plain.builtins) 30 sample
            {| cursor := 0; charData := None; offsetMetrics := [] |}
            Plain.start).2.
Proof.
  assert (Hno : ∀ line, line ∈ sample → (splitFontRecord line).1 ≠ "KernClass2").
  { intros line Hin. unfold sample, sampleWith, readlines in Hin. simpl in Hin.
    repeat (apply elem_of_cons in Hin as [->|Hin]; [vm_compute; discriminate|]).
    by apply elem_of_nil in Hin. }
  split; [exact Hno|].
  apply (proj1 (main_loop_ends (B := Plain.builtins) plain_helpersEnd sample Hno));
    [simpl; lia|vm_compute; lia].
Defined.

(** ** The style name *)

Section StyleName.
Context `{B : Builtins} `{R : Regex} `{U : !Utils}.

Lemma append_nil_r a : a +:+ "" = a.
Proof. induction a as [|c a IH]; [done|]. by rewrite append_cons, IH. Qed.

Lemma append_assoc a b c : (a +:+ b) +:+ c = a +:+ (b +:+ c).
Proof. induction a as [|x a IH]; [done|]. by rewrite !append_cons, IH. Qed.

Lemma rev_app_append s acc a :
  String.rev_app s acc +:+ a = String.rev_app s (acc +:+ a).
Proof.
  revert acc. induction s as [|c s IH]; intros acc; [done|].
  cbn [String.rev_app]. by rewrite IH.
Qed.

Lemma rev_cons_append cur c a :
  String.rev (String c cur) +:+ a = String.rev cur +:+ String c a.
Proof. unfold String.rev. cbn [String.rev_app]. by rewrite !rev_app_append. Qed.

Lemma contains_cons sub c s :
  contains sub (String c s) = String.prefix sub (String c s) || contains sub s.
Proof. done. Qed.

(** [n.split("-", 1)] cuts at the first hyphen. *)
Lemma splitn_go_first a cur b :
  contains "-" a = false →
  splitn_go "-" 1 0 cur (a +:+ "-" +:+ b) = [String.rev cur +:+ a; b].
Proof.
  revert cur. induction a as [|c a IH]; intros cur Ha.
  - change ("" +:+ "-" +:+ b) with (String "-" b).
    cbn [splitn_go String.prefix]. rewrite append_nil_r.
    destruct (ascii_dec "-" "-"); [|done]. simpl. f_equal.
    by destruct b.
  - rewrite contains_cons in Ha. apply orb_false_iff in Ha as [Hp Ha].
    rewrite append_cons. cbn [splitn_go].
    cbn [String.prefix] in Hp |- *.
    destruct (ascii_dec "-" c); [by destruct a|].
    by rewrite IH, rev_cons_append.
Qed.

Lemma splitn_first a b :
  contains "-" a = false → splitn "-" 1 (a +:+ "-" +:+ b) = [a; b].
Proof. intros Ha. unfold splitn. by rewrite splitn_go_first. Qed.

Lemma contains_hyphen a b : contains "-" (a +:+ "-" +:+ b) = true.
Proof.
  induction a as [|c a IH].
  - change ("" +:+ "-" +:+ b) with (String "-" b). rewrite contains_cons.
    cbn [String.prefix]. destruct (ascii_dec "-" "-"); [|done]. by destruct b.
  - rewrite append_cons, contains_cons, IH. apply orb_true_r.
Qed.

Lemma contains_first n :
  contains "-" n = true →
  ∃ a b, n = a +:+ "-" +:+ b ∧ contains "-" a = false.
Proof.
  induction n as [|c n IH]; [done|].
  rewrite contains_cons. cbn [String.prefix].
  destruct (ascii_dec "-" c) as [<-|Hc].
  - intros _. by exists "", n.
  - simpl. intros (a & b' & -> & Ha)%IH.
    exists (String c a), b'. split; [done|].
    rewrite contains_cons. cbn [String.prefix].
    destruct (ascii_dec "-" c); [done|]. done.
Qed.

Lemma hyphen_not_empty a b : String.eqb (a +:+ "-" +:+ b) "" = false.
Proof. by destruct a. Qed.

(** X18.  The fallback for a missing style name.  A style name that is
    not [None] is kept.  Otherwise the style name becomes what follows
    the first hyphen of the PostScript font name; without a hyphen (or
    without a font name) it becomes the weight name if that is true, and
    [Regular] if not.  So after [defaultStyleName], and after every run
    of [parse] that returns, the style name is not [None]; it is empty
    for a font name that ends in its first hyphen. *)
Theorem defaultStyleName_fallback (st : St) :
  let weight := getinfo "postscriptWeightName" (font st) in
  let other := if truth weight then weight else VStr "Regular" in
  let styled v := ({| self := self st; font := setinfo "styleName" v (font st) |},
                   Ok tt) in
  (getinfo "styleName" (font st) ≠ VNone → defaultStyleName st = (st, Ok tt))
  ∧ (getinfo "styleName" (font st) = VNone →
     (∀ a b, getinfo "postscriptFontName" (font st) = VStr (a +:+ "-" +:+ b) →
             contains "-" a = false →
             defaultStyleName st = styled (VStr b))
     ∧ (∀ n, getinfo "postscriptFontName" (font st) = VStr n →
             contains "-" n = false →
             defaultStyleName st = styled other)
     ∧ (getinfo "postscriptFontName" (font st) = VNone →
        defaultStyleName st = styled other))
  ∧ (∀ st', defaultStyleName st = (st', Ok tt) →
            getinfo "styleName" (font st') ≠ VNone ∧ self st' = self st)
  ∧ ∀ fuel input st0 st',
      parse fuel input st0 = (st', Ok tt) →
      getinfo "styleName" (font st') ≠ VNone.
Proof.
  intros weight other styled.
  assert (Hother : other ≠ VNone).
  { unfold other. destruct (truth weight) eqn:Hw; [|done]. by destruct weight. }
  assert (Hkeep : getinfo "styleName" (font st) ≠ VNone →
            defaultStyleName st = (st, Ok tt)).
  { intros Hs. unfold defaultStyleName.
    rewrite (bind_step _ _ _ _ _ (get_info_run _ _)).
    by destruct (getinfo "styleName" (font st)). }
  assert (Hstart : getinfo "styleName" (font st) = VNone →
            defaultStyleName st
            = match getinfo "postscriptFontName" (font st) with
              | VStr n =>
                  if negb (String.eqb n "") && contains "-" n
                  then styled (VStr (default "" (splitn "-" 1 n !! 1%nat)))
                  else styled other
              | v => if truth v then (st, Raise TypeError) else styled other
              end).
  { intros Hs. unfold defaultStyleName.
    rewrite (bind_step _ _ _ _ _ (get_info_run _ _)), Hs.
    rewrite (bind_step _ _ _ _ _ (get_info_run _ _)).
    rewrite (bind_step _ _ _ _ _ (get_info_run _ _)).
    fold weight. unfold other, styled.
    destruct (getinfo "postscriptFontName" (font st)); repeat case_match;
      try done; by rewrite set_info_run. }
  assert (Hafter : ∀ s s' : St, defaultStyleName s = (s', Ok tt) →
            getinfo "styleName" (font s') ≠ VNone).
  { intros s s'. unfold defaultStyleName.
    rewrite (bind_step _ _ _ _ _ (get_info_run _ _)).
    destruct (getinfo "styleName" (font s)) eqn:Hs;
      try (intros [= <-]; by rewrite Hs).
    rewrite (bind_step _ _ _ _ _ (get_info_run _ _)).
    rewrite (bind_step _ _ _ _ _ (get_info_run _ _)).
    repeat case_match; try done; rewrite set_info_run; intros [= <-]; simpl;
      rewrite setinfo_same; try done.
    all: match goal with
         | H : truth ?w = true |- ?w ≠ VNone => by destruct w
         end. }
  split; [exact Hkeep|]. split; [|split].
  - intros Hs. split; [|split].
    + intros a b Hn Ha. rewrite (Hstart Hs), Hn.
      by rewrite hyphen_not_empty, contains_hyphen, splitn_first.
    + intros n Hn Hc. rewrite (Hstart Hs), Hn, Hc. by rewrite andb_false_r.
    + intros Hn. by rewrite (Hstart Hs), Hn.
  - intros st' Hrun. split; [by eapply Hafter|].
    assert (Hcase : getinfo "styleName" (font st) = VNone
                    ∨ getinfo "styleName" (font st) ≠ VNone)
      by (destruct (getinfo "styleName" (font st)); (by left) || by right).
    destruct Hcase as [Hs|Hs].
    + rewrite (Hstart Hs) in Hrun. unfold styled in Hrun.
      repeat case_match; by simplify_eq.
    + rewrite (Hkeep Hs) in Hrun. by simplify_eq.
  - intros fuel input st0 st' Hrun. unfold parse in Hrun. run_inv Hrun.
    by eapply Hafter.
Qed.

End StyleName.

(** A font named [Sample-Bold] with no style name gets the style [Bold]. *)
Lemma defaultStyleName_fallback_witness :
  defaultStyleName
    {| self := __init__ false false;
       font := setinfo "postscriptFontName" (VStr "Sample-Bold") Plain.emptyFont |}
  = ({| self := __init__ false false;
        font := setinfo "styleName" (VStr "Bold")
                  (setinfo "postscriptFontName" (VStr "Sample-Bold")
                     Plain.emptyFont) |}, Ok tt).
Proof.
  apply (proj1 (proj1 (proj2 (defaultStyleName_fallback (B := Plain.builtins)
           {| self := __init__ false false;
              font := setinfo "postscriptFontName" (VStr "Sample-Bold")
                        Plain.emptyFont |})) eq_refl) "Sample" "Bold");
    reflexivity.
Defined.

(** ** The glyph block *)

Section GlyphBlock.
Context `{B : Builtins} `{R : Regex} `{U : !Utils}.

(** [keepsChars cd m]: when [m] returns local variables, their
    [charData] is [cd]. *)
Definition keepsChars (cd : option (list string)) (m : M (option FontLocals)) : Prop :=
  ∀ (st st1 : St) loc1, m st = (st1, Ok (Some loc1)) → charData loc1 = cd.

Lemma keepsChars_bind {X} cd (m : M X) (k : X → M (option FontLocals)) :
  (∀ x, keepsChars cd (k x)) → keepsChars cd (bind m k).
Proof.
  intros Hk st st1 loc1 Hrun. apply bind_Ok in Hrun as (st2 & x & Hm & Hrun).
  by eapply Hk.
Qed.

Lemma keepsChars_ret cd loc1 : charData loc1 = cd → keepsChars cd (ret (Some loc1)).
Proof. by intros Hc st st1 loc2 [= _ <-]. Qed.

Lemma keepsChars_break cd : keepsChars cd (ret None).
Proof. by intros st st1 loc2. Qed.

(** [charData] is assigned by the [BeginChars] record and by no other. *)
Lemma fontRecord_charData data key value loc (st st1 : St) loc1 :
  key ≠ "BeginChars" →
  fontRecord data key value loc st = (st1, Ok (Some loc1)) →
  charData loc1 = charData loc.
Proof.
  intros Hkey. revert st st1 loc1.
  change (keepsChars (charData loc) (fontRecord data key value loc)).
  unfold fontRecord. cbv zeta.
  repeat match goal with
  | |- keepsChars _ (bind _ _) => apply keepsChars_bind; intros ?
  | |- keepsChars _ (ret None) => apply keepsChars_break
  | |- keepsChars _ (ret (Some _)) => apply keepsChars_ret; reflexivity
  | |- keepsChars _ (if decide (key = "BeginChars") then _ else _) =>
      destruct (decide (key = "BeginChars")); [done|]
  | |- keepsChars _ (match ?x with _ => _ end) => destruct x
  end.
Qed.

Lemma parse_go_charData fuel data loc (st st1 : St) loc1 :
  (∀ line, line ∈ data → (splitFontRecord line).1 ≠ "BeginChars") →
  parse_go fuel data loc st = (st1, Ok loc1) →
  charData loc1 = charData loc.
Proof.
  intros Hdata. revert loc st.
  induction fuel as [|fuel IH]; intros loc st Hrun; [done|].
  cbn [parse_go] in Hrun.
  destruct (cursor loc <? Z.of_nat (length data))%Z;
    [|by apply ret_Ok in Hrun as [_ ->]].
  apply bind_Ok in Hrun as (st2 & line & Hline & Hrun).
  apply lift_Ok in Hline as [-> Hline].
  apply getitem_elem_of, Hdata in Hline.
  cbv zeta in Hrun. destruct (splitFontRecord line) as [key value].
  simpl in Hline.
  destruct (cursor loc + 1 =? 1)%Z.
  - apply bind_Ok in Hrun as (st3 & [] & _ & Hrun).
    by apply IH in Hrun.
  - apply bind_Ok in Hrun as (st3 & next & Hrec & Hrun).
    destruct next as [loc2|].
    + apply fontRecord_charData in Hrec; [|done].
      apply IH in Hrun. by rewrite Hrun, Hrec.
    + by apply ret_Ok in Hrun as [_ ->].
Qed.

(** X19.  [charData] is assigned by the [BeginChars] record alone, and
    [_parseChars] is called with it as it is.  So a file that has no
    [BeginChars] record is never parsed to the end: when its main loop
    returns, the loop that makes the layers is run, and [parse] raises
    [TypeError] in the state that loop leaves when it returns, and the
    exception of that loop when it raises one. *)
Theorem parse_needs_BeginChars (fuel : nat) (data : list string) (st : St) :
  (∀ line, line ∈ data → (splitFontRecord line).1 ≠ "BeginChars") →
  (∀ st', parse fuel (SFDFile data) st ≠ (st', Ok tt))
  ∧ (∀ st1 loc,
       parse_go fuel data {| cursor := 0; charData := None; offsetMetrics := [] |} st
       = (st1, Ok loc) →
       ∃ st' r,
         createLayers (length (_layers (self st1))) 0 st1 = (st', r)
         ∧ parse fuel (SFDFile data) st
           = (st', Raise match r with Ok _ => TypeError | Raise e => e end))
  ∧ ∀ (s : St), _parseChars None s = (s, Raise TypeError).
Proof.
  intros Hdata.
  assert (Hloop : ∀ st1 loc,
            parse_go fuel data {| cursor := 0; charData := None; offsetMetrics := [] |} st
            = (st1, Ok loc) →
            ∃ st' r,
              createLayers (length (_layers (self st1))) 0 st1 = (st', r)
              ∧ parse fuel (SFDFile data) st
                = (st', Raise match r with Ok _ => TypeError | Raise e => e end)).
  { intros st1 loc Hgo.
    destruct (createLayers (length (_layers (self st1))) 0 st1) as [st' r] eqn:Hl.
    exists st', r. split; [done|].
    apply parse_go_charData in Hgo as Hcd; [|done]. simpl in Hcd.
    unfold parse. erewrite bind_step by reflexivity.
    rewrite (bind_step _ _ _ _ _ Hgo).
    erewrite bind_step by reflexivity.
    destruct r as [[]|e].
    - rewrite (bind_step _ _ _ _ _ Hl).
      erewrite bind_step by reflexivity.
      by rewrite Hcd.
    - by rewrite (bind_Raise _ _ _ _ _ Hl). }
  split; [|split; [exact Hloop|done]].
  intros st' Hrun.
  assert (Hgo : ∃ st1 loc,
            parse_go fuel data {| cursor := 0; charData := None; offsetMetrics := [] |} st
            = (st1, Ok loc)).
  { unfold parse in Hrun. apply bind_Ok in Hrun as (s0 & d & Hd & Hrun).
    apply lift_Ok in Hd as [-> [= <-]].
    apply bind_Ok in Hrun as (s1 & loc & Hgo & _). eauto. }
  destruct Hgo as (st1 & loc & Hgo).
  destruct (Hloop st1 loc Hgo) as (st2 & r & _ & Hp). congruence.
Qed.

End GlyphBlock.

(** A source of the header and a font name: the loop returns and
    [parse] raises [TypeError]. *)
Lemma parse_needs_BeginChars_witness :
  (∀ line, line ∈ readlines ["SplineFontDB: 3.0"; "FontName: Sample"] →
           (splitFontRecord line).1 ≠ "BeginChars")
  ∧ ∃ st', parse (B := Plain.builtins) 5
             (SFDFile (readlines ["SplineFontDB: 3.0"; "FontName: Sample"]))
             Plain.start
           = (st', Raise TypeError).
Proof.
  assert (Hno : ∀ line, line ∈ readlines ["SplineFontDB: 3.0"; "FontName: Sample"] →
                        (splitFontRecord line).1 ≠ "BeginChars").
  { intros line Hin. simpl in Hin.
    repeat (apply elem_of_cons in Hin as [->|Hin]; [vm_compute; discriminate|]).
    by apply elem_of_nil in Hin. }
  split; [exact Hno|].
  set (run := parse_go (B := Plain.builtins) 5
                (readlines ["SplineFontDB: 3.0"; "FontName: Sample"])
                {| cursor := 0; charData := None; offsetMetrics := [] |} Plain.start).
  assert (Hrun : run = (run.1, Ok {| cursor := 2; charData := None;
                                     offsetMetrics := [] |}))
    by (vm_compute; reflexivity).
  assert (Hl : createLayers (length (_layers (self run.1))) 0 run.1 = (run.1, Ok tt))
    by (vm_compute; reflexivity).
  destruct (proj1 (proj2 (parse_needs_BeginChars (B := Plain.builtins) 5 _
                            Plain.start Hno)) _ _ Hrun) as (st' & r & Hl' & Hp).
  rewrite Hl in Hl'. injection Hl' as <- <-.
  by exists run.1.
Defined.

(** ** The layers *)

Section Layers.
Context `{F : Floats}.

Lemma not_first_two (i : nat) : negb (inb i [0; 1]%nat) = (2 <=? i)%nat.
Proof.
  destruct i as [|[|i]]; [done|done|].
  unfold inb. rewrite bool_decide_eq_false_2; [done|].
  intros Hin. repeat (apply elem_of_cons in Hin as [Hin|Hin]; [lia|]).
  by apply elem_of_nil in Hin.
Qed.

Lemma filter_names_nil (n : string) (done : list layer_slot) :
  Forall (λ s, holdsName s = false) done →
  filter (λ s, s = SlotName n) done = [].
Proof.
  induction 1 as [|s done Hs _ IH]; [done|].
  rewrite filter_cons_False; [done|]. by intros ->.
Qed.

(** The count of a name is taken on the slots as the loop has left
    them: the slots before the index hold no name any more. *)
Lemma twin_count (n : string) (done rest : list layer_slot) :
  Forall (λ s, holdsName s = false) done →
  negb (length (filter (λ s, s = SlotName n) (done ++ SlotName n :: rest)) =? 1)%nat
  = bool_decide (SlotName n ∈ rest).
Proof.
  intros Hdone.
  rewrite filter_app, filter_names_nil, filter_cons_True by done.
  cbn [app length].
  destruct (filter (λ s, s = SlotName n) rest) as [|x l] eqn:E.
  - rewrite bool_decide_eq_false_2; [done|].
    intros Hin. assert (Hx : SlotName n ∈ filter (λ s, s = SlotName n) rest)
      by by apply list_elem_of_filter.
    rewrite E in Hx. by apply elem_of_nil in Hx.
  - rewrite bool_decide_eq_true_2; [done|].
    assert (Hx : x ∈ filter (λ s, s = SlotName n) rest) by (rewrite E; left).
    by apply list_elem_of_filter in Hx as [-> Hx].
Qed.

Lemma freshNames_nil have : freshNames have [].
Proof. split; [constructor|]. intros n Hn. inversion Hn. Qed.

Lemma freshNames_cons have name names :
  name ∉ have →
  freshNames have (name :: names) ↔ freshNames (have ++ [name]) names.
Proof.
  intros Hname. split.
  - intros [[Hn Hnd]%NoDup_cons Hout]. split; [done|].
    intros n Hin [Hh|Hh]%elem_of_app.
    + apply (Hout n); [by right|done].
    + apply list_elem_of_singleton in Hh as ->. done.
  - intros [Hnd Hout]. split.
    + apply NoDup_cons. split; [|done].
      intros Hin. apply (Hout name Hin). apply elem_of_app. right. by left.
    + intros n [->|Hin]%elem_of_cons; [done|].
      intros Hh. apply (Hout n Hin). apply elem_of_app. by left.
Qed.

(** A name that is met twice, or is the name of a layer of the font, is
    not fresh. *)
Lemma taken_not_fresh have made name later :
  name ∈ have ++ made → ¬ freshNames have (made ++ name :: later).
Proof.
  intros [Hin|Hin]%elem_of_app [Hnd Hout].
  - apply (Hout name); [|done]. apply elem_of_app. right. by left.
  - apply NoDup_app in Hnd as (_ & Hapart & _).
    apply (Hapart name Hin). by left.
Qed.

(** The loop from the slot at [length done] on: [done] are the slots the
    loop has been through, [odone] what they were at first. *)
Lemma createLayers_loop (rest : list layer_slot) :
  ∀ (done odone : list layer_slot) (st st' : St) (r : result unit),
    length done = length odone →
    Forall (λ s, holdsName s = false) done →
    _layers (self st) = done ++ rest →
    createLayers (length rest) (length done) st = (st', r) →
    match r with
    | Ok _ =>
        freshNames (l_name <$> layers (font st)) (namedFrom (odone ++ rest) (length done) rest)
        ∧ ∃ new rest',
          layers (font st') = layers (font st) ++ new
          ∧ l_name <$> new = namedFrom (odone ++ rest) (length done) rest
          ∧ _layers (self st') = done ++ rest'
          ∧ length rest' = length rest
          ∧ Forall (λ s, holdsName s = false) rest'
          ∧ ∀ j s0, rest !! j = Some s0 →
              match s0 with
              | SlotName n =>
                  ∃ li, rest' !! j = Some (SlotLayer li)
                        ∧ (l_name <$> layers (font st')) !! li
                          = Some (layerName (odone ++ rest) (length done + j) n)
              | _ => rest' !! j = Some s0
              end
    | Raise e =>
        e = KeyError
        ∧ ∃ made name later,
            namedFrom (odone ++ rest) (length done) rest = made ++ name :: later
            ∧ freshNames (l_name <$> layers (font st)) made
            ∧ name ∈ (l_name <$> layers (font st)) ++ made
            ∧ l_name <$> layers (font st') = (l_name <$> layers (font st)) ++ made
    end.
Proof.
  induction rest as [|s rest IH]; intros done odone st st' r Hlen Hdone Hls Hrun.
  - injection Hrun as <- <-. split; [apply freshNames_nil|]. exists [], [].
    rewrite !app_nil_r in *. by repeat split.
  - cbn [createLayers length] in Hrun.
    rewrite (bind_step _ _ _ _ _ (eq_refl : get_self st = (st, Ok (self st)))) in Hrun.
    rewrite Hls, list_lookup_middle in Hrun by done.
    assert (Hdrop : drop (S (length done)) (odone ++ s :: rest) = rest).
    { rewrite Hlen, (cons_middle s odone rest), app_assoc.
      apply drop_app_length'. rewrite length_app. simpl. lia. }
    assert (Hidx : ∀ x : layer_slot,
              length (done ++ [x]) = S (length done))
      by (intros; rewrite length_app; simpl; lia).
    assert (Hnext : ∀ x (s1 : St),
              holdsName x = false →
              _layers (self s1) = done ++ x :: rest →
              createLayers (length rest) (S (length done)) s1 = (st', r) →
    match r with
              | Ok _ =>
                  freshNames (l_name <$> layers (font s1)) (namedFrom (odone ++ s :: rest) (S (length done)) rest)
                  ∧ ∃ new rest',
                    layers (font st') = layers (font s1) ++ new
                    ∧ l_name <$> new = namedFrom (odone ++ s :: rest) (S (length done)) rest
                    ∧ _layers (self st') = done ++ x :: rest'
                    ∧ length rest' = length rest
                    ∧ Forall (λ s, holdsName s = false) rest'
                    ∧ ∀ j s0, rest !! j = Some s0 →
                        match s0 with
                        | SlotName n =>
                            ∃ li, rest' !! j = Some (SlotLayer li)
                                  ∧ (l_name <$> layers (font st')) !! li
                                    = Some (layerName (odone ++ s :: rest) (length done + S j) n)
                        | _ => rest' !! j = Some s0
                        end
              | Raise e =>
                  e = KeyError
                  ∧ ∃ made name later,
                      namedFrom (odone ++ s :: rest) (S (length done)) rest = made ++ name :: later
                      ∧ freshNames (l_name <$> layers (font s1)) made
                      ∧ name ∈ (l_name <$> layers (font s1)) ++ made
                      ∧ l_name <$> layers (font st') = (l_name <$> layers (font s1)) ++ made
              end).
    { intros x s1 Hx Hs1 Hgo.
      pose proof (IH (done ++ [x]) (odone ++ [s]) s1 st' r) as Hr.
      rewrite !Hidx, <- !app_assoc in Hr. simpl in Hr.
      destruct r as [[]|e].
      - destruct Hr as (Hfresh & new & rest' & Hnew & Hnames & Hls' & Hl' & Hall & Hat);
          [rewrite !length_app; simpl; lia| |done|done|].
        { apply Forall_app. split; [done|]. by apply Forall_singleton. }
        rewrite <- app_assoc in Hls'.
        split; [done|]. exists new, rest'. repeat split; try done.
        intros j s0 Hj. specialize (Hat j s0 Hj).
        by replace (length done + S j)%nat with (S (length done + j)) by lia.
      - apply Hr; [rewrite !length_app; simpl; lia| |done|done].
        apply Forall_app. split; [done|]. by apply Forall_singleton. }
    destruct s as [|n|li0].
    + specialize (Hnext SlotNone st eq_refl Hls Hrun).
      destruct r as [[]|e]; [|exact Hnext].
      destruct Hnext as (Hfresh & new & rest' & Hnew & Hnames & Hls' & Hl' & Hall & Hat).
      split; [done|].
      exists new, (SlotNone :: rest'). simpl. repeat split; try done.
      * by rewrite Hl'.
      * by constructor.
      * intros [|j] s0 Hj; simpl in Hj.
        -- injection Hj as <-. done.
        -- apply Hat in Hj. by destruct s0.
    + rewrite (bind_step _ _ _ _ _ (eq_refl : get_font st = (st, Ok (font st)))) in Hrun.
      rewrite not_first_two, twin_count in Hrun by done.
      set (name := if (2 <=? length done)%nat && bool_decide (SlotName n ∈ rest)
                   then n +:+ "_" +:+ str_of_nat (length done) else n) in *.
      assert (Hname : layerName (odone ++ SlotName n :: rest) (length done) n = name).
      { unfold layerName. by rewrite Hdrop. }
      cbn [namedFrom]. rewrite Hname.
      unfold font_newLayer, inb in Hrun.
      destruct (decide (name ∈ l_name <$> layers (font st))) as [Hin|Hin].
      * rewrite bool_decide_eq_true_2 in Hrun by done.
        injection Hrun as <- <-. split; [done|].
        exists [], name, (namedFrom (odone ++ SlotName n :: rest) (S (length done)) rest).
        split; [done|]. split; [apply freshNames_nil|].
        rewrite !app_nil_r. by split.
      * rewrite bool_decide_eq_false_2 in Hrun by done.
        erewrite bind_step in Hrun by reflexivity.
        cbv beta iota in Hrun.
        erewrite bind_step in Hrun by reflexivity.
        erewrite bind_step in Hrun by reflexivity.
        match type of Hrun with
        | createLayers _ _ ?s1 = _ =>
            specialize (Hnext (SlotLayer (length (layers (font st)))) s1 eq_refl)
        end.
        cbn [self font _layers set_layers layers f_with_layers] in Hnext.
        rewrite fmap_app in Hnext. cbn [fmap list_fmap l_name] in Hnext.
        specialize (Hnext ltac:(rewrite insert_app_r_alt by lia;
                                by rewrite Nat.sub_diag) Hrun).
        destruct r as [[]|e].
        -- destruct Hnext as
             (Hfresh & new & rest' & Hnew & Hnames & Hls' & Hl' & Hall & Hat).
           split; [by apply freshNames_cons|].
           exists ({| l_name := name; l_glyphs := [] |} :: new),
                  (SlotLayer (length (layers (font st))) :: rest').
           repeat split.
           ++ by rewrite Hnew, <- app_assoc.
           ++ rewrite fmap_cons. cbn [l_name]. by rewrite Hnames.
           ++ done.
           ++ simpl. by rewrite Hl'.
           ++ by constructor.
           ++ intros [|j] s0 Hj; simpl in Hj.
              ** injection Hj as <-. exists (length (layers (font st))).
                 split; [done|]. rewrite Hnew, Nat.add_0_r, Hname.
                 rewrite <- app_assoc, fmap_app.
                 rewrite lookup_app_r by by rewrite length_fmap.
                 by rewrite length_fmap, Nat.sub_diag.
              ** apply Hat in Hj. by destruct s0.
        -- destruct Hnext as (-> & made & nm & later & Hnames & Hfresh & Hnm & Hlay).
           split; [done|]. exists (name :: made), nm, later.
           split; [by rewrite Hnames|].
           split; [by apply freshNames_cons|].
           rewrite <- app_assoc in Hnm, Hlay. by split.
    + specialize (Hnext (SlotLayer li0) st eq_refl Hls Hrun).
      destruct r as [[]|e]; [|exact Hnext].
      destruct Hnext as (Hfresh & new & rest' & Hnew & Hnames & Hls' & Hl' & Hall & Hat).
      split; [done|].
      exists new, (SlotLayer li0 :: rest'). simpl. repeat split; try done.
      * by rewrite Hl'.
      * by constructor.
      * intros [|j] s0 Hj; simpl in Hj.
        -- injection Hj as <-. done.
        -- apply Hat in Hj. by destruct s0.
Qed.

(** X20.  The loop that makes the layers at the end of [parse] goes
    through the slots of [self._layers] and asks the font for a new layer
    for every slot that holds a name; the name [n] at index [i] is asked
    for as [n_i] when [i] is neither 0 nor 1 and a later slot holds the
    name [n] too, and as [n] otherwise: the names are counted on the
    slots as the loop has left them, so that the last slot of a name
    keeps the name as it is, and the slots 0 and 1 are never renamed.
    When no two of these names are the same and none is the name of a
    layer that the font has, the loop returns: no slot holds a name any
    more, a slot that held one holds a new layer of the font, the other
    slots are as they were, and the new layers follow those the font
    had, in the order of the slots.  Otherwise the loop raises
    [KeyError] at the first name that is taken, when the layers of the
    names before it have been made. *)
Theorem createLayers_names (st : St) :
  let slots := _layers (self st) in
  let have := l_name <$> layers (font st) in
  (freshNames have (namedLayers slots) →
   ∃ st' new,
     createLayers (length slots) 0 st = (st', Ok tt)
     ∧ layers (font st') = layers (font st) ++ new
     ∧ l_name <$> new = namedLayers slots
     ∧ length (_layers (self st')) = length slots
     ∧ Forall (λ s, holdsName s = false) (_layers (self st'))
     ∧ ∀ j s, slots !! j = Some s →
         match s with
         | SlotName n =>
             ∃ li, _layers (self st') !! j = Some (SlotLayer li)
                   ∧ (l_name <$> layers (font st')) !! li
                     = Some (layerName slots j n)
         | _ => _layers (self st') !! j = Some s
         end)
  ∧ (¬ freshNames have (namedLayers slots) →
     ∃ st' made name later,
       createLayers (length slots) 0 st = (st', Raise KeyError)
       ∧ namedLayers slots = made ++ name :: later
       ∧ freshNames have made
       ∧ name ∈ have ++ made
       ∧ l_name <$> layers (font st') = have ++ made).
Proof.
  intros slots have.
  destruct (createLayers (length slots) 0 st) as [st' r] eqn:Hrun.
  pose proof (createLayers_loop slots [] [] st st' r eq_refl ltac:(constructor)
                eq_refl Hrun) as Hr.
  simpl in Hr. fold slots have (namedLayers slots) in Hr.
  destruct r as [[]|e].
  - destruct Hr as (Hfresh & new & rest' & Hnew & Hnames & Hls' & Hl' & Hall & Hat).
    split; [|done]. intros _. exists st', new. rewrite Hls'. by repeat split.
  - destruct Hr as (-> & made & name & later & Hnames & Hfresh & Hname & Hlay).
    split.
    + intros Hf. rewrite Hnames in Hf. by apply taken_not_fresh in Hf.
    + intros _. by exists st', made, name, later.
Qed.

End Layers.

(** The names [Back] and [Extra] in the slots 0 and 2 of a font whose one
    layer is [public.default]: the loop returns and two layers are made.
    The names [X], [X], [Y], [Y] in the slots 0, 2, 3 and 4: the layers
    asked for are [X], [X], [Y_3] and [Y], and the loop raises [KeyError]
    at the second [X], when one layer has been made. *)
Lemma createLayers_names_witness :
  (∃ st' new,
     createLayers 3 0 backAndExtra = (st', Ok tt)
     ∧ l_name <$> new = ["Back"; "Extra"]
     ∧ l_name <$> layers (font st') = ["public.default"; "Back"; "Extra"])
  ∧ namedLayers (_layers (self namedSlots)) = ["X"; "X"; "Y_3"; "Y"]
  ∧ ∃ st',
      createLayers 5 0 namedSlots = (st', Raise KeyError)
      ∧ l_name <$> layers (font st') = ["public.default"; "X"].
Proof.
  split; [|split; [vm_compute; reflexivity|]].
  - destruct (proj1 (createLayers_names backAndExtra))
      as (st' & new & Hrun & Hlay & Hnames & _).
    { split.
      - apply (bool_decide_unpack _). vm_compute. reflexivity.
      - intros n Hn Hh. apply list_elem_of_singleton in Hh as ->.
        vm_compute in Hn.
        repeat (apply elem_of_cons in Hn as [Hn|Hn]; [discriminate|]).
        by apply elem_of_nil in Hn. }
    exists st', new. split; [exact Hrun|]. split; [exact Hnames|].
    rewrite Hlay, fmap_app, Hnames. reflexivity.
  - destruct (proj2 (createLayers_names namedSlots))
      as (st' & made & name & later & Hrun & Hnames & _ & _ & Hlay).
    { intros [Hnd _]. vm_compute in Hnd.
      apply NoDup_cons in Hnd as [Hx _]. apply Hx. by left. }
    exists st'. split; [exact Hrun|].
    assert (Hst' : st' = (createLayers 5 0 namedSlots).1)
      by exact (eq_sym (f_equal fst Hrun)).
    rewrite Hst'. vm_compute. reflexivity.
Defined.

(** ** References *)

Section References.
Context `{B : Builtins} `{R : Regex} `{U : !Utils}.

Lemma addComponents_nil (g : Glyph) : addComponents [] g = g.
Proof. destruct g. unfold addComponents. simpl. by rewrite app_nil_r. Qed.

Lemma addComponents_snoc cs c (g : Glyph) :
  g_addComponent c.1 c.2 (addComponents cs g) = addComponents (cs ++ [c]) g.
Proof.
  destruct c. unfold addComponents, g_addComponent. simpl. by rewrite app_assoc.
Qed.

Lemma componentsOf_snoc glyph refs comps r c :
  length refs = length comps →
  componentsOf glyph (refs ++ [r]) (comps ++ [c])
  = componentsOf glyph refs comps ++ (if decide (r.1 = glyph) then [c] else []).
Proof.
  intros Hlen. unfold componentsOf.
  rewrite zip_with_app by done. rewrite filter_app, fmap_app. f_equal.
  simpl. case_decide.
  - by rewrite filter_cons_True.
  - by rewrite filter_cons_False.
Qed.

(** What holds after the references [seen] have been resolved, from [st0]. *)
Definition refsAdded (st0 : St) (seen : list (nat * option string)) (st : St) : Prop :=
  self st = self st0
  ∧ font st = f_with_heap (heap (font st)) (font st0)
  ∧ ∃ comps,
      Forall2 (λ r c, referTo (glyphOrder (font st0)) r.2 c) seen comps
      ∧ ∀ glyph, heap (font st) !! glyph
                 = addComponents (componentsOf glyph seen comps)
                     <$> heap (font st0) !! glyph.

Lemma refsAdded_step (st0 : St) seen glyph ref (s s' : St) u :
  refsAdded st0 seen s →
  addReference glyph ref s = (s', Ok u) →
  refsAdded st0 (seen ++ [(glyph, ref)]) s'.
Proof.
  intros (Hself & Hfont & comps & Hall & Hheap) Hrun.
  unfold addReference in Hrun.
  apply bind_Ok in Hrun as (s1 & r & Hr & Hrun). apply lift_Ok in Hr as [-> Hr].
  apply of_option_Ok in Hr as ->.
  apply bind_Ok in Hrun as (s1 & g & Hg & Hrun). apply lift_Ok in Hg as [-> Hg].
  apply of_option_Ok in Hg.
  apply bind_Ok in Hrun as (s1 & gid & Hgid & Hrun).
  apply lift_Ok in Hgid as [-> Hgid]. apply of_option_Ok in Hgid.
  apply bind_Ok in Hrun as (s1 & f & Hf & Hrun). apply ret_Ok in Hf as [-> ->].
  apply bind_Ok in Hrun as (s1 & name & Hname & Hrun).
  apply lift_Ok in Hname as [-> Hname].
  apply bind_Ok in Hrun as (s1 & matrix & Hm & Hrun).
  apply lift_Ok in Hm as [-> Hm].
  unfold mod_font in Hrun. injection Hrun as <- _.
  rewrite Hfont in Hname. cbn [glyphOrder f_with_heap] in Hname.
  split; [done|]. split.
  { rewrite Hfont. by destruct (font st0). }
  exists (comps ++ [(name, matrix)]). split.
  - apply Forall2_app; [done|]. constructor; [|constructor].
    by exists r, g, gid.
  - intros glyph'. cbn [font heap update_glyph f_with_heap].
    rewrite componentsOf_snoc by by eapply Forall2_length.
    cbn [fst]. destruct (decide (glyph = glyph')) as [->|Hne].
    + rewrite list_lookup_alter, decide_True by done. rewrite Hheap.
      destruct (heap (font st0) !! glyph') as [g0|]; [|done]. simpl.
      f_equal. apply (addComponents_snoc _ (name, matrix)).
    + rewrite list_lookup_alter_ne by done. by rewrite Hheap, app_nil_r.
Qed.

(** X21.  When [_processReferences] returns, the parser is as it was
    and the font differs at most in its glyph objects.  Every reference
    gathered starts with an index that the glyph order holds (a negative
    one counts from its end), and stands for one component: the glyph at
    that index, with the numbers of the fields 3 to 8 of the record.
    Each glyph object has got the components of its own references, in
    the order they were gathered, after those it had; nothing else of it
    has changed. *)
Theorem processReferences_components (st st' : St) :
  _processReferences st = (st', Ok tt) →
  self st' = self st
  ∧ font st' = f_with_heap (heap (font st')) (font st)
  ∧ ∃ comps,
      Forall2 (λ r c, referTo (glyphOrder (font st)) r.2 c)
        (gatheredRefs (_glyphRefs (self st))) comps
      ∧ ∀ glyph,
          heap (font st') !! glyph
          = addComponents
              (componentsOf glyph (gatheredRefs (_glyphRefs (self st))) comps)
              <$> heap (font st) !! glyph.
Proof.
  intros Hrun. unfold _processReferences in Hrun.
  apply bind_Ok in Hrun as (s1 & p & Hp & Hrun). apply ret_Ok in Hp as [-> ->].
  assert (Hstart : refsAdded st (gatheredRefs []) st).
  { split; [done|]. split; [by destruct (font st)|]. exists []. split; [constructor|].
    intros glyph. unfold componentsOf. simpl.
    destruct (heap (font st) !! glyph) as [g|]; [|done]. simpl.
    by rewrite addComponents_nil. }
  refine (forM_acc (λ seen s, refsAdded st (gatheredRefs seen) s) _ _ _
            [] st st' tt Hstart Hrun).
  intros [glyph refs] seen s s' u HI Hinner.
  assert (Hseen : refsAdded st
            (gatheredRefs seen ++ ((λ r : option string, (glyph, r)) <$> [])) s).
  { simpl. by rewrite app_nil_r. }
  unfold gatheredRefs. rewrite fmap_app, concat_app. simpl. rewrite app_nil_r.
  fold (gatheredRefs seen).
  refine (forM_acc (λ done s, refsAdded st
            (gatheredRefs seen ++ ((λ r : option string, (glyph, r)) <$> done)) s)
            _ _ _ [] s s' u Hseen Hinner).
  intros ref done s0 s0' u0 HI0 Hstep.
  rewrite fmap_app, app_assoc. simpl.
  by eapply refsAdded_step.
Qed.

End References.

(** The reference gathered for [B] becomes a component of the glyph
    object 1: the glyph [A], moved by (10, 20). *)
Lemma processReferences_components_witness :
  ∃ st',
    _processReferences (B := Plain.builtins) referringFont = (st', Ok tt)
    ∧ (g_components <$> heap (font st') !! 1%nat)
      = Some [("A", [(1%Z, O); (0%Z, O); (0%Z, O); (1%Z, O); (10%Z, O); (20%Z, O)])]
    ∧ self st' = self referringFont.
Proof.
  set (run := _processReferences (B := Plain.builtins) referringFont).
  assert (Hrun : run = (run.1, Ok tt)) by (vm_compute; reflexivity).
  exists run.1. split; [exact Hrun|]. split; [vm_compute; reflexivity|].
  apply (processReferences_components (B := Plain.builtins) referringFont run.1 Hrun).
Defined.

(** ** Lookups *)

Section Lookups.
Context `{B : Builtins} `{R : Regex} `{U : !Utils}.

(** The table that a lookup goes to, by the high byte of its kind,
    agrees with the name of its type. *)
Lemma lookup_type_table (kind : Z) (typ : string) :
  dget _LOOKUP_TYPES kind = Some typ →
  (Z.shiftr kind 8 =? 0)%Z = false ↔ gposType typ.
Proof.
  unfold _LOOKUP_TYPES, gposType. simpl.
  repeat (case_decide;
    [subst kind; intros [= <-]; clear; split;
       [intros H; vm_compute in H; try discriminate H;
        first [left; reflexivity|right; reflexivity]
       |intros [H|H]; vm_compute in H; try discriminate H; reflexivity]|]).
  done.
Qed.

Lemma dkeys_dset_elem {K V} `{EqDecision K} (d : list (K * V)) k v k' :
  k' ∈ dkeys (dset d k v) → k' = k ∨ k' ∈ dkeys d.
Proof.
  rewrite dkeys_dset. destruct (dget d k); [by right|].
  intros [?|Hk%list_elem_of_singleton]%elem_of_app; [by right|by left].
Qed.

(** X22.  When [_parseLookup] returns, the lookup is filed with its
    subtables in one table, GPOS if the kind of the record has a high
    byte and GSUB if not, and the other table is as it was; the kind is
    a key of [_LOOKUP_TYPES], and the table agrees with the name of the
    type; the entry of the lookup in [_lookupInfo] holds the type, flag
    names taken from the four that the parser knows, and the features;
    the other entries and the font are as they were.  So, if every
    lookup of the tables had its entry in [_lookupInfo] before, every
    one has it after.  A kind that is no key of [_LOOKUP_TYPES] raises
    [KeyError], and the lookup has been filed in its table by then. *)
Theorem parseLookup_registers (data : option string) (st : St) :
  (∀ st', _parseLookup data st = (st', Ok tt) →
     ∃ lookup subtables kind typ flags features,
       (if (Z.shiftr kind 8 =? 0)%Z
        then _gsubLookups (self st') = dset (_gsubLookups (self st)) lookup subtables
             ∧ _gposLookups (self st') = _gposLookups (self st)
        else _gposLookups (self st') = dset (_gposLookups (self st)) lookup subtables
             ∧ _gsubLookups (self st') = _gsubLookups (self st))
       ∧ dget _LOOKUP_TYPES kind = Some typ
       ∧ ((Z.shiftr kind 8 =? 0)%Z = false ↔ gposType typ)
       ∧ dget (_lookupInfo (self st')) lookup = Some (typ, flags, features)
       ∧ flags ⊆ flagNames
       ∧ (∀ other, other ≠ lookup →
            dget (_lookupInfo (self st')) other = dget (_lookupInfo (self st)) other)
       ∧ font st' = font st
       ∧ (lookupsKnown (self st) → lookupsKnown (self st')))
  ∧ ∀ value kindS flagS x rawLookup rawSubtables feature kind flag lookup subtables,
      data = Some value →
      lookup_match value
      = Some (kindS, flagS, x, rawLookup, rawSubtables, feature) →
      py_int kindS = Some kind → py_int flagS = Some flag →
      SFDReadUTF7 rawLookup = Ok lookup →
      rmap SFDReadUTF7 (quoted_findall rawSubtables) = Ok subtables →
      dget _LOOKUP_TYPES kind = None →
      ∃ st', _parseLookup data st = (st', Raise KeyError)
             ∧ dget (tableLookups (negb (Z.shiftr kind 8 =? 0)%Z) (self st')) lookup
               = Some subtables.
Proof.
  split.
  - intros st' Hrun. unfold _parseLookup in Hrun.
    apply bind_Ok in Hrun as (s1 & value & Hv & Hrun). apply lift_Ok in Hv as [-> _].
    apply bind_Ok in Hrun as (s1 & m & Hm & Hrun). apply ret_Ok in Hm as [-> ->].
    apply bind_Ok in Hrun as (s1 & u & Hu & Hrun). apply assert_Ok in Hu as [-> _].
    destruct (lookup_match value)
      as [[[[[[kindS flagS] x] rawLookup] rawSubtables] feature]|]; [|done].
    apply bind_Ok in Hrun as (s1 & kind & Hk & Hrun). apply lift_Ok in Hk as [-> _].
    apply bind_Ok in Hrun as (s1 & flag & Hf & Hrun). apply lift_Ok in Hf as [-> _].
    apply bind_Ok in Hrun as (s1 & lookup & Hl & Hrun). apply lift_Ok in Hl as [-> _].
    apply bind_Ok in Hrun as (s1 & subtables & Hs & Hrun).
    apply lift_Ok in Hs as [-> _].
    apply bind_Ok in Hrun as (s1 & u1 & Htable & Hrun). cbv zeta in Hrun.
    apply bind_Ok in Hrun as (s2 & typ & Htyp & Hrun).
    apply lift_Ok in Htyp as [-> Htyp]. apply of_option_Ok in Htyp.
    unfold mod_self in Hrun. injection Hrun as <-.
    exists lookup, subtables, kind, typ,
      (snd <$> filter (λ e : Z * string, Z.land flag e.1 ≠ 0%Z) _LOOKUP_FLAGS),
      (lookupFeature <$> feature_findall feature).
    assert (Htables :
      if (Z.shiftr kind 8 =? 0)%Z
      then _gsubLookups (self s1) = dset (_gsubLookups (self st)) lookup subtables
           ∧ _gposLookups (self s1) = _gposLookups (self st)
           ∧ _lookupInfo (self s1) = _lookupInfo (self st) ∧ font s1 = font st
      else _gposLookups (self s1) = dset (_gposLookups (self st)) lookup subtables
           ∧ _gsubLookups (self s1) = _gsubLookups (self st)
           ∧ _lookupInfo (self s1) = _lookupInfo (self st) ∧ font s1 = font st).
    { destruct (Z.shiftr kind 8 =? 0)%Z; simpl in Htable;
        unfold mod_self in Htable; by injection Htable as <-. }
    cbn [self font _gsubLookups _gposLookups _lookupInfo set_lookupInfo].
    assert (Hinfo : _lookupInfo (self s1) = _lookupInfo (self st) ∧ font s1 = font st)
      by (destruct (Z.shiftr kind 8 =? 0)%Z; tauto).
    destruct Hinfo as [Hinfo Hfont]. rewrite Hinfo.
    split; [destruct (Z.shiftr kind 8 =? 0)%Z; tauto|].
    split; [done|]. split; [by apply lookup_type_table|].
    split; [by rewrite dget_dset_eq|]. split.
    { intros name (e & -> & He)%list_elem_of_fmap.
      apply list_elem_of_filter in He as [_ He]. unfold _LOOKUP_FLAGS in He.
      repeat (apply elem_of_cons in He as [->|He];
              [unfold flagNames; set_solver|]).
      by apply elem_of_nil in He. }
    split; [intros other Hne; by rewrite dget_dset_ne|].
    split; [done|].
    intros Hknown isgpos l Hin. cbn [_lookupInfo set_lookupInfo].
    destruct (decide (l = lookup)) as [->|Hne];
      [rewrite dget_dset_eq; by eexists|].
    rewrite dget_dset_ne by done. apply (Hknown isgpos).
    unfold tableLookups in *. cbn [_gsubLookups _gposLookups set_lookupInfo] in Hin.
    destruct (Z.shiftr kind 8 =? 0)%Z, isgpos;
      destruct Htables as (H1 & H2 & _); rewrite ?H1, ?H2 in Hin; try done;
      by apply dkeys_dset_elem in Hin as [?|?].
  - intros value kindS flagS x rawLookup rawSubtables feature kind flag lookup
      subtables -> Hm Hk Hf Hl Hs Htyp.
    unfold _parseLookup.
    erewrite bind_step by reflexivity. erewrite bind_step by reflexivity.
    rewrite Hm. erewrite bind_step by reflexivity.
    rewrite Hk. erewrite bind_step by reflexivity.
    rewrite Hf. erewrite bind_step by reflexivity.
    rewrite Hl. erewrite bind_step by reflexivity.
    rewrite Hs. erewrite bind_step by reflexivity.
    destruct (Z.shiftr kind 8 =? 0)%Z; cbn [negb];
      (erewrite bind_step by reflexivity); cbv zeta; rewrite Htyp;
      eexists; (split; [reflexivity|]);
      cbn [tableLookups self _gsubLookups _gposLookups set_gsubLookups
             set_gposLookups];
      apply dget_dset_eq.
Qed.

End Lookups.

(** A record of kind 7 raises [KeyError], and its lookup stands in the
    GSUB table. *)
Lemma parseLookup_registers_witness :
  ∃ st',
    _parseLookup (B := Plain.builtins) (Some extensionLookup) Plain.start
    = (st', Raise KeyError)
    ∧ dget (_gsubLookups (self st')) "ext" = Some ["ext-1"].
Proof.
  destruct (proj2 (parseLookup_registers (B := Plain.builtins) (R := Re.engine)
                     (U := Plain.utils) (Some extensionLookup) Plain.start)
              extensionLookup "7" "0" "0" (dquote +:+ "ext" +:+ dquote)
              (" " +:+ dquote +:+ "ext-1" +:+ dquote +:+ " ") ""
              7%Z 0%Z "ext" ["ext-1"] eq_refl
              ltac:(vm_compute; reflexivity) ltac:(vm_compute; reflexivity)
              ltac:(vm_compute; reflexivity) ltac:(vm_compute; reflexivity)
              ltac:(vm_compute; reflexivity) ltac:(vm_compute; reflexivity))
    as (st' & Hrun & Hget).
  exists st'. split; [exact Hrun|exact Hget].
Defined.

(** ** Glyph classes *)

Section GlyphClasses.
Context `{B : Builtins} `{R : Regex} `{U : !Utils}.

Lemma classMembers_cons p f c name names :
  classMembers p f c (name :: names)
  = match gdefClass p f name with
    | Ok (Some c') => if decide (c' = c) then name :: classMembers p f c names
                      else classMembers p f c names
    | _ => classMembers p f c names
    end.
Proof.
  unfold classMembers. cbn [omap list_omap].
  destruct (gdefClass p f name) as [[c'|]|]; try done. by case_decide.
Qed.

(** The loop of [_writeGDEF] over the glyph order: every class gets its
    members, in order, after those it had. *)
Lemma gdefClasses_members p f names :
  ∀ gdef0 gdef,
    gdefClasses p f names gdef0 = Ok gdef →
    (∀ name, name ∈ names → ∃ c, gdefClass p f name = Ok c)
    ∧ ∀ c, default [] (dget gdef c)
           = default [] (dget gdef0 c) ++ classMembers p f c names
         ∧ (is_Some (dget gdef c)
            ↔ is_Some (dget gdef0 c) ∨ classMembers p f c names ≠ []).
Proof.
  induction names as [|name names IH]; intros gdef0 gdef Hrun.
  - injection Hrun as <-. split; [by intros ? ?%elem_of_nil|].
    intros c. rewrite app_nil_r. split; [done|]. split; [by left|].
    by intros [?|?].
  - cbn [gdefClasses] in Hrun. apply rbind_Ok in Hrun as (oc & Hc & Hrun).
    assert (Hnames : ∀ gdef1, gdefClasses p f names gdef1 = Ok gdef →
              ∀ n, n ∈ name :: names → ∃ c, gdefClass p f n = Ok c).
    { intros gdef1 H1 n [->|Hn]%elem_of_cons; [eauto|].
      by apply (proj1 (IH _ _ H1)). }
    destruct oc as [c1|].
    + split; [by eapply Hnames|]. intros c.
      destruct (IH _ _ Hrun) as [_ Hall]. destruct (Hall c) as [Heq Hsome].
      rewrite classMembers_cons, Hc.
      destruct (decide (c1 = c)) as [->|Hne].
      * rewrite dget_dset_eq in Heq, Hsome. simpl in Heq.
        rewrite Heq, <- app_assoc. split; [done|].
        rewrite Hsome. split; [intros _; by right|intros _; left; by eexists].
      * rewrite dget_dset_ne in Heq, Hsome by done. done.
    + split; [by eapply Hnames|]. intros c.
      destruct (IH _ _ Hrun) as [_ Hall].
      by rewrite classMembers_cons, Hc.
Qed.

Lemma classMembers_elem p f c name names :
  name ∈ classMembers p f c names
  ↔ name ∈ names ∧ gdefClass p f name = Ok (Some c).
Proof.
  unfold classMembers. rewrite list_elem_of_omap. split.
  - intros (n & Hn & Hc). destruct (gdefClass p f n) as [[c'|]|] eqn:E; try done.
    case_decide; [|done]. injection Hc as ->. by subst.
  - intros [Hn Hc]. exists name. split; [done|]. rewrite Hc. by rewrite decide_True.
Qed.

(** With classes that are names, every glyph that has a class or is not
    [.notdef] is given a class. *)
Lemma gdefClass_total p f name oc :
  classesAreNames f → gdefClass p f name = Ok oc →
  name ≠ ".notdef" → is_Some oc.
Proof.
  intros Hnames Hc Hne. unfold gdefClass in Hc.
  apply rbind_Ok in Hc as (glyph & Hg & Hc). cbv zeta in Hc.
  destruct (heap f !! glyph) as [g|] eqn:Hheap; simpl in Hc.
  - destruct (g_lib g !! GLYPHCLASS_KEY) as [v|] eqn:Hv.
    + destruct (Hnames g v) as [->|[c ->]]; [by eapply list_elem_of_lookup_2|done| |].
      * rewrite decide_False in Hc by done. case_match; by simplify_eq.
      * by simplify_eq.
    + rewrite decide_False in Hc by done. case_match; by simplify_eq.
  - rewrite lookup_empty in Hc. rewrite decide_False in Hc by done.
    case_match; by simplify_eq.
Qed.

(** X23.  The glyph classes that [_writeGDEF] writes, for a font whose
    glyph objects hold names as classes.  When it returns, the parser is
    as it was and the font differs in its feature text alone, which has
    grown by lines joined with newlines; every glyph of the glyph order
    is in the default layer, and every one but a [.notdef] without a
    class has been given one class.  For each of the four classes that
    have a name in the feature text, the glyphs of the class are listed
    in one line, in the order of the glyph order, if there is any, and
    [GlyphClassDef] names the class just then. *)
Theorem writeGDEF_classes (st st' : St) :
  classesAreNames (font st) →
  _writeGDEF st = (st', Ok tt) →
  self st' = self st
  ∧ font st' = f_with_features (features_text (font st')) (font st)
  ∧ (∀ name, name ∈ glyphOrder (font st) →
       is_Some (layer_get 0 name (font st))
       ∧ (name ≠ ".notdef" →
          ∃ c, gdefClass (self st) (font st) name = Ok (Some c)
               ∧ name ∈ classMembers (self st) (font st) c (glyphOrder (font st))))
  ∧ ∃ lines,
      features_text (font st')
      = Some (default nl (features_text (font st)) +:+ join nl lines)
      ∧ (∀ name classname,
           (name, classname) ∈ classNames →
           classMembers (self st) (font st) name (glyphOrder (font st)) ≠ [] →
           classLine (classMembers (self st) (font st) name (glyphOrder (font st)))
             (classname +:+ " = [") (String.length classname + 8)
           ∈ lines)
      ∧ "  GlyphClassDef " +:+ join ", " (classDefNames (self st) (font st)) +:+ ";"
        ∈ lines.
Proof.
  intros Hnames Hrun. unfold _writeGDEF in Hrun.
  apply bind_Ok in Hrun as (s1 & p & Hp & Hrun). apply ret_Ok in Hp as [-> ->].
  apply bind_Ok in Hrun as (s1 & f & Hf & Hrun). apply ret_Ok in Hf as [-> ->].
  apply bind_Ok in Hrun as (s1 & gdef & Hgdef & Hrun).
  apply lift_Ok in Hgdef as [-> Hgdef].
  cbv zeta in Hrun.
  match type of Hrun with appendFeatures ?l _ = _ => set (lines := l) in Hrun end.
  unfold appendFeatures, mod_font in Hrun.
  injection Hrun as <-. cbn [self font features_text f_with_features].
  destruct (gdefClasses_members _ _ _ _ _ Hgdef) as [Hok Hall].
  split; [done|]. split; [by destruct (font st)|]. split.
  { intros name Hin. destruct (Hok name Hin) as [oc Hc]. split.
    - unfold gdefClass in Hc. apply rbind_Ok in Hc as (glyph & Hg & _).
      apply of_option_Ok in Hg. by eexists.
    - intros Hne. destruct (gdefClass_total _ _ _ _ Hnames Hc Hne) as [c ->].
      exists c. split; [done|]. by apply classMembers_elem. }
  exists lines. split; [reflexivity|]. unfold lines.
  assert (Hget : ∀ c, classMembers (self st) (font st) c (glyphOrder (font st)) ≠ [] →
            dget gdef c
            = Some (classMembers (self st) (font st) c (glyphOrder (font st)))).
  { intros c Hne. destruct (Hall c) as [Heq Hsome].
    destruct (dget gdef c) as [glyphs|] eqn:E.
    - simpl in Heq. by rewrite Heq.
    - destruct (proj2 Hsome) as [? ?]; [by right|done]. }
  assert (Hhas : ∀ c, dhas gdef c
            = negb (bool_decide
                (classMembers (self st) (font st) c (glyphOrder (font st)) = []))).
  { intros c. unfold dhas. destruct (Hall c) as [_ Hsome].
    destruct (decide (classMembers (self st) (font st) c (glyphOrder (font st)) = []))
      as [Hnil|Hnil].
    - rewrite (bool_decide_eq_true_2 _ Hnil). simpl.
      apply bool_decide_eq_false_2. intros Hs. apply Hsome in Hs as [[? ?]|?]; done.
    - rewrite (bool_decide_eq_false_2 _ Hnil). simpl.
      apply bool_decide_eq_true_2. apply Hsome. by right. }
  split.
  - intros name classname Hin Hne.
    apply elem_of_app. right. apply elem_of_app. left.
    apply list_elem_of_omap. exists (name, classname). split; [done|].
    simpl. by rewrite (Hget name Hne).
  - apply elem_of_app. right. apply elem_of_app. right.
    do 2 apply list_elem_of_further.
    replace (classDefNames (self st) (font st))
      with ((λ '(name, classname), if dhas gdef name then classname else "")
              <$> classNames); [apply list_elem_of_here|].
    unfold classDefNames, classNames. simpl.
    rewrite !Hhas. by repeat case_bool_decide.
Qed.

End GlyphClasses.

(** The font of [f_i] and [a]: [f_i] has a ligature and is a member of
    [baseligature], [a] of [baseglyph]. *)
Lemma writeGDEF_classes_witness :
  classesAreNames (U := Plain.utils) (font ligatureFont)
  ∧ ∃ st',
      _writeGDEF (U := Plain.utils) ligatureFont = (st', Ok tt)
      ∧ classMembers (U := Plain.utils) (self ligatureFont) (font ligatureFont)
          "baseligature" ["f_i"; "a"] = ["f_i"]
      ∧ "f_i" ∈ classMembers (U := Plain.utils) (self ligatureFont)
                  (font ligatureFont) "baseligature" ["f_i"; "a"].
Proof.
  assert (Hnames : classesAreNames (U := Plain.utils) (font ligatureFont)).
  { intros g v Hg Hv. simpl in Hg.
    repeat (apply elem_of_cons in Hg as [->|Hg]; [by vm_compute in Hv|]).
    by apply elem_of_nil in Hg. }
  split; [exact Hnames|].
  set (run := _writeGDEF (U := Plain.utils) ligatureFont).
  assert (Hrun : run = (run.1, Ok tt)) by (vm_compute; reflexivity).
  exists run.1. split; [exact Hrun|]. split; [vm_compute; reflexivity|].
  destruct (proj1 (proj2 (proj2 (writeGDEF_classes (U := Plain.utils)
              ligatureFont run.1 Hnames Hrun))) "f_i") as [_ Hc].
  { vm_compute. apply list_elem_of_here. }
  destruct (Hc ltac:(discriminate)) as (c & Hclass & Hmem).
  vm_compute in Hclass. injection Hclass as <-. exact Hmem.
Defined.

(** ** The gasp table *)

Section Gasp.
Context `{B : Builtins} `{R : Regex} `{U : !Utils}.

Lemma rmap_Forall2 {X Y} (f : X → result Y) (l : list X) ys :
  rmap f l = Ok ys → Forall2 (λ x y, f x = Ok y) l ys.
Proof.
  revert ys. induction l as [|x l IH]; intros ys; simpl.
  - intros [= <-]. constructor.
  - intros (y & Hy & (ys' & Hys & [= <-])%rbind_Ok)%rbind_Ok.
    constructor; [done|]. by apply IH.
Qed.

Lemma splitList_pairs {X} (body : list X) (k : nat) :
  length body = (2 * k)%nat → length (_splitList body 2) = k.
Proof.
  intros Hlen. unfold _splitList.
  pose proof (splitList_go_length (length body) body 2 ltac:(lia) (le_n _)). lia.
Qed.

(** X24.  When [_parseGaspTable] returns, the record held a count, then
    twice as many numbers as the count says, then a version, which is
    read as an integer and not used.  There is one range record for each
    pair of numbers, in order: the first number is its [rangeMaxPPEM] and
    the bits 0 to 3 of the second are its [rangeGaspBehavior].  The
    records become [openTypeGaspRangeRecords], unless the count is zero:
    an empty table leaves the font as it was. *)
Theorem parseGaspTable_records (data : option string) (st st' : St) :
  _parseGaspTable data st = (st', Ok tt) →
  ∃ value numS body versionS num version records,
    data = Some value
    ∧ split " " value = numS :: body ++ [versionS]
    ∧ py_int numS = Some num ∧ py_int versionS = Some version
    ∧ Z.of_nat (length body) = (num * 2)%Z
    ∧ Z.of_nat (length records) = num
    ∧ (∀ i record,
         records !! i = Some record →
         ∃ ppemS flagsS ppem flags,
           body !! (2 * i)%nat = Some ppemS ∧ body !! (2 * i + 1)%nat = Some flagsS
           ∧ py_int ppemS = Some ppem ∧ py_int flagsS = Some flags
           ∧ record = VDict [("rangeMaxPPEM", VInt ppem);
                             ("rangeGaspBehavior", VList (bits 4 flags))])
    ∧ self st' = self st
    ∧ font st' = (if decide (num = 0%Z) then font st
                  else setinfo "openTypeGaspRangeRecords" (VList records) (font st)).
Proof.
  intros Hrun. unfold _parseGaspTable in Hrun.
  apply bind_Ok in Hrun as (s1 & value & Hv & Hrun). apply lift_Ok in Hv as [-> Hv].
  apply of_option_Ok in Hv as ->.
  destruct (split " " value) as [|numS rest] eqn:Hsplit; [done|].
  apply bind_Ok in Hrun as (s1 & num & Hnum & Hrun).
  apply lift_Ok in Hnum as [-> Hnum]. apply of_option_Ok in Hnum.
  apply bind_Ok in Hrun as (s1 & versionS & Hlast & Hrun).
  apply lift_Ok in Hlast as [-> Hlast]. apply of_option_Ok in Hlast.
  apply last_Some in Hlast as [body ->].
  cbv zeta in Hrun. rewrite removelast_last in Hrun.
  apply bind_Ok in Hrun as (s1 & version & Hver & Hrun).
  apply lift_Ok in Hver as [-> Hver]. apply of_option_Ok in Hver.
  apply bind_Ok in Hrun as (s1 & u & Hlen & Hrun).
  apply assert_Ok in Hlen as [-> Hlen]. apply Z.eqb_eq in Hlen.
  apply bind_Ok in Hrun as (s1 & records & Hrec & Hrun).
  apply lift_Ok in Hrec as [-> Hrec].
  apply rmap_Forall2 in Hrec.
  assert (Hcount : length records = Z.to_nat num).
  { rewrite <- (Forall2_length _ _ _ Hrec). apply splitList_pairs. lia. }
  exists value, numS, body, versionS, num, version, records.
  repeat (split; [done || lia|]).
  split.
  { intros i record Hi.
    destruct (Forall2_lookup_r _ _ _ _ _ Hrec Hi) as (pair & Hpair & Hgasp).
    unfold _splitList in Hpair. apply lookup_lt_Some in Hi as Hlt.
    rewrite splitList_go_lookup in Hpair by lia. injection Hpair as <-.
    unfold gaspRecord in Hgasp.
    destruct (take 2 (drop (i * 2) body)) as [|ppemS [|flagsS [|]]] eqn:Hp;
      try discriminate.
    apply rbind_Ok in Hgasp as (ppem & Hppem & Hgasp). apply of_option_Ok in Hppem.
    apply rbind_Ok in Hgasp as (flags & Hflags & [= <-]). apply of_option_Ok in Hflags.
    exists ppemS, flagsS, ppem, flags.
    assert (H0 : take 2 (drop (i * 2) body) !! 0%nat = Some ppemS) by by rewrite Hp.
    assert (H1 : take 2 (drop (i * 2) body) !! 1%nat = Some flagsS) by by rewrite Hp.
    rewrite lookup_take_lt, lookup_drop in H0, H1 by lia.
    replace (2 * i)%nat with (i * 2 + 0)%nat by lia.
    replace (i * 2 + 0 + 1)%nat with (i * 2 + 1)%nat by lia.
    done. }
  case_bool_decide as Hnil.
  - apply ret_Ok in Hrun as [-> _]. subst records. simpl in Hcount.
    split; [done|]. rewrite decide_True; [done|lia].
  - rewrite set_info_run in Hrun. injection Hrun as <-. split; [done|].
    rewrite decide_False; [done|]. intros ->. by destruct records.
Qed.

End Gasp.

(** A table of two ranges: up to 8 ppem with the flags 2, which is the
    bit 1, and up to 65535 ppem with the flags 3, the bits 0 and 1. *)
Lemma parseGaspTable_records_witness :
  ∃ st',
    _parseGaspTable (B := Plain.builtins) (Some "2 8 2 65535 3 1") Plain.start
    = (st', Ok tt)
    ∧ getinfo "openTypeGaspRangeRecords" (font st')
      = VList [VDict [("rangeMaxPPEM", VInt 8);
                      ("rangeGaspBehavior", VList [VInt 1])];
               VDict [("rangeMaxPPEM", VInt 65535);
                      ("rangeGaspBehavior", VList [VInt 0; VInt 1])]]
    ∧ self st' = self Plain.start.
Proof.
  set (run := _parseGaspTable (B := Plain.builtins) (Some "2 8 2 65535 3 1")
                Plain.start).
  assert (Hrun : run = (run.1, Ok tt)) by (vm_compute; reflexivity).
  exists run.1. split; [exact Hrun|]. split; [vm_compute; reflexivity|].
  destruct (parseGaspTable_records (B := Plain.builtins) _ _ _ Hrun)
    as (? & ? & ? & ? & ? & ? & ? & _ & _ & _ & _ & _ & _ & _ & Hself & _).
  exact Hself.
Defined.

(** ** Anchor points *)

Section AnchorPoints.
Context `{B : Builtins} `{R : Regex} `{U : !Utils}.

Lemma anchorAt_default (p : Parser) glyph anchorClass kind :
  anchorAt p glyph anchorClass kind
  = dget (default [] (dget (default [] (dget (_glyphAnchors p) glyph)) anchorClass))
      kind.
Proof.
  unfold anchorAt. destruct (dget (_glyphAnchors p) glyph) as [byName|]; [|done].
  simpl. by destruct (dget byName anchorClass).
Qed.

Lemma default_dget_dset {K V} `{EqDecision K} (d : list (K * list V)) k v k' :
  default [] (dget (dset d k v) k')
  = if decide (k = k') then v else default [] (dget d k').
Proof.
  case_decide as Hk.
  - subst. by rewrite dget_dset_eq.
  - by rewrite dget_dset_ne.
Qed.

(** Without anchors gathered, a subtable of anchor classes has no
    statement. *)
Lemma writeAnchorClass_empty (p : Parser) (f : Font) lookup subtable lines :
  _glyphAnchors p = [] →
  _writeAnchorClass p f lookup subtable = Ok lines → lines = [].
Proof.
  intros Hnone Hrun. unfold _writeAnchorClass in Hrun.
  apply rbind_Ok in Hrun as ([[kind flags] feats] & _ & Hrun).
  apply rbind_Ok in Hrun as (classes & _ & Hrun).
  assert (Hfold :
    fold_left (λ acc anchorClass,
                 fold_left (λ acc glyph, anchorStep p kind anchorClass glyph acc)
                   (glyphOrder f) acc) classes ([], [], []) = ([], [], [])).
  { apply (fold_left_inv (λ acc, acc = ([], [], []))); [|done].
    intros acc anchorClass ->.
    apply (fold_left_inv (λ acc, acc = ([], [], []))); [|done].
    intros acc glyph ->. unfold anchorStep. by rewrite Hnone. }
  rewrite Hfold in Hrun. simpl in Hrun. by injection Hrun as <-.
Qed.

(** X25.  An anchor point goes to the glyph or to the parser, by the
    mode of the parser.  With [ufo_anchors], the glyph object gets the
    anchor that [parseAnchorPoint] makes and the parser is as it was.
    Without, the font is as it was and the anchor is filed under the
    name of the glyph, its class and its kind, where it replaces an
    anchor filed before; the other anchors are kept.  A parser that has
    filed no anchor writes no statement for a subtable of anchor
    classes. *)
Theorem parseAnchorPoint_by_mode (glyph : nat) (name : string)
    (data : option string) (st : St) :
  (∀ st',
     _parseAnchorPoint glyph name data st = (st', Ok tt) →
     ∃ value raw xS yS kind indexS anchorClass x y index,
       data = Some value
       ∧ anchor_match value = Some (raw, xS, yS, kind, indexS)
       ∧ SFDReadUTF7 raw = Ok anchorClass
       ∧ py_float xS = Some x ∧ py_float yS = Some y ∧ py_int indexS = Some index
       ∧ if _use_ufo_anchors (self st)
         then self st' = self st
              ∧ ∃ a, parseAnchorPoint anchorClass kind x y index = Ok a
                     ∧ font st' = update_glyph glyph (g_appendAnchor a) (font st)
         else font st' = font st
              ∧ anchorAt (self st') name anchorClass kind = Some (x, y, index)
              ∧ ∀ g c k, (g, c, k) ≠ (name, anchorClass, kind) →
                         anchorAt (self st') g c k = anchorAt (self st) g c k)
  ∧ ∀ (p : Parser) (f : Font) lookup subtable lines,
      _glyphAnchors p = [] →
      _writeAnchorClass p f lookup subtable = Ok lines → lines = [].
Proof.
  split; [|apply writeAnchorClass_empty].
  intros st' Hrun. unfold _parseAnchorPoint in Hrun.
  apply bind_Ok in Hrun as (s1 & value & Hv & Hrun). apply lift_Ok in Hv as [-> Hv].
  apply of_option_Ok in Hv as ->.
  apply bind_Ok in Hrun as (s1 & m & Hm & Hrun). apply ret_Ok in Hm as [-> ->].
  apply bind_Ok in Hrun as (s1 & u & Hu & Hrun). apply assert_Ok in Hu as [-> _].
  destruct (anchor_match value) as [[[[[raw xS] yS] kind] indexS]|] eqn:Hmatch;
    [|done].
  apply bind_Ok in Hrun as (s1 & anchorClass & Hc & Hrun).
  apply lift_Ok in Hc as [-> Hc].
  apply bind_Ok in Hrun as (s1 & x & Hx & Hrun). apply lift_Ok in Hx as [-> Hx].
  apply of_option_Ok in Hx.
  apply bind_Ok in Hrun as (s1 & y & Hy & Hrun). apply lift_Ok in Hy as [-> Hy].
  apply of_option_Ok in Hy.
  apply bind_Ok in Hrun as (s1 & index & Hi & Hrun). apply lift_Ok in Hi as [-> Hi].
  apply of_option_Ok in Hi.
  apply bind_Ok in Hrun as (s1 & p & Hp & Hrun). apply ret_Ok in Hp as [-> ->].
  exists value, raw, xS, yS, kind, indexS, anchorClass, x, y, index.
  repeat (split; [done|]).
  destruct (_use_ufo_anchors (self st)).
  - apply bind_Ok in Hrun as (s1 & a & Ha & Hrun). apply lift_Ok in Ha as [-> Ha].
    unfold mod_font in Hrun. injection Hrun as <-. split; [done|]. by exists a.
  - unfold mod_self in Hrun. injection Hrun as <-. split; [done|].
    cbn [self]. split.
    + rewrite anchorAt_default. cbn [_glyphAnchors set_glyphAnchors].
      rewrite default_dget_dset, decide_True by done.
      rewrite default_dget_dset, decide_True by done. apply dget_dset_eq.
    + intros g c k Hne. rewrite !anchorAt_default.
      cbn [_glyphAnchors set_glyphAnchors].
      rewrite default_dget_dset. case_decide as Hg; [subst g|done].
      rewrite default_dget_dset. case_decide as Hcl; [subst c|done].
      rewrite dget_dset_ne; [done|]. by intros ->.
Qed.

End AnchorPoints.

(** A mark anchor of the class [top], filed by a parser that was made
    without [ufo_anchors]. *)
Lemma parseAnchorPoint_by_mode_witness :
  ∃ st',
    _parseAnchorPoint (B := Plain.builtins) 0 "acute" (Some topAnchor) Plain.start
    = (st', Ok tt)
    ∧ anchorAt (self st') "acute" "top" "mark" = Some ((250%Z, O), (700%Z, O), 0%Z)
    ∧ font st' = font Plain.start.
Proof.
  set (run := _parseAnchorPoint (B := Plain.builtins) 0 "acute" (Some topAnchor)
                Plain.start).
  assert (Hrun : run = (run.1, Ok tt)) by (vm_compute; reflexivity).
  exists run.1. split; [exact Hrun|]. split; [vm_compute; reflexivity|].
  destruct (proj1 (parseAnchorPoint_by_mode (B := Plain.builtins) 0 "acute"
                     (Some topAnchor) Plain.start) run.1 Hrun)
    as (? & ? & ? & ? & ? & ? & ? & ? & ? & ? & _ & _ & _ & _ & _ & _ & Hmode).
  exact (proj1 Hmode).
Defined.
